(** * libFirm fragments: loop unrolling, double-word lowering, type verifier

    A shallow embedding of the parts of libFirm collected in this
    repository, and the properties of them that the design document
    states:

    - [Factor]:   the arithmetic of the unroll-factor selection
                  ([find_optimal_factor]);
    - [IR]:       the graph substrate shared by the passes (nodes, modes,
                  inputs, the link slot, out edges, the graph walker);
    - [Unroll]:   the LCSSA loop unroller ([get_loop_header],
                  [rewire_node], [unroll_loop], [unroll_loops]);
    - [Verify]:   the type/entity verifier ([check_entity], [tr_verify]);
    - [LowerDW]:  the double-word lowering ([lower_ops], [lower_dw_ops]).

    C integers are [Z] with the wrap-around written out, node and type
    handles are indices into an arena ([list] with stdpp's lookup and
    insert), assertion failures and panics are [None].

    The definitions come first, then example programs ([LowerExamples],
    [PhiInputs]) and auxiliary notions, then the properties, grouped by
    pass. *)

From Stdlib Require Import ZArith Lia Bool List String.
From stdpp Require Import base option list gmap.

Local Open Scope Z_scope.

(* ===================================================================== *)
(** * Unroll-factor arithmetic *)
(* ===================================================================== *)

Module Factor.

(** [unsigned] is 32 bits wide, [unsigned long] 64 bits. *)
Definition UINT_MOD : Z := 2 ^ 32.
Definition ULONG_MOD : Z := 2 ^ 64.

(** The cast [(unsigned) x]. *)
Definition to_unsigned (x : Z) : Z := x mod UINT_MOD.

(** [(candidate != 0) && ((candidate & (candidate - 1)) == 0)];
    [candidate - 1] is computed in [unsigned]. *)
Definition is_pow2_test (candidate : Z) : bool :=
  negb (candidate =? 0) &&
  (Z.land candidate (to_unsigned (candidate - 1)) =? 0).

(** The [for (i = 2; i <= number / 2; i++)] loop of [find_optimal_factor].
    [i] is an [unsigned]: [i++] wraps, and [number % 0] has no result.
    Each round consumes one unit of [fuel]. *)
Fixpoint find_optimal_factor_loop (fuel : nat) (number max i : Z)
  : option Z :=
  match fuel with
  | O => None
  | S fuel' =>
      if i <=? number / 2 then
        if i =? 0 then None
        else if number mod i =? 0 then
          (* found a small divisor i -> number/i is a large divisor *)
          if number / i <=? max then
            let candidate := to_unsigned number / i in
            (* limit to powers of two for now *)
            if is_pow2_test candidate then Some candidate
            else find_optimal_factor_loop fuel' number max (to_unsigned (i + 1))
          else find_optimal_factor_loop fuel' number max (to_unsigned (i + 1))
        else find_optimal_factor_loop fuel' number max (to_unsigned (i + 1))
      else Some 0
  end.

(** [static unsigned find_optimal_factor(unsigned long number, unsigned max)].
    The loop tests [i = 2 .. number/2] and then leaves, or stops before
    that when [i] wraps to 0: [number / 2 + 1] rounds always suffice. *)
Definition find_optimal_factor (number max : Z) : option Z :=
  if number <=? max then
    (* loop can be unrolled completely *)
    Some (to_unsigned number)
  else
    find_optimal_factor_loop (S (Z.to_nat (number / 2))) number max 2.

(** The last step of the factor selection in [find_suitable_factor]:
    [factor = find_optimal_factor(loop_count, max);
     if (factor == loop_count) *fully_unroll = true;]
    (the statements stand after that function's early [return 0]). *)
Definition select_factor (loop_count max : Z) (fully_unroll : bool)
  : option (Z * bool) :=
  factor ← find_optimal_factor loop_count max;
  Some (factor, if factor =? loop_count then true else fully_unroll).

(** A power of two, as the design document means it. *)
Definition power_of_two (d : Z) : Prop := exists k, 0 <= k /\ d = 2 ^ k.

(** "[f] is the largest power-of-two divisor of [N] not exceeding [max],
    and 0 when no such divisor exists". *)
Definition largest_pow2_divisor_upto (N max f : Z) : Prop :=
  (f = 0 /\ forall d, (d | N) -> 1 <= d <= max -> ~ power_of_two d) \/
  ((f | N) /\ 1 <= f <= max /\ power_of_two f /\
   forall d, (d | N) -> 1 <= d <= max -> power_of_two d -> d <= f).

End Factor.

(* ===================================================================== *)
(** * The IR graph substrate *)
(* ===================================================================== *)

Module IR.

(** ** A state-and-error monad

    The passes thread a mutable state through many calls and stop at a
    failed assertion or a panic: [M S A] is a computation over a state [S]
    that returns an [A] or fails ([None]). *)
Definition M (S A : Type) : Type := S -> option (A * S).

Definition ret {S A} (a : A) : M S A := fun s => Some (a, s).
Definition bind {S A B} (m : M S A) (k : A -> M S B) : M S B :=
  fun s => match m s with
           | Some (a, s') => k a s'
           | None => None
           end.
Definition fail {S A} : M S A := fun _ => None.
Definition get {S} : M S S := fun s => Some (s, s).
Definition put {S} (s : S) : M S unit := fun _ => Some (tt, s).
Definition gets {S A} (f : S -> A) : M S A := fun s => Some (f s, s).
Definition modify {S} (f : S -> S) : M S unit := fun s => Some (tt, f s).
(** A partial read: fails where the C code would dereference nothing. *)
Definition gets_opt {S A} (f : S -> option A) : M S A :=
  fun s => match f s with Some a => Some (a, s) | None => None end.
(** A partial update. *)
Definition modify_opt {S} (f : S -> option S) : M S unit :=
  fun s => match f s with Some s' => Some (tt, s') | None => None end.
(** [assert(c)]. *)
Definition assert {S} (c : bool) : M S unit :=
  if c then ret tt else fail.
(** Run a computation for its final state. *)
Definition exec {S A} (m : M S A) (s : S) : option S :=
  match m s with Some (_, s') => Some s' | None => None end.

Declare Scope monad_scope.
Delimit Scope monad_scope with monad.
Notation "x <- c1 ;; c2" := (bind c1 (fun x => c2))
  (at level 100, c1 at next level, right associativity) : monad_scope.
Notation "c1 ;; c2" := (bind c1 (fun _ => c2))
  (at level 100, right associativity) : monad_scope.
Local Open Scope monad_scope.

(** A plain read in pure partial code: [let? x := e in k]. *)
Notation "'let?' x := e 'in' k" :=
  (match e with Some x => k | None => None end)
  (at level 10, x name, e at level 100, k at level 200) : monad_scope.

(** [for (x in l) body(x)]. *)
Fixpoint for_each {S A} (l : list A) (body : A -> M S unit) : M S unit :=
  match l with
  | [] => ret tt
  | x :: l' => body x ;; for_each l' body
  end.

(** [when (c) body]. *)
Definition when {S} (c : bool) (body : M S unit) : M S unit :=
  if c then body else ret tt.

(** ** Opcodes *)
Inductive ir_opcode : Type :=
| iro_Block | iro_Start | iro_End | iro_Jmp | iro_Cond | iro_Return
| iro_Const | iro_SymConst | iro_Address | iro_Sel | iro_Call
| iro_Add | iro_Sub | iro_Minus | iro_Mul | iro_Div | iro_Mod | iro_DivMod
| iro_And | iro_Or | iro_Eor | iro_Not | iro_Cmp
| iro_Shl | iro_Shr | iro_Shrs | iro_Rotl
| iro_Conv | iro_Phi | iro_Load | iro_Store | iro_Proj | iro_Mux
| iro_Sync | iro_Keep | iro_NoMem | iro_Unknown | iro_Dummy | iro_Bad
| iro_ASM.

Global Instance ir_opcode_eq_dec : EqDecision ir_opcode.
Proof. solve_decision. Defined.

(** ** Modes *)
Inductive ir_mode_sort : Type :=
| irms_auxiliary | irms_control_flow | irms_memory | irms_internal_boolean
| irms_reference | irms_int_number | irms_float_number | irms_tuple.

Inductive ir_mode_arithmetic : Type :=
| irma_none | irma_twos_complement | irma_ones_complement | irma_ieee754.

Global Instance ir_mode_sort_eq_dec : EqDecision ir_mode_sort.
Proof. solve_decision. Defined.
Global Instance ir_mode_arithmetic_eq_dec : EqDecision ir_mode_arithmetic.
Proof. solve_decision. Defined.

(** A mode.  The code compares modes by address; modes are interned by the
    mode registry, so two modes are the same object exactly when they
    agree in every field. *)
Record ir_mode : Type := mk_mode {
  mode_name : string;
  mode_sort : ir_mode_sort;
  mode_size_bits : Z;
  mode_sign : bool;
  mode_arithmetic : ir_mode_arithmetic;
  mode_modulo_shift : Z
}.

Global Instance ir_mode_eq_dec : EqDecision ir_mode.
Proof. solve_decision. Defined.

Definition mode_eqb (a b : ir_mode) : bool := bool_decide (a = b).

Definition mode_X : ir_mode :=
  mk_mode "X" irms_control_flow 0 false irma_none 0.
Definition mode_M : ir_mode := mk_mode "M" irms_memory 0 false irma_none 0.
Definition mode_T : ir_mode := mk_mode "T" irms_tuple 0 false irma_none 0.
Definition mode_b : ir_mode :=
  mk_mode "b" irms_internal_boolean 1 false irma_none 0.
Definition mode_BB : ir_mode := mk_mode "BB" irms_auxiliary 0 false irma_none 0.
Definition mode_ANY : ir_mode :=
  mk_mode "ANY" irms_auxiliary 0 false irma_none 0.
Definition mode_P : ir_mode :=
  mk_mode "P" irms_reference 32 false irma_twos_complement 32.
Definition mode_P_code : ir_mode := mode_P.
Definition mode_Is : ir_mode :=
  mk_mode "Is" irms_int_number 32 true irma_twos_complement 32.
Definition mode_Iu : ir_mode :=
  mk_mode "Iu" irms_int_number 32 false irma_twos_complement 32.
Definition mode_Ls : ir_mode :=
  mk_mode "Ls" irms_int_number 64 true irma_twos_complement 64.
Definition mode_Lu : ir_mode :=
  mk_mode "Lu" irms_int_number 64 false irma_twos_complement 64.
Definition mode_D : ir_mode :=
  mk_mode "D" irms_float_number 64 true irma_ieee754 0.

Definition mode_is_int (m : ir_mode) : bool :=
  bool_decide (mode_sort m = irms_int_number).
Definition mode_is_reference (m : ir_mode) : bool :=
  bool_decide (mode_sort m = irms_reference).
Definition mode_is_signed (m : ir_mode) : bool := mode_sign m.
Definition get_mode_size_bits (m : ir_mode) : Z := mode_size_bits m.
Definition get_mode_arithmetic (m : ir_mode) : ir_mode_arithmetic :=
  mode_arithmetic m.

(** ** Target values *)

(** A tarval: a mode-tagged constant. *)
Record tarval : Type := mk_tarval { tv_mode : ir_mode; tv_val : Z }.

Global Instance tarval_eq_dec : EqDecision tarval.
Proof. solve_decision. Defined.

(** The value range of an integer mode, wrapped around. *)
Definition wrap_to_mode (m : ir_mode) (v : Z) : Z :=
  let w := 2 ^ mode_size_bits m in
  if mode_sign m
  then (v + w / 2) mod w - w / 2
  else v mod w.

(** Modelled from the spec: the tarval module is not among the sources.
    "A tarval is a mode-tagged constant supporting arithmetic, comparison,
    bit-width conversion, null test, negation." *)
Definition tarval_convert_to (tv : tarval) (m : ir_mode) : tarval :=
  mk_tarval m (wrap_to_mode m (tv_val tv)).
(** Modelled from the spec: arithmetic shift right of a tarval (see
    [tarval_convert_to]). *)
Definition tarval_shrs (tv cnt : tarval) : tarval :=
  mk_tarval (tv_mode tv) (Z.shiftr (tv_val tv) (tv_val cnt)).
Definition new_tarval_from_long (l : Z) (m : ir_mode) : tarval :=
  mk_tarval m (wrap_to_mode m l).
Definition get_mode_null (m : ir_mode) : tarval := mk_tarval m 0.
(** Every tarval of the model fits a [long]. *)
Definition tarval_is_long (tv : tarval) : bool :=
  (- 2 ^ 63 <=? tv_val tv) && (tv_val tv <? 2 ^ 63).
Definition get_tarval_long (tv : tarval) : Z := tv_val tv.
Definition tarval_is_null (tv : tarval) : bool := tv_val tv =? 0.

(** ** Nodes *)

(** A node of the graph.  Handles ([ir_node *]) are indices into the node
    arena of the graph; a null pointer is [None].  The payload fields that
    an opcode does not use keep their defaults. *)
Record ir_node : Type := mk_node {
  irn_op : ir_opcode;
  irn_mode : ir_mode;
  irn_block : option nat;        (* input -1: the owning Block *)
  irn_in : list nat;             (* inputs 0 .. arity-1 *)
  irn_link : option nat;         (* the link slot *)
  irn_visited : nat;
  irn_pinned : bool;
  irn_tv : option tarval;        (* Const: the value *)
  irn_proj : Z;                  (* Proj: the number; Cmp: the relation *)
  irn_ld_mode : option ir_mode;  (* Load: the loaded mode *)
  irn_volatile : bool;           (* Load, Store *)
  irn_type : option nat;         (* Call: the method type *)
  irn_entity : option nat;       (* SymConst, Sel: the entity *)
  irn_phis : list nat;           (* Block: the Phi list, head first *)
  irn_outs : list (nat * Z);     (* out edges (user, position) *)
  irn_loop : option nat;         (* Block: the innermost loop *)
  irn_idom : option nat;         (* Block: immediate dominator *)
  irn_pre_num : Z;               (* Block: dominator tree pre-order number *)
  irn_max_pre : Z                (* Block: largest number in the subtree *)
}.

Definition default_node (op : ir_opcode) (m : ir_mode) (blk : option nat)
    (ins : list nat) : ir_node :=
  mk_node op m blk ins None 0%nat true None 0 None false None None [] []
          None None 0 0.

Definition with_in (n : ir_node) (ins : list nat) : ir_node :=
  mk_node (irn_op n) (irn_mode n) (irn_block n) ins (irn_link n)
    (irn_visited n) (irn_pinned n) (irn_tv n) (irn_proj n) (irn_ld_mode n)
    (irn_volatile n) (irn_type n) (irn_entity n) (irn_phis n) (irn_outs n)
    (irn_loop n) (irn_idom n) (irn_pre_num n) (irn_max_pre n).
Definition with_block (n : ir_node) (b : option nat) : ir_node :=
  mk_node (irn_op n) (irn_mode n) b (irn_in n) (irn_link n)
    (irn_visited n) (irn_pinned n) (irn_tv n) (irn_proj n) (irn_ld_mode n)
    (irn_volatile n) (irn_type n) (irn_entity n) (irn_phis n) (irn_outs n)
    (irn_loop n) (irn_idom n) (irn_pre_num n) (irn_max_pre n).
Definition with_link (n : ir_node) (l : option nat) : ir_node :=
  mk_node (irn_op n) (irn_mode n) (irn_block n) (irn_in n) l
    (irn_visited n) (irn_pinned n) (irn_tv n) (irn_proj n) (irn_ld_mode n)
    (irn_volatile n) (irn_type n) (irn_entity n) (irn_phis n) (irn_outs n)
    (irn_loop n) (irn_idom n) (irn_pre_num n) (irn_max_pre n).
Definition with_visited (n : ir_node) (v : nat) : ir_node :=
  mk_node (irn_op n) (irn_mode n) (irn_block n) (irn_in n) (irn_link n)
    v (irn_pinned n) (irn_tv n) (irn_proj n) (irn_ld_mode n)
    (irn_volatile n) (irn_type n) (irn_entity n) (irn_phis n) (irn_outs n)
    (irn_loop n) (irn_idom n) (irn_pre_num n) (irn_max_pre n).
Definition with_pinned (n : ir_node) (p : bool) : ir_node :=
  mk_node (irn_op n) (irn_mode n) (irn_block n) (irn_in n) (irn_link n)
    (irn_visited n) p (irn_tv n) (irn_proj n) (irn_ld_mode n)
    (irn_volatile n) (irn_type n) (irn_entity n) (irn_phis n) (irn_outs n)
    (irn_loop n) (irn_idom n) (irn_pre_num n) (irn_max_pre n).
Definition with_tv (n : ir_node) (tv : option tarval) : ir_node :=
  mk_node (irn_op n) (irn_mode n) (irn_block n) (irn_in n) (irn_link n)
    (irn_visited n) (irn_pinned n) tv (irn_proj n) (irn_ld_mode n)
    (irn_volatile n) (irn_type n) (irn_entity n) (irn_phis n) (irn_outs n)
    (irn_loop n) (irn_idom n) (irn_pre_num n) (irn_max_pre n).
Definition with_proj (n : ir_node) (pn : Z) : ir_node :=
  mk_node (irn_op n) (irn_mode n) (irn_block n) (irn_in n) (irn_link n)
    (irn_visited n) (irn_pinned n) (irn_tv n) pn (irn_ld_mode n)
    (irn_volatile n) (irn_type n) (irn_entity n) (irn_phis n) (irn_outs n)
    (irn_loop n) (irn_idom n) (irn_pre_num n) (irn_max_pre n).
Definition with_ld (n : ir_node) (m : option ir_mode) (vol : bool) : ir_node :=
  mk_node (irn_op n) (irn_mode n) (irn_block n) (irn_in n) (irn_link n)
    (irn_visited n) (irn_pinned n) (irn_tv n) (irn_proj n) m
    vol (irn_type n) (irn_entity n) (irn_phis n) (irn_outs n)
    (irn_loop n) (irn_idom n) (irn_pre_num n) (irn_max_pre n).
Definition with_type (n : ir_node) (t : option nat) : ir_node :=
  mk_node (irn_op n) (irn_mode n) (irn_block n) (irn_in n) (irn_link n)
    (irn_visited n) (irn_pinned n) (irn_tv n) (irn_proj n) (irn_ld_mode n)
    (irn_volatile n) t (irn_entity n) (irn_phis n) (irn_outs n)
    (irn_loop n) (irn_idom n) (irn_pre_num n) (irn_max_pre n).
Definition with_entity (n : ir_node) (e : option nat) : ir_node :=
  mk_node (irn_op n) (irn_mode n) (irn_block n) (irn_in n) (irn_link n)
    (irn_visited n) (irn_pinned n) (irn_tv n) (irn_proj n) (irn_ld_mode n)
    (irn_volatile n) (irn_type n) e (irn_phis n) (irn_outs n)
    (irn_loop n) (irn_idom n) (irn_pre_num n) (irn_max_pre n).
Definition with_phis (n : ir_node) (l : list nat) : ir_node :=
  mk_node (irn_op n) (irn_mode n) (irn_block n) (irn_in n) (irn_link n)
    (irn_visited n) (irn_pinned n) (irn_tv n) (irn_proj n) (irn_ld_mode n)
    (irn_volatile n) (irn_type n) (irn_entity n) l (irn_outs n)
    (irn_loop n) (irn_idom n) (irn_pre_num n) (irn_max_pre n).
Definition with_outs (n : ir_node) (o : list (nat * Z)) : ir_node :=
  mk_node (irn_op n) (irn_mode n) (irn_block n) (irn_in n) (irn_link n)
    (irn_visited n) (irn_pinned n) (irn_tv n) (irn_proj n) (irn_ld_mode n)
    (irn_volatile n) (irn_type n) (irn_entity n) (irn_phis n) o
    (irn_loop n) (irn_idom n) (irn_pre_num n) (irn_max_pre n).
Definition with_loop (n : ir_node) (l : option nat) : ir_node :=
  mk_node (irn_op n) (irn_mode n) (irn_block n) (irn_in n) (irn_link n)
    (irn_visited n) (irn_pinned n) (irn_tv n) (irn_proj n) (irn_ld_mode n)
    (irn_volatile n) (irn_type n) (irn_entity n) (irn_phis n) (irn_outs n)
    l (irn_idom n) (irn_pre_num n) (irn_max_pre n).
Definition with_dom (n : ir_node) (idom : option nat) (pre mx : Z) : ir_node :=
  mk_node (irn_op n) (irn_mode n) (irn_block n) (irn_in n) (irn_link n)
    (irn_visited n) (irn_pinned n) (irn_tv n) (irn_proj n) (irn_ld_mode n)
    (irn_volatile n) (irn_type n) (irn_entity n) (irn_phis n) (irn_outs n)
    (irn_loop n) idom pre mx.

(** ** Graphs *)

(** Graph properties ([IR_GRAPH_PROPERTY_...]) that the passes assert or
    clear. *)
Record irg_properties : Type := mk_props {
  prop_consistent_dominance : bool;
  prop_consistent_loopinfo : bool;
  prop_consistent_outs : bool;
  prop_no_bads : bool;
  prop_lcssa : bool
}.

(** A graph: the node arena (a node's index is its position), the visited
    counter, the anchors, the method entity and the reserved resources. *)
Record ir_graph : Type := mk_graph {
  irg_nodes : list ir_node;
  irg_visited : nat;
  irg_start : nat;
  irg_end : nat;
  irg_args : nat;
  irg_no_mem : nat;
  irg_start_block : nat;
  irg_entity : nat;
  irg_link_reserved : bool;      (* IR_RESOURCE_IRN_LINK *)
  irg_phi_list_reserved : bool;  (* IR_RESOURCE_PHI_LIST *)
  irg_props : irg_properties
}.

Definition with_nodes (g : ir_graph) (ns : list ir_node) : ir_graph :=
  mk_graph ns (irg_visited g) (irg_start g) (irg_end g) (irg_args g)
    (irg_no_mem g) (irg_start_block g) (irg_entity g) (irg_link_reserved g)
    (irg_phi_list_reserved g) (irg_props g).
Definition with_irg_visited (g : ir_graph) (v : nat) : ir_graph :=
  mk_graph (irg_nodes g) v (irg_start g) (irg_end g) (irg_args g)
    (irg_no_mem g) (irg_start_block g) (irg_entity g) (irg_link_reserved g)
    (irg_phi_list_reserved g) (irg_props g).
Definition with_reserved (g : ir_graph) (lnk phi : bool) : ir_graph :=
  mk_graph (irg_nodes g) (irg_visited g) (irg_start g) (irg_end g)
    (irg_args g) (irg_no_mem g) (irg_start_block g) (irg_entity g) lnk phi
    (irg_props g).
Definition with_props (g : ir_graph) (p : irg_properties) : ir_graph :=
  mk_graph (irg_nodes g) (irg_visited g) (irg_start g) (irg_end g)
    (irg_args g) (irg_no_mem g) (irg_start_block g) (irg_entity g)
    (irg_link_reserved g) (irg_phi_list_reserved g) p.
Definition with_anchors (g : ir_graph) (a : nat -> nat) : ir_graph :=
  mk_graph (irg_nodes g) (irg_visited g) (a (irg_start g)) (a (irg_end g))
    (a (irg_args g)) (a (irg_no_mem g)) (a (irg_start_block g)) (irg_entity g)
    (irg_link_reserved g) (irg_phi_list_reserved g) (irg_props g).

(** ** Node access *)

Definition get_node (g : ir_graph) (n : nat) : option ir_node :=
  irg_nodes g !! n.

(** Replace node [n] by [f n]; nothing to replace is an error. *)
Definition update_node (g : ir_graph) (n : nat) (f : ir_node -> ir_node)
  : option ir_graph :=
  match irg_nodes g !! n with
  | Some nd => Some (with_nodes g (<[n := f nd]> (irg_nodes g)))
  | None => None
  end.

Definition get_irn_op (g : ir_graph) (n : nat) : option ir_opcode :=
  irn_op <$> get_node g n.
Definition get_irn_mode (g : ir_graph) (n : nat) : option ir_mode :=
  irn_mode <$> get_node g n.
Definition get_irn_arity (g : ir_graph) (n : nat) : option nat :=
  (fun nd => length (irn_in nd)) <$> get_node g n.
(** [get_irn_n(node, i)] for [0 <= i < arity]. *)
Definition get_irn_n (g : ir_graph) (n i : nat) : option nat :=
  nd ← get_node g n; irn_in nd !! i.
Definition get_nodes_block (g : ir_graph) (n : nat) : option nat :=
  nd ← get_node g n; irn_block nd.
(** The link slot: [Some None] is a null link. *)
Definition get_irn_link (g : ir_graph) (n : nat) : option (option nat) :=
  irn_link <$> get_node g n.

Definition is_op (op : ir_opcode) (g : ir_graph) (n : nat) : bool :=
  match get_node g n with
  | Some nd => bool_decide (irn_op nd = op)
  | None => false
  end.
Definition is_Block := is_op iro_Block.
Definition is_Phi := is_op iro_Phi.
Definition is_Proj := is_op iro_Proj.
Definition is_Cmp := is_op iro_Cmp.
Definition is_Const := is_op iro_Const.
Definition is_Conv := is_op iro_Conv.
Definition is_Mux := is_op iro_Mux.
Definition is_End := is_op iro_End.
Definition is_Rotl := is_op iro_Rotl.

(** [set_irn_n(node, i, v)]: the position must exist. *)
Definition set_irn_n (g : ir_graph) (n i v : nat) : option ir_graph :=
  nd ← get_node g n;
  if bool_decide (i < length (irn_in nd))%nat
  then update_node g n (fun nd => with_in nd (<[i := v]> (irn_in nd)))
  else None.
(** [set_irn_in(node, arity, in)]. *)
Definition set_irn_in (g : ir_graph) (n : nat) (ins : list nat)
  : option ir_graph :=
  update_node g n (fun nd => with_in nd ins).
Definition set_irn_link (g : ir_graph) (n : nat) (l : option nat)
  : option ir_graph :=
  update_node g n (fun nd => with_link nd l).
Definition set_nodes_block (g : ir_graph) (n b : nat) : option ir_graph :=
  update_node g n (fun nd => with_block nd (Some b)).
(** [mark_irn_visited(node)]: [set_irn_visited(node, irg->visited)]. *)
Definition mark_irn_visited (g : ir_graph) (n : nat) : option ir_graph :=
  update_node g n (fun nd => with_visited nd (irg_visited g)).
Definition irn_visited_lt (g : ir_graph) (n : nat) : option bool :=
  (fun nd => bool_decide (irn_visited nd < irg_visited g)%nat) <$> get_node g n.

(** Modelled from the spec: the node constructors are not among the
    sources.  "Create node of opcode [k] with given block, mode, inputs,
    attributes"; nodes are "identified by a dense integer index" and
    "allocated from a graph-owned arena and never freed individually".
    The new node gets the next index; no local optimisation is applied. *)
Definition new_ir_node (g : ir_graph) (nd : ir_node) : nat * ir_graph :=
  (length (irg_nodes g), with_nodes g (irg_nodes g ++ [nd])).

(** Modelled from the spec: [exchange] is not among the sources.
    "Replace node [a] by [b] (all uses of [a] become uses of [b], [a]
    becomes unreachable)." *)
Definition subst_node (a b x : nat) : nat := if bool_decide (x = a) then b else x.
Definition exchange (g : ir_graph) (a b : nat) : ir_graph :=
  with_anchors
    (with_nodes g
       (map (fun nd => with_block (with_in nd (map (subst_node a b) (irn_in nd)))
                         (subst_node a b <$> irn_block nd))
            (irg_nodes g)))
    (subst_node a b).

(** ** The graph walker *)

(** Modelled from the spec: the walker is not among the sources.
    "Pre-order, post-order, block-wise graph walks starting at End, calling
    two callbacks (pre, post) with an environment; each node is visited at
    most once per walk using the visited counter."  The block of a node is
    entered before its inputs, the inputs from the last to the first; the
    inputs are read when their turn comes, so that changes made by the
    callbacks are seen.  [fuel] bounds the depth of the recursion. *)
Section Walker.
Context {St : Type}.
Variable rd : St -> ir_graph.               (* the graph inside the state *)
Variable wr : ir_graph -> St -> St.
Variables pre post : nat -> M St unit.

Definition walk_visited_lt (n : nat) : M St bool :=
  gets_opt (fun s => irn_visited_lt (rd s) n).

Fixpoint irg_walk_2 (fuel : nat) (node : nat) : M St unit :=
  match fuel with
  | O => fail
  | S fuel' =>
      modify_opt (fun s => (fun g => wr g s) <$> mark_irn_visited (rd s) node) ;;
      pre node ;;
      blk <- gets_opt (fun s => irn_block <$> get_node (rd s) node) ;;
      match blk with
      | Some b =>
          fresh <- walk_visited_lt b ;;
          when fresh (irg_walk_2 fuel' b)
      | None => ret tt
      end ;;
      arity <- gets_opt (fun s => get_irn_arity (rd s) node) ;;
      for_each (rev (seq 0 arity))
        (fun i =>
           pred <- gets_opt (fun s => get_irn_n (rd s) node i) ;;
           fresh <- walk_visited_lt pred ;;
           when fresh (irg_walk_2 fuel' pred)) ;;
      post node
  end.

(** [irg_walk_graph(irg, pre, post, env)]: a new visited generation, then
    the walk from End. *)
Definition irg_walk_graph (fuel : nat) : M St unit :=
  modify (fun s => wr (with_irg_visited (rd s) (S (irg_visited (rd s)))) s) ;;
  e <- gets (fun s => irg_end (rd s)) ;;
  irg_walk_2 fuel e.
End Walker.

(** [add_Block_phi(block, phi)]: the Phi becomes the head of the list. *)
Definition add_Block_phi (g : ir_graph) (block phi : nat) : option ir_graph :=
  update_node g block (fun nd => with_phis nd (phi :: irn_phis nd)).
Definition get_Block_phis (g : ir_graph) (block : nat) : option (list nat) :=
  irn_phis <$> get_node g block.

(** The nodes that a walk from [n] can reach: the owning Block and the
    inputs, transitively. *)
Inductive reachable (g : ir_graph) : nat -> nat -> Prop :=
| reach_refl n : reachable g n n
| reach_block n b m :
    get_nodes_block g n = Some b -> reachable g b m -> reachable g n m
| reach_in n i p m :
    get_irn_n g n i = Some p -> reachable g p m -> reachable g n m.

End IR.

(* ===================================================================== *)
(** * Loop unrolling on LCSSA form *)
(* ===================================================================== *)

Module Unroll.
Import IR.
Local Open Scope monad_scope.

(** ** Loop trees *)

(** A loop: its identity and its elements, each a Block or a nested loop
    ([k_ir_node] / [k_ir_loop]). *)
Inductive ir_loop : Type :=
| mk_loop (id : nat) (elements : list loop_element)
with loop_element : Type :=
| k_ir_node (node : nat)
| k_ir_loop (son : ir_loop).

Definition loop_id (l : ir_loop) : nat := match l with mk_loop i _ => i end.
Definition loop_elements (l : ir_loop) : list loop_element :=
  match l with mk_loop _ es => es end.
Definition get_loop_n_elements (l : ir_loop) : nat := length (loop_elements l).

(** What the loop analysis records about a loop besides its elements: the
    enclosing loop (the outermost loop is its own outer loop) and the
    nesting depth. *)
Record loop_entry : Type := mk_loop_entry {
  le_outer : nat;
  le_depth : nat
}.

(** The loop information of a graph: the loop tree ([get_irg_loop]) and the
    per-loop records, indexed by loop identity. *)
Record loop_info : Type := mk_loop_info {
  li_root : ir_loop;
  li_table : list loop_entry
}.

Definition get_loop_outer_loop (li : loop_info) (l : nat) : option nat :=
  le_outer <$> li_table li !! l.

(** ** Out edges *)

Definition get_irn_n_outs (g : ir_graph) (n : nat) : option nat :=
  (fun nd => length (irn_outs nd)) <$> get_node g n.
Definition get_irn_out_ex (g : ir_graph) (n i : nat) : option (nat * Z) :=
  let? nd := get_node g n in irn_outs nd !! i.
Definition get_irn_out (g : ir_graph) (n i : nat) : option nat :=
  fst <$> get_irn_out_ex g n i.

(** ** The unroller *)

Definition add_edge (node pred : nat) : M ir_graph unit :=
  ins <- gets_opt (fun g => irn_in <$> get_node g node) ;;
  modify_opt (fun g => set_irn_in g node (ins ++ [pred])).

(** The [do ... while] of [is_inner_loop]; a round per unit of [fuel]. *)
Fixpoint is_inner_loop_rounds (fuel : nat) (li : loop_info)
    (outer_loop inner_loop : nat) : option bool :=
  match fuel with
  | O => None
  | S fuel' =>
      let old_inner_loop := inner_loop in
      let? inner_loop := get_loop_outer_loop li inner_loop in
      if negb (bool_decide (inner_loop = old_inner_loop)) &&
         negb (bool_decide (inner_loop = outer_loop))
      then is_inner_loop_rounds fuel' li outer_loop inner_loop
      else Some (negb (bool_decide (inner_loop = old_inner_loop)))
  end.

(** [is_inner_loop]: the walk to the outermost loop takes at most as many
    rounds as the loop is deep, and one more to see the fixed point. *)
Definition is_inner_loop (li : loop_info) (outer_loop inner_loop : nat)
  : option bool :=
  let? e := li_table li !! inner_loop in
  is_inner_loop_rounds (S (le_depth e)) li outer_loop inner_loop.

Definition block_is_inside_loop (g : ir_graph) (li : loop_info)
    (block loop : nat) : option bool :=
  let? nd := get_node g block in
  match irn_loop nd with
  | None => Some false
  | Some block_loop =>
      if bool_decide (block_loop = loop) then Some true
      else is_inner_loop li loop block_loop
  end.

(** Modelled from the spec: the dominance module is not among the sources.
    "A Block has an immediate-dominator Block or none"; dominance is read
    off the pre-order numbering of the dominator tree: [a] dominates [b]
    when [b]'s number lies in the range of [a]'s subtree (computed in
    [unsigned]). *)
Definition block_dominates (g : ir_graph) (a b : nat) : option bool :=
  let? na := get_node g a in
  let? nb := get_node g b in
  if bool_decide (irn_op na = iro_Block) && bool_decide (irn_op nb = iro_Block)
  then Some ((irn_pre_num nb - irn_pre_num na) mod Factor.UINT_MOD
             <=? (irn_max_pre na - irn_pre_num na) mod Factor.UINT_MOD)
  else Some false.

Fixpoint block_dominates_loop (g : ir_graph) (block : nat) (loop : ir_loop)
  : option bool :=
  match loop with
  | mk_loop _ elements =>
      (fix elems (es : list loop_element) : option bool :=
         match es with
         | [] => Some true
         | k_ir_node node :: es' =>
             if is_Block g node then
               let? d := block_dominates g block node in
               if d then elems es' else Some false
             else None
         | k_ir_loop son :: es' =>
             let? d := block_dominates_loop g block son in
             if d then elems es' else Some false
         end) elements
  end.

(** The first Block among the elements ("pick a random block"). *)
Fixpoint first_block_element (es : list loop_element) : option nat :=
  match es with
  | [] => None
  | k_ir_node node :: _ => Some node
  | k_ir_loop _ :: es' => first_block_element es'
  end.

Definition get_Block_idom (g : ir_graph) (block : nat) : option (option nat) :=
  irn_idom <$> get_node g block.

(** "Walk up the dominance tree": the [while] of [get_loop_header]. *)
Fixpoint walk_up_idom (fuel : nat) (g : ir_graph) (li : loop_info)
    (loop : nat) (header : nat) : option nat :=
  match fuel with
  | O => None
  | S fuel' =>
      let? idom := get_Block_idom g header in
      match idom with
      | None => Some header
      | Some d =>
          let? inside := block_is_inside_loop g li d loop in
          if inside then walk_up_idom fuel' g li loop d else Some header
      end
  end.

(** [get_loop_header]: "returns the block that dominates all blocks in the
    loop or NULL".  The outer [option] is the failed assertion; the walk up
    the dominator tree shortens the pre-order number in every step. *)
Definition get_loop_header (g : ir_graph) (li : loop_info) (loop : ir_loop)
  : option (option nat) :=
  let? header := first_block_element (loop_elements loop) in
  let? nd := get_node g header in
  if negb (is_Block g header) then None else
  let? header := walk_up_idom (S (Z.to_nat (irn_pre_num nd))) g li (loop_id loop) header in
  let? d := block_dominates_loop g header loop in
  Some (if d then Some header else None).

(** Modelled from the spec: [exact_copy] is not among the sources.
    "Clone the Block and clone every node": a new node with the opcode,
    mode, Block, inputs and attributes of the original; its link slot,
    visited counter, out edges and loop are empty. *)
Definition exact_copy (node : nat) : M ir_graph nat :=
  nd <- gets_opt (fun g => get_node g node) ;;
  g <- get ;;
  let copy :=
    with_loop (with_outs (with_visited (with_link nd None) 0%nat) []) None in
  let '(idx, g') := new_ir_node g copy in
  put g' ;; ret idx.

Definition duplicate_node (node : nat) (new_block : option nat)
  : M ir_graph nat :=
  new_node <- exact_copy node ;;
  is_blk <- gets (fun g => is_Block g new_node) ;;
  (if negb is_blk
   then match new_block with
        | Some b => modify_opt (fun g => set_nodes_block g new_node b)
        | None => fail
        end
   else ret tt) ;;
  (* link the original node and the most recent copy to the new node *)
  link <- gets_opt (fun g => get_irn_link g node) ;;
  match link with
  | Some l => modify_opt (fun g => set_irn_link g l (Some new_node))
  | None => ret tt
  end ;;
  modify_opt (fun g => set_irn_link g node (Some new_node)) ;;
  modify_opt (fun g => set_irn_link g new_node (Some node)) ;;
  ret new_node.

Definition rewire_successor_block (block : nat) (n : nat) : M ir_graph unit :=
  node <- gets_opt (fun g => get_irn_n g block n) ;;
  new_node <- gets_opt (fun g => get_irn_link g node) ;;
  match new_node with
  | None => fail
  | Some new_node =>
      add_edge block new_node ;;
      (* rewire phis inside the block *)
      n_outs <- gets_opt (fun g => get_irn_n_outs g block) ;;
      for_each (seq 0 n_outs)
        (fun i =>
           phi <- gets_opt (fun g => get_irn_out g block i) ;;
           is_phi <- gets (fun g => is_Phi g phi) ;;
           when is_phi
             (pred <- gets_opt (fun g => get_irn_n g phi n) ;;
              new_pred <- gets_opt (fun g => get_irn_link g pred) ;;
              let new_pred := match new_pred with
                              | Some p => p
                              | None => pred
                              end in
              add_edge phi new_pred))
  end.

(** [add_End_keepalive]: the keep-alives are the inputs of End. *)
Definition add_End_keepalive (e ka : nat) : M ir_graph unit := add_edge e ka.

(** The first loop of the header cases of [rewire_node]: the number of
    predecessors of [header] that have a copy. *)
Definition count_header_preds_with_copy (header : nat) (arity : nat)
  : M ir_graph nat :=
  (fix count (l : list nat) (new_arity : nat) : M ir_graph nat :=
     match l with
     | [] => ret new_arity
     | i :: l' =>
         pred <- gets_opt (fun g => get_irn_n g header i) ;;
         new_pred <- gets_opt (fun g => get_irn_link g pred) ;;
         match new_pred with
         | Some _ => count l' (S new_arity)
         | None => count l' new_arity
         end
     end) (seq 0 arity) 0%nat.

Definition rewire_node (node : nat) (header : nat) : M ir_graph unit :=
  new_node <- gets_opt (fun g => get_irn_link g node) ;;
  match new_node with
  | None => fail
  | Some new_node =>
      a1 <- gets_opt (fun g => get_irn_arity g node) ;;
      a2 <- gets_opt (fun g => get_irn_arity g new_node) ;;
      assert (bool_decide (a1 = a2)) ;;
      (* rewire the successors outside the loop *)
      n_outs <- gets_opt (fun g => get_irn_n_outs g node) ;;
      for_each (seq 0 n_outs)
        (fun i =>
           out <- gets_opt (fun g => get_irn_out_ex g node i) ;;
           let '(succ, n) := out in
           succ_link <- gets_opt (fun g => get_irn_link g succ) ;;
           succ_blk <- gets (fun g => is_Block g succ) ;;
           succ_end <- gets (fun g => is_End g succ) ;;
           if bool_decide (succ_link = None) && succ_blk then
             if 0 <=? n then rewire_successor_block succ (Z.to_nat n) else fail
           else if succ_end then
             assert (bool_decide (succ_link = None)) ;;
             add_End_keepalive succ new_node
           else ret tt) ;;
      is_phi <- gets (fun g => is_Phi g node) ;;
      blk <- gets (fun g => get_nodes_block g node) ;;
      if bool_decide (node = header) then
        (* loop header block *)
        is_blk <- gets (fun g => is_Block g node) ;;
        assert is_blk ;;
        arity <- gets_opt (fun g => get_irn_arity g node) ;;
        new_arity <- count_header_preds_with_copy header arity ;;
        ins <- (fix positions (l : list nat) (acc : list nat)
                  : M ir_graph (list nat) :=
                  match l with
                  | [] => ret acc
                  | i :: l' =>
                      pred <- gets_opt (fun g => get_irn_n g header i) ;;
                      new_pred <- gets_opt (fun g => get_irn_link g pred) ;;
                      match new_pred with
                      | Some new_pred =>
                          (* jump to the old node from outside and from the
                             new node *)
                          modify_opt (fun g => set_irn_n g node i new_pred) ;;
                          (* jump to the new node only from the old node *)
                          positions l' (acc ++ [pred])
                      | None => positions l' acc
                      end
                  end) (seq 0 arity) [] ;;
        assert (bool_decide (length ins = new_arity)) ;;
        modify_opt (fun g => set_irn_in g new_node ins)
      else if is_phi && bool_decide (blk = Some header) then
        (* phi node inside loop header *)
        arity <- gets_opt (fun g => get_irn_arity g node) ;;
        harity <- gets_opt (fun g => get_irn_arity g header) ;;
        assert (bool_decide (arity = harity)) ;;
        new_arity <- count_header_preds_with_copy header arity ;;
        ins <- (fix positions (l : list nat) (acc : list nat)
                  : M ir_graph (list nat) :=
                  match l with
                  | [] => ret acc
                  | i :: l' =>
                      hpred <- gets_opt (fun g => get_irn_n g header i) ;;
                      hlink <- gets_opt (fun g => get_irn_link g hpred) ;;
                      match hlink with
                      | Some _ =>
                          pred <- gets_opt (fun g => get_irn_n g node i) ;;
                          new_pred <- gets_opt (fun g => get_irn_link g pred) ;;
                          match new_pred with
                          | Some new_pred =>
                              modify_opt (fun g => set_irn_n g node i new_pred)
                          | None => ret tt
                          end ;;
                          positions l' (acc ++ [pred])
                      | None => positions l' acc
                      end
                  end) (seq 0 arity) [] ;;
        assert (bool_decide (length ins = new_arity)) ;;
        modify_opt (fun g => set_irn_in g new_node ins)
      else
        arity <- gets_opt (fun g => get_irn_arity g new_node) ;;
        for_each (seq 0 arity)
          (fun i =>
             pred <- gets_opt (fun g => get_irn_n g new_node i) ;;
             new_pred <- gets_opt (fun g => get_irn_link g pred) ;;
             match new_pred with
             | Some new_pred =>
                 modify_opt (fun g => set_irn_n g new_node i new_pred)
             | None => ret tt
             end)
  end.

(** The nodes among the out edges of [block] that [block] owns. *)
Definition for_block_nodes (block : nat) (body : nat -> M ir_graph unit)
  : M ir_graph unit :=
  n_outs <- gets_opt (fun g => get_irn_n_outs g block) ;;
  for_each (seq 0 n_outs)
    (fun i =>
       node <- gets_opt (fun g => get_irn_out g block i) ;;
       is_blk <- gets (fun g => is_Block g node) ;;
       assert (negb is_blk) ;;
       blk <- gets (fun g => get_nodes_block g node) ;;
       if bool_decide (blk = Some block) then body node else ret tt).

Definition duplicate_block (block : nat) : M ir_graph unit :=
  new_block <- duplicate_node block None ;;
  for_block_nodes block
    (fun node => _ <- duplicate_node node (Some new_block) ;; ret tt).

Definition rewire_block (block : nat) (header : nat) : M ir_graph unit :=
  rewire_node block header ;;
  for_block_nodes block (fun node => rewire_node node header).

(** [find_suitable_factor]: the function reads the number of out edges of
    the header and leaves with 0; the statements after the [return 0;]
    (the recognition of a counting loop and the call of
    [find_optimal_factor], see [Factor.select_factor]) are never reached
    and [*fully_unroll] is not written. *)
Definition find_suitable_factor (header : nat) (max : Z) (fully_unroll : bool)
  : M ir_graph (Z * bool) :=
  let DONT_UNROLL := 0 in
  n_outs <- gets_opt (fun g => get_irn_n_outs g header) ;;
  let factor := 1 in
  ret (0, fully_unroll).

(** [firm_clear_link], the walker callback of [unroll_loop]. *)
Definition firm_clear_link (n : nat) : M ir_graph unit :=
  modify_opt (fun g => set_irn_link g n None).

(** ** The linear-induction analysis *)

(** [enum Op { ADD, SUB, MUL }]. *)
Inductive Op : Type := ADD | SUB | MUL.

(** [struct linear_unroll_info]; a field that has not been written yet is
    [None]. *)
Record linear_unroll_info : Type := mk_linear_unroll_info {
  info_op : option Op;
  info_i : option nat;
  info_cmp : option nat;
  info_rel : option Z;
  info_incr : option nat;
  info_phi : option nat
}.

Definition with_info_op (info : linear_unroll_info) (op : Op)
  : linear_unroll_info :=
  mk_linear_unroll_info (Some op) (info_i info) (info_cmp info)
    (info_rel info) (info_incr info) (info_phi info).
Definition with_info_rel (info : linear_unroll_info) (rel : Z)
  : linear_unroll_info :=
  mk_linear_unroll_info (info_op info) (info_i info) (info_cmp info)
    (Some rel) (info_incr info) (info_phi info).
Definition with_info_incr (info : linear_unroll_info) (incr : nat)
  : linear_unroll_info :=
  mk_linear_unroll_info (info_op info) (info_i info) (info_cmp info)
    (info_rel info) (Some incr) (info_phi info).
Definition with_info_phi (info : linear_unroll_info) (phi : nat)
  : linear_unroll_info :=
  mk_linear_unroll_info (info_op info) (info_i info) (info_cmp info)
    (info_rel info) (info_incr info) (Some phi).

(** A graph of the program: the graph that is unrolled ([None]) or the
    graph of a callee, by its number.  A node of the program is a node of
    one of these graphs. *)
Definition irg_ref : Type := option nat.
Definition node_ref : Type := irg_ref * nat.

Inductive ir_alias_relation : Type :=
| ir_no_alias | ir_may_alias | ir_sure_alias.
Global Instance ir_alias_relation_eq_dec : EqDecision ir_alias_relation.
Proof. solve_decision. Defined.

(** [struct alias_list]: one cell of the list [alias_candidates]; the
    [next] pointer is the tail of the list. *)
Record alias_list : Type := mk_alias_list {
  al_node : node_ref;
  al_addr : node_ref;
  al_type : option nat;
  al_size : Z
}.

(** The state of the pass: the graph, its loop information, the static
    counter [n_loops_unrolled], the static list [alias_candidates] (head
    first) and the graphs of the callees. *)
Record ustate : Type := mk_ustate {
  u_irg : ir_graph;
  u_loops : loop_info;
  n_loops_unrolled : Z;
  alias_candidates : list alias_list;
  u_callees : list ir_graph
}.

Definition with_u_irg (s : ustate) (g : ir_graph) : ustate :=
  mk_ustate g (u_loops s) (n_loops_unrolled s) (alias_candidates s)
    (u_callees s).
Definition with_alias_candidates (s : ustate) (l : list alias_list) : ustate :=
  mk_ustate (u_irg s) (u_loops s) (n_loops_unrolled s) l (u_callees s).

Definition on_irg {A} (m : M ir_graph A) : M ustate A :=
  fun s => match m (u_irg s) with
           | Some (a, g) => Some (a, with_u_irg s g)
           | None => None
           end.

Definition get_irg (s : ustate) (r : irg_ref) : option ir_graph :=
  match r with
  | None => Some (u_irg s)
  | Some k => u_callees s !! k
  end.

(** What the pass uses of the graph library and is not among the
    sources. *)
Record firm_library : Type := mk_library {
  (** [is_binop(node)], by the opcode *)
  is_binop : ir_opcode -> bool;
  (** [get_alias_relation(addr1, type1, size1, addr2, type2, size2)] *)
  get_alias_relation :
    ustate -> node_ref -> option nat -> Z -> node_ref -> option nat -> Z ->
    ir_alias_relation;
  get_type_size : nat -> Z;
  (** [get_Call_callee(call)]: an entity or NULL *)
  get_Call_callee : ir_graph -> nat -> option nat;
  (** [get_entity_linktime_irg(entity)]: a graph or NULL *)
  get_entity_linktime_irg : option nat -> option irg_ref;
  (** [get_method_additional_properties(get_entity_type(callee))
      & mtp_property_pure] *)
  method_is_pure : option nat -> bool;
  (** [irg->reserved_resources & IR_RESOURCE_IRN_VISITED] *)
  irn_visited_reserved : ustate -> irg_ref -> bool;
  (** [irg_walk_blkwise_graph(irg, pre, NULL, NULL)] *)
  irg_walk_blkwise_graph : irg_ref -> (nat -> M ustate unit) -> M ustate unit;
  is_memop : ir_graph -> nat -> bool;
  get_memop_mem : ir_graph -> nat -> option nat;
  get_Phi_loop : ir_graph -> nat -> bool;
  set_Phi_loop : nat -> bool -> M ir_graph unit;
  remove_keep_alive : nat -> M ir_graph unit;
  remove_End_Bads_and_doublets : nat -> M ir_graph unit;
  (** [assure_lcssa], and [assure_irg_properties] for loop info, out
      edges, no Bads and dominance *)
  assure_lcssa : ir_graph -> ir_graph;
  assure_irg_properties : ir_graph -> ir_graph * loop_info;
  (** the library was built with [DEBUG_libfirm] *)
  DEBUG_libfirm : bool
}.

Definition is_Load := is_op iro_Load.
Definition is_Store := is_op iro_Store.
Definition is_Call := is_op iro_Call.
Definition is_Address := is_op iro_Address.
Definition is_Add := is_op iro_Add.
Definition is_Sub := is_op iro_Sub.
Definition is_Mul := is_op iro_Mul.

(** Modelled from the spec: the node accessors are not among the
    sources.  The inputs of a Load, a Store and a Call start with the
    memory and the address ("Load: mem, ptr", "Call: mem, ptr,
    parameters"); a Proj, a Conv and a Phi read their inputs from 0; the
    type of a Load, a Store and a Call is an attribute of the node. *)
Definition get_Load_ptr (g : ir_graph) (n : nat) : option nat := get_irn_n g n 1.
Definition get_Store_ptr (g : ir_graph) (n : nat) : option nat := get_irn_n g n 1.
Definition get_Call_ptr (g : ir_graph) (n : nat) : option nat := get_irn_n g n 1.
Definition get_Call_n_params (g : ir_graph) (n : nat) : option nat :=
  (fun a => a - 2)%nat <$> get_irn_arity g n.
Definition get_Call_param (g : ir_graph) (n i : nat) : option nat :=
  get_irn_n g n (i + 2).
Definition get_Proj_pred (g : ir_graph) (n : nat) : option nat := get_irn_n g n 0.
Definition get_Conv_op (g : ir_graph) (n : nat) : option nat := get_irn_n g n 0.
Definition get_binop_left (g : ir_graph) (n : nat) : option nat := get_irn_n g n 0.
Definition get_binop_right (g : ir_graph) (n : nat) : option nat := get_irn_n g n 1.
Definition get_Cmp_left (g : ir_graph) (n : nat) : option nat := get_irn_n g n 0.
Definition get_Cmp_right (g : ir_graph) (n : nat) : option nat := get_irn_n g n 1.
Definition get_node_type (g : ir_graph) (n : nat) : option (option nat) :=
  irn_type <$> get_node g n.
(** [get_block(node)]: the node itself when it is a Block, else its
    Block. *)
Definition get_block (g : ir_graph) (n : nat) : option nat :=
  if is_Block g n then Some n else get_nodes_block g n.

Section Pass.
Variable lib : firm_library.

(** [binop_to_op]: [None] is the failed assertion; [Some None] is
    [false], [Some (Some o)] is [true] with [*op = o]. *)
Definition binop_to_op (g : ir_graph) (bin_op : nat) : option (option Op) :=
  let? nd := get_node g bin_op in
  if negb (is_binop lib (irn_op nd)) then None else
  if negb (is_Add g bin_op) && negb (is_Sub g bin_op) && negb (is_Mul g bin_op)
  then Some None
  else if is_Add g bin_op then Some (Some ADD)
  else if is_Sub g bin_op then Some (Some SUB)
  else Some (Some MUL).

(** The loop of [is_aliased] over [alias_candidates]. *)
Definition aliases_candidate (s : ustate) (addr : nat) (type : option nat)
  : option bool :=
  (fix candidates (l : list alias_list) : option bool :=
     match l with
     | [] => Some false
     | curr :: l' =>
         let? tp := type in
         if negb (bool_decide
                    (get_alias_relation lib s (al_addr curr) (al_type curr)
                       (al_size curr) (None, addr) type (get_type_size lib tp)
                     = ir_no_alias))
         then Some true
         else candidates l'
     end) (alias_candidates s).

Definition is_aliased (s : ustate) (node : nat) : option bool :=
  let g := u_irg s in
  if is_Load g node then
    let? addr := get_Load_ptr g node in
    let? type := get_node_type g node in
    aliases_candidate s addr type
  else if is_Store g node then
    let? addr := get_Store_ptr g node in
    let? type := get_node_type g node in
    aliases_candidate s addr type
  else if is_Proj g node then
    let? pre_proj := get_Proj_pred g node in
    if negb (is_Proj g pre_proj) then Some false else
    (* the predecessor of [node] once more, not that of [pre_proj] *)
    let? pre_pre_proj := get_Proj_pred g node in
    if negb (is_Call g pre_pre_proj) then Some false else
    let? addr := get_Call_ptr g pre_pre_proj in
    let? type := get_node_type g pre_pre_proj in
    aliases_candidate s addr type
  else Some false.

Definition push_alias_candidate (e : alias_list) : M ustate unit :=
  modify (fun s => with_alias_candidates s (e :: alias_candidates s)).

(** The entry that [walk_call_for_aliases] makes of a parameter of a call
    to an unknown function: [None] while [list.addr] is NULL. *)
Definition alias_of_param (r : irg_ref) (g : ir_graph) (param : nat)
  : option (option alias_list) :=
  if is_Proj g param then
    let? pre_proj := get_Proj_pred g param in
    if is_Load g pre_proj then
      let? addr := get_Load_ptr g pre_proj in
      let? type := get_node_type g pre_proj in
      let? tp := type in
      Some (Some (mk_alias_list (r, pre_proj) (r, addr) type
                    (get_type_size lib tp)))
    else if is_Proj g pre_proj then
      let? pre_pre_proj := get_Proj_pred g pre_proj in
      if is_Call g pre_pre_proj then
        let? addr := get_Call_ptr g pre_pre_proj in
        let? type := get_node_type g pre_pre_proj in
        let? tp := type in
        Some (Some (mk_alias_list (r, pre_proj) (r, addr) type
                      (get_type_size lib tp)))
      else Some None
    else Some None
  else if is_Address g param then
    Some (Some (mk_alias_list (r, param) (r, param) None 0))
  else Some None.

(** [check_for_store], [walk_graph_aliasing] and [walk_call_for_aliases]
    call each other; a call from one to the next takes one unit of
    [fuel].  [r] is the graph of the node, [loop] the loop or NULL. *)
Fixpoint check_for_store (fuel : nat) (r : irg_ref) (node : nat)
    (loop : option nat) {struct fuel} : M ustate unit :=
  match fuel with
  | O => fail
  | S fuel' =>
      g <- gets_opt (fun s => get_irg s r) ;;
      assert (negb (is_Block g node)) ;;
      when (is_Call g node) (walk_call_for_aliases fuel' r node) ;;
      g <- gets_opt (fun s => get_irg s r) ;;
      if negb (is_Store g node) then ret tt else
      block <- gets_opt (fun _ => get_block g node) ;;
      outside <- match loop with
                 | Some l =>
                     li <- gets u_loops ;;
                     inside <- gets_opt (fun _ =>
                                 block_is_inside_loop g li block l) ;;
                     ret (negb inside)
                 | None => ret false
                 end ;;
      if outside then ret tt else
      type <- gets_opt (fun _ => get_node_type g node) ;;
      addr <- gets_opt (fun _ => get_Store_ptr g node) ;;
      tp <- gets_opt (fun _ => type) ;;
      let size := get_type_size lib tp in
      push_alias_candidate (mk_alias_list (r, node) (r, addr) type size)
  end
with walk_graph_aliasing (fuel : nat) (r : irg_ref) (block : nat)
    {struct fuel} : M ustate unit :=
  match fuel with
  | O => fail
  | S fuel' =>
      g <- gets_opt (fun s => get_irg s r) ;;
      if negb (is_Block g block) then ret tt else
      n_outs <- gets_opt (fun _ => get_irn_n_outs g block) ;;
      for_each (seq 0 n_outs)
        (fun i =>
           node <- gets_opt (fun s =>
                     let? g := get_irg s r in get_irn_out g block i) ;;
           check_for_store fuel' r node None)
  end
with walk_call_for_aliases (fuel : nat) (r : irg_ref) (call : nat)
    {struct fuel} : M ustate unit :=
  match fuel with
  | O => fail
  | S fuel' =>
      g <- gets_opt (fun s => get_irg s r) ;;
      let callee_entity := get_Call_callee lib g call in
      let callee_graph := get_entity_linktime_irg lib callee_entity in
      match callee_graph with
      | None =>
          n_params <- gets_opt (fun _ => get_Call_n_params g call) ;;
          for_each (seq 0 n_params)
            (fun i =>
               param <- gets_opt (fun _ => get_Call_param g call i) ;;
               list <- gets_opt (fun _ => alias_of_param r g param) ;;
               match list with
               | Some e => push_alias_candidate e
               | None => ret tt
               end)
      | Some callee_graph =>
          reserved <- gets (fun s => irn_visited_reserved lib s callee_graph) ;;
          if reserved then ret tt
          else irg_walk_blkwise_graph lib callee_graph
                 (walk_graph_aliasing fuel' callee_graph)
      end
  end.

(** [clear_all_stores] frees the cells of the list and leaves the pointer
    [alias_candidates] as it is. *)
Definition clear_all_stores : M ustate unit := ret tt.

(** Every walk that is entered while another one runs holds the visited
    resource of one more graph. *)
Definition alias_fuel (s : ustate) : nat := 3 * S (S (length (u_callees s))).

Fixpoint get_all_stores (loop : ir_loop) : M ustate unit :=
  match loop with
  | mk_loop id elements =>
      modify (fun s => with_alias_candidates s []) ;;
      (fix elems (es : list loop_element) : M ustate unit :=
         match es with
         | [] => ret tt
         | k_ir_loop son :: es' => get_all_stores son ;; elems es'
         | k_ir_node node :: es' =>
             is_blk <- gets (fun s => is_Block (u_irg s) node) ;;
             assert is_blk ;;
             m <- gets_opt (fun s => get_irn_n_outs (u_irg s) node) ;;
             for_each (seq 0 m)
               (fun j =>
                  out <- gets_opt (fun s => get_irn_out (u_irg s) node j) ;;
                  fuel <- gets alias_fuel ;;
                  check_for_store fuel None out (Some id)) ;;
             elems es'
         end) elements
  end.

(** [is_valid_base]; the recursion follows the inputs of the node, one
    unit of [fuel] per call.  [loop] is the loop or NULL. *)
Fixpoint is_valid_base (fuel : nat) (s : ustate) (node : nat)
    (loop : option nat) : option bool :=
  match fuel with
  | O => None
  | S fuel' =>
      let g := u_irg s in
      (* Const *)
      if is_Const g node then Some true else
      (* Load; [Some None]: no [return] was reached *)
      let? returned :=
        (if is_Proj g node then
           let? pre_proj := get_Proj_pred g node in
           if is_Proj g pre_proj then
             let? proj_call := get_Proj_pred g pre_proj in
             if negb (is_Call g proj_call) then Some (Some false) else
             let callee := get_Call_callee lib g proj_call in
             if negb (method_is_pure lib callee) then Some (Some false) else
             let? n := get_Call_n_params g proj_call in
             let? pure :=
               (fix params (l : list nat) : option bool :=
                  match l with
                  | [] => Some true
                  | i :: l' =>
                      let? call_param := get_Call_param g proj_call i in
                      let? b := is_valid_base fuel' s call_param loop in
                      if negb b then Some false else params l'
                  end) (seq 0 n) in
             if negb pure then Some (Some false) else
             let? a := is_aliased s proj_call in
             Some (Some (negb a))
           else if is_Load g pre_proj then
             let? a := is_aliased s pre_proj in
             Some (Some (negb a))
           else Some None
         else Some None) in
      match returned with
      | Some b => Some b
      | None =>
          if is_Phi g node then
            let? n := get_irn_arity g node in
            (fix preds (l : list nat) (pointing_into_loop : nat)
               : option bool :=
               match l with
               | [] =>
                   match loop with
                   | Some _ =>
                       Some (negb (bool_decide (1 < pointing_into_loop)%nat))
                   | None => Some true
                   end
               | i :: l' =>
                   let? phi_pred := get_irn_n g node i in
                   let? pred_block := get_block g phi_pred in
                   let? inside :=
                     match loop with
                     | Some l =>
                         block_is_inside_loop g (u_loops s) pred_block l
                     | None => Some false
                     end in
                   let pointing_into_loop :=
                     if inside then S pointing_into_loop
                     else pointing_into_loop in
                   let? b := is_valid_base fuel' s phi_pred loop in
                   if negb b then Some false
                   else preds l' pointing_into_loop
               end) (seq 0 n) 0%nat
          else if is_Conv g node then  (* Cast *)
            let? conved := get_Conv_op g node in
            is_valid_base fuel' s conved loop
          else Some false
      end
  end.

(** A recursion deeper than the graph has nodes does not end. *)
Definition base_fuel (s : ustate) : nat := S (length (irg_nodes (u_irg s))).

(** [is_valid_incr]: the result and the [unroll_info] with what was
    written to it. *)
Definition is_valid_incr (s : ustate) (unroll_info : linear_unroll_info)
    (node : nat) : option (bool * linear_unroll_info) :=
  let g := u_irg s in
  let? nd := get_node g node in
  if negb (is_binop lib (irn_op nd)) then Some (false, unroll_info) else
  let? op := binop_to_op g node in
  match op with
  | None => Some (false, unroll_info)
  | Some op =>
      let unroll_info := with_info_op unroll_info op in
      let? left := get_binop_left g node in
      let? right := get_binop_right g node in
      let node_to_check : option nat := None in
      if negb (is_Phi g left) && negb (is_Phi g right)
      then Some (false, unroll_info) else
      let node_to_check :=
        if bool_decide (Some left = info_phi unroll_info) then Some right
        else node_to_check in
      let node_to_check :=
        if bool_decide (Some right = info_phi unroll_info) then Some left
        else node_to_check in
      let node_to_check :=
        if DEBUG_libfirm lib then Some right else node_to_check in
      match node_to_check with
      | None => Some (false, unroll_info)
      | Some node_to_check =>
          let? block := get_block g node_to_check in
          let? bn := get_node g block in
          let? valid :=
            is_valid_base (base_fuel s) s node_to_check (irn_loop bn) in
          if negb valid then Some (false, unroll_info)
          else Some (true, with_info_incr unroll_info node_to_check)
      end
  end.

Definition check_phi (unroll_info : linear_unroll_info) (loop : ir_loop)
  : M ustate (bool * linear_unroll_info) :=
  phi <- gets_opt (fun _ => info_phi unroll_info) ;;
  is_phi <- gets (fun s => is_Phi (u_irg s) phi) ;;
  assert is_phi ;;
  phi_preds <- gets_opt (fun s => get_irn_arity (u_irg s) phi) ;;
  if bool_decide (phi_preds < 2)%nat then ret (false, unroll_info) else
  (* check for static beginning: neither in loop, nor aliased and for
     valid linear increment *)
  clear_all_stores ;;
  get_all_stores loop ;;
  r <- (fix incrs (l : list nat) (incr_pred_index : option nat)
          (unroll_info : linear_unroll_info)
          : M ustate (option nat * linear_unroll_info) :=
          match l with
          | [] => ret (incr_pred_index, unroll_info)
          | i :: l' =>
              curr <- gets_opt (fun s => get_irn_n (u_irg s) phi i) ;;
              v <- gets_opt (fun s => is_valid_incr s unroll_info curr) ;;
              let '(valid, unroll_info) := v in
              incrs l' (if valid then Some i else incr_pred_index) unroll_info
          end) (seq 0 phi_preds) None unroll_info ;;
  let '(incr_pred_index, unroll_info) := r in
  match incr_pred_index with
  | None => ret (false, unroll_info)
  | Some incr_pred_index =>
      (fix bases (l : list nat) : M ustate (bool * linear_unroll_info) :=
         match l with
         | [] => ret (true, unroll_info)
         | i :: l' =>
             curr <- gets_opt (fun s => get_irn_n (u_irg s) phi i) ;;
             if bool_decide (i = incr_pred_index) then bases l'
             else
               valid <- gets_opt (fun s =>
                          is_valid_base (base_fuel s) s curr
                            (Some (loop_id loop))) ;;
               if negb valid then ret (false, unroll_info) else bases l'
         end) (seq 0 phi_preds)
  end.

(** Relations of a Cmp node ([ir_relation]). *)
Definition ir_relation_less : Z := 2.
Definition ir_relation_less_equal : Z := 3.
Definition ir_relation_greater : Z := 4.
Definition ir_relation_greater_equal : Z := 5.

(** [determine_lin_unroll_info]: the first Cmp of the header with an
    ordering relation decides.  The header is used as [get_loop_header]
    returns it: for a loop without header, [get_irn_n_outs] reads through
    the null pointer. *)
Definition determine_lin_unroll_info (unroll_info : linear_unroll_info)
    (loop : ir_loop) : M ustate (bool * linear_unroll_info) :=
  header <- gets_opt (fun s => get_loop_header (u_irg s) (u_loops s) loop) ;;
  header <- gets_opt (fun _ => header) ;;
  outs <- gets_opt (fun s => get_irn_n_outs (u_irg s) header) ;;
  (fix scan (l : list nat) (unroll_info : linear_unroll_info)
     : M ustate (bool * linear_unroll_info) :=
     match l with
     | [] => ret (false, unroll_info)
     | i :: l' =>
         node <- gets_opt (fun s => get_irn_out (u_irg s) header i) ;;
         nd <- gets_opt (fun s => get_node (u_irg s) node) ;;
         if negb (bool_decide (irn_block nd = Some header))
         then scan l' unroll_info
         else if negb (bool_decide (irn_op nd = iro_Cmp))
         then scan l' unroll_info
         else
           let rel := irn_proj nd in
           if negb (rel =? ir_relation_greater_equal) &&
              negb (rel =? ir_relation_greater) &&
              negb (rel =? ir_relation_less_equal) &&
              negb (rel =? ir_relation_less)
           then scan l' unroll_info
           else
             let unroll_info := with_info_rel unroll_info rel in
             left <- gets_opt (fun s => get_Cmp_left (u_irg s) node) ;;
             right <- gets_opt (fun s => get_Cmp_right (u_irg s) node) ;;
             is_phi_left <- gets (fun s => is_Phi (u_irg s) left) ;;
             is_phi_right <- gets (fun s => is_Phi (u_irg s) right) ;;
             if negb is_phi_left && negb is_phi_right
             then ret (false, unroll_info)
             else
               let r := false in
               v <- (if is_phi_left then
                       v <- check_phi (with_info_phi unroll_info left) loop ;;
                       ret (r || fst v, snd v)
                     else ret (r, unroll_info)) ;;
               let '(r, unroll_info) := v in
               v <- (if is_phi_right then
                       v <- check_phi (with_info_phi unroll_info right) loop ;;
                       ret (r || fst v, snd v)
                     else ret (r, unroll_info)) ;;
               ret v
     end) (seq 0 outs) unroll_info.

(** ** The cleanup after a full unrolling *)

(** [remove_block_input(block, idx)]: "Remove block input with given
    index."  [n] is the new number of inputs; a negative [n] and an
    index behind [n] overrun the array [ins]. *)
Definition remove_block_input (block : nat) (idx : nat) : M ir_graph unit :=
  arity <- gets_opt (fun g => get_irn_arity g block) ;;
  assert (bool_decide (1 <= arity)%nat && bool_decide (idx < arity)%nat) ;;
  let n := (arity - 1)%nat in
  let kept := filter (fun i => i <> idx) (seq 0 (S n)) in
  n_outs <- gets_opt (fun g => get_irn_n_outs g block) ;;
  (if bool_decide (n = 1%nat) then
     (* all Phis will be deleted *)
     for_each (seq 0 n_outs)
       (fun k =>
          phi <- gets_opt (fun g => get_irn_out g block k) ;;
          is_phi <- gets (fun g => is_Phi g phi) ;;
          when is_phi
            (phi_loop <- gets (fun g => get_Phi_loop lib g phi) ;;
             when phi_loop
               (remove_keep_alive lib phi ;; set_Phi_loop lib phi false) ;;
             pred <- gets_opt (fun g => get_irn_n g phi (Nat.lxor idx 1)) ;;
             modify (fun g => exchange g phi pred)))
   else
     for_each (seq 0 n_outs)
       (fun k =>
          phi <- gets_opt (fun g => get_irn_out g block k) ;;
          is_phi <- gets (fun g => is_Phi g phi) ;;
          when is_phi
            (ins <- gets_opt (fun g => mapM (get_irn_n g phi) kept) ;;
             modify_opt (fun g => set_irn_in g phi ins)))) ;;
  ins <- gets_opt (fun g => mapM (get_irn_n g block) kept) ;;
  modify_opt (fun g => set_irn_in g block ins).

(** The walk along the memory path of [rewire_fully_unrolled]:
    [while (!is_Phi(new_pred)) ...], a step per unit of [fuel]. *)
Fixpoint walk_memory_path (fuel : nat) (g : ir_graph) (new_pred : nat)
  : option nat :=
  match fuel with
  | O => None
  | S fuel' =>
      if is_Phi g new_pred then Some new_pred
      else
        let? next := (if is_memop lib g new_pred
                      then get_memop_mem lib g new_pred
                      else get_irn_n g new_pred 0) in
        walk_memory_path fuel' g next
  end.

Definition rewire_fully_unrolled (li : loop_info) (loop : ir_loop)
    (header : nat) (factor : Z) : M ir_graph unit :=
  n_header_preds <- gets_opt (fun g => get_irn_arity g header) ;;
  (* 1. search for the after_loop block *)
  header_n_outs <- gets_opt (fun g => get_irn_n_outs g header) ;;
  found <-
    (fix search (l : list nat) (after_loop : option nat) (n_after : Z)
       : M ir_graph (option nat * Z) :=
       match l with
       | [] => ret (after_loop, n_after)
       | i :: l' =>
           out <- gets_opt (fun g => get_irn_out_ex g header i) ;;
           let succ := fst out in
           is_proj <- gets (fun g => is_Proj g succ) ;;
           is_cf <- (if is_proj then
                       m <- gets_opt (fun g => get_irn_mode g succ) ;;
                       ret (mode_eqb m mode_X)
                     else ret false) ;;
           if is_cf then
             proj_outs <- gets_opt (fun g => get_irn_n_outs g succ) ;;
             assert (bool_decide (proj_outs = 1%nat)) ;;
             r <- (fix succs (js : list nat) (after_loop : option nat)
                     (n_after : Z) : M ir_graph (option nat * Z) :=
                     match js with
                     | [] => ret (after_loop, n_after)
                     | j :: js' =>
                         o <- gets_opt (fun g => get_irn_out_ex g succ j) ;;
                         let '(cf_succ, n_after) := o in
                         link <- gets_opt (fun g => get_irn_link g cf_succ) ;;
                         is_blk <- gets (fun g => is_Block g cf_succ) ;;
                         outside <-
                           (if bool_decide (link = None) && is_blk then
                              inside <- gets_opt (fun g =>
                                          block_is_inside_loop g li cf_succ
                                            (loop_id loop)) ;;
                              ret (negb inside)
                            else ret false) ;;
                         (* found block after loop *)
                         succs js'
                           (if outside then Some cf_succ else after_loop)
                           n_after
                     end) (seq 0 proj_outs) after_loop n_after ;;
             search l' (fst r) (snd r)
           else search l' after_loop n_after
       end) (seq 0 header_n_outs) None 0 ;;
  let '(after_loop, n_after) := found in
  match after_loop with
  | None => ret tt
  | Some after_loop =>
      (fix preds (fuel : nat) (i : nat) (n_header_preds : nat)
         : M ir_graph unit :=
         match fuel with
         | O => ret tt
         | S fuel' =>
             if negb (bool_decide (i < n_header_preds)%nat) then ret tt else
             (* 2. find loop body blocks which jump back into the loop
                header *)
             pred <- gets_opt (fun g => get_irn_n g header i) ;;
             pred_block <- gets_opt (fun g => get_nodes_block g pred) ;;
             link <- gets_opt (fun g => get_irn_link g pred_block) ;;
             skip <- (if bool_decide (link = None) && (1 <? factor)
                      then ret true
                      else
                        inside <- gets_opt (fun g =>
                                    block_is_inside_loop g li pred_block
                                      (loop_id loop)) ;;
                        ret (negb inside)) ;;
             if skip then preds fuel' (S i) n_header_preds else
             (* 3. jump from such loop body block into block after_loop
                instead *)
             old_jump <- gets_opt (fun g => get_irn_n g header i) ;;
             add_edge after_loop old_jump ;;
             (* 4. add inputs to phis inside the after_loop block *)
             n_outs <- gets_opt (fun g => get_irn_n_outs g after_loop) ;;
             for_each (seq 0 n_outs)
               (fun j =>
                  phi <- gets_opt (fun g => get_irn_out g after_loop j) ;;
                  is_phi <- gets (fun g => is_Phi g phi) ;;
                  when is_phi
                    (pred <- gets_opt (fun g =>
                               if 0 <=? n_after
                               then get_irn_n g phi (Z.to_nat n_after)
                               else None) ;;
                     pred_is_phi <- gets (fun g => is_Phi g pred) ;;
                     m <- gets_opt (fun g => get_irn_mode g phi) ;;
                     new_pred <-
                       (if pred_is_phi then
                          (* case: pred is phi in loop header. use input i
                             of loop header phi *)
                          p <- gets_opt (fun g => get_irn_n g pred i) ;;
                          ret (Some p)
                        else if mode_eqb m mode_M then
                          (* case: memory phi in after_loop: search memory
                             phi in loop header *)
                          mem_phi <- gets_opt (fun g =>
                                       walk_memory_path
                                         (S (length (irg_nodes g))) g pred) ;;
                          (* use input i of loop header memory phi *)
                          p <- gets_opt (fun g => get_irn_n g mem_phi i) ;;
                          ret (Some p)
                        else
                          (* case: pred was copied during loop unrolling *)
                          gets_opt (fun g => get_irn_link g pred)) ;;
                     (* case: pred was defined outside of the loop *)
                     let new_pred := default pred new_pred in
                     add_edge phi new_pred)) ;;
             (* 5. remove input of loop header which represents jump from
                the last loop iteration *)
             remove_block_input header i ;;
             preds fuel' i (n_header_preds - 1)%nat
         end) (S n_header_preds) 0%nat n_header_preds ;;
      (* 6. cleanup keepalives *)
      e <- gets irg_end ;;
      remove_End_Bads_and_doublets lib e
  end.

(** The nodes of a graph, for the link-clearing walk. *)
Definition walk_fuel (g : ir_graph) : nat := S (length (irg_nodes g)).

Definition unroll_loop (loop : ir_loop) (factor : Z) : M ustate unit :=
  li <- gets u_loops ;;
  header <- gets_opt (fun s => get_loop_header (u_irg s) li loop) ;;
  match header with
  | None => ret tt
  | Some header =>
      let fully_unroll := false in
      r <- on_irg (find_suitable_factor header factor fully_unroll) ;;
      let '(factor, fully_unroll) := r in
      if (factor <? 1) || ((factor =? 1) && negb fully_unroll) then ret tt
      else
        fuel <- gets (fun s => walk_fuel (u_irg s)) ;;
        on_irg (irg_walk_graph (fun g => g) (fun g _ => g)
                  firm_clear_link (fun _ => ret tt) fuel) ;;
        let blocks :=
          omap (fun e => match e with
                         | k_ir_node b => Some b
                         | k_ir_loop _ => None
                         end) (loop_elements loop) in
        for_each (seq 1 (Z.to_nat (factor - 1)))
          (fun j =>
             (* step 1: duplicate blocks *)
             for_each blocks
               (fun b =>
                  is_blk <- gets (fun s => is_Block (u_irg s) b) ;;
                  assert is_blk ;;
                  on_irg (duplicate_block b)) ;;
             (* step 2: rewire the edges *)
             for_each blocks
               (fun b =>
                  is_blk <- gets (fun s => is_Block (u_irg s) b) ;;
                  assert is_blk ;;
                  on_irg (rewire_block b header))) ;;
        modify (fun s =>
          mk_ustate (u_irg s) (u_loops s) (n_loops_unrolled s + 1)
            (alias_candidates s) (u_callees s)) ;;
        (* fully unroll: remove control flow loop *)
        when fully_unroll
          (on_irg (rewire_fully_unrolled li loop header factor))
  end.

Fixpoint count_nodes (g : ir_graph) (loop : ir_loop) : option nat :=
  match loop with
  | mk_loop _ elements =>
      (fix elems (es : list loop_element) : option nat :=
         match es with
         | [] => Some 0%nat
         | k_ir_node node :: es' =>
             let? n := get_irn_n_outs g node in let? r := elems es' in Some (n + r)%nat
         | k_ir_loop son :: es' =>
             let? n := count_nodes g son in let? r := elems es' in Some (n + r)%nat
         end) elements
  end.

Definition determine_unroll_factor (g : ir_graph) (loop : ir_loop)
    (factor maxsize : Z) : option Z :=
  let? n := count_nodes g loop in
  Some (if Z.of_nat n <? maxsize then factor else 0).

(** An [info] that nothing has been written to. *)
Definition uninitialized_info : linear_unroll_info :=
  mk_linear_unroll_info None None None None None None.

(** [duplicate_innermost_loops]: the call of [unroll_loop] for innermost
    loops stands in a comment in the source; what is left is the
    recursion into the nested loops and the analysis for the debug
    output. *)
Fixpoint duplicate_innermost_loops (loop : ir_loop) (factor maxsize : Z)
    (outermost : bool) : M ustate unit :=
  match loop with
  | mk_loop _ elements =>
      (fix elems (es : list loop_element) : M ustate unit :=
         match es with
         | [] => ret tt
         | k_ir_node _ :: es' => elems es'
         | k_ir_loop son :: es' =>
             duplicate_innermost_loops son factor maxsize false ;;
             elems es'
         end) elements ;;
      _ <- determine_lin_unroll_info uninitialized_info loop ;;
      ret tt
  end.

(** [ir_reserve_resources(irg, IR_RESOURCE_IRN_LINK)]: reserving a held
    resource is an error. *)
Definition ir_reserve_link : M ir_graph unit :=
  held <- gets irg_link_reserved ;;
  assert (negb held) ;;
  modify (fun g => with_reserved g true (irg_phi_list_reserved g)).
Definition ir_free_link : M ir_graph unit :=
  held <- gets irg_link_reserved ;;
  assert held ;;
  modify (fun g => with_reserved g false (irg_phi_list_reserved g)).
Definition clear_dominance_and_loopinfo : M ir_graph unit :=
  modify (fun g =>
    with_props g
      (mk_props false false (prop_consistent_outs (irg_props g))
         (prop_no_bads (irg_props g)) (prop_lcssa (irg_props g)))).

(** [unroll_loops(irg, factor, maxsize)] in a program whose other graphs
    are [callees]; [alias] is what an earlier run has left in the static
    [alias_candidates].  The result is the final state, whose counter is
    what the debug line reports. *)
Definition unroll_loops (callees : list ir_graph) (alias : list alias_list)
    (irg : ir_graph) (factor maxsize : Z) : option ustate :=
  let irg := assure_lcssa lib irg in
  let '(irg, li) := assure_irg_properties lib irg in
  exec
    (on_irg ir_reserve_link ;;
     duplicate_innermost_loops (li_root li) factor maxsize true ;;
     on_irg ir_free_link ;;
     on_irg clear_dominance_and_loopinfo)
    (mk_ustate irg li 0 alias callees).

End Pass.

(** What [unroll_loops] leaves behind on the graph prepared by the
    analyses: the link resource is free again, dominance and loop
    information are marked stale. *)
Definition after_unroll_loops (irg : ir_graph) : ir_graph :=
  with_props (with_reserved irg false (irg_phi_list_reserved irg))
    (mk_props false false (prop_consistent_outs (irg_props irg))
       (prop_no_bads (irg_props irg)) (prop_lcssa (irg_props irg))).

(** ** Notions for the specification of [get_loop_header] *)




(** The loops of the loop tree below [loop], [loop] itself first. *)
Fixpoint sub_loops (loop : ir_loop) : list ir_loop :=
  match loop with
  | mk_loop _ elements =>
      loop ::
      (fix elems (es : list loop_element) : list ir_loop :=
         match es with
         | [] => []
         | k_ir_node _ :: es' => elems es'
         | k_ir_loop son :: es' => sub_loops son ++ elems es'
         end) elements
  end.

(** Consistent dominance information: an immediate dominator is a node of
    the graph with a smaller pre-order number. *)
Definition dom_consistent (g : ir_graph) : Prop :=
  forall b nd d, get_node g b = Some nd -> irn_idom nd = Some d ->
    exists nd', get_node g d = Some nd' /\
                0 <= irn_pre_num nd' < irn_pre_num nd.

(** Consistent loop information: the loop of a node and the outer loop of
    a loop are loops of the table, and the outer loop of a loop other than
    the outermost one is less deep. *)
Definition loops_consistent (g : ir_graph) (li : loop_info) : Prop :=
  (forall b nd l, get_node g b = Some nd -> irn_loop nd = Some l ->
     is_Some (li_table li !! l)) /\
  (forall l e, li_table li !! l = Some e ->
     le_outer e = l \/
     exists e', li_table li !! le_outer e = Some e' /\
                (le_depth e' < le_depth e)%nat).



(** The loop tree, the loop table and the loops recorded in the Blocks
    describe the same nesting: the loops of the tree have different
    identities; the outermost loop is its own outer loop and the outer
    loop of a son is the loop it is an element of; a Block element of a
    loop is a Block whose loop is that loop; and a node with a loop is an
    element of that loop of the tree. *)
Record loop_tree_consistent (g : ir_graph) (li : loop_info) : Prop :=
  mk_loop_tree_consistent {
  ltc_table : loops_consistent g li;
  ltc_ids : NoDup (loop_id <$> sub_loops (li_root li));
  ltc_root :
    get_loop_outer_loop li (loop_id (li_root li))
    = Some (loop_id (li_root li));
  ltc_son : forall l son,
    l ∈ sub_loops (li_root li) -> k_ir_loop son ∈ loop_elements l ->
    get_loop_outer_loop li (loop_id son) = Some (loop_id l);
  ltc_block : forall l b,
    l ∈ sub_loops (li_root li) -> k_ir_node b ∈ loop_elements l ->
    is_Block g b = true /\
    irn_loop <$> get_node g b = Some (Some (loop_id l));
  ltc_node : forall b nd i,
    get_node g b = Some nd -> irn_loop nd = Some i ->
    exists l, l ∈ sub_loops (li_root li) /\ loop_id l = i /\
              k_ir_node b ∈ loop_elements l
}.

(** *** A counting loop

    Blocks 0 (entry), 1 (loop header), 2 (loop body), 3 (exit); the loop
    [{2, 1}] is nested in the outermost loop of the graph. *)
Definition ex_block (ins : list nat) (loop : nat) (idom : option nat)
    (pre mx : Z) : ir_node :=
  with_dom (with_loop (default_node iro_Block mode_BB None ins) (Some loop))
    idom pre mx.

Definition ex_loop_graph : ir_graph :=
  mk_graph
    [ ex_block [] 0 None 0 3;
      ex_block [0; 2]%nat 1 (Some 0%nat) 1 3;
      ex_block [1]%nat 1 (Some 1%nat) 2 2;
      ex_block [1]%nat 0 (Some 1%nat) 3 3 ]
    0 0 3 0 0 0 0 false false (mk_props true true true true true).

Definition ex_inner_loop : ir_loop :=
  mk_loop 1 [k_ir_node 2; k_ir_node 1].
Definition ex_loop_info : loop_info :=
  mk_loop_info
    (mk_loop 0 [k_ir_node 0; k_ir_loop ex_inner_loop; k_ir_node 3])
    [mk_loop_entry 0 0; mk_loop_entry 0 1].

(** *** A loop with two entries

    [int f(int c) { if (c) goto B; A: ; B: if (c) goto A; return; }]:
    Block 0 (entry) branches to Block 10 (A) and to Block 12 (B); A jumps
    to B and B branches back to A or leaves to Block 17.  The cycle
    [{A, B}] is entered at A and at B, so the entry Block is the immediate
    dominator of both and no Block of the loop dominates the other one. *)
Definition ex_node (op : ir_opcode) (m : ir_mode) (blk : nat) (ins : list nat)
    (outs : list (nat * Z)) : ir_node :=
  with_outs (default_node op m (Some blk) ins) outs.
Definition ex_cf_block (ins : list nat) (outs : list (nat * Z)) (loop : nat)
    (idom : option nat) (pre mx : Z) : ir_node :=
  with_outs (ex_block ins loop idom pre mx) outs.

Definition ex_irreducible_graph : ir_graph :=
  mk_graph
    [ (* 0 *) ex_cf_block []
                [(1%nat, -1); (2%nat, -1); (3%nat, -1); (4%nat, -1); (5%nat, -1); (6%nat, -1);
                 (7%nat, -1); (8%nat, -1); (9%nat, -1)] 0 None 0 4;
      (* 1 *) ex_node iro_Start mode_T 0 [] [(2%nat, 0); (3%nat, 0)];
      (* 2 *) with_proj (ex_node iro_Proj mode_M 0 [1]%nat [(18%nat, 0)]) 0;
      (* 3 *) with_proj (ex_node iro_Proj mode_T 0 [1]%nat [(4%nat, 0)]) 2;
      (* 4 *) with_proj
                (ex_node iro_Proj mode_Is 0 [3]%nat [(6%nat, 0); (13%nat, 0)]) 0;
      (* 5 *) with_tv
                (ex_node iro_Const mode_Is 0 [] [(6%nat, 1); (13%nat, 1)])
                (Some (mk_tarval mode_Is 0));
      (* 6 *) with_proj
                (ex_node iro_Cmp mode_b 0 [4; 5]%nat [(7%nat, 0)]) 6;
      (* 7 *) ex_node iro_Cond mode_T 0 [6]%nat [(8%nat, 0); (9%nat, 0)];
      (* 8 *) with_proj (ex_node iro_Proj mode_X 0 [7]%nat [(10%nat, 0)]) 0;
      (* 9 *) with_proj (ex_node iro_Proj mode_X 0 [7]%nat [(12%nat, 0)]) 1;
      (* 10: A *) ex_cf_block [8; 15]%nat [(11%nat, -1)] 1 (Some 0%nat) 1 1;
      (* 11 *) ex_node iro_Jmp mode_X 10 [] [(12%nat, 1)];
      (* 12: B *) ex_cf_block [9; 11]%nat
                    [(13%nat, -1); (14%nat, -1); (15%nat, -1); (16%nat, -1)]
                    1 (Some 0%nat) 2 4;
      (* 13 *) with_proj
                 (ex_node iro_Cmp mode_b 12 [4; 5]%nat [(14%nat, 0)]) 6;
      (* 14 *) ex_node iro_Cond mode_T 12 [13]%nat [(15%nat, 0); (16%nat, 0)];
      (* 15 *) with_proj (ex_node iro_Proj mode_X 12 [14]%nat [(10%nat, 1)]) 1;
      (* 16 *) with_proj (ex_node iro_Proj mode_X 12 [14]%nat [(17%nat, 0)]) 0;
      (* 17 *) ex_cf_block [16]%nat [(18%nat, -1)] 0 (Some 12%nat) 3 4;
      (* 18 *) ex_node iro_Return mode_X 17 [2]%nat [(19%nat, 0)];
      (* 19 *) ex_cf_block [18]%nat [(20%nat, -1)] 0 (Some 17%nat) 4 4;
      (* 20 *) ex_node iro_End mode_X 19 [] [] ]
    0 1 20 3 2 0 0 false false (mk_props true true true true true).

Definition ex_irreducible_loop : ir_loop :=
  mk_loop 1 [k_ir_node 10; k_ir_node 12].
Definition ex_irreducible_info : loop_info :=
  mk_loop_info
    (mk_loop 0 [k_ir_node 0; k_ir_loop ex_irreducible_loop; k_ir_node 17;
                k_ir_node 19])
    [mk_loop_entry 0 0; mk_loop_entry 0 1].

(** A library for the examples: the graph is in LCSSA form and has Bads
    nowhere, so that the analyses leave it alone; [info] is the loop
    information of the graph; no callee has a graph. *)
Definition ex_library (info : loop_info) : firm_library :=
  mk_library
    (fun op => bool_decide (op ∈ [iro_Add; iro_Sub; iro_Mul; iro_And; iro_Or;
                                  iro_Eor; iro_Shl; iro_Shr; iro_Shrs;
                                  iro_Cmp; iro_Div; iro_Mod]))
    (fun _ _ _ _ _ _ _ => ir_may_alias)
    (fun _ => 4)
    (fun g call => nd ← get_node g call; irn_entity nd)
    (fun _ => None)
    (fun _ => false)
    (fun _ _ => false)
    (fun _ _ => ret tt)
    (fun _ _ => false)
    (fun _ _ => None)
    (fun _ _ => false)
    (fun _ _ => ret tt)
    (fun _ => ret tt)
    (fun _ => ret tt)
    (fun g => g)
    (fun g => (g, info))
    false.

End Unroll.

(* ===================================================================== *)
(** * The type and entity verifier *)
(* ===================================================================== *)

Module Verify.
Import IR.
Local Open Scope monad_scope.

(** ** Types, entities, initializers *)

Inductive tp_opcode : Type :=
| tpo_uninitialized | tpo_struct | tpo_union | tpo_class | tpo_method
| tpo_array | tpo_pointer | tpo_primitive | tpo_code | tpo_unknown.

Global Instance tp_opcode_eq_dec : EqDecision tp_opcode.
Proof. solve_decision. Defined.

(** A type as the verifier reads it.  A compound type lists its members
    (an entity or a null pointer); an array has, per dimension, the flags
    "has a lower bound" and "has an upper bound". *)
Record ir_type : Type := mk_type {
  tp_op : tp_opcode;
  tp_mode : option ir_mode;
  tp_members : list (option nat);
  tp_n_supertypes : nat;
  tp_dimensions : list (bool * bool);
  tp_element_type : nat;
  tp_is_segment : bool;
  tp_is_frame : bool
}.

Inductive ir_initializer : Type :=
| IR_INITIALIZER_NULL
| IR_INITIALIZER_TARVAL (tv : tarval)
| IR_INITIALIZER_CONST (irg : nat) (value : nat)
| IR_INITIALIZER_COMPOUND (entries : list ir_initializer)
| IR_INITIALIZER_OTHER (kind : nat).   (* a kind outside the enumeration *)

Inductive ir_visibility : Type :=
| ir_visibility_external | ir_visibility_local | ir_visibility_private.
Global Instance ir_visibility_eq_dec : EqDecision ir_visibility.
Proof. solve_decision. Defined.

Inductive ir_entity_kind : Type :=
| IR_ENTITY_ALIAS | IR_ENTITY_COMPOUND_MEMBER | IR_ENTITY_LABEL
| IR_ENTITY_METHOD | IR_ENTITY_NORMAL | IR_ENTITY_PARAMETER
| IR_ENTITY_UNKNOWN | IR_ENTITY_GOTENTRY.
Global Instance ir_entity_kind_eq_dec : EqDecision ir_entity_kind.
Proof. solve_decision. Defined.

(** [ir_linkage] is a bit set. *)
Definition IR_LINKAGE_CONSTANT : Z := 1.
Definition IR_LINKAGE_WEAK : Z := 2.
Definition IR_LINKAGE_GARBAGE_COLLECT : Z := 4.
Definition IR_LINKAGE_MERGE : Z := 8.
Definition IR_LINKAGE_HIDDEN_USER : Z := 16.
Definition IR_LINKAGE_NO_CODEGEN : Z := 32.

Record ir_entity : Type := mk_entity {
  ent_owner : nat;
  ent_type : nat;
  ent_kind : ir_entity_kind;
  ent_n_overwrites : nat;
  ent_initializer : option ir_initializer;
  ent_linkage : Z;
  ent_visibility : ir_visibility;
  ent_has_definition : bool;
  ent_irg : option nat;              (* the graph of a method entity *)
  ent_ld_ident : option string;
  ent_peculiarity_existent : bool;
  ent_impl : option nat              (* entity behind the atomic value *)
}.

(** The program: types and entities (handles are indices), the graphs,
    the segment types and the designated graph and type. *)
Record ir_prog : Type := mk_prog {
  irp_types : list ir_type;
  irp_entities : list ir_entity;
  irp_irgs : list ir_graph;
  irp_segments : list nat;           (* IR_SEGMENT_FIRST .. IR_SEGMENT_LAST *)
  irp_constructors : nat;
  irp_destructors : nat;
  irp_thread_local : nat;
  irp_const_code_irg : nat;
  irp_code_type : nat
}.

(** ** The warning channel *)

(** One constructor per [report_error] call of the source; every report is
    one "Verify warning: ..." line on [stderr]. *)
Inductive warning : Type :=
| W_too_many_overwrites (member tp : nat)
| W_null_member (tp : nat)
| W_wrong_owner (member tp owner : nat)
| W_missing_array_bound (tp dim : nat)
| W_no_mode (tp : nat)
| W_visited_too_large (node irg : nat)
| W_initializer_wrong_mode (context : nat)
| W_initializer_not_on_const_code (value context : nat)
| W_too_many_compound_values (context : nat)
| W_compound_initializer_for_other_type (context : nat)
| W_invalid_initializer (context : nat)
| W_linkage_not_external (entity linkage : Z)
| W_linkage_just_declaration (entity linkage : Z)
| W_no_codegen_not_function (entity : nat)
| W_no_codegen_no_irg (entity : nat)
| W_no_codegen_not_external (entity : nat)
| W_alias_non_segment_owner (entity owner : nat)
| W_alias_has_initializer (entity : nat)
| W_normal_non_data_type (entity tp : nat)
| W_member_non_compound_owner (entity owner : nat)
| W_member_has_initializer (entity : nat)
| W_label_non_code_type (entity tp : nat)
| W_label_has_initializer (entity : nat)
| W_method_non_method_type (entity tp : nat)
| W_irg_entity_relation (entity irg_entity : nat)
| W_inherited_without_impl (entity : nat)
| W_parameter_non_frame_owner (entity owner : nat)
| W_parameter_non_data_type (entity tp : nat)
| W_parameter_has_initializer (entity : nat)
| W_public_segment_member_no_name (entity : nat)
| W_constructor_without_hidden_user (entity : nat)
| W_constructor_has_ld_name (entity : nat)
| W_destructor_without_hidden_user (entity : nat)
| W_destructor_has_ld_name (entity : nat)
| W_method_in_thread_local
| W_constant_in_thread_local.

(** The state of a verifier run: the program and what was written to the
    warning channel so far. *)
Record vstate : Type := mk_vstate {
  v_prog : ir_prog;
  v_log : list warning
}.

Definition V := M vstate.

Definition report_error (w : warning) : V unit :=
  modify (fun s => mk_vstate (v_prog s) (v_log s ++ [w])).

Definition get_type (tp : nat) : V ir_type :=
  gets_opt (fun s => irp_types (v_prog s) !! tp).
Definition get_entity (e : nat) : V ir_entity :=
  gets_opt (fun s => irp_entities (v_prog s) !! e).

Definition is_compound_type (t : ir_type) : bool :=
  bool_decide (tp_op t = tpo_struct) || bool_decide (tp_op t = tpo_union) ||
  bool_decide (tp_op t = tpo_class).
Definition is_Class_type (t : ir_type) : bool := bool_decide (tp_op t = tpo_class).
Definition is_Array_type (t : ir_type) : bool := bool_decide (tp_op t = tpo_array).
Definition is_Method_type (t : ir_type) : bool := bool_decide (tp_op t = tpo_method).
Definition is_method_entity (e : ir_entity) : bool :=
  bool_decide (ent_kind e = IR_ENTITY_METHOD).

(** ** Checks on types *)

Definition check_class_member (tp : nat) (entity : nat) : V bool :=
  let fine := true in
  t <- get_type tp ;;
  e <- get_entity entity ;;
  if bool_decide (tp_n_supertypes t < ent_n_overwrites e)%nat then
    report_error (W_too_many_overwrites entity tp) ;;
    ret false
  else ret fine.

Definition check_compound_type (tp : nat) : V bool :=
  t <- get_type tp ;;
  let is_class := is_Class_type t in
  (fix members (l : list (option nat)) (fine : bool) : V bool :=
     match l with
     | [] => ret fine
     | None :: l' =>
         report_error (W_null_member tp) ;;
         members l' false
     | Some member :: l' =>
         m <- get_entity member ;;
         let owner := ent_owner m in
         fine <- (if negb (bool_decide (owner = tp)) then
                    report_error (W_wrong_owner member tp owner) ;; ret false
                  else ret fine) ;;
         fine <- (if is_class then
                    c <- check_class_member tp member ;; ret (fine && c)
                  else ret fine) ;;
         members l' fine
     end) (tp_members t) true.

Definition check_array_type (tp : nat) : V bool :=
  t <- get_type tp ;;
  (fix dims (l : list (bool * bool)) (i : nat) (fine : bool) : V bool :=
     match l with
     | [] => ret fine
     | (has_lower, has_upper) :: l' =>
         if negb has_lower && negb has_upper then
           report_error (W_missing_array_bound tp i) ;;
           dims l' (S i) false
         else dims l' (S i) fine
     end) (tp_dimensions t) 0%nat true.

Definition check_type_mode (tp : nat) : V bool :=
  t <- get_type tp ;;
  match tp_mode t with
  | None => report_error (W_no_mode tp) ;; ret false
  | Some _ => ret true
  end.

Definition check_primitive_type (tp : nat) : V bool := check_type_mode tp.
Definition check_pointer_type (tp : nat) : V bool := check_type_mode tp.

Definition check_type (tp : nat) : V bool :=
  t <- get_type tp ;;
  match tp_op t with
  | tpo_union | tpo_struct | tpo_class => check_compound_type tp
  | tpo_array => check_array_type tp
  | tpo_primitive => check_primitive_type tp
  | tpo_pointer => check_pointer_type tp
  | tpo_method | tpo_uninitialized | tpo_unknown | tpo_code => ret true
  end.

(** ** Checks on initializers *)

(** The walk of [constant_on_correct_irg] runs in the const-code graph:
    reading and writing that graph inside the verifier state. *)
Definition const_code_graph (s : vstate) : ir_graph :=
  default
    (mk_graph [] 0 0 0 0 0 0 0 false false (mk_props false false false false false))
    (irp_irgs (v_prog s) !! irp_const_code_irg (v_prog s)).
Definition set_const_code_graph (g : ir_graph) (s : vstate) : vstate :=
  let p := v_prog s in
  mk_vstate
    (mk_prog (irp_types p) (irp_entities p)
       (<[irp_const_code_irg p := g]> (irp_irgs p)) (irp_segments p)
       (irp_constructors p) (irp_destructors p) (irp_thread_local p)
       (irp_const_code_irg p) (irp_code_type p))
    (v_log s).

Definition check_visited_flag (irg : nat) (n : nat) : V bool :=
  g <- gets const_code_graph ;;
  nd <- gets_opt (fun _ => get_node g n) ;;
  if bool_decide (irg_visited g < irn_visited nd)%nat then
    report_error (W_visited_too_large n irg) ;; ret false
  else ret true.

(** The state of the walk: [env->fine] beside the verifier state. *)
Definition on_irg_storage (value_irg : nat) (n : nat) : M (vstate * bool) unit :=
  fun '(s, fine) =>
    let irg := irp_const_code_irg (v_prog s) in
    (* node_is_in_irgs_storage(env->irg, n) *)
    let fine := fine && bool_decide (value_irg = irg) in
    (* We also test whether the setting of the visited flag is legal. *)
    match check_visited_flag irg n s with
    | Some (ok, s') => Some (tt, (s', fine && ok))
    | None => None
    end.

Definition constant_on_correct_irg (value_irg : nat) (n : nat) : V bool :=
  fun s =>
    let g := const_code_graph s in
    match
      (modify (fun '(s, f) =>
                 (set_const_code_graph
                    (with_irg_visited (const_code_graph s)
                       (S (irg_visited (const_code_graph s)))) s, f)) ;;
       irg_walk_2 (fun '(s, _) => const_code_graph s)
         (fun g '(s, f) => (set_const_code_graph g s, f))
         (on_irg_storage value_irg) (fun _ => ret tt)
         (S (length (irg_nodes g))) n) (s, true)
    with
    | Some (_, (s', fine)) => Some (fine, s')
    | None => None
    end.

(** The mode of the value of a Const initializer, looked up in the graph
    the value lives in. *)
Definition get_value_mode (value_irg value : nat) : V ir_mode :=
  gets_opt (fun s => g ← irp_irgs (v_prog s) !! value_irg; get_irn_mode g value).

Fixpoint check_initializer (initializer : ir_initializer) (type : nat)
    (context : nat) : V bool :=
  let fine := true in
  match initializer with
  | IR_INITIALIZER_NULL => ret fine
  | IR_INITIALIZER_TARVAL tv =>
      t <- get_type type ;;
      if negb (bool_decide (tp_mode t = Some (tv_mode tv))) then
        report_error (W_initializer_wrong_mode context) ;; ret false
      else ret fine
  | IR_INITIALIZER_CONST value_irg value =>
      t <- get_type type ;;
      m <- get_value_mode value_irg value ;;
      fine <- (if negb (bool_decide (tp_mode t = Some m)) then
                 report_error (W_initializer_wrong_mode context) ;; ret false
               else ret fine) ;;
      ok <- constant_on_correct_irg value_irg value ;;
      if negb ok then
        report_error (W_initializer_not_on_const_code value context) ;;
        ret false
      else ret fine
  | IR_INITIALIZER_COMPOUND entries =>
      t <- get_type type ;;
      let n_entries := length entries in
      if is_Array_type t then
        let element_type := tp_element_type t in
        (* the result of the check of a sub-initializer is dropped *)
        (fix subs (l : list ir_initializer) : V unit :=
           match l with
           | [] => ret tt
           | sub_initializer :: l' =>
               _ <- check_initializer sub_initializer element_type context ;;
               subs l'
           end) entries ;;
        ret fine
      else if is_compound_type t then
        let n_members := length (tp_members t) in
        fine <- (if bool_decide (n_members < n_entries)%nat then
                   report_error (W_too_many_compound_values context) ;;
                   ret false
                 else ret fine) ;;
        (fix subs (l : list ir_initializer) (ms : list (option nat)) : V unit :=
           match l, ms with
           | sub_initializer :: l', m :: ms' =>
               member <- gets_opt (fun _ => m) ;;
               me <- get_entity member ;;
               let member_type := ent_type me in
               (* again, the result is dropped *)
               _ <- check_initializer sub_initializer member_type context ;;
               subs l' ms'
           | _, _ => ret tt
           end) entries (tp_members t) ;;
        ret fine
      else
        report_error (W_compound_initializer_for_other_type context) ;;
        ret false
  | IR_INITIALIZER_OTHER _ =>
      report_error (W_invalid_initializer context) ;;
      ret false
  end.

(** ** Checks on entities *)

Definition check_external_linkage (entity : nat) (linkage : Z) : V bool :=
  let fine := true in
  e <- get_entity entity ;;
  if Z.land (ent_linkage e) linkage =? 0 then ret true
  else
    fine <- (if negb (bool_decide (ent_visibility e = ir_visibility_external))
             then report_error (W_linkage_not_external (Z.of_nat entity) linkage) ;;
                  ret false
             else ret fine) ;;
    if negb (ent_has_definition e) then
      report_error (W_linkage_just_declaration (Z.of_nat entity) linkage) ;;
      ret false
    else ret fine.

Definition is_data_type (type : nat) : V bool :=
  t <- get_type type ;;
  code <- gets (fun s => irp_code_type (v_prog s)) ;;
  ret (negb (bool_decide (type = code)) && negb (is_Method_type t)).

Definition check_entity (entity : nat) : V bool :=
  let fine := true in
  e <- get_entity entity ;;
  let initializer := ent_initializer e in
  let type := ent_type e in
  fine <- match initializer with
          | Some i => c <- check_initializer i type entity ;; ret (fine && c)
          | None => ret fine
          end ;;
  let linkage := ent_linkage e in
  fine <- (if negb (Z.land linkage IR_LINKAGE_NO_CODEGEN =? 0) then
             fine <- (if negb (is_method_entity e) then
                        report_error (W_no_codegen_not_function entity) ;;
                        ret false
                      else if bool_decide (ent_irg e = None) then
                        report_error (W_no_codegen_no_irg entity) ;;
                        ret false
                      else ret fine) ;;
             if negb (bool_decide (ent_visibility e = ir_visibility_external))
             then report_error (W_no_codegen_not_external entity) ;; ret false
             else ret fine
           else ret fine) ;;
  (* the three results are not used *)
  _ <- check_external_linkage entity IR_LINKAGE_WEAK ;;
  _ <- check_external_linkage entity IR_LINKAGE_GARBAGE_COLLECT ;;
  _ <- check_external_linkage entity IR_LINKAGE_MERGE ;;
  let owner := ent_owner e in
  code <- gets (fun s => irp_code_type (v_prog s)) ;;
  match ent_kind e with
  | IR_ENTITY_ALIAS =>
      ot <- get_type owner ;;
      fine <- (if negb (tp_is_segment ot) then
                 report_error (W_alias_non_segment_owner entity owner) ;;
                 ret false
               else ret fine) ;;
      if negb (bool_decide (initializer = None)) then
        report_error (W_alias_has_initializer entity) ;; ret false
      else ret fine
  | IR_ENTITY_NORMAL =>
      d <- is_data_type type ;;
      if negb d then
        report_error (W_normal_non_data_type entity type) ;; ret false
      else ret fine
  | IR_ENTITY_COMPOUND_MEMBER =>
      ot <- get_type owner ;;
      fine <- (if negb (is_compound_type ot) then
                 report_error (W_member_non_compound_owner entity owner) ;;
                 ret false
               else ret fine) ;;
      if negb (bool_decide (initializer = None)) then
        report_error (W_member_has_initializer entity) ;; ret false
      else ret fine
  | IR_ENTITY_LABEL =>
      fine <- (if negb (bool_decide (type = code)) then
                 report_error (W_label_non_code_type entity type) ;;
                 ret false
               else ret fine) ;;
      if negb (bool_decide (initializer = None)) then
        report_error (W_label_has_initializer entity) ;; ret false
      else ret fine
  | IR_ENTITY_METHOD =>
      tt_ <- get_type type ;;
      fine <- (if negb (is_Method_type tt_) then
                 report_error (W_method_non_method_type entity type) ;;
                 ret false
               else ret fine) ;;
      fine <- match ent_irg e with
              | Some irg =>
                  g <- gets_opt (fun s => irp_irgs (v_prog s) !! irg) ;;
                  let irg_entity := irg_entity g in
                  if negb (bool_decide (irg_entity = entity)) then
                    report_error (W_irg_entity_relation entity irg_entity) ;;
                    ret false
                  else ret fine
              | None => ret fine
              end ;;
      if ent_peculiarity_existent e then
        match ent_impl e with
        | None => report_error (W_inherited_without_impl entity) ;; ret false
        | Some _ => ret fine
        end
      else ret fine
  | IR_ENTITY_PARAMETER =>
      ot <- get_type owner ;;
      fine <- (if negb (tp_is_frame ot) then
                 report_error (W_parameter_non_frame_owner entity owner) ;;
                 ret false
               else ret fine) ;;
      d <- is_data_type type ;;
      fine <- (if negb d then
                 report_error (W_parameter_non_data_type entity type) ;;
                 ret false
               else ret fine) ;;
      if negb (bool_decide (initializer = None)) then
        report_error (W_parameter_has_initializer entity) ;; ret false
      else ret fine
  | IR_ENTITY_UNKNOWN | IR_ENTITY_GOTENTRY => ret fine
  end.

(** [check_tore]: the callback of the type walk; [env] is the flag. *)
Definition check_tore (type : option nat) (entity : nat) (fine : bool) : V bool :=
  match type with
  | Some tp => c <- check_type tp ;; ret (fine && c)
  | None => c <- check_entity entity ;; ret (fine && c)
  end.

(** Modelled from the spec: the type walker is not among the sources.
    "Type/entity walk: for each type and entity in the program, invoke a
    callback."  The types are visited before the entities. *)
Definition type_walk (fine : bool) : V bool :=
  n_types <- gets (fun s => length (irp_types (v_prog s))) ;;
  n_entities <- gets (fun s => length (irp_entities (v_prog s))) ;;
  fine <- (fix types (l : list nat) (fine : bool) : V bool :=
             match l with
             | [] => ret fine
             | tp :: l' => fine <- check_tore (Some tp) 0%nat fine ;; types l' fine
             end) (seq 0 n_types) fine ;;
  (fix entities (l : list nat) (fine : bool) : V bool :=
     match l with
     | [] => ret fine
     | e :: l' => fine <- check_tore None e fine ;; entities l' fine
     end) (seq 0 n_entities) fine.

(** A loop over the members of a segment type. *)
Definition for_members (tp : nat) (body : nat -> bool -> V bool) (fine : bool)
  : V bool :=
  t <- get_type tp ;;
  (fix members (l : list (option nat)) (fine : bool) : V bool :=
     match l with
     | [] => ret fine
     | m :: l' =>
         entity <- gets_opt (fun _ => m) ;;
         fine <- body entity fine ;;
         members l' fine
     end) (tp_members t) fine.

Definition get_entity_ld_name (e : ir_entity) : string :=
  default EmptyString (ent_ld_ident e).

Definition tr_verify : V bool :=
  let fine := true in
  fine <- type_walk fine ;;
  segments <- gets (fun s => irp_segments (v_prog s)) ;;
  fine <- (fix segs (l : list nat) (fine : bool) : V bool :=
             match l with
             | [] => ret fine
             | type :: l' =>
                 fine <- for_members type
                   (fun entity fine =>
                      e <- get_entity entity ;;
                      if bool_decide (ent_ld_ident e = None) &&
                         negb (bool_decide (ent_visibility e = ir_visibility_private))
                      then report_error (W_public_segment_member_no_name entity) ;;
                           ret false
                      else ret fine) fine ;;
                 segs l' fine
             end) segments fine ;;
  constructors <- gets (fun s => irp_constructors (v_prog s)) ;;
  fine <- for_members constructors
    (fun entity fine =>
       e <- get_entity entity ;;
       fine <- (if Z.land (ent_linkage e) IR_LINKAGE_HIDDEN_USER =? 0 then
                  report_error (W_constructor_without_hidden_user entity) ;;
                  ret false
                else ret fine) ;;
       (* Mach-O doesn't like labels in this section *)
       if negb (bool_decide (get_entity_ld_name e = EmptyString)) then
         report_error (W_constructor_has_ld_name entity) ;; ret false
       else ret fine) fine ;;
  destructors <- gets (fun s => irp_destructors (v_prog s)) ;;
  fine <- for_members destructors
    (fun entity fine =>
       e <- get_entity entity ;;
       fine <- (if Z.land (ent_linkage e) IR_LINKAGE_HIDDEN_USER =? 0 then
                  report_error (W_destructor_without_hidden_user entity) ;;
                  ret false
                else ret fine) ;;
       if negb (bool_decide (get_entity_ld_name e = EmptyString)) then
         report_error (W_destructor_has_ld_name entity) ;; ret false
       else ret fine) fine ;;
  thread_locals <- gets (fun s => irp_thread_local (v_prog s)) ;;
  for_members thread_locals
    (fun entity fine =>
       e <- get_entity entity ;;
       (* this is odd and should not be allowed I think *)
       fine <- (if is_method_entity e then
                  report_error W_method_in_thread_local ;; ret false
                else ret fine) ;;
       if negb (Z.land (ent_linkage e) IR_LINKAGE_CONSTANT =? 0) then
         report_error W_constant_in_thread_local ;; ret false
       else ret fine) fine.

(** *** A program with two flawed globals

    Entity 0 is a weak global [int] that is not externally visible; entity
    1 is an [int] array whose compound initializer holds an unsigned
    value. *)
Definition ex_segment (members : list (option nat)) : ir_type :=
  mk_type tpo_struct None members 0 [] 0 true false.

Definition ex_global (tp : nat) (init : option ir_initializer) (linkage : Z)
    (name : string) : ir_entity :=
  mk_entity 1 tp IR_ENTITY_NORMAL 0 init linkage ir_visibility_local true None
    (Some name) false None.

Definition ex_types : list ir_type :=
  [ mk_type tpo_primitive (Some mode_Is) [] 0 [] 0 false false;
    ex_segment [Some 0%nat; Some 1%nat];           (* the global segment *)
    mk_type tpo_code None [] 0 [] 0 false false;
    mk_type tpo_array None [] 0 [(true, true)] 0 false false;
    ex_segment []; ex_segment []; ex_segment [] ].

Definition ex_const_code_irg : ir_graph :=
  mk_graph [] 0 0 0 0 0 0 0 false false (mk_props false false false false false).

Definition ex_weak_prog : ir_prog :=
  mk_prog ex_types
    [ ex_global 0 None IR_LINKAGE_WEAK "x";
      ex_global 0 None 0 "y" ]
    [ex_const_code_irg] [1; 4; 5; 6]%nat 5 6 4 0 2.

Definition ex_nested_prog : ir_prog :=
  mk_prog ex_types
    [ ex_global 0 None 0 "x";
      ex_global 3
        (Some (IR_INITIALIZER_COMPOUND
                 [IR_INITIALIZER_TARVAL (mk_tarval mode_Iu 5)])) 0 "a" ]
    [ex_const_code_irg] [1; 4; 5; 6]%nat 5 6 4 0 2.

End Verify.

(* ===================================================================== *)
(** * Lowering of double-word operations *)
(* ===================================================================== *)

Module LowerDW.
Import IR.
Local Open Scope monad_scope.

(** ** Method types and entities *)

Inductive tp_opcode : Type :=
| tpo_primitive | tpo_method | tpo_struct | tpo_pointer | tpo_other.
Global Instance tp_opcode_eq_dec : EqDecision tp_opcode.
Proof. solve_decision. Defined.

(** A type as the lowering reads it: the mode of a primitive type; the
    parameter and result types of a method type (a slot is null until it
    is set), its parameter names, its value-parameter type with one entity
    per parameter; the "is lowered" flag and the associated type. *)
Record ir_type : Type := mk_type {
  tp_op : tp_opcode;
  tp_mode : option ir_mode;
  tp_lowered : bool;
  tp_assoc : option nat;
  mt_params : list (option nat);
  mt_ress : list (option nat);
  mt_param_idents : list (option string);
  mt_value_params : option nat;
  mt_value_ents : list nat
}.

Record ir_entity : Type := mk_entity {
  ent_ident : string;
  ent_ld_ident : option string;
  ent_owner : nat;
  ent_type : nat;
  ent_link : option Z
}.

(** The program: the mode registry, types, entities and graphs (handles
    are indices), and the global type. *)
Record ir_prog : Type := mk_prog {
  irp_modes : list ir_mode;
  irp_types : list ir_type;
  irp_entities : list ir_entity;
  irp_irgs : list ir_graph;
  irp_glob_type : nat
}.

(** ** The transformation parameter *)

(** [lwrdw_param_t]: the double-word size, the byte order and the factory
    for the entities of the emulation functions, a function on the
    program that returns the entity. *)
Record lwrdw_param_t : Type := mk_param {
  little_endian : bool;
  doubleword_size : Z;
  create_intrinsic :
    nat -> ir_opcode -> ir_mode -> ir_mode -> ir_prog -> option (nat * ir_prog)
}.

(** ** The static data of the file *)

(** An entry in the (op, imode, omode) -> entity map. *)
Record op_mode_entry_t : Type := mk_op_mode_entry {
  ome_op : ir_opcode;
  ome_imode : ir_mode;
  ome_omode : ir_mode;
  ome_ent : nat
}.

(** An entry in the (imode, omode) -> tp map. *)
Record conv_tp_entry_t : Type := mk_conv_tp_entry {
  cte_imode : ir_mode;
  cte_omode : ir_mode;
  cte_mtd : nat
}.

(** The file-level variables: the three maps (null until created) and the
    cached types of the intrinsics. *)
Record lower_statics : Type := mk_statics {
  intrinsic_fkt : option (list op_mode_entry_t);
  conv_types : option (list conv_tp_entry_t);
  lowered_type : option (gmap nat nat);
  binop_tp_u : option nat;
  binop_tp_s : option nat;
  unop_tp_u : option nat;
  unop_tp_s : option nat;
  shiftop_tp_u : option nat;
  shiftop_tp_s : option nat;
  tp_s : option nat;
  tp_u : option nat
}.

Definition no_statics : lower_statics :=
  mk_statics None None None None None None None None None None None.

(** ** The lower environment *)

(** "Every double word node will be replaced, we need some store to hold
    the replacement". *)
Record node_entry_t : Type := mk_entry {
  low_word : option nat;
  high_word : option nat
}.

(** [lower_env_t].  [entries] has [n_entries] slots, a slot is null or an
    entry; the two flags are [MUST_BE_LOWERED] and [CF_CHANGED]. *)
Record lower_env_t : Type := mk_env {
  entries : list (option node_entry_t);
  l_mtp : option nat;
  tv_mode_bytes : tarval;
  tv_mode_bits : tarval;
  waitq : list nat;
  proj_2_block : gmap nat nat;
  high_signed : ir_mode;
  high_unsigned : ir_mode;
  low_signed : ir_mode;
  low_unsigned : ir_mode;
  first_id : string;
  next_id : string;
  params : lwrdw_param_t;
  must_be_lowered : bool;
  cf_changed : bool;
  value_param_tp : option nat
}.

Definition n_entries (env : lower_env_t) : nat := length (entries env).

(** The state of the pass: the program, the graph being lowered, the
    static data and the environment. *)
Record lstate : Type := mk_lstate {
  ls_prog : ir_prog;
  ls_irg : ir_graph;
  ls_statics : lower_statics;
  ls_env : lower_env_t
}.

Definition L := M lstate.

Definition with_prog (s : lstate) (p : ir_prog) : lstate :=
  mk_lstate p (ls_irg s) (ls_statics s) (ls_env s).
Definition with_irg (s : lstate) (g : ir_graph) : lstate :=
  mk_lstate (ls_prog s) g (ls_statics s) (ls_env s).
Definition with_statics (s : lstate) (st : lower_statics) : lstate :=
  mk_lstate (ls_prog s) (ls_irg s) st (ls_env s).
Definition with_env (s : lstate) (e : lower_env_t) : lstate :=
  mk_lstate (ls_prog s) (ls_irg s) (ls_statics s) e.

Definition env_with_entries (e : lower_env_t) (l : list (option node_entry_t))
  : lower_env_t :=
  mk_env l (l_mtp e) (tv_mode_bytes e) (tv_mode_bits e) (waitq e)
    (proj_2_block e) (high_signed e) (high_unsigned e) (low_signed e)
    (low_unsigned e) (first_id e) (next_id e) (params e) (must_be_lowered e)
    (cf_changed e) (value_param_tp e).
Definition env_with_waitq (e : lower_env_t) (q : list nat) : lower_env_t :=
  mk_env (entries e) (l_mtp e) (tv_mode_bytes e) (tv_mode_bits e) q
    (proj_2_block e) (high_signed e) (high_unsigned e) (low_signed e)
    (low_unsigned e) (first_id e) (next_id e) (params e) (must_be_lowered e)
    (cf_changed e) (value_param_tp e).
Definition env_with_proj_2_block (e : lower_env_t) (m : gmap nat nat)
  : lower_env_t :=
  mk_env (entries e) (l_mtp e) (tv_mode_bytes e) (tv_mode_bits e) (waitq e)
    m (high_signed e) (high_unsigned e) (low_signed e)
    (low_unsigned e) (first_id e) (next_id e) (params e) (must_be_lowered e)
    (cf_changed e) (value_param_tp e).
Definition env_with_flags (e : lower_env_t) (must cf : bool) : lower_env_t :=
  mk_env (entries e) (l_mtp e) (tv_mode_bytes e) (tv_mode_bits e) (waitq e)
    (proj_2_block e) (high_signed e) (high_unsigned e) (low_signed e)
    (low_unsigned e) (first_id e) (next_id e) (params e) must cf
    (value_param_tp e).
Definition env_with_mtp (e : lower_env_t) (l : option nat) (v : option nat)
  : lower_env_t :=
  mk_env (entries e) l (tv_mode_bytes e) (tv_mode_bits e) (waitq e)
    (proj_2_block e) (high_signed e) (high_unsigned e) (low_signed e)
    (low_unsigned e) (first_id e) (next_id e) (params e) (must_be_lowered e)
    (cf_changed e) v.

(** *** Reading and writing the parts of the state *)

Definition env_get {A} (f : lower_env_t -> A) : L A :=
  gets (fun s => f (ls_env s)).
Definition env_modify (f : lower_env_t -> lower_env_t) : L unit :=
  modify (fun s => with_env s (f (ls_env s))).
(** A read of the graph that fails where the C code has no node. *)
Definition irg_get {A} (f : ir_graph -> option A) : L A :=
  gets_opt (fun s => f (ls_irg s)).
Definition irg_read {A} (f : ir_graph -> A) : L A :=
  gets (fun s => f (ls_irg s)).
Definition irg_modify (f : ir_graph -> option ir_graph) : L unit :=
  modify_opt (fun s => with_irg s <$> f (ls_irg s)).
Definition node_of (n : nat) : L ir_node := irg_get (fun g => get_node g n).

(** [env->entries[idx]]: no slot for [idx] is a read outside the array. *)
Definition get_entry (idx : nat) : L (option node_entry_t) :=
  gets_opt (fun s => entries (ls_env s) !! idx).
(** [env->entries[idx]->low_word = l; env->entries[idx]->high_word = h]. *)
Definition set_entry_words (idx : nat) (l h : option nat) : L unit :=
  e <- get_entry idx ;;
  match e with
  | None => fail
  | Some _ =>
      env_modify (fun env =>
        env_with_entries env (<[idx := Some (mk_entry l h)]> (entries env)))
  end.
(** [pdeq_putr(env->waitq, node)]. *)
Definition pdeq_putr (node : nat) : L unit :=
  env_modify (fun env => env_with_waitq env (waitq env ++ [node])).

Definition is_high_mode (env : lower_env_t) (m : ir_mode) : bool :=
  mode_eqb m (high_signed env) || mode_eqb m (high_unsigned env).

(** *** Node constructors (see [IR.new_ir_node]) *)

Definition new_node (nd : ir_node) : L nat :=
  s <- get ;;
  let '(idx, g) := new_ir_node (ls_irg s) nd in
  put (with_irg s g) ;; ret idx.

Definition start_block : L nat := irg_read irg_start_block.

Definition new_r_Const (tv : tarval) : L nat :=
  b <- start_block ;;
  new_node (with_tv (default_node iro_Const (tv_mode tv) (Some b) []) (Some tv)).
Definition new_r_Const_long (m : ir_mode) (value : Z) : L nat :=
  new_r_Const (new_tarval_from_long value m).
Definition new_r_binop (op : ir_opcode) (block left right : nat) (m : ir_mode)
  : L nat :=
  new_node (default_node op m (Some block) [left; right]).
Definition new_r_Add := new_r_binop iro_Add.
Definition new_r_Sub := new_r_binop iro_Sub.
Definition new_r_Shl := new_r_binop iro_Shl.
Definition new_r_Shr := new_r_binop iro_Shr.
Definition new_r_Shrs := new_r_binop iro_Shrs.
Definition new_r_And := new_r_binop iro_And.
Definition new_r_Or := new_r_binop iro_Or.
Definition new_r_Eor := new_r_binop iro_Eor.
Definition new_r_Conv (block op : nat) (m : ir_mode) : L nat :=
  new_node (default_node iro_Conv m (Some block) [op]).
Definition new_r_Not (block op : nat) (m : ir_mode) : L nat :=
  new_node (default_node iro_Not m (Some block) [op]).
Definition new_r_Cmp (block left right : nat) : L nat :=
  new_node (default_node iro_Cmp mode_T (Some block) [left; right]).
Definition new_r_Cond (block sel : nat) : L nat :=
  new_node (default_node iro_Cond mode_T (Some block) [sel]).
Definition new_r_Proj (pred : nat) (m : ir_mode) (nr : Z) : L nat :=
  blk <- irg_get (fun g => irn_block <$> get_node g pred) ;;
  new_node (with_proj (default_node iro_Proj m blk [pred]) nr).
Definition new_r_Load (block mem adr : nat) (m : ir_mode) (volatile : bool)
  : L nat :=
  new_node (with_ld (default_node iro_Load mode_T (Some block) [mem; adr])
              (Some m) volatile).
Definition new_r_Store (block mem adr value : nat) (volatile : bool) : L nat :=
  new_node (with_ld (default_node iro_Store mode_T (Some block) [mem; adr; value])
              None volatile).
Definition new_r_Call (block mem ptr : nat) (ins : list nat) (tp : nat) : L nat :=
  new_node (with_type (default_node iro_Call mode_T (Some block) (mem :: ptr :: ins))
              (Some tp)).
Definition new_r_Block (ins : list nat) : L nat :=
  new_node (default_node iro_Block mode_BB None ins).
Definition new_r_Phi (block : nat) (ins : list nat) (m : ir_mode) : L nat :=
  new_node (default_node iro_Phi m (Some block) ins).
Definition new_r_Mux (block sel f t : nat) (m : ir_mode) : L nat :=
  new_node (default_node iro_Mux m (Some block) [sel; f; t]).
Definition new_r_Unknown (m : ir_mode) : L nat :=
  b <- start_block ;;
  new_node (default_node iro_Unknown m (Some b) []).
Definition new_r_Dummy (m : ir_mode) : L nat :=
  b <- start_block ;;
  new_node (default_node iro_Dummy m (Some b) []).
Definition new_r_SymConst (m : ir_mode) (ent : nat) : L nat :=
  b <- start_block ;;
  new_node (with_entity (default_node iro_SymConst m (Some b) []) (Some ent)).

Definition set_irn_pinned (n : nat) (p : bool) : L unit :=
  irg_modify (fun g => update_node g n (fun nd => with_pinned nd p)).
Definition get_irn_pinned (n : nat) : L bool :=
  nd <- node_of n ;; ret (irn_pinned nd).

(** Input positions and Proj numbers of the opcodes. *)
Definition pn_Load_M : Z := 0.
Definition pn_Load_X_except : Z := 2.
Definition pn_Load_res : Z := 3.
Definition pn_Store_M : Z := 0.
Definition pn_Store_X_except : Z := 2.
Definition pn_Call_M : Z := 0.
Definition pn_Call_X_except : Z := 2.
Definition pn_Call_T_result : Z := 3.
Definition pn_Div_M : Z := 0.
Definition pn_Div_X_except : Z := 2.
Definition pn_Div_res : Z := 3.
Definition pn_Mod_M : Z := 0.
Definition pn_Mod_X_except : Z := 2.
Definition pn_Mod_res : Z := 3.
Definition pn_DivMod_M : Z := 0.
Definition pn_DivMod_X_except : Z := 2.
Definition pn_DivMod_res_div : Z := 3.
Definition pn_DivMod_res_mod : Z := 4.
Definition pn_Cond_false : Z := 0.
Definition pn_Cond_true : Z := 1.
Definition pn_Cmp_Eq : Z := 1.
Definition pn_Cmp_Lg : Z := 6.

Definition get_in (n i : nat) : L nat := irg_get (fun g => get_irn_n g n i).
Definition get_binop_left (n : nat) : L nat := get_in n 0.
Definition get_binop_right (n : nat) : L nat := get_in n 1.
Definition get_Cmp_left (n : nat) : L nat := get_in n 0.
Definition get_Cmp_right (n : nat) : L nat := get_in n 1.
Definition get_Proj_pred (n : nat) : L nat := get_in n 0.
Definition get_Proj_proj (n : nat) : L Z :=
  nd <- node_of n ;; ret (irn_proj nd).
Definition set_Proj_pred (n pred : nat) : L unit :=
  irg_modify (fun g => set_irn_n g n 0 pred).
Definition set_Proj_proj (n : nat) (nr : Z) : L unit :=
  irg_modify (fun g => update_node g n (fun nd => with_proj nd nr)).
Definition mode_of (n : nat) : L ir_mode := irg_get (fun g => get_irn_mode g n).
Definition block_of (n : nat) : L nat := irg_get (fun g => get_nodes_block g n).
Definition mark_visited (n : nat) : L unit :=
  irg_modify (fun g => mark_irn_visited g n).

(** The traversal of a Proj chain,
    [for (proj = get_irn_link(node); proj; proj = get_irn_link(proj))]:
    the next link is read after the body has run.  A chain cannot be
    longer than the graph has nodes, unless it is cyclic. *)
Fixpoint for_links_from (fuel : nat) (p : option nat) (body : nat -> L unit)
  : L unit :=
  match p with
  | None => ret tt
  | Some proj =>
      match fuel with
      | O => fail
      | S fuel' =>
          body proj ;;
          next <- irg_get (fun g => get_irn_link g proj) ;;
          for_links_from fuel' next body
      end
  end.
Definition for_links (node : nat) (body : nat -> L unit) : L unit :=
  first <- irg_get (fun g => get_irn_link g node) ;;
  fuel <- irg_read (fun g => length (irg_nodes g)) ;;
  for_links_from fuel first body.

(** ** Control-flow inputs *)

(** "Add an additional control flow input to a block.  Patch all Phi
    nodes.  The new Phi inputs are copied from old input number nr." *)
Definition add_block_cf_input_nr (block : nat) (nr : nat) (cf : nat) : L unit :=
  blk <- node_of block ;;
  let arity := length (irn_in blk) in
  assert (bool_decide (nr < arity)%nat) ;;
  irg_modify (fun g => set_irn_in g block (irn_in blk ++ [cf])) ;;
  phis <- irg_get (fun g => get_Block_phis g block) ;;
  for_each phis
    (fun phi =>
       p <- node_of phi ;;
       (* in[i] = get_irn_n(phi, i) for i < arity *)
       assert (bool_decide (arity <= length (irn_in p))%nat) ;;
       let ins := take arity (irn_in p) in
       copied <- gets_opt (fun _ => ins !! nr) ;;
       irg_modify (fun g => set_irn_in g phi (ins ++ [copied]))).

(** "Add an additional control flow input to a block.  Patch all Phi
    nodes.  The new Phi inputs are copied from old input from cf tmpl." *)
Definition add_block_cf_input (block : nat) (tmpl : nat) (cf : nat) : L unit :=
  blk <- node_of block ;;
  match list_find (fun x => x = tmpl) (irn_in blk) with
  | Some (nr, _) => add_block_cf_input_nr block nr cf
  | None => fail
  end.

(** ** Operational modes and the preparation walk *)

(** "Return the operational mode of a Firm node." *)
Definition get_irn_op_mode (node : nat) : L ir_mode :=
  nd <- node_of node ;;
  match irn_op nd with
  | iro_Load => gets_opt (fun _ => irn_ld_mode nd)
  | iro_Store => v <- get_in node 2 ;; mode_of v
  | iro_DivMod | iro_Div | iro_Mod => l <- get_in node 1 ;; mode_of l
  | iro_Cmp => l <- get_in node 0 ;; mode_of l
  | _ => ret (irn_mode nd)
  end.

(** [prepare_links]: "Walker, prepare the node links." *)
Definition prepare_links (node : nat) : L unit :=
  mode <- get_irn_op_mode node ;;
  lenv <- env_get id ;;
  nd <- node_of node ;;
  let common : L unit :=
    if bool_decide (irn_op nd = iro_Proj) then
      (* link all Proj nodes to its predecessor *)
      pred <- get_Proj_pred node ;;
      pl <- irg_get (fun g => get_irn_link g pred) ;;
      irg_modify (fun g => set_irn_link g node pl) ;;
      irg_modify (fun g => set_irn_link g pred (Some node))
    else if bool_decide (irn_op nd = iro_Phi) then
      (* link all Phi nodes to its block *)
      block <- block_of node ;;
      irg_modify (fun g => add_Block_phi g block node)
    else if bool_decide (irn_op nd = iro_Block) then
      (* fill the Proj -> Block map *)
      for_each (rev (seq 0 (length (irn_in nd))))
        (fun i =>
           pred <- get_in node i ;;
           is_proj <- irg_read (fun g => is_Proj g pred) ;;
           when is_proj
             (env_modify (fun env =>
                env_with_proj_2_block env (<[pred := node]> (proj_2_block env)))))
    else ret tt in
  if is_high_mode lenv mode then
    (* ok, found a node that will be lowered *)
    let idx := node in
    (if bool_decide (n_entries lenv <= idx)%nat then
       (* enlarge: this happens only for Rotl nodes which is RARELY *)
       let n_idx := (idx + Nat.shiftr idx 3)%nat in
       env_modify (fun env =>
         env_with_entries env
           (take n_idx (entries env) ++
            replicate (n_idx - n_entries env) None))
     else ret tt) ;;
    ok <- env_get (fun env => bool_decide (idx < n_entries env)%nat) ;;
    assert ok ;;
    env_modify (fun env =>
      env_with_flags
        (env_with_entries env (<[idx := Some (mk_entry None None)]> (entries env)))
        true (cf_changed env)) ;;
    common
  else if bool_decide (irn_op nd = iro_Conv) then
    (* Conv nodes have two modes *)
    pred <- get_in node 0 ;;
    mode <- mode_of pred ;;
    when (is_high_mode lenv mode)
      (* must lower this node either but don't need a link *)
      (env_modify (fun env => env_with_flags env true (cf_changed env)))
  else common.

(** ** Types and entities of the program *)

Definition prog_get {A} (f : ir_prog -> option A) : L A :=
  gets_opt (fun s => f (ls_prog s)).
Definition prog_modify (f : ir_prog -> option ir_prog) : L unit :=
  modify_opt (fun s => with_prog s <$> f (ls_prog s)).
Definition statics_get {A} (f : lower_statics -> option A) : L A :=
  gets_opt (fun s => f (ls_statics s)).
Definition statics_modify (f : lower_statics -> lower_statics) : L unit :=
  modify (fun s => with_statics s (f (ls_statics s))).

Definition get_type (tp : nat) : L ir_type :=
  prog_get (fun p => irp_types p !! tp).
Definition get_entity (e : nat) : L ir_entity :=
  prog_get (fun p => irp_entities p !! e).
Definition prog_with_types (p : ir_prog) (l : list ir_type) : ir_prog :=
  mk_prog (irp_modes p) l (irp_entities p) (irp_irgs p) (irp_glob_type p).
Definition prog_with_entities (p : ir_prog) (l : list ir_entity) : ir_prog :=
  mk_prog (irp_modes p) (irp_types p) l (irp_irgs p) (irp_glob_type p).
Definition prog_with_irgs (p : ir_prog) (l : list ir_graph) : ir_prog :=
  mk_prog (irp_modes p) (irp_types p) (irp_entities p) l (irp_glob_type p).
Definition prog_with_modes (p : ir_prog) (l : list ir_mode) : ir_prog :=
  mk_prog l (irp_types p) (irp_entities p) (irp_irgs p) (irp_glob_type p).

Definition update_type (tp : nat) (f : ir_type -> ir_type) : L unit :=
  prog_modify (fun p =>
    match irp_types p !! tp with
    | Some t => Some (prog_with_types p (<[tp := f t]> (irp_types p)))
    | None => None
    end).
Definition update_entity (e : nat) (f : ir_entity -> ir_entity) : L unit :=
  prog_modify (fun p =>
    match irp_entities p !! e with
    | Some x => Some (prog_with_entities p (<[e := f x]> (irp_entities p)))
    | None => None
    end).
Definition new_type (t : ir_type) : L nat :=
  p <- gets ls_prog ;;
  modify (fun s => with_prog s (prog_with_types p (irp_types p ++ [t]))) ;;
  ret (length (irp_types p)).
(** Modelled from the spec: the type and entity constructors are not among
    the sources; entities and types are created at the end of their
    tables. *)
Definition new_entity (owner : nat) (id : string) (tp : nat) : L nat :=
  p <- gets ls_prog ;;
  modify (fun s =>
    with_prog s (prog_with_entities p
                   (irp_entities p ++ [mk_entity id None owner tp None]))) ;;
  ret (length (irp_entities p)).

Definition is_Primitive_type (t : ir_type) : bool :=
  bool_decide (tp_op t = tpo_primitive).
Definition is_lowered_type (t : ir_type) : bool := tp_lowered t.

(** The parameter (or result) type at position [i] is a primitive type of
    a double-word mode. *)
Definition slot_is_high (env : lower_env_t) (p : ir_prog) (slot : option nat)
  : option bool :=
  tp ← slot;
  t ← irp_types p !! tp;
  Some (if is_Primitive_type t
        then match tp_mode t with
             | Some m => is_high_mode env m
             | None => false
             end
        else false).
(** The primitive type at [slot] has exactly the mode [m]. *)
Definition slot_has_mode (p : ir_prog) (slot : option nat) (m : ir_mode)
  : option bool :=
  tp ← slot;
  t ← irp_types p !! tp;
  Some (is_Primitive_type t && bool_decide (tp_mode t = Some m)).

(** [new_type_method(n_param, n_res)]: the slots are null. *)
Definition new_type_method (n_param n_res : nat) : L nat :=
  new_type (mk_type tpo_method None false None (replicate n_param None)
              (replicate n_res None) (replicate n_param None) None []).
Definition with_params (t : ir_type) (l : list (option nat)) : ir_type :=
  mk_type (tp_op t) (tp_mode t) (tp_lowered t) (tp_assoc t) l (mt_ress t)
    (mt_param_idents t) (mt_value_params t) (mt_value_ents t).
Definition with_ress (t : ir_type) (l : list (option nat)) : ir_type :=
  mk_type (tp_op t) (tp_mode t) (tp_lowered t) (tp_assoc t) (mt_params t) l
    (mt_param_idents t) (mt_value_params t) (mt_value_ents t).
Definition with_param_idents (t : ir_type) (l : list (option string)) : ir_type :=
  mk_type (tp_op t) (tp_mode t) (tp_lowered t) (tp_assoc t) (mt_params t)
    (mt_ress t) l (mt_value_params t) (mt_value_ents t).
Definition with_value_params (t : ir_type) (v : option nat) (ents : list nat)
  : ir_type :=
  mk_type (tp_op t) (tp_mode t) (tp_lowered t) (tp_assoc t) (mt_params t)
    (mt_ress t) (mt_param_idents t) v ents.
Definition with_lowered (t : ir_type) (flag : bool) (assoc : option nat)
  : ir_type :=
  mk_type (tp_op t) (tp_mode t) flag assoc (mt_params t)
    (mt_ress t) (mt_param_idents t) (mt_value_params t) (mt_value_ents t).

Definition set_method_param_type (mtd i tp : nat) : L unit :=
  t <- get_type mtd ;;
  assert (bool_decide (i < length (mt_params t))%nat) ;;
  update_type mtd (fun t => with_params t (<[i := Some tp]> (mt_params t))).
Definition set_method_res_type (mtd i tp : nat) : L unit :=
  t <- get_type mtd ;;
  assert (bool_decide (i < length (mt_ress t))%nat) ;;
  update_type mtd (fun t => with_ress t (<[i := Some tp]> (mt_ress t))).
Definition set_method_param_ident (mtd i : nat) (id : string) : L unit :=
  t <- get_type mtd ;;
  assert (bool_decide (i < length (mt_param_idents t))%nat) ;;
  update_type mtd
    (fun t => with_param_idents t (<[i := Some id]> (mt_param_idents t))).
Definition set_entity_ident (e : nat) (id : string) : L unit :=
  update_entity e
    (fun x => mk_entity id (ent_ld_ident x) (ent_owner x) (ent_type x) (ent_link x)).
Definition set_entity_link (e : nat) (l : Z) : L unit :=
  update_entity e
    (fun x => mk_entity (ent_ident x) (ent_ld_ident x) (ent_owner x) (ent_type x)
                (Some l)).
Definition set_entity_type (e tp : nat) : L unit :=
  update_entity e
    (fun x => mk_entity (ent_ident x) (ent_ld_ident x) (ent_owner x) tp (ent_link x)).

(** Modelled from the spec: [set_lowered_type] is not among the sources.
    "Store the original->lowered mapping and mark the lowered type as
    is-lowered": the lowered type gets the flag, and each of the two types
    becomes the associated type of the other. *)
Definition set_lowered_type (tp lowered : nat) : L unit :=
  update_type lowered (fun t => with_lowered t true (Some tp)) ;;
  update_type tp (fun t => with_lowered t (tp_lowered t) (Some lowered)).
Definition get_associated_type (tp : nat) : L nat :=
  t <- get_type tp ;; gets_opt (fun _ => tp_assoc t).

(** Modelled from the spec: [get_type_for_mode] is not among the sources;
    it gives the primitive type of a mode and creates it on first use. *)
Definition get_type_for_mode (m : ir_mode) : L nat :=
  p <- gets ls_prog ;;
  match list_find (fun t => tp_op t = tpo_primitive /\ tp_mode t = Some m)
          (irp_types p) with
  | Some (i, _) => ret i
  | None => new_type (mk_type tpo_primitive (Some m) false None [] [] [] None [])
  end.

(** Modelled from the spec: [get_method_value_param_ent] is not among the
    sources.  The value-parameter type of a method type is a compound type
    with one entity per parameter; it is built when first asked for. *)
Definition get_method_value_param_ent (method pos : nat) : L nat :=
  t <- get_type method ;;
  (match mt_value_params t with
   | Some _ => ret tt
   | None =>
       vt <- new_type (mk_type tpo_struct None false None [] [] [] None []) ;;
       ents <- (fix build (l : list (option nat * option string)) (acc : list nat)
                  : L (list nat) :=
                  match l with
                  | [] => ret acc
                  | (tp, id) :: l' =>
                      e <- new_entity vt (default "elt"%string id) (default vt tp) ;;
                      build l' (acc ++ [e])
                  end) (zip (mt_params t) (mt_param_idents t)) [] ;;
       update_type method (fun t => with_value_params t (Some vt) ents)
   end) ;;
  t <- get_type method ;;
  gets_opt (fun _ => mt_value_ents t !! pos).

(** ** Lowering of the opcodes *)

(** "Translate a Constant: create two." *)
Definition lower_Const (node : nat) (mode : ir_mode) : L unit :=
  env <- env_get id ;;
  let low_mode := low_unsigned env in
  nd <- node_of node ;;
  tv <- gets_opt (fun _ => irn_tv nd) ;;
  let tv_l := tarval_convert_to tv low_mode in
  low <- new_r_Const tv_l ;;
  let tv_h := tarval_convert_to (tarval_shrs tv (tv_mode_bits env)) mode in
  high <- new_r_Const tv_h ;;
  let idx := node in
  assert (bool_decide (idx < n_entries env)%nat) ;;
  set_entry_words idx (Some low) (Some high).

(** The two addresses of a double word: [(low, high)]. *)
Definition split_address (block adr : nat) : L (nat * nat) :=
  env <- env_get id ;;
  am <- mode_of adr ;;
  if little_endian (params env) then
    c <- new_r_Const (tv_mode_bytes env) ;;
    high <- new_r_Add block adr c am ;;
    ret (adr, high)
  else
    c <- new_r_Const (tv_mode_bytes env) ;;
    low <- new_r_Add block adr c am ;;
    ret (low, adr).

(** "Translate a Load: create two." *)
Definition lower_Load (node : nat) (mode : ir_mode) : L unit :=
  env <- env_get id ;;
  let low_mode := low_unsigned env in
  adr <- get_in node 1 ;;
  mem <- get_in node 0 ;;
  block <- block_of node ;;
  nd <- node_of node ;;
  let volatility := irn_volatile nd in
  lh <- split_address block adr ;;
  let '(low, high) := lh in
  (* create two loads *)
  low <- new_r_Load block mem low low_mode volatility ;;
  proj <- new_r_Proj low mode_M pn_Load_M ;;
  high <- new_r_Load block proj high mode volatility ;;
  let idx := node in
  assert (bool_decide (idx < n_entries env)%nat) ;;
  set_entry_words idx (Some low) (Some high) ;;
  for_links node
    (fun proj =>
       let idx := proj in
       nr <- get_Proj_proj proj ;;
       (if nr =? pn_Load_M then
          (* put it to the second one *)
          set_Proj_pred proj high
        else if nr =? pn_Load_X_except then
          (* put it to the first one *)
          set_Proj_pred proj low
        else if nr =? pn_Load_res then
          n <- env_get n_entries ;;
          assert (bool_decide (idx < n)%nat) ;;
          l <- new_r_Proj low low_mode pn_Load_res ;;
          h <- new_r_Proj high mode pn_Load_res ;;
          set_entry_words idx (Some l) (Some h)
        else fail) ;;
       mark_visited proj).

(** "Translate a Store: create two." *)
Definition lower_Store (node : nat) (mode : ir_mode) : L unit :=
  env <- env_get id ;;
  nd <- node_of node ;;
  let volatility := irn_volatile nd in
  irn <- get_in node 2 ;;
  entry <- get_entry irn ;;
  match entry with
  | None => fail
  | Some entry =>
      match low_word entry with
      | None =>
          (* not ready yet, wait *)
          pdeq_putr node
      | Some entry_low =>
          adr <- get_in node 1 ;;
          mem <- get_in node 0 ;;
          block <- block_of node ;;
          lh <- split_address block adr ;;
          let '(low, high) := lh in
          (* create two Stores *)
          low <- new_r_Store block mem low entry_low volatility ;;
          proj <- new_r_Proj low mode_M pn_Store_M ;;
          entry_high <- gets_opt (fun _ => high_word entry) ;;
          high <- new_r_Store block proj high entry_high volatility ;;
          let idx := node in
          n <- env_get n_entries ;;
          assert (bool_decide (idx < n)%nat) ;;
          set_entry_words idx (Some low) (Some high) ;;
          for_links node
            (fun proj =>
               nr <- get_Proj_proj proj ;;
               (if nr =? pn_Store_M then set_Proj_pred proj high
                else if nr =? pn_Store_X_except then set_Proj_pred proj low
                else fail) ;;
               mark_visited proj)
      end
  end.

(** "Return a node containing the address of the intrinsic emulation
    function." *)
Definition get_intrinsic_address (method : nat) (op : ir_opcode)
    (imode omode : ir_mode) : L nat :=
  tbl <- statics_get intrinsic_fkt ;;
  env <- env_get id ;;
  let same (e : op_mode_entry_t) :=
    ome_op e = op /\ ome_imode e = imode /\ ome_omode e = omode in
  ent <- match list_find same tbl with
         | Some (_, e) => ret (ome_ent e)
         | None =>
             (* create a new one *)
             p <- gets ls_prog ;;
             r <- gets_opt (fun _ =>
                    create_intrinsic (params env) method op imode omode p) ;;
             let '(ent, p') := r in
             modify (fun s => with_prog s p') ;;
             statics_modify (fun st =>
               mk_statics (Some (tbl ++ [mk_op_mode_entry op imode omode ent]))
                 (conv_types st) (lowered_type st) (binop_tp_u st)
                 (binop_tp_s st) (unop_tp_u st) (unop_tp_s st)
                 (shiftop_tp_u st) (shiftop_tp_s st) (tp_s st) (tp_u st)) ;;
             ret ent
         end ;;
  new_r_SymConst mode_P_code ent.

(** The two words of the operand [irn], or nothing when they are not
    built yet; the operand must have an entry. *)
Definition operand_words (irn : nat) : L (option (nat * nat)) :=
  entry <- get_entry irn ;;
  match entry with
  | None => fail
  | Some entry =>
      match low_word entry with
      | None => ret None
      | Some l => h <- gets_opt (fun _ => high_word entry) ;; ret (Some (l, h))
      end
  end.

Definition binop_tp (mode : ir_mode) : L nat :=
  statics_get (fun st => if mode_is_signed mode then binop_tp_s st else binop_tp_u st).

(** The common part of [lower_Div] and [lower_Mod]: "Create an intrinsic
    Call." *)
Definition lower_Div_or_Mod (node : nat) (mode : ir_mode) (pn_M pn_X_except pn_res : Z)
  : L unit :=
  left <- get_in node 1 ;;
  l <- operand_words left ;;
  match l with
  | None => pdeq_putr node
  | Some (in0, in1) =>
      right <- get_in node 2 ;;
      r <- operand_words right ;;
      match r with
      | None => pdeq_putr node
      | Some (in2, in3) =>
          env <- env_get id ;;
          block <- block_of node ;;
          mtp <- binop_tp mode ;;
          opmode <- get_irn_op_mode node ;;
          nd <- node_of node ;;
          irn <- get_intrinsic_address mtp (irn_op nd) opmode opmode ;;
          mem <- get_in node 0 ;;
          call <- new_r_Call block mem irn [in0; in1; in2; in3] mtp ;;
          set_irn_pinned call (irn_pinned nd) ;;
          irn <- new_r_Proj call mode_T pn_Call_T_result ;;
          for_links node
            (fun proj =>
               nr <- get_Proj_proj proj ;;
               (if nr =? pn_M then
                  (* reroute to the call *)
                  set_Proj_pred proj call ;; set_Proj_proj proj pn_Call_M
                else if nr =? pn_X_except then
                  set_Proj_pred proj call ;; set_Proj_proj proj pn_Call_X_except
                else if nr =? pn_res then
                  let idx := proj in
                  n <- env_get n_entries ;;
                  assert (bool_decide (idx < n)%nat) ;;
                  l <- new_r_Proj irn (low_unsigned env) 0 ;;
                  h <- new_r_Proj irn mode 1 ;;
                  set_entry_words idx (Some l) (Some h)
                else fail) ;;
               mark_visited proj)
      end
  end.

Definition lower_Div (node : nat) (mode : ir_mode) : L unit :=
  lower_Div_or_Mod node mode pn_Div_M pn_Div_X_except pn_Div_res.
Definition lower_Mod (node : nat) (mode : ir_mode) : L unit :=
  lower_Div_or_Mod node mode pn_Mod_M pn_Mod_X_except pn_Mod_res.

(** "Translate a DivMod.  Create two intrinsic Calls." *)
Definition lower_DivMod (node : nat) (mode : ir_mode) : L unit :=
  (* check if both results are needed *)
  first <- irg_get (fun g => get_irn_link g node) ;;
  fuel <- irg_read (fun g => length (irg_nodes g)) ;;
  flags <- (fix scan (fuel : nat) (p : option nat) (fd fm : bool) : L (bool * bool) :=
              match p with
              | None => ret (fd, fm)
              | Some proj =>
                  match fuel with
                  | O => fail
                  | S fuel' =>
                      nr <- get_Proj_proj proj ;;
                      next <- irg_get (fun g => get_irn_link g proj) ;;
                      scan fuel' next (fd || (nr =? pn_DivMod_res_div))
                        (fm || (nr =? pn_DivMod_res_mod))
                  end
              end) fuel first false false ;;
  let '(want_div, want_mod) := flags in
  left <- get_in node 1 ;;
  l <- operand_words left ;;
  match l with
  | None => pdeq_putr node
  | Some (in0, in1) =>
      right <- get_in node 2 ;;
      r <- operand_words right ;;
      match r with
      | None => pdeq_putr node
      | Some (in2, in3) =>
          env <- env_get id ;;
          block <- block_of node ;;
          nd <- node_of node ;;
          mem <- get_in node 0 ;;
          mtp <- binop_tp mode ;;
          let ins := [in0; in1; in2; in3] in
          div <- (if want_div then
                    opmode <- get_irn_op_mode node ;;
                    irn <- get_intrinsic_address mtp iro_Div opmode opmode ;;
                    callDiv <- new_r_Call block mem irn ins mtp ;;
                    set_irn_pinned callDiv (irn_pinned nd) ;;
                    resDiv <- new_r_Proj callDiv mode_T pn_Call_T_result ;;
                    ret (Some (callDiv, resDiv))
                  else ret None) ;;
          md <- (if want_mod then
                   mem <- match div with
                          | Some (callDiv, _) => new_r_Proj callDiv mode_M pn_Call_M
                          | None => ret mem
                          end ;;
                   opmode <- get_irn_op_mode node ;;
                   irn <- get_intrinsic_address mtp iro_Mod opmode opmode ;;
                   callMod <- new_r_Call block mem irn ins mtp ;;
                   set_irn_pinned callMod (irn_pinned nd) ;;
                   resMod <- new_r_Proj callMod mode_T pn_Call_T_result ;;
                   ret (Some (callMod, resMod, mem))
                 else ret None) ;;
          (* callDiv ? callDiv : (callMod ? callMod : mem) *)
          let first_call := match div, md with
                            | Some (callDiv, _), _ => callDiv
                            | None, Some (callMod, _, _) => callMod
                            | None, None => mem
                            end in
          for_links node
            (fun proj =>
               nr <- get_Proj_proj proj ;;
               (if nr =? pn_DivMod_M then
                  set_Proj_pred proj first_call ;; set_Proj_proj proj pn_Call_M
                else if nr =? pn_DivMod_X_except then
                  set_Proj_pred proj first_call ;;
                  set_Proj_proj proj pn_Call_X_except
                else if nr =? pn_DivMod_res_div then
                  let idx := proj in
                  n <- env_get n_entries ;;
                  assert (bool_decide (idx < n)%nat) ;;
                  res <- gets_opt (fun _ => snd <$> div) ;;
                  l <- new_r_Proj res (low_unsigned env) 0 ;;
                  h <- new_r_Proj res mode 1 ;;
                  set_entry_words idx (Some l) (Some h)
                else if nr =? pn_DivMod_res_mod then
                  let idx := proj in
                  res <- gets_opt (fun _ => (fun x => snd (fst x)) <$> md) ;;
                  l <- new_r_Proj res (low_unsigned env) 0 ;;
                  h <- new_r_Proj res mode 1 ;;
                  set_entry_words idx (Some l) (Some h)
                else fail) ;;
               mark_visited proj)
      end
  end.

(** The tail shared by the intrinsic calls without memory: the Call, its
    result tuple and the two result Projs as the words of [node]. *)
Definition call_intrinsic (node : nat) (mode : ir_mode) (mtp : nat)
    (ins : list nat) : L unit :=
  env <- env_get id ;;
  nd <- node_of node ;;
  block <- block_of node ;;
  no_mem <- irg_read irg_no_mem ;;
  irn <- get_intrinsic_address mtp (irn_op nd) mode mode ;;
  irn <- new_r_Call block no_mem irn ins mtp ;;
  set_irn_pinned irn (irn_pinned nd) ;;
  irn <- new_r_Proj irn mode_T pn_Call_T_result ;;
  let idx := node in
  assert (bool_decide (idx < n_entries env)%nat) ;;
  l <- new_r_Proj irn (low_unsigned env) 0 ;;
  h <- new_r_Proj irn mode 1 ;;
  set_entry_words idx (Some l) (Some h).

(** "Translate a Binop.  Create an intrinsic Call." *)
Definition lower_Binop (node : nat) (mode : ir_mode) : L unit :=
  left <- get_binop_left node ;;
  l <- operand_words left ;;
  match l with
  | None => pdeq_putr node
  | Some (in0, in1) =>
      right <- get_binop_right node ;;
      r <- operand_words right ;;
      match r with
      | None => pdeq_putr node
      | Some (in2, in3) =>
          mtp <- binop_tp mode ;;
          call_intrinsic node mode mtp [in0; in1; in2; in3]
      end
  end.

(** "Translate a Shiftop.  Create an intrinsic Call." *)
Definition lower_Shiftop (node : nat) (mode : ir_mode) : L unit :=
  left <- get_binop_left node ;;
  l <- operand_words left ;;
  match l with
  | None => pdeq_putr node
  | Some (in0, in1) =>
      (* The shift count is always mode_Iu in firm, so there is no need
         for lowering *)
      in2 <- get_binop_right node ;;
      env <- env_get id ;;
      m2 <- mode_of in2 ;;
      assert (negb (is_high_mode env m2)) ;;
      mtp <- statics_get (fun st => if mode_is_signed mode
                                    then shiftop_tp_s st else shiftop_tp_u st) ;;
      call_intrinsic node mode mtp [in0; in1; in2]
  end.

(** The test shared by the three shifts: the count is a constant of at
    least the width of a word. *)
Definition const_shift_count (mode : ir_mode) (right : nat) : L (option Z) :=
  r <- node_of right ;;
  if bool_decide (get_mode_arithmetic mode = irma_twos_complement) &&
     bool_decide (irn_op r = iro_Const)
  then
    tv <- gets_opt (fun _ => irn_tv r) ;;
    if tarval_is_long tv && (get_mode_size_bits mode <=? get_tarval_long tv)
    then ret (Some (get_tarval_long tv - get_mode_size_bits mode))
    else ret None
  else ret None.

(** "Translate a Shr and handle special cases." *)
Definition lower_Shr (node : nat) (mode : ir_mode) : L unit :=
  right <- get_binop_right node ;;
  c <- const_shift_count mode right ;;
  match c with
  | Some shf_cnt =>
      env <- env_get id ;;
      block <- block_of node ;;
      left <- get_binop_left node ;;
      entry <- get_entry left ;;
      entry <- gets_opt (fun _ => entry) ;;
      match high_word entry with
      | None => pdeq_putr node
      | Some hw =>
          let left := hw in
          let idx := node in
          (* convert high word into low_unsigned mode if necessary *)
          lm <- mode_of left ;;
          left <- (if negb (mode_eqb lm (low_unsigned env))
                   then new_r_Conv block left (low_unsigned env)
                   else ret left) ;;
          low <- (if 0 <? shf_cnt then
                    c <- new_r_Const_long (low_unsigned env) shf_cnt ;;
                    new_r_Shr block left c (low_unsigned env)
                  else ret left) ;;
          high <- new_r_Const (get_mode_null mode) ;;
          set_entry_words idx (Some low) (Some high)
      end
  | None => lower_Shiftop node mode
  end.

(** "Translate a Shl and handle special cases." *)
Definition lower_Shl (node : nat) (mode : ir_mode) : L unit :=
  right <- get_binop_right node ;;
  c <- const_shift_count mode right ;;
  match c with
  | Some shf_cnt =>
      env <- env_get id ;;
      block <- block_of node ;;
      left <- get_binop_left node ;;
      entry <- get_entry left ;;
      entry <- gets_opt (fun _ => entry) ;;
      match low_word entry with
      | None => pdeq_putr node
      | Some lw =>
          let left := lw in
          left <- new_r_Conv block left mode ;;
          let idx := node in
          let mode_l := low_unsigned env in
          high <- (if 0 <? shf_cnt then
                     c <- new_r_Const_long mode_l shf_cnt ;;
                     new_r_Shl block left c mode
                   else ret left) ;;
          low <- new_r_Const (get_mode_null mode_l) ;;
          set_entry_words idx (Some low) (Some high)
      end
  | None => lower_Shiftop node mode
  end.

(** "Translate a Shrs and handle special cases." *)
Definition lower_Shrs (node : nat) (mode : ir_mode) : L unit :=
  right <- get_binop_right node ;;
  c <- const_shift_count mode right ;;
  match c with
  | Some shf_cnt =>
      env <- env_get id ;;
      block <- block_of node ;;
      left0 <- get_binop_left node ;;
      let left_unsigned := left0 in
      entry <- get_entry left0 ;;
      entry <- gets_opt (fun _ => entry) ;;
      match high_word entry with
      | None => pdeq_putr node
      | Some hw =>
          let left := hw in
          let idx := node in
          (* convert high word into low_unsigned mode if necessary *)
          lum <- mode_of left_unsigned ;;
          left_unsigned <- (if negb (mode_eqb lum (low_unsigned env))
                            then new_r_Conv block left (low_unsigned env)
                            else ret left_unsigned) ;;
          low <- (if 0 <? shf_cnt then
                    c <- new_r_Const_long (low_unsigned env) shf_cnt ;;
                    new_r_Shrs block left_unsigned c (low_unsigned env)
                  else ret left_unsigned) ;;
          (* low word is expected to have low_unsigned *)
          low <- new_r_Conv block low (low_unsigned env) ;;
          c <- new_r_Const_long (low_unsigned env) (get_mode_size_bits mode - 1) ;;
          high <- new_r_Shrs block left c mode ;;
          set_entry_words idx (Some low) (Some high)
      end
  | None => lower_Shiftop node mode
  end.

(** "Rebuild Rotl nodes into Or(Shl, Shr) and prepare all nodes." *)
Definition prepare_links_and_handle_rotl (node : nat) : L unit :=
  nd <- node_of node ;;
  if bool_decide (irn_op nd = iro_Rotl) then
    mode <- get_irn_op_mode node ;;
    lenv <- env_get id ;;
    if is_high_mode lenv mode then
      right <- get_binop_right node ;;
      r <- node_of right ;;
      let special :=
        bool_decide (get_mode_arithmetic mode = irma_twos_complement) &&
        bool_decide (irn_op r = iro_Const) &&
        match irn_tv r with
        | Some tv => tarval_is_long tv &&
                     (get_tarval_long tv =? get_mode_size_bits mode)
        | None => false
        end in
      if special then
        (* will be optimized in lower_Rotl() *)
        ret tt
      else
        (* replace the Rotl(x,y) by an Or(Shl(x,y), Shr(x,64-y)) and lower
           those *)
        let omode := irn_mode nd in
        left <- get_binop_left node ;;
        block <- block_of node ;;
        shl <- new_r_Shl block left right omode ;;
        rmode <- mode_of right ;;
        c <- new_r_Const_long rmode (get_mode_size_bits omode) ;;
        sub <- new_r_Sub block c right rmode ;;
        shr <- new_r_Shr block left sub omode ;;
        or <- new_r_Or block shl shr omode ;;
        modify (fun s => with_irg s (exchange (ls_irg s) node or)) ;;
        (* do lowering on the new nodes *)
        prepare_links shl ;;
        prepare_links c ;;
        prepare_links sub ;;
        prepare_links shr ;;
        prepare_links or
    else ret tt
  else prepare_links node.

(** "Translate a special case Rotl(x, sizeof(w))." *)
Definition lower_Rotl (node : nat) (mode : ir_mode) : L unit :=
  right <- get_binop_right node ;;
  left <- get_binop_left node ;;
  r <- node_of right ;;
  assert (bool_decide (get_mode_arithmetic mode = irma_twos_complement) &&
          bool_decide (irn_op r = iro_Const) &&
          match irn_tv r with
          | Some tv => tarval_is_long tv &&
                       (get_tarval_long tv =? get_mode_size_bits mode)
          | None => false
          end) ;;
  entry <- get_entry left ;;
  entry <- gets_opt (fun _ => entry) ;;
  let l := low_word entry in
  let h := high_word entry in
  set_entry_words node h l.

(** "Translate an Unop.  Create an intrinsic Call." *)
Definition lower_Unop (node : nat) (mode : ir_mode) : L unit :=
  irn <- get_in node 0 ;;
  l <- operand_words irn ;;
  match l with
  | None => pdeq_putr node
  | Some (in0, in1) =>
      mtp <- statics_get (fun st => if mode_is_signed mode
                                    then unop_tp_s st else unop_tp_u st) ;;
      call_intrinsic node mode mtp [in0; in1]
  end.

(** "Translate a logical Binop.  Create two logical Binops." *)
Definition lower_Binop_logical (node : nat) (mode : ir_mode)
    (constr_rd : nat -> nat -> nat -> ir_mode -> L nat) : L unit :=
  left <- get_binop_left node ;;
  l <- operand_words left ;;
  match l with
  | None => pdeq_putr node
  | Some (lop_l, lop_h) =>
      right <- get_binop_right node ;;
      r <- operand_words right ;;
      match r with
      | None => pdeq_putr node
      | Some (rop_l, rop_h) =>
          env <- env_get id ;;
          block <- block_of node ;;
          let idx := node in
          assert (bool_decide (idx < n_entries env)%nat) ;;
          low <- constr_rd block lop_l rop_l (low_unsigned env) ;;
          high <- constr_rd block lop_h rop_h mode ;;
          set_entry_words idx (Some low) (Some high)
      end
  end.

Definition lower_And (node : nat) (mode : ir_mode) : L unit :=
  lower_Binop_logical node mode new_r_And.
Definition lower_Or (node : nat) (mode : ir_mode) : L unit :=
  lower_Binop_logical node mode new_r_Or.
Definition lower_Eor (node : nat) (mode : ir_mode) : L unit :=
  lower_Binop_logical node mode new_r_Eor.

(** "Translate a Not.  Create two logical Nots." *)
Definition lower_Not (node : nat) (mode : ir_mode) : L unit :=
  irn <- get_in node 0 ;;
  l <- operand_words irn ;;
  match l with
  | None => pdeq_putr node
  | Some (op_l, op_h) =>
      env <- env_get id ;;
      block <- block_of node ;;
      let idx := node in
      assert (bool_decide (idx < n_entries env)%nat) ;;
      low <- new_r_Not block op_l (low_unsigned env) ;;
      high <- new_r_Not block op_h mode ;;
      set_entry_words idx (Some low) (Some high)
  end.

(** The loop over the Proj chain of a Cond,
    [for (proj = get_irn_link(node); proj; proj = get_irn_link(proj))]:
    the Proj(true) and the Proj(false) are recorded, every Proj of the
    chain is marked visited. *)
Fixpoint scan_Cond_projs (fuel : nat) (p : option nat)
    (projT projF : option nat) : L (option nat * option nat) :=
  match p with
  | None => ret (projT, projF)
  | Some proj =>
      match fuel with
      | O => fail
      | S fuel' =>
          proj_nr <- get_Proj_proj proj ;;
          r <- (if proj_nr =? pn_Cond_true then
                  assert (bool_decide (projT = None)) ;;
                  ret (Some proj, projF)
                else
                  assert (proj_nr =? pn_Cond_false) ;;
                  assert (bool_decide (projF = None)) ;;
                  ret (projT, Some proj)) ;;
          mark_visited proj ;;
          next <- irg_get (fun g => get_irn_link g proj) ;;
          scan_Cond_projs fuel' next (fst r) (snd r)
      end
  end.

(** The Proj(true) and the Proj(false) of a Cond, collected from its Proj
    chain; both must be there. *)
Definition collect_Cond_projs (node : nat) : L (nat * nat) :=
  first <- irg_get (fun g => get_irn_link g node) ;;
  fuel <- irg_read (fun g => length (irg_nodes g)) ;;
  r <- scan_Cond_projs fuel first None None ;;
  match r with
  | (Some projT, Some projF) => ret (projT, projF)
  | _ => fail
  end.

Definition p2b_find (proj : nat) : L nat :=
  gets_opt (fun s => proj_2_block (ls_env s) !! proj).
Definition do_exchange (a b : nat) : L unit :=
  modify (fun s => with_irg s (exchange (ls_irg s) a b)).
Definition new_marked_Proj (pred : nat) (m : ir_mode) (nr : Z) : L nat :=
  p <- new_r_Proj pred m nr ;; mark_visited p ;; ret p.
Definition is_Const_null (nd : ir_node) : bool :=
  match irn_tv nd with Some tv => tarval_is_null tv | None => false end.
Definition set_Cond_selector (node sel : nat) : L unit :=
  irg_modify (fun g => set_irn_n g node 0 sel).

(** "Translate a Cond." *)
Definition lower_Cond (node : nat) (mode : ir_mode) : L unit :=
  sel <- get_in node 0 ;;
  m <- mode_of sel ;;
  if mode_eqb m mode_b then
    seln <- node_of sel ;;
    if negb (bool_decide (irn_op seln = iro_Proj)) then ret tt else
    cmp <- get_Proj_pred sel ;;
    cmpn <- node_of cmp ;;
    if negb (bool_decide (irn_op cmpn = iro_Cmp)) then ret tt else
    left <- get_Cmp_left cmp ;;
    lentry <- get_entry left ;;
    match lentry with
    | None =>
        (* a normal Cmp *)
        ret tt
    | Some lentry =>
        right <- get_Cmp_right cmp ;;
        rentry <- get_entry right ;;
        rentry <- gets_opt (fun _ => rentry) ;;
        match low_word lentry, low_word rentry with
        | Some l_low, Some r_low =>
            (* all right, build the code *)
            projs <- collect_Cond_projs node ;;
            let '(projT, projF) := projs in
            (* create a new high compare *)
            block <- block_of node ;;
            let pnc := irn_proj seln in
            rn <- node_of right ;;
            env <- env_get id ;;
            l_high <- gets_opt (fun _ => high_word lentry) ;;
            if bool_decide (irn_op rn = iro_Const) && is_Const_null rn &&
               ((pnc =? pn_Cmp_Eq) || (pnc =? pn_Cmp_Lg))
            then
              (* x ==/!= 0 ==> or(low,high) ==/!= 0 *)
              let mode := low_unsigned env in
              low <- new_r_Conv block l_low mode ;;
              high <- new_r_Conv block l_high mode ;;
              or <- new_r_Or block low high mode ;;
              zero <- new_r_Const_long mode 0 ;;
              cmp <- new_r_Cmp block or zero ;;
              proj <- new_r_Proj cmp mode_b pnc ;;
              set_Cond_selector node proj
            else
              r_high <- gets_opt (fun _ => high_word rentry) ;;
              cmpH <- new_r_Cmp block l_high r_high ;;
              (if pnc =? pn_Cmp_Eq then
                 (* simple case:a == b <==> a_h == b_h && a_l == b_l *)
                 dst_blk <- p2b_find projF ;;
                 irn <- new_r_Proj cmpH mode_b pn_Cmp_Eq ;;
                 irn <- new_r_Cond block irn ;;
                 projHF <- new_marked_Proj irn mode_X pn_Cond_false ;;
                 do_exchange projF projHF ;;
                 projHT <- new_marked_Proj irn mode_X pn_Cond_true ;;
                 new_bl <- new_r_Block [projHT] ;;
                 cmpL <- new_r_Cmp new_bl l_low r_low ;;
                 irn <- new_r_Proj cmpL mode_b pn_Cmp_Eq ;;
                 irn <- new_r_Cond new_bl irn ;;
                 proj <- new_marked_Proj irn mode_X pn_Cond_false ;;
                 add_block_cf_input dst_blk projHF proj ;;
                 proj <- new_marked_Proj irn mode_X pn_Cond_true ;;
                 do_exchange projT proj
               else if pnc =? pn_Cmp_Lg then
                 (* simple case:a != b <==> a_h != b_h || a_l != b_l *)
                 dst_blk <- p2b_find projT ;;
                 irn <- new_r_Proj cmpH mode_b pn_Cmp_Lg ;;
                 irn <- new_r_Cond block irn ;;
                 projHT <- new_marked_Proj irn mode_X pn_Cond_true ;;
                 do_exchange projT projHT ;;
                 projHF <- new_marked_Proj irn mode_X pn_Cond_false ;;
                 new_bl <- new_r_Block [projHF] ;;
                 cmpL <- new_r_Cmp new_bl l_low r_low ;;
                 irn <- new_r_Proj cmpL mode_b pn_Cmp_Lg ;;
                 irn <- new_r_Cond new_bl irn ;;
                 proj <- new_marked_Proj irn mode_X pn_Cond_true ;;
                 add_block_cf_input dst_blk projHT proj ;;
                 proj <- new_marked_Proj irn mode_X pn_Cond_false ;;
                 do_exchange projF proj
               else
                 (* a rel b <==> a_h REL b_h || (a_h == b_h && a_l rel b_l) *)
                 dstT <- p2b_find projT ;;
                 dstF <- p2b_find projF ;;
                 irn <- new_r_Proj cmpH mode_b (Z.ldiff pnc pn_Cmp_Eq) ;;
                 irn <- new_r_Cond block irn ;;
                 projHT <- new_marked_Proj irn mode_X pn_Cond_true ;;
                 do_exchange projT projHT ;;
                 let projT := projHT in
                 projHF <- new_marked_Proj irn mode_X pn_Cond_false ;;
                 newbl_eq <- new_r_Block [projHF] ;;
                 irn <- new_r_Proj cmpH mode_b pn_Cmp_Eq ;;
                 irn <- new_r_Cond newbl_eq irn ;;
                 proj <- new_marked_Proj irn mode_X pn_Cond_false ;;
                 do_exchange projF proj ;;
                 let projF := proj in
                 proj <- new_marked_Proj irn mode_X pn_Cond_true ;;
                 newbl_l <- new_r_Block [proj] ;;
                 cmpL <- new_r_Cmp newbl_l l_low r_low ;;
                 irn <- new_r_Proj cmpL mode_b pnc ;;
                 irn <- new_r_Cond newbl_l irn ;;
                 proj <- new_marked_Proj irn mode_X pn_Cond_true ;;
                 add_block_cf_input dstT projT proj ;;
                 proj <- new_marked_Proj irn mode_X pn_Cond_false ;;
                 add_block_cf_input dstF projF proj) ;;
              (* we have changed the control flow *)
              env_modify (fun env => env_with_flags env (must_be_lowered env) true)
        | _, _ =>
            (* not yet ready *)
            pdeq_putr node
        end
    end
  else
    let idx := sel in
    e <- get_entry idx ;;
    match e with
    | Some entry =>
        (* Bad, a jump-table with double-word index.  This should not
           happen, but if it does we handle it like a Conv were between
           (in other words, ignore the high part. *)
        match low_word entry with
        | None =>
            (* not ready yet, wait *)
            pdeq_putr node
        | Some low => set_Cond_selector node low
        end
    | None => ret tt
    end.

(** "Create a method type for a Conv emulation from imode to omode." *)
Definition get_conv_type (imode omode : ir_mode) : L nat :=
  tbl <- statics_get conv_types ;;
  env <- env_get id ;;
  match list_find (fun e => cte_imode e = imode /\ cte_omode e = omode) tbl with
  | Some (_, e) => ret (cte_mtd e)
  | None =>
      let n_param := if is_high_mode env imode then 2%nat else 1%nat in
      let n_res := if is_high_mode env omode then 2%nat else 1%nat in
      (* create a new one *)
      mtd <- new_type_method n_param n_res ;;
      u <- statics_get tp_u ;;
      sg <- statics_get tp_s ;;
      (* set param types and result types *)
      (if mode_eqb imode (high_signed env) then
         set_method_param_type mtd 0 u ;; set_method_param_type mtd 1 sg
       else if mode_eqb imode (high_unsigned env) then
         set_method_param_type mtd 0 u ;; set_method_param_type mtd 1 u
       else
         tp <- get_type_for_mode imode ;; set_method_param_type mtd 0 tp) ;;
      (if mode_eqb omode (high_signed env) then
         set_method_res_type mtd 0 u ;; set_method_res_type mtd 1 sg
       else if mode_eqb omode (high_unsigned env) then
         set_method_res_type mtd 0 u ;; set_method_res_type mtd 1 u
       else
         tp <- get_type_for_mode omode ;; set_method_res_type mtd 0 tp) ;;
      statics_modify (fun st =>
        mk_statics (intrinsic_fkt st)
          (Some (tbl ++ [mk_conv_tp_entry imode omode mtd]))
          (lowered_type st) (binop_tp_u st) (binop_tp_s st) (unop_tp_u st)
          (unop_tp_s st) (shiftop_tp_u st) (shiftop_tp_s st) (tp_s st) (tp_u st)) ;;
      ret mtd
  end.

(** "Translate a Conv to higher_signed". *)
Definition lower_Conv_to_Ll (node : nat) : L unit :=
  nd <- node_of node ;;
  let omode := irn_mode nd in
  op <- get_in node 0 ;;
  imode <- mode_of op ;;
  let idx := node in
  block <- block_of node ;;
  entry <- get_entry idx ;;
  env <- env_get id ;;
  let low_unsigned := low_unsigned env in
  let low_signed := if mode_is_signed omode then low_signed env else low_unsigned in
  if mode_is_int imode || mode_is_reference imode then
    if is_high_mode env imode then
      (* a Conv from Lu to Ls or Ls to Lu *)
      op_entry <- get_entry op ;;
      op_entry <- gets_opt (fun _ => op_entry) ;;
      match low_word op_entry with
      | None => pdeq_putr node
      | Some l =>
          oh <- gets_opt (fun _ => high_word op_entry) ;;
          h <- new_r_Conv block oh low_signed ;;
          set_entry_words idx (Some l) (Some h)
      end
    else
      (* simple case: create a high word *)
      op <- (if negb (mode_eqb imode low_unsigned)
             then new_r_Conv block op low_unsigned else ret op) ;;
      h <- (if mode_is_signed imode then
              let c := get_mode_size_bits low_signed - 1 in
              cnst <- new_r_Const_long low_unsigned c ;;
              om <- mode_of op ;;
              op <- (if negb (mode_eqb om low_signed)
                     then new_r_Conv block op low_signed else ret op) ;;
              new_r_Shrs block op cnst low_signed
            else new_r_Const (get_mode_null low_signed)) ;;
      set_entry_words idx (Some op) (Some h)
  else if mode_eqb imode mode_b then
    l <- new_r_Conv block op low_unsigned ;;
    h <- new_r_Const (get_mode_null low_signed) ;;
    set_entry_words idx (Some l) (Some h)
  else
    mtp <- get_conv_type imode omode ;;
    irn <- get_intrinsic_address mtp (irn_op nd) imode omode ;;
    no_mem <- irg_read irg_no_mem ;;
    call <- new_r_Call block no_mem irn [op] mtp ;;
    set_irn_pinned call (irn_pinned nd) ;;
    irn <- new_r_Proj call mode_T pn_Call_T_result ;;
    l <- new_r_Proj irn low_unsigned 0 ;;
    h <- new_r_Proj irn low_signed 1 ;;
    set_entry_words idx (Some l) (Some h).

Definition set_Conv_op (node op : nat) : L unit :=
  irg_modify (fun g => set_irn_n g node 0 op).

(** "Translate a Conv from higher_unsigned". *)
Definition lower_Conv_from_Ll (node : nat) : L unit :=
  op <- get_in node 0 ;;
  nd <- node_of node ;;
  let omode := irn_mode nd in
  block <- block_of node ;;
  let idx := op in
  entry <- get_entry idx ;;
  entry <- gets_opt (fun _ => entry) ;;
  env <- env_get id ;;
  match low_word entry with
  | None => pdeq_putr node
  | Some low =>
      if mode_is_int omode || mode_is_reference omode then
        (* simple case: create a high word *)
        op <- (if negb (mode_eqb omode (low_unsigned env))
               then new_r_Conv block low omode else ret low) ;;
        set_Conv_op node op
      else if mode_eqb omode mode_b then
        (* llu ? true : false  <=> (low|high) ? true : false *)
        high <- gets_opt (fun _ => high_word entry) ;;
        or <- new_r_Or block low high (low_unsigned env) ;;
        set_Conv_op node or
      else
        imode <- mode_of op ;;
        mtp <- get_conv_type imode omode ;;
        irn <- get_intrinsic_address mtp (irn_op nd) imode omode ;;
        high <- gets_opt (fun _ => high_word entry) ;;
        no_mem <- irg_read irg_no_mem ;;
        call <- new_r_Call block no_mem irn [low; high] mtp ;;
        set_irn_pinned call (irn_pinned nd) ;;
        irn <- new_r_Proj call mode_T pn_Call_T_result ;;
        res <- new_r_Proj irn omode 0 ;;
        do_exchange node res
  end.

(** "Translate a Conv." *)
Definition lower_Conv (node : nat) (mode : ir_mode) : L unit :=
  mode <- mode_of node ;;
  env <- env_get id ;;
  if is_high_mode env mode then lower_Conv_to_Ll node
  else
    op <- get_in node 0 ;;
    mode <- mode_of op ;;
    if is_high_mode env mode then lower_Conv_from_Ll node else ret tt.

(** The expansion of a parameter or result list: a double-word primitive
    becomes (unsigned low, high). *)
Definition expand_slots (slots : list (option nat)) (set : nat -> nat -> L unit)
  : L unit :=
  env <- env_get id ;;
  u <- gets (fun s => tp_u (ls_statics s)) ;;
  sg <- gets (fun s => tp_s (ls_statics s)) ;;
  (fix fill (l : list (option nat)) (n : nat) : L unit :=
     match l with
     | [] => ret tt
     | slot :: l' =>
         p <- gets ls_prog ;;
         hs <- gets_opt (fun _ => slot_has_mode p slot (high_signed env)) ;;
         hu <- gets_opt (fun _ => slot_has_mode p slot (high_unsigned env)) ;;
         if hs then
           u <- gets_opt (fun _ => u) ;; sg <- gets_opt (fun _ => sg) ;;
           set n u ;; set (S n) sg ;; fill l' (S (S n))
         else if hu then
           u <- gets_opt (fun _ => u) ;;
           set n u ;; set (S n) u ;; fill l' (S (S n))
         else
           tp <- gets_opt (fun _ => slot) ;;
           set n tp ;; fill l' (S n)
     end) slots 0%nat.

(** The number of double-word primitives among the slots. *)
Definition count_high_slots (slots : list (option nat)) : L nat :=
  env <- env_get id ;;
  p <- gets ls_prog ;;
  (fix count (l : list (option nat)) (n : nat) : L nat :=
     match l with
     | [] => ret n
     | slot :: l' =>
         h <- gets_opt (fun _ => slot_is_high env p slot) ;;
         count l' (if h then S n else n)
     end) (rev slots) 0%nat.

(** "Lower the method type." *)
Definition lower_mtp (mtp : nat) : L nat :=
  t <- get_type mtp ;;
  if is_lowered_type t then ret mtp else
  map <- statics_get lowered_type ;;
  match map !! mtp with
  | Some res => ret res
  | None =>
      env <- env_get id ;;
      (* count new number of params *)
      let n := length (mt_params t) in
      extra <- count_high_slots (mt_params t) ;;
      let n_param := (n + extra)%nat in
      (* count new number of results *)
      let r := length (mt_ress t) in
      extra <- count_high_slots (mt_ress t) ;;
      let n_res := (r + extra)%nat in
      res <- new_type_method n_param n_res ;;
      (* set param types and result types *)
      expand_slots (mt_params t) (set_method_param_type res) ;;
      expand_slots (mt_ress t) (set_method_res_type res) ;;
      set_lowered_type mtp res ;;
      statics_modify (fun st =>
        mk_statics (intrinsic_fkt st) (conv_types st)
          (Some (<[mtp := res]> map)) (binop_tp_u st) (binop_tp_s st)
          (unop_tp_u st) (unop_tp_s st) (shiftop_tp_u st) (shiftop_tp_s st)
          (tp_s st) (tp_u st)) ;;
      match mt_value_params t with
      | None => ret tt
      | Some value_type =>
          (* this creates a new value parameter type *)
          _ <- get_method_value_param_ent res 0 ;;
          (* set new param positions *)
          (fix positions (l : list (option nat * option string)) (i n_param : nat)
             : L unit :=
             match l with
             | [] => ret tt
             | (tp, id) :: l' =>
                 ent <- get_method_value_param_ent mtp i ;;
                 set_entity_link ent (Z.of_nat n_param) ;;
                 p <- gets ls_prog ;;
                 h <- gets_opt (fun _ => slot_is_high env p tp) ;;
                 if h then
                   match id with
                   | Some id =>
                       let lid := (id ++ first_id env)%string in
                       set_method_param_ident res n_param lid ;;
                       e <- get_method_value_param_ent res n_param ;;
                       set_entity_ident e lid ;;
                       let lid := (id ++ next_id env)%string in
                       set_method_param_ident res (S n_param) lid ;;
                       e <- get_method_value_param_ent res (S n_param) ;;
                       set_entity_ident e lid
                   | None => ret tt
                   end ;;
                   positions l' (S i) (S (S n_param))
                 else
                   match id with
                   | Some id =>
                       set_method_param_ident res n_param id ;;
                       e <- get_method_value_param_ent res n_param ;;
                       set_entity_ident e id
                   | None => ret tt
                   end ;;
                   positions l' (S i) (S n_param)
             end) (zip (mt_params t) (mt_param_idents t)) 0%nat 0%nat ;;
          rt <- get_type res ;;
          rv <- gets_opt (fun _ => mt_value_params rt) ;;
          set_lowered_type value_type rv
      end ;;
      ret res
  end.

(** The entity of the graph and its type. *)
Definition get_irg_entity : L nat := irg_read irg_entity.
Definition get_entity_type (e : nat) : L nat :=
  x <- get_entity e ;; ret (ent_type x).

(** "Translate a Return." *)
Definition lower_Return (node : nat) (mode : ir_mode) : L unit :=
  nd <- node_of node ;;
  env <- env_get id ;;
  let ress := drop 1 (irn_in nd) in
  (* check if this return must be lowered *)
  r <- (fix check (l : list nat) (need_conv : bool) : L (option bool) :=
          match l with
          | [] => ret (Some need_conv)
          | pred :: l' =>
              mode <- get_irn_op_mode pred ;;
              if is_high_mode env mode then
                e <- get_entry pred ;;
                e <- gets_opt (fun _ => e) ;;
                match low_word e with
                | None => ret None
                | Some _ => check l' true
                end
              else check l' need_conv
          end) ress false ;;
  match r with
  | None =>
      (* not ready yet, wait *)
      pdeq_putr node
  | Some false => ret tt
  | Some true =>
      ent <- get_irg_entity ;;
      mtp <- get_entity_type ent ;;
      mtp <- lower_mtp mtp ;;
      set_entity_type ent mtp ;;
      (* create a new in array *)
      mt <- get_type mtp ;;
      mem <- get_in node 0 ;;
      ins <- (fix fill (l : list nat) (acc : list nat) : L (list nat) :=
                match l with
                | [] => ret acc
                | pred :: l' =>
                    n <- env_get n_entries ;;
                    assert (bool_decide (pred < n)%nat) ;;
                    e <- get_entry pred ;;
                    match e with
                    | Some e =>
                        lo <- gets_opt (fun _ => low_word e) ;;
                        hi <- gets_opt (fun _ => high_word e) ;;
                        fill l' (acc ++ [lo; hi])
                    | None => fill l' (acc ++ [pred])
                    end
                end) ress [mem] ;;
      assert (bool_decide (length ins <= length (mt_ress mt) + 1)%nat) ;;
      irg_modify (fun g => set_irn_in g node ins)
  end.

(** The new numbers of the parameters (or results) of a method type:
    [new_projs[i] = j], where a double-word primitive takes two numbers. *)
Definition renumber_slots (slots : list (option nat)) : L (list Z * nat) :=
  env <- env_get id ;;
  p <- gets ls_prog ;;
  (fix number (l : list (option nat)) (j : nat) (acc : list Z)
     : L (list Z * nat) :=
     match l with
     | [] => ret (acc, j)
     | slot :: l' =>
         h <- gets_opt (fun _ => slot_is_high env p slot) ;;
         number l' (if h then S (S j) else S j) (acc ++ [Z.of_nat j])
     end) slots 0%nat [].

Definition pn_at (numbers : list Z) (proj_nr : Z) : L Z :=
  gets_opt (fun _ => if 0 <=? proj_nr then numbers !! Z.to_nat proj_nr else None).

(** The low mode of a double-word Proj. *)
Definition low_mode_of (env : lower_env_t) (m : ir_mode) : ir_mode :=
  if mode_eqb m (high_signed env) then low_signed env else low_unsigned env.

(** "Translate the parameters." *)
Definition lower_Start (node : nat) (mode : ir_mode) : L unit :=
  ent <- get_irg_entity ;;
  tp <- get_entity_type ent ;;
  t <- get_type tp ;;
  mtp <- (if is_lowered_type t then get_associated_type tp else ret tp) ;;
  mt <- get_type mtp ;;
  assert (negb (is_lowered_type mt)) ;;
  let n_params := length (mt_params mt) in
  if bool_decide (n_params = 0)%nat then ret tt else
  (* first check if we have parameters that must be fixed *)
  r <- renumber_slots (mt_params mt) ;;
  let '(new_projs, j) := r in
  if bool_decide (n_params = j) then ret tt else
  mtp <- lower_mtp mtp ;;
  set_entity_type ent mtp ;;
  (* ok, fix all Proj's and create new ones *)
  args <- irg_read irg_args ;;
  for_links node
    (fun proj =>
       pred <- get_Proj_pred proj ;;
       (* do not visit this node again *)
       mark_visited proj ;;
       if negb (bool_decide (pred = args)) then ret tt else
       proj_nr <- get_Proj_proj proj ;;
       nr <- pn_at new_projs proj_nr ;;
       set_Proj_proj proj nr ;;
       let idx := proj in
       e <- get_entry idx ;;
       match e with
       | Some _ =>
           env <- env_get id ;;
           m <- mode_of proj ;;
           let mode := low_mode_of env m in
           l <- new_r_Proj args (low_unsigned env) nr ;;
           h <- new_r_Proj args mode (nr + 1) ;;
           set_entry_words idx (Some l) (Some h)
       | None => ret tt
       end).

Definition set_Call_type (node tp : nat) : L unit :=
  irg_modify (fun g => update_node g node (fun nd => with_type nd (Some tp))).

(** "Translate a Call." *)
Definition lower_Call (node : nat) (mode : ir_mode) : L unit :=
  nd <- node_of node ;;
  tp <- gets_opt (fun _ => irn_type nd) ;;
  t <- get_type tp ;;
  call_tp <- (if is_lowered_type t then get_associated_type tp else ret tp) ;;
  ct <- get_type call_tp ;;
  assert (negb (is_lowered_type ct)) ;;
  env <- env_get id ;;
  p <- gets ls_prog ;;
  let n_params := length (mt_params ct) in
  need_p <- (fix scan (l : list (option nat)) : L bool :=
               match l with
               | [] => ret false
               | slot :: l' =>
                   h <- gets_opt (fun _ => slot_is_high env p slot) ;;
                   if h then ret true else scan l'
               end) (mt_params ct) ;;
  r <- renumber_slots (mt_ress ct) ;;
  let '(res_numbers, j) := r in
  let need_lower := need_p || negb (bool_decide (j = length (mt_ress ct))) in
  if negb need_lower then ret tt else
  (* let's lower it *)
  call_tp <- lower_mtp call_tp ;;
  set_Call_type node call_tp ;;
  lt <- get_type call_tp ;;
  mem <- get_in node 0 ;;
  ptr <- get_in node 1 ;;
  ins <- (fix fill (i : list nat) (acc : list nat) : L (option (list nat)) :=
            match i with
            | [] => ret (Some acc)
            | k :: i' =>
                pred <- get_in node (k + 2) ;;
                e <- get_entry pred ;;
                match e with
                | Some e =>
                    match low_word e with
                    | None => ret None
                    | Some lo =>
                        hi <- gets_opt (fun _ => high_word e) ;;
                        fill i' (acc ++ [lo; hi])
                    end
                | None => fill i' (acc ++ [pred])
                end
            end) (seq 0 n_params) [mem; ptr] ;;
  match ins with
  | None =>
      (* not ready yet, wait *)
      pdeq_putr node
  | Some ins =>
      assert (bool_decide (length ins <= length (mt_params lt) + 2)%nat) ;;
      irg_modify (fun g => set_irn_in g node ins) ;;
      (* fix the results *)
      first <- irg_get (fun g => get_irn_link g node) ;;
      fuel <- irg_read (fun g => length (irg_nodes g)) ;;
      results <- (fix find (fuel : nat) (p : option nat) : L (option nat) :=
                    match p with
                    | None => ret None
                    | Some proj =>
                        match fuel with
                        | O => fail
                        | S fuel' =>
                            proj_nr <- get_Proj_proj proj ;;
                            pred <- get_Proj_pred proj ;;
                            if (proj_nr =? pn_Call_T_result) &&
                               bool_decide (pred = node)
                            then ret (Some proj)   (* found the result proj *)
                            else
                              next <- irg_get (fun g => get_irn_link g proj) ;;
                              find fuel' next
                        end
                    end) fuel first ;;
      match results with
      | None => ret tt
      | Some results =>
          (* there are results *)
          for_links results
            (fun proj =>
               pred <- get_Proj_pred proj ;;
               if bool_decide (pred = results) then
                 proj_nr <- get_Proj_proj proj ;;
                 (* found a result *)
                 nr <- pn_at res_numbers proj_nr ;;
                 set_Proj_proj proj nr ;;
                 let idx := proj in
                 e <- get_entry idx ;;
                 match e with
                 | Some _ =>
                     m <- mode_of proj ;;
                     let mode := low_mode_of env m in
                     l <- new_r_Proj results (low_unsigned env) nr ;;
                     h <- new_r_Proj results mode (nr + 1) ;;
                     set_entry_words idx (Some l) (Some h)
                 | None => ret tt
                 end ;;
                 mark_visited proj
               else ret tt)
      end
  end.

(** "Translate an Unknown into two." *)
Definition lower_Unknown (node : nat) (mode : ir_mode) : L unit :=
  env <- env_get id ;;
  l <- new_r_Unknown (low_unsigned env) ;;
  h <- new_r_Unknown mode ;;
  set_entry_words node (Some l) (Some h).

Definition entry_words (idx : nat) : L (option nat * option nat) :=
  e <- get_entry idx ;;
  e <- gets_opt (fun _ => e) ;;
  ret (low_word e, high_word e).

(** "Translate a Phi.  First step: just create two templates". *)
Definition lower_Phi (phi : nat) (mode : ir_mode) : L unit :=
  env <- env_get id ;;
  let mode_l := low_unsigned env in
  pn <- node_of phi ;;
  let arity := length (irn_in pn) in
  let idx := phi in
  w <- entry_words idx ;;
  stop <- match w with
          | (Some phil, phih) =>
              (* Phi nodes already build, check for inputs *)
              (fix patch (l : list nat) : L bool :=
                 match l with
                 | [] => ret false
                 | i :: l' =>
                     pred <- get_in phi i ;;
                     pw <- entry_words pred ;;
                     match pw with
                     | (Some lo, hi) =>
                         irg_modify (fun g => set_irn_n g phil i lo) ;;
                         phih <- gets_opt (fun _ => phih) ;;
                         hi <- gets_opt (fun _ => hi) ;;
                         irg_modify (fun g => set_irn_n g phih i hi) ;;
                         patch l'
                     | (None, _) =>
                         (* still not ready *)
                         pdeq_putr phi ;; ret true
                     end
                 end) (seq 0 arity)
          | (None, _) => ret false
          end ;;
  if stop then ret tt else
  (* first create a new in array *)
  unk_l <- new_r_Dummy mode_l ;;
  unk_h <- new_r_Dummy mode ;;
  r <- (fix fill (l : list nat) (inl inh : list nat) (enq : bool)
          : L (list nat * list nat * bool) :=
          match l with
          | [] => ret (inl, inh, enq)
          | i :: l' =>
              pred <- get_in phi i ;;
              pw <- entry_words pred ;;
              match pw with
              | (Some lo, hi) =>
                  hi <- gets_opt (fun _ => hi) ;;
                  fill l' (inl ++ [lo]) (inh ++ [hi]) enq
              | (None, _) => fill l' (inl ++ [unk_l]) (inh ++ [unk_h]) true
              end
          end) (seq 0 arity) [] [] false ;;
  let '(ins_l, ins_h, enq) := r in
  block <- block_of phi ;;
  n <- env_get n_entries ;;
  assert (bool_decide (idx < n)%nat) ;;
  phi_l <- new_r_Phi block ins_l mode_l ;;
  phi_h <- new_r_Phi block ins_h mode ;;
  set_entry_words idx (Some phi_l) (Some phi_h) ;;
  (* Don't forget to link the new Phi nodes into the block. *)
  irg_modify (fun g => add_Block_phi g block phi_l) ;;
  irg_modify (fun g => add_Block_phi g block phi_h) ;;
  when enq
    (* not yet finished *)
    (pdeq_putr phi).

(** "Translate a Mux." *)
Definition lower_Mux (mux : nat) (mode : ir_mode) : L unit :=
  val <- get_in mux 2 ;;
  t <- entry_words val ;;
  match t with
  | (Some true_l, true_h) =>
      val <- get_in mux 1 ;;
      f <- entry_words val ;;
      match f with
      | (Some false_l, false_h) =>
          true_h <- gets_opt (fun _ => true_h) ;;
          false_h <- gets_opt (fun _ => false_h) ;;
          sel <- get_in mux 0 ;;
          block <- block_of mux ;;
          env <- env_get id ;;
          let idx := mux in
          assert (bool_decide (idx < n_entries env)%nat) ;;
          l <- new_r_Mux block sel false_l true_l (low_unsigned env) ;;
          h <- new_r_Mux block sel false_h true_h mode ;;
          set_entry_words idx (Some l) (Some h)
      | (None, _) => pdeq_putr mux
      end
  | (None, _) => pdeq_putr mux
  end.

(** "Translate an ASM node": [panic("lowering ASM unimplemented")] on a
    double-word operand or result. *)
Definition lower_ASM (asmn : nat) (mode : ir_mode) : L unit :=
  env <- env_get id ;;
  nd <- node_of asmn ;;
  for_each (rev (irn_in nd))
    (fun op => op_mode <- mode_of op ;; assert (negb (is_high_mode env op_mode))) ;;
  for_links asmn
    (fun n => proj_mode <- mode_of n ;; assert (negb (is_high_mode env proj_mode))).

(** "Translate a Sel node." *)
Definition lower_Sel (sel : nat) (mode : ir_mode) : L unit :=
  env <- env_get id ;;
  (* we must only lower value parameter Sels if we change the value
     parameter type. *)
  match value_param_tp env with
  | Some vpt =>
      nd <- node_of sel ;;
      ent <- gets_opt (fun _ => irn_entity nd) ;;
      e <- get_entity ent ;;
      if bool_decide (ent_owner e = vpt) then
        pos <- gets_opt (fun _ => ent_link e) ;;
        l_mtp <- gets_opt (fun _ => l_mtp env) ;;
        ent <- get_method_value_param_ent l_mtp (Z.to_nat pos) ;;
        irg_modify (fun g => update_node g sel (fun nd => with_entity nd (Some ent)))
      else ret tt
  | None => ret tt
  end.

(** "check for opcodes that must always be lowered." *)
Definition always_lower (code : ir_opcode) : bool :=
  match code with
  | iro_ASM | iro_Proj | iro_Start | iro_Call | iro_Return | iro_Cond
  | iro_Conv | iro_Sel => true
  | _ => false
  end.

(** "lower boolean Proj(Cmp)": the result is null while the operands are
    not ready. *)
Definition lower_boolean_Proj_Cmp (proj cmp : nat) : L (option nat) :=
  l <- get_Cmp_left cmp ;;
  lw <- entry_words l ;;
  match lw with
  | (None, _) => ret None    (* still not ready *)
  | (Some l_low, l_high) =>
      r <- get_Cmp_right cmp ;;
      rw <- entry_words r ;;
      match rw with
      | (None, _) => ret None
      | (Some r_low, r_high) =>
          l_high <- gets_opt (fun _ => l_high) ;;
          r_high <- gets_opt (fun _ => r_high) ;;
          pnc <- get_Proj_proj proj ;;
          blk <- block_of cmp ;;
          low <- new_r_Cmp blk l_low r_low ;;
          high <- new_r_Cmp blk l_high r_high ;;
          if pnc =? pn_Cmp_Eq then
            (* simple case:a == b <==> a_h == b_h && a_l == b_l *)
            a <- new_r_Proj low mode_b pnc ;;
            b <- new_r_Proj high mode_b pnc ;;
            res <- new_r_And blk a b mode_b ;;
            ret (Some res)
          else if pnc =? pn_Cmp_Lg then
            (* simple case:a != b <==> a_h != b_h || a_l != b_l *)
            a <- new_r_Proj low mode_b pnc ;;
            b <- new_r_Proj high mode_b pnc ;;
            res <- new_r_Or blk a b mode_b ;;
            ret (Some res)
          else
            (* a rel b <==> a_h REL b_h || (a_h == b_h && a_l rel b_l) *)
            a <- new_r_Proj low mode_b pnc ;;
            b <- new_r_Proj high mode_b pn_Cmp_Eq ;;
            t <- new_r_And blk a b mode_b ;;
            c <- new_r_Proj high mode_b (Z.ldiff pnc pn_Cmp_Eq) ;;
            res <- new_r_Or blk c t mode_b ;;
            ret (Some res)
      end
  end.

(** The function that [lower_dw_ops] enters for an opcode
    ([op->ops.generic]), or nothing. *)
Definition lower_func_of (op : ir_opcode)
  : option (nat -> ir_mode -> L unit) :=
  match op with
  | iro_Add => Some lower_Binop
  | iro_And => Some lower_And
  | iro_ASM => Some lower_ASM
  | iro_Call => Some lower_Call
  | iro_Cond => Some lower_Cond
  | iro_Const => Some lower_Const
  | iro_Conv => Some lower_Conv
  | iro_Div => Some lower_Div
  | iro_DivMod => Some lower_DivMod
  | iro_Eor => Some lower_Eor
  | iro_Load => Some lower_Load
  | iro_Minus => Some lower_Unop
  | iro_Mod => Some lower_Mod
  | iro_Mul => Some lower_Binop
  | iro_Mux => Some lower_Mux
  | iro_Not => Some lower_Not
  | iro_Or => Some lower_Or
  | iro_Phi => Some lower_Phi
  | iro_Return => Some lower_Return
  | iro_Rotl => Some lower_Rotl
  | iro_Sel => Some lower_Sel
  | iro_Shl => Some lower_Shl
  | iro_Shr => Some lower_Shr
  | iro_Shrs => Some lower_Shrs
  | iro_Start => Some lower_Start
  | iro_Store => Some lower_Store
  | iro_Sub => Some lower_Binop
  | iro_Unknown => Some lower_Unknown
  | _ => None
  end.

(** "Lower a node." *)
Definition lower_ops (node : nat) : L unit :=
  lenv <- env_get id ;;
  let idx := node in
  nd <- node_of node ;;
  let mode := irn_mode nd in
  waiting <-
    (if mode_eqb mode mode_b || bool_decide (irn_op nd = iro_Mux) ||
        bool_decide (irn_op nd = iro_Conv)
     then
       (fix inputs (l : list nat) : L bool :=
          match l with
          | [] => ret false
          | i :: l' =>
              proj <- get_in node i ;;
              pn <- node_of proj ;;
              if bool_decide (irn_op pn = iro_Proj) then
                cmp <- get_Proj_pred proj ;;
                cn <- node_of cmp ;;
                if bool_decide (irn_op cn = iro_Cmp) then
                  arg <- get_Cmp_left cmp ;;
                  mode <- mode_of arg ;;
                  if is_high_mode lenv mode then
                    res <- lower_boolean_Proj_Cmp proj cmp ;;
                    match res with
                    | None =>
                        (* could not lower because predecessors not ready *)
                        pdeq_putr node ;; ret true
                    | Some res =>
                        irg_modify (fun g => set_irn_n g node i res) ;;
                        inputs l'
                    end
                  else inputs l'
                else inputs l'
              else inputs l'
          end) (rev (seq 0 (length (irn_in nd))))
     else ret false) ;;
  if waiting then ret tt else
  n <- env_get n_entries ;;
  entry <- (if bool_decide (idx < n)%nat then get_entry idx else ret None) ;;
  nd <- node_of node ;;
  if bool_decide (entry <> None) || always_lower (irn_op nd) then
    match lower_func_of (irn_op nd) with
    | Some func =>
        mode <- get_irn_op_mode node ;;
        let mode := if mode_eqb mode (high_signed lenv)
                    then low_signed lenv else low_unsigned lenv in
        func node mode
    | None => ret tt
    end
  else ret tt.

(** "Returns non-zero if a method type must be lowered." *)
Definition mtp_must_be_lowered (mtp : nat) : L bool :=
  t <- get_type mtp ;;
  env <- env_get id ;;
  p <- gets ls_prog ;;
  (* first check if we have parameters that must be fixed *)
  (fix scan (l : list (option nat)) : L bool :=
     match l with
     | [] => ret false
     | slot :: l' =>
         h <- gets_opt (fun _ => slot_is_high env p slot) ;;
         if h then ret true else scan l'
     end) (mt_params t).

(** Modelled from the spec: [new_ir_mode] is not among the sources.  The
    "program-wide mode registry" is "append-only": a mode that agrees with
    a registered one in sort, size, sign, arithmetic and modulo shift is
    that mode, another one is registered. *)
Definition modes_are_equal (m n : ir_mode) : Prop :=
  mode_sort m = mode_sort n /\ mode_arithmetic m = mode_arithmetic n /\
  mode_size_bits m = mode_size_bits n /\ mode_sign m = mode_sign n /\
  mode_modulo_shift m = mode_modulo_shift n.
Global Instance modes_are_equal_dec m n : Decision (modes_are_equal m n).
Proof. unfold modes_are_equal. apply _. Defined.

Definition new_ir_mode (name : string) (sort : ir_mode_sort) (bit_size : Z)
    (sign : bool) (arithmetic : ir_mode_arithmetic) (modulo_shift : Z)
    (p : ir_prog) : ir_mode * ir_prog :=
  let tmpl := mk_mode name sort bit_size sign arithmetic modulo_shift in
  match list_find (fun n => modes_are_equal n tmpl) (irp_modes p) with
  | Some (_, m) => (m, p)
  | None => (tmpl, prog_with_modes p (irp_modes p ++ [tmpl]))
  end.

(** The modes that [setup_modes] leaves in the environment: (high signed,
    high unsigned, low signed, low unsigned); a panic is [None]. *)
Definition setup_modes (param : lwrdw_param_t) (p : ir_prog)
  : option (ir_mode * ir_mode * ir_mode * ir_mode * ir_prog) :=
  let size_bits := doubleword_size param in
  (* search for doubleword modes... *)
  found ← (fix search (l : list ir_mode) (ds du : option ir_mode)
             : option (option ir_mode * option ir_mode) :=
             match l with
             | [] => Some (ds, du)
             | mode :: l' =>
                 if negb (mode_is_int mode) then search l' ds du
                 else if negb (get_mode_size_bits mode =? size_bits)
                 then search l' ds du
                 else if mode_is_signed mode then
                   match ds with
                   | Some _ => None  (* multiple double word signed modes *)
                   | None => search l' (Some mode) du
                   end
                 else
                   match du with
                   | Some _ => None  (* multiple double word unsigned modes *)
                   | None => search l' ds (Some mode)
                   end
             end) (irp_modes p) None None;
  match found with
  | (Some doubleword_signed, Some doubleword_unsigned) =>
      let arithmetic := get_mode_arithmetic doubleword_signed in
      let modulo_shift := mode_modulo_shift doubleword_signed in
      if negb ((size_bits mod 2 =? 0) &&
               bool_decide (get_mode_arithmetic doubleword_unsigned = arithmetic) &&
               (mode_modulo_shift doubleword_unsigned =? modulo_shift))
      then None else
      (* try to guess a sensible modulo shift for the new mode. *)
      modulo_shift ← (if modulo_shift =? size_bits then Some (modulo_shift / 2)
                      else if modulo_shift =? 0 then Some 0
                      else None);
      let size_bits := size_bits / 2 in
      (* produce lowered modes *)
      let '(ls, p) := new_ir_mode "WS" irms_int_number size_bits true
                        arithmetic modulo_shift p in
      let '(lu, p) := new_ir_mode "WU" irms_int_number size_bits false
                        arithmetic modulo_shift p in
      Some (doubleword_signed, doubleword_unsigned, ls, lu, p)
  | _ => None   (* Couldn't find doubleword modes *)
  end.

(** A method type of the intrinsics: parameters and results are set one
    by one. *)
Definition make_method_type (ps rs : list nat) : L nat :=
  tp <- new_type_method (length ps) (length rs) ;;
  for_each (zip (seq 0 (length ps)) ps)
    (fun '(i, t) => set_method_param_type tp i t) ;;
  for_each (zip (seq 0 (length rs)) rs)
    (fun '(i, t) => set_method_res_type tp i t) ;;
  ret tp.

(** The creation of the maps and of the types of the intrinsics at the
    start of [lower_dw_ops]; what exists already is kept. *)
Definition setup_statics : L unit :=
  env <- env_get id ;;
  st <- gets ls_statics ;;
  (* create the necessary maps *)
  let fkt := match intrinsic_fkt st with Some m => m | None => [] end in
  let cvt := match conv_types st with Some m => m | None => [] end in
  let low := match lowered_type st with Some m => m | None => ∅ end in
  (* create a primitive unsigned and signed type *)
  u <- match tp_u st with
       | Some t => ret t
       | None => get_type_for_mode (low_unsigned env)
       end ;;
  sg <- match tp_s st with
        | Some t => ret t
        | None => get_type_for_mode (low_signed env)
        end ;;
  (* create method types for the created binop calls *)
  bu <- match binop_tp_u st with
        | Some t => ret t
        | None => make_method_type [u; u; u; u] [u; u]
        end ;;
  bs <- match binop_tp_s st with
        | Some t => ret t
        | None => make_method_type [u; sg; u; sg] [u; sg]
        end ;;
  su <- match shiftop_tp_u st with
        | Some t => ret t
        | None => make_method_type [u; u; u] [u; u]
        end ;;
  ss <- match shiftop_tp_s st with
        | Some t => ret t
        | None => make_method_type [u; sg; u] [u; sg]
        end ;;
  uu <- match unop_tp_u st with
        | Some t => ret t
        | None => make_method_type [u; u] [u; u]
        end ;;
  us <- match unop_tp_s st with
        | Some t => ret t
        | None => make_method_type [u; sg] [u; sg]
        end ;;
  modify (fun s =>
    with_statics s
      (mk_statics (Some fkt) (Some cvt) (Some low) (Some bu) (Some bs)
         (Some uu) (Some us) (Some su) (Some ss) (Some sg) (Some u))).

(** [firm_clear_node_and_phi_links], the pre-callback of the first
    walk. *)
Definition firm_clear_node_and_phi_links (n : nat) : L unit :=
  irg_modify (fun g => set_irn_link g n None) ;;
  nd <- node_of n ;;
  when (bool_decide (irn_op nd = iro_Block))
    (irg_modify (fun g => update_node g n (fun nd => with_phis nd []))).

(** "last step: all waiting nodes". *)
Fixpoint drain_waitq (fuel : nat) : L unit :=
  q <- env_get waitq ;;
  match q with
  | [] => ret tt
  | node :: q' =>
      match fuel with
      | O => fail
      | S fuel' =>
          env_modify (fun env => env_with_waitq env q') ;;
          lower_ops node ;;
          drain_waitq fuel'
      end
  end.

(** The body of the loop over the graphs of [lower_dw_ops]: the state
    holds the graph with number [i] as the current graph. *)
Definition lower_irg (fuel : nat) : L unit :=
  g <- gets ls_irg ;;
  let n_idx := length (irg_nodes g) in
  let n_idx := (n_idx + Nat.shiftr n_idx 2)%nat in (* add 25% *)
  env_modify (fun env =>
    mk_env (replicate n_idx None) None (tv_mode_bytes env) (tv_mode_bits env)
      (waitq env) ∅ (high_signed env) (high_unsigned env) (low_signed env)
      (low_unsigned env) (first_id env) (next_id env) (params env) false false
      None) ;;
  assert (negb (irg_link_reserved g) && negb (irg_phi_list_reserved g)) ;;
  modify (fun s => with_irg s (with_reserved (ls_irg s) true true)) ;;
  ent <- get_irg_entity ;;
  mtp <- get_entity_type ent ;;
  must <- mtp_must_be_lowered mtp ;;
  when must
    (ltp <- lower_mtp mtp ;;
     set_entity_type ent ltp ;;
     t <- get_type mtp ;;
     env_modify (fun env =>
       env_with_mtp (env_with_flags env true (cf_changed env))
         (Some ltp) (mt_value_params t))) ;;
  (* first step: link all nodes and allocate data *)
  irg_walk_graph ls_irg (fun g s => with_irg s g)
    firm_clear_node_and_phi_links prepare_links_and_handle_rotl fuel ;;
  must <- env_get must_be_lowered ;;
  if must then
    (* must do some work *)
    irg_walk_graph ls_irg (fun g s => with_irg s g)
      (fun _ => ret tt) lower_ops fuel ;;
    (* last step: all waiting nodes *)
    drain_waitq fuel ;;
    modify (fun s => with_irg s (with_reserved (ls_irg s) false false)) ;;
    (* outs are invalid, we changed the graph *)
    cf <- env_get cf_changed ;;
    modify (fun s =>
      let g := ls_irg s in
      let pr := irg_props g in
      with_irg s
        (with_props g
           (if cf
            then mk_props false false false (prop_no_bads pr) (prop_lcssa pr)
            else mk_props (prop_consistent_dominance pr)
                   (prop_consistent_loopinfo pr) false (prop_no_bads pr)
                   (prop_lcssa pr))))
  else
    modify (fun s => with_irg s (with_reserved (ls_irg s) false false)).

(** "Do the lowering."  A run starts from the program and the static data
    that earlier runs left, and gives both back; [fuel] bounds the depth
    of the graph walks and the number of rounds of the wait queue. *)
Definition lower_dw_ops (fuel : nat) (param : lwrdw_param_t)
    (p : ir_prog) (st : lower_statics) : option (ir_prog * lower_statics) :=
  r ← setup_modes param p;
  let '(hs, hu, ls, lu, p) := r in
  let lenv :=
    mk_env [] None
      (new_tarval_from_long (doubleword_size param / (2 * 8)) lu)
      (new_tarval_from_long (doubleword_size param / 2) lu)
      [] ∅ hs hu ls lu
      (if little_endian param then ".l" else ".h")
      (if little_endian param then ".h" else ".l")
      param false false None in
  let empty_irg :=
    mk_graph [] 0 0 0 0 0 0 0 false false (mk_props false false false false false) in
  s ← exec
        (setup_statics ;;
         (* transform all graphs *)
         n <- gets (fun s => length (irp_irgs (ls_prog s))) ;;
         for_each (rev (seq 0 n))
           (fun i =>
              irg <- prog_get (fun p => irp_irgs p !! i) ;;
              modify (fun s => with_irg s irg) ;;
              lower_irg fuel ;;
              modify (fun s =>
                with_prog s
                  (prog_with_irgs (ls_prog s)
                     (<[i := ls_irg s]> (irp_irgs (ls_prog s)))))))
        (mk_lstate p empty_irg st lenv);
  Some (ls_prog s, ls_statics s).

(** The names of the opcodes and the default factory,
    [def_create_intrinsic_fkt]: an entity in the global type named
    [__l<op><mode>] or [__l<op><imode><omode>]. *)
Definition get_op_name (op : ir_opcode) : string :=
  match op with
  | iro_Add => "Add" | iro_Sub => "Sub" | iro_Mul => "Mul" | iro_Div => "Div"
  | iro_Mod => "Mod" | iro_Shl => "Shl" | iro_Shr => "Shr" | iro_Shrs => "Shrs"
  | iro_Minus => "Minus" | iro_Conv => "Conv" | _ => "Op"
  end.

Definition def_create_intrinsic_fkt (method : nat) (op : ir_opcode)
    (imode omode : ir_mode) (p : ir_prog) : option (nat * ir_prog) :=
  let buf := if mode_eqb imode omode
             then ("__l" ++ get_op_name op ++ mode_name imode)%string
             else ("__l" ++ get_op_name op ++ mode_name imode
                   ++ mode_name omode)%string in
  let ent := length (irp_entities p) in
  Some (ent,
        prog_with_entities p
          (irp_entities p ++ [mk_entity buf (Some buf) (irp_glob_type p) method None])).

End LowerDW.

(* ===================================================================== *)
(** * Example programs for the double-word lowering *)
(* ===================================================================== *)

Module LowerExamples.
Import IR LowerDW.
Local Open Scope string_scope.

(** The modes of a 32-bit target with 64-bit [long long]. *)
Definition ex_modes : list ir_mode :=
  [mode_Is; mode_Iu; mode_Ls; mode_Lu; mode_P; mode_b; mode_M; mode_X;
   mode_T]%list.

Definition ex_param : lwrdw_param_t :=
  mk_param true 64 def_create_intrinsic_fkt.

Definition node (op : ir_opcode) (m : ir_mode) (blk : nat) (ins : list nat)
  : ir_node :=
  default_node op m (Some blk) ins.

(** [void g(void) { }], the End node keeps a 64-bit Const alive. *)
Definition ex_keep_graph : ir_graph :=
  mk_graph
    [ default_node iro_Block mode_BB None [];          (* 0: start block *)
      node iro_Start mode_T 0 [];                      (* 1 *)
      with_proj (node iro_Proj mode_M 0 [1%nat]) 1;    (* 2: initial memory *)
      with_tv (node iro_Const mode_Lu 0 [])
        (Some (mk_tarval mode_Lu 5));                  (* 3 *)
      node iro_Return mode_X 0 [2%nat];                (* 4 *)
      default_node iro_Block mode_BB None [4%nat];     (* 5: end block *)
      node iro_End mode_X 5 [3%nat];                   (* 6: keeps 3 alive *)
      node iro_NoMem mode_M 0 [];                      (* 7 *)
      with_proj (node iro_Proj mode_T 0 [1%nat]) 4     (* 8: args *)
    ]
    0 1 6 8 7 0 0 false false (mk_props true true true true false).

Definition ex_keep_prog : ir_prog :=
  mk_prog ex_modes
    [ mk_type tpo_method None false None [] [] [] None [];
      mk_type tpo_struct None false None [] [] [] None [] ]
    [ mk_entity "g" (Some "g") 1 0 None ]
    [ ex_keep_graph ] 1.

(** [void g(void) { f(5ULL); }] with [void f(unsigned long long)]; the
    End node keeps the Const alive. *)
Definition ex_call_graph : ir_graph :=
  mk_graph
    [ default_node iro_Block mode_BB None [];          (* 0: start block *)
      node iro_Start mode_T 0 [];                      (* 1 *)
      with_proj (node iro_Proj mode_M 0 [1%nat]) 1;    (* 2: initial memory *)
      with_tv (node iro_Const mode_Lu 0 [])
        (Some (mk_tarval mode_Lu 5));                  (* 3 *)
      with_entity (node iro_SymConst mode_P 0 []) (Some 1%nat);  (* 4: &f *)
      with_type (node iro_Call mode_T 0 [2; 4; 3]%nat)
        (Some 3%nat);                                  (* 5: f(5) *)
      with_proj (node iro_Proj mode_M 0 [5%nat]) 0;    (* 6: memory *)
      node iro_Return mode_X 0 [6%nat];                (* 7 *)
      default_node iro_Block mode_BB None [7%nat];     (* 8: end block *)
      node iro_End mode_X 8 [3%nat];                   (* 9: keeps 3 alive *)
      node iro_NoMem mode_M 0 [];                      (* 10 *)
      with_proj (node iro_Proj mode_T 0 [1%nat]) 4     (* 11: args *)
    ]
    0 1 9 11 10 0 0 false false (mk_props true true true true false).

Definition ex_call_prog : ir_prog :=
  mk_prog ex_modes
    [ mk_type tpo_method None false None [] [] [] None [];
      mk_type tpo_struct None false None [] [] [] None [];
      mk_type tpo_primitive (Some mode_Lu) false None [] [] [] None [];
      mk_type tpo_method None false None [Some 2%nat] [] [None] None [] ]
    [ mk_entity "g" (Some "g") 1 0 None;
      mk_entity "f" (Some "f") 1 3 None ]
    [ ex_call_graph ] 1.

(** The inputs of node [n] of the first graph of a program. *)
Definition ins_of (p : ir_prog) (n : nat) : option (list nat) :=
  g ← irp_irgs p !! 0%nat; irn_in <$> get_node g n.

(** The environment of a pass over a graph: 64-bit words are lowered to
    32-bit ones, the given nodes have an entry. *)
Definition ex_env (es : list (option node_entry_t)) : lower_env_t :=
  mk_env es None
    (new_tarval_from_long 4 mode_Iu) (new_tarval_from_long 32 mode_Iu)
    [] ∅ mode_Ls mode_Lu mode_Is mode_Iu "first" "next" ex_param
    true false None.

Definition ex_state (g : ir_graph) (es : list (option node_entry_t))
  : lstate :=
  mk_lstate ex_keep_prog g no_statics (ex_env es).

Definition ex_graph (nodes : list ir_node) : ir_graph :=
  mk_graph nodes 1 0 0 0 0 0 0 true true
    (mk_props true true true true false).

(** [a << c] for a signed 64-bit [a] whose words are the nodes 4 and 5. *)
Definition ex_shl_state (c : Z) : lstate :=
  ex_state
    (ex_graph
       [ default_node iro_Block mode_BB None [];       (* 0 *)
         node iro_Unknown mode_Ls 0 [];                (* 1: a *)
         with_tv (node iro_Const mode_Iu 0 [])
           (Some (mk_tarval mode_Iu c));               (* 2: c *)
         node iro_Shl mode_Ls 0 [1; 2]%nat;            (* 3: a << c *)
         node iro_Unknown mode_Iu 0 [];                (* 4: low word of a *)
         node iro_Unknown mode_Is 0 []                 (* 5: high word of a *)
       ])
    [ None; Some (mk_entry (Some 4%nat) (Some 5%nat)); None;
      Some (mk_entry None None); None; None ].

(** [a << c] for an unsigned 64-bit [a] whose words are the nodes 4 and
    5. *)
Definition ex_shl_unsigned_state (c : Z) : lstate :=
  ex_state
    (ex_graph
       [ default_node iro_Block mode_BB None [];       (* 0 *)
         node iro_Unknown mode_Lu 0 [];                (* 1: a *)
         with_tv (node iro_Const mode_Iu 0 [])
           (Some (mk_tarval mode_Iu c));               (* 2: c *)
         node iro_Shl mode_Lu 0 [1; 2]%nat;            (* 3: a << c *)
         node iro_Unknown mode_Iu 0 [];                (* 4: low word of a *)
         node iro_Unknown mode_Iu 0 []                 (* 5: high word of a *)
       ])
    [ None; Some (mk_entry (Some 4%nat) (Some 5%nat)); None;
      Some (mk_entry None None); None; None ].








(** Adding nodes at the end of the arena. *)
Definition add_nodes (s : lstate) (l : list ir_node) : lstate :=
  with_irg s (with_nodes (ls_irg s) (irg_nodes (ls_irg s) ++ l)).


End LowerExamples.

(* ===================================================================== *)
(** * Notions for the specification of the lowering *)
(* ===================================================================== *)

Module LowerSpec.
Import IR LowerDW.

(** Node [n] of [g] has the opcode [op], the mode [m] and the inputs
    [ins]. *)
Definition node_is (g : ir_graph) (n : nat) (op : ir_opcode) (m : ir_mode)
    (ins : list nat) : Prop :=
  exists nd, get_node g n = Some nd /\
             irn_op nd = op /\ irn_mode nd = m /\ irn_in nd = ins.

(** Node [n] of [g] is a Const with the value [tv]. *)
Definition const_is (g : ir_graph) (n : nat) (tv : tarval) : Prop :=
  exists nd, get_node g n = Some nd /\ irn_op nd = iro_Const /\
             irn_mode nd = tv_mode tv /\ irn_tv nd = Some tv.

(** [l] is [x] converted to the mode [m]: [x] itself, which has the mode
    [m] then, or a Conv of [x] to [m]. *)
Definition converted (g : ir_graph) (x : nat) (m : ir_mode) (l : nat) : Prop :=
  (l = x /\ get_irn_mode g x = Some m) \/
  node_is g l iro_Conv m [x].



End LowerSpec.

(* ===================================================================== *)
(** * The Phis of a Block that gets a new control-flow input *)
(* ===================================================================== *)

Module PhiInputs.
Import IR.

(** The input that a Phi gets for a new control-flow input copied from
    [pred]: the copy of [pred], or [pred] where it has no copy. *)
Definition copy_or_self (g : ir_graph) (pred : nat) : nat :=
  match get_irn_link g pred with
  | Some (Some new_pred) => new_pred
  | _ => pred
  end.

(** [phi] is a Phi of the Block [block]: a Phi node whose Block is
    [block]. *)
Definition Phi_of (g : ir_graph) (block phi : nat) : Prop :=
  is_Phi g phi = true /\ get_nodes_block g phi = Some block.

(** [k] is a Phi among the out edges of [blk]. *)
Definition Phi_out (g : ir_graph) (blk : ir_node) (k : nat) : Prop :=
  is_Phi g k = true /\ k ∈ fst <$> irn_outs blk.

(** A Block (node 3) with two control-flow predecessors and one Phi
    (node 6); node 7 is a further jump. *)
Definition ex_phi_nodes : list ir_node :=
  [ default_node iro_Block mode_BB None [];                       (* 0 *)
    default_node iro_Jmp mode_X (Some 0%nat) [];                  (* 1 *)
    default_node iro_Jmp mode_X (Some 0%nat) [];                  (* 2 *)
    with_phis (default_node iro_Block mode_BB None [1; 2]%nat)
      [6%nat];                                                    (* 3 *)
    default_node iro_Unknown mode_Iu (Some 0%nat) [];             (* 4 *)
    default_node iro_Unknown mode_Iu (Some 0%nat) [];             (* 5 *)
    default_node iro_Phi mode_Iu (Some 3%nat) [4; 5]%nat;         (* 6 *)
    default_node iro_Jmp mode_X (Some 0%nat) [] ].                (* 7 *)

Definition ex_phi_state : LowerDW.lstate :=
  LowerExamples.ex_state (LowerExamples.ex_graph ex_phi_nodes) [].

(** A Block (node 3) behind a loop: its predecessor (node 1) and the
    operand of its Phi (node 4) have the copies 7 and 5. *)
Definition ex_exit_graph : ir_graph :=
  LowerExamples.ex_graph
    [ default_node iro_Block mode_BB None [];                     (* 0 *)
      with_link (default_node iro_Jmp mode_X (Some 0%nat) [])
        (Some 7%nat);                                             (* 1 *)
      default_node iro_Block mode_BB None [];                     (* 2 *)
      with_outs (default_node iro_Block mode_BB None [1%nat])
        [(6%nat, -1); (8%nat, -1)];                               (* 3 *)
      with_link (default_node iro_Unknown mode_Iu (Some 0%nat) [])
        (Some 5%nat);                                             (* 4 *)
      default_node iro_Unknown mode_Iu (Some 2%nat) [];           (* 5 *)
      default_node iro_Phi mode_Iu (Some 3%nat) [4%nat];          (* 6 *)
      default_node iro_Jmp mode_X (Some 2%nat) [];                (* 7 *)
      default_node iro_Jmp mode_X (Some 3%nat) [] ].              (* 8 *)

End PhiInputs.

(* ===================================================================== *)
(** * Auxiliary notions for the unroller *)
(* ===================================================================== *)

Module FactorSpec.
Import Factor.

(** [j] is a small divisor whose cofactor is an admissible factor. *)
Definition good (number max j : Z) : Prop :=
  number mod j = 0 /\ number / j <= max /\ power_of_two (number / j).

End FactorSpec.

Module LoopSpec.
Import IR Unroll.


(** The loop table is consistent: the outer loop of a loop other than the
    outermost one is a loop of the table and is less deep (the second part
    of [loops_consistent]). *)
Definition table_consistent (li : loop_info) : Prop :=
  forall l e, li_table li !! l = Some e ->
    le_outer e = l \/
    exists e', li_table li !! le_outer e = Some e' /\
               (le_depth e' < le_depth e)%nat.

(** [encloses li outer inner]: [outer] is reached from [inner] by one or
    more steps to the outer loop, none of them taken at the outermost
    loop. *)
Inductive encloses (li : loop_info) : nat -> nat -> Prop :=
| encloses_parent inner e :
    li_table li !! inner = Some e -> le_outer e <> inner ->
    encloses li (le_outer e) inner
| encloses_step outer inner e :
    li_table li !! inner = Some e -> le_outer e <> inner ->
    encloses li outer (le_outer e) ->
    encloses li outer inner.

End LoopSpec.

(* ===================================================================== *)
(** * Further example states for the double-word lowering *)
(* ===================================================================== *)

Module MoreExamples.
Import IR LowerDW LowerExamples.

(** [a op c] for a shift [op] of a signed 64-bit [a] whose words are the
    nodes 4 and 5. *)
Definition ex_shift_state (op : ir_opcode) (c : Z) : lstate :=
  ex_state
    (ex_graph
       [ default_node iro_Block mode_BB None [];       (* 0 *)
         node iro_Unknown mode_Ls 0 [];                (* 1: a *)
         with_tv (node iro_Const mode_Iu 0 [])
           (Some (mk_tarval mode_Iu c));               (* 2: c *)
         node op mode_Ls 0 [1; 2]%nat;                 (* 3: a op c *)
         node iro_Unknown mode_Iu 0 [];                (* 4: low word of a *)
         node iro_Unknown mode_Is 0 []                 (* 5: high word of a *)
       ])
    [ None; Some (mk_entry (Some 4%nat) (Some 5%nat)); None;
      Some (mk_entry None None); None; None ].

(** The same, with the words of [a] not yet known. *)
Definition ex_shift_waiting (op : ir_opcode) (c : Z) : lstate :=
  ex_state
    (ex_graph
       [ default_node iro_Block mode_BB None [];       (* 0 *)
         node iro_Unknown mode_Ls 0 [];                (* 1: a *)
         with_tv (node iro_Const mode_Iu 0 [])
           (Some (mk_tarval mode_Iu c));               (* 2: c *)
         node op mode_Ls 0 [1; 2]%nat ])               (* 3: a op c *)
    [ None; Some (mk_entry None None); None; Some (mk_entry None None) ].

(** A signed 64-bit Const (node 1) of value [v]. *)
Definition ex_const_state (v : Z) : lstate :=
  ex_state
    (ex_graph
       [ default_node iro_Block mode_BB None [];       (* 0 *)
         with_tv (node iro_Const mode_Ls 0 [])
           (Some (mk_tarval mode_Ls v)) ])             (* 1 *)
    [ None; Some (mk_entry None None) ].

(** An operation (node 3) on unsigned 64-bit values [a] and [b] whose
    words are the nodes 4, 5 and 6, 7. *)
Definition ex_logic_state (op : ir_opcode) (ins : list nat) : lstate :=
  ex_state
    (ex_graph
       [ default_node iro_Block mode_BB None [];       (* 0 *)
         node iro_Unknown mode_Lu 0 [];                (* 1: a *)
         node iro_Unknown mode_Lu 0 [];                (* 2: b *)
         node op mode_Lu 0 ins;                        (* 3 *)
         node iro_Unknown mode_Iu 0 [];                (* 4: low word of a *)
         node iro_Unknown mode_Iu 0 [];                (* 5: high word of a *)
         node iro_Unknown mode_Iu 0 [];                (* 6: low word of b *)
         node iro_Unknown mode_Iu 0 []                 (* 7: high word of b *)
       ])
    [ None; Some (mk_entry (Some 4%nat) (Some 5%nat));
      Some (mk_entry (Some 6%nat) (Some 7%nat)); Some (mk_entry None None);
      None; None; None; None ].

(** [(long long) x] for an [int x] (node 2) and [(int) y] for an
    [unsigned long long y] whose words are the nodes 5 and 6 (node 4). *)
Definition ex_conv_state : lstate :=
  ex_state
    (ex_graph
       [ default_node iro_Block mode_BB None [];       (* 0 *)
         node iro_Unknown mode_Is 0 [];                (* 1: x *)
         node iro_Conv mode_Ls 0 [1%nat];              (* 2 *)
         node iro_Unknown mode_Lu 0 [];                (* 3: y *)
         node iro_Conv mode_Is 0 [3%nat];              (* 4 *)
         node iro_Unknown mode_Iu 0 [];                (* 5: low word of y *)
         node iro_Unknown mode_Iu 0 []                 (* 6: high word of y *)
       ])
    [ None; None; Some (mk_entry None None);
      Some (mk_entry (Some 5%nat) (Some 6%nat)); None; None; None ].

(** The graph of [ex_keep_prog] during the lowering: the 64-bit Const
    (node 3) has an entry. *)
Definition ex_keep_state : lstate :=
  ex_state ex_keep_graph
    [ None; None; None; Some (mk_entry None None); None; None; None; None;
      None ].

(** A pass that has created its (still empty) table of intrinsics. *)
Definition ex_intrinsic_state : lstate :=
  mk_lstate ex_keep_prog ex_keep_graph
    (mk_statics (Some []) (Some []) (Some ∅) None None None None None None
       None None)
    (ex_env []).

(** [ex_intrinsic_state] after the address of the 64-bit unsigned Div was
    asked for. *)
Definition ex_intrinsic_after : lstate :=
  match get_intrinsic_address 0 iro_Div mode_Lu mode_Lu ex_intrinsic_state with
  | Some (_, s1) => s1
  | None => ex_intrinsic_state
  end.

(** The graph of [ex_shift_waiting] with an array of entries that has no
    slot at all. *)
Definition ex_no_entries : lstate :=
  ex_state (ls_irg (ex_shift_waiting iro_Shl 40)) [].

(** The state with [node] put at the end of the wait queue. *)
Definition queued (s : lstate) (node : nat) : lstate :=
  with_env s (env_with_waitq (ls_env s) (waitq (ls_env s) ++ [node])).

End MoreExamples.

(* ===================================================================== *)
(** * What a verifier run may change *)
(* ===================================================================== *)

Module VerifySpec.
Import IR Verify.

(** A graph without its visited counter and the visited marks of its
    nodes. *)
Definition forget_visited (g : ir_graph) : ir_graph :=
  with_irg_visited
    (with_nodes g ((fun nd => with_visited nd 0) <$> irg_nodes g)) 0.

(** A program without the visited counter and marks of its const-code
    graph. *)
Definition forget_marks (p : ir_prog) : ir_prog :=
  mk_prog (irp_types p) (irp_entities p)
    (alter forget_visited (irp_const_code_irg p) (irp_irgs p))
    (irp_segments p) (irp_constructors p) (irp_destructors p)
    (irp_thread_local p) (irp_const_code_irg p) (irp_code_type p).

(** The whole program as the part that is kept. *)
Definition whole (p : ir_prog) : ir_prog := p.

(** [reports key m Q]: whenever [m] returns, it has kept [key] of the
    program, has only appended warnings to the channel, and its result [a]
    and the appended warnings [l] satisfy [Q a l]. *)
Definition reports {K A} (key : ir_prog -> K) (m : V A)
    (Q : A -> list warning -> Prop) : Prop :=
  forall s a s',
    m s = Some (a, s') ->
    key (v_prog s') = key (v_prog s) /\
    exists l, v_log s' = v_log s ++ l /\ Q a l.

(** [keeps Inv m]: whenever [m] returns, [Inv] relates the state before
    to the state after. *)
Definition keeps {St A} (Inv : St -> St -> Prop) (m : M St A) : Prop :=
  forall s a s', m s = Some (a, s') -> Inv s s'.

(** The walk of [constant_on_correct_irg] touches the visited marks of the
    const-code graph and the warning channel. *)
Definition marks_and_log (p p' : vstate * bool) : Prop :=
  forget_marks (v_prog p'.1) = forget_marks (v_prog p.1) /\
  exists l, v_log p'.1 = v_log p.1 ++ l.

(** The result of a check that started with the flag [fine]: [false] only
    if the flag was down already or something was reported. *)
Definition flagged (fine : bool) (r : bool) (l : list warning) : Prop :=
  r = false -> fine = false \/ l <> [].

(** The result of a check whose every failure is reported. *)
Definition exact (fine : bool) (r : bool) (l : list warning) : Prop :=
  r = true <-> fine = true /\ l = [].

(** A program with a primitive type that has no mode. *)
Definition ex_modeless_prog : ir_prog :=
  mk_prog
    (mk_type tpo_primitive None [] 0 [] 0 false false :: ex_types)
    [] [ex_const_code_irg] [2; 5; 6; 7]%nat 6 7 5 0 3.

(** A program whose global [x] is initialized with the [Const] node 1 of
    the const-code graph. *)
Definition ex_const_code_nodes : ir_graph :=
  mk_graph
    [ default_node iro_Block mode_BB None [];
      with_tv (default_node iro_Const mode_Is (Some 0%nat) [])
        (Some (mk_tarval mode_Is 7)) ]
    0 0 0 0 0 0 0 false false (mk_props false false false false false).

Definition ex_const_init_prog : ir_prog :=
  mk_prog ex_types
    [ ex_global 0 (Some (IR_INITIALIZER_CONST 0 1)) 0 "x";
      ex_global 0 None 0 "y" ]
    [ex_const_code_nodes] [1; 4; 5; 6]%nat 5 6 4 0 2.

End VerifySpec.

(* ===================================================================== *)
(** * The parameter lists of a lowered method type *)
(* ===================================================================== *)

Module MethodTypes.
Import IR LowerDW.

(** What becomes of one parameter (or result) type: a signed double-word
    primitive becomes the pair ([tp_u], [tp_s]), an unsigned one the pair
    ([tp_u], [tp_u]), every other type stays. *)
Definition expand_slot (env : lower_env_t) (p : ir_prog) (u sg : nat)
    (slot : option nat) : list (option nat) :=
  match slot_has_mode p slot (high_signed env) with
  | Some true => [Some u; Some sg]
  | _ =>
      match slot_has_mode p slot (high_unsigned env) with
      | Some true => [Some u; Some u]
      | _ => [slot]
      end
  end.

Definition expanded_slots (env : lower_env_t) (p : ir_prog) (u sg : nat)
    (slots : list (option nat)) : list (option nat) :=
  flat_map (expand_slot env p u sg) slots.

(** The slot holds a type of the program. *)
Definition valid_slot (p : ir_prog) (slot : option nat) : Prop :=
  exists tp t, slot = Some tp /\ irp_types p !! tp = Some t.

(** The state in which the type [rt] has been added to the program of
    [s]. *)
Definition with_new_type (s : lstate) (rt : ir_type) : lstate :=
  with_prog s (prog_with_types (ls_prog s) (irp_types (ls_prog s) ++ [rt])).

(** A method type with two parameters, a signed 64-bit and a 32-bit one,
    and an unsigned 64-bit result, in a program with the primitive types
    of [Is], [Iu], [Ls] and [Lu]. *)
Definition prim (m : ir_mode) : ir_type :=
  mk_type tpo_primitive (Some m) false None [] [] [] None [].

Definition ex_method_types : list ir_type :=
  [ prim mode_Is; prim mode_Iu; prim mode_Ls; prim mode_Lu;
    mk_type tpo_method None false None [Some 2%nat; Some 0%nat] [Some 3%nat]
      [None; None] None [] ].

Definition ex_method_state : lstate :=
  mk_lstate
    (mk_prog (irp_modes LowerExamples.ex_keep_prog) ex_method_types [] [] 0)
    LowerExamples.ex_keep_graph
    (mk_statics None None (Some ∅) None None None None None None
       (Some 0%nat) (Some 1%nat))
    (LowerExamples.ex_env []).

End MethodTypes.

(* ===================================================================== *)
(** * Properties of the unroll factor *)
(* ===================================================================== *)

Section FactorProofs.
Import Factor FactorSpec.

Lemma land_pred_pow2 (k : Z) : 0 <= k -> Z.land (2 ^ k) (2 ^ k - 1) = 0.
Proof.
  intros Hk. apply Z.bits_inj'. intros n Hn.
  rewrite Z.land_spec, Z.bits_0.
  replace (2 ^ k - 1) with (Z.ones k) by (rewrite Z.ones_equiv; lia).
  destruct (Z.eq_dec n k) as [->|Hne].
  - rewrite Z.ones_spec_high by lia. apply andb_false_r.
  - rewrite Z.pow2_bits_false by lia. reflexivity.
Qed.

Lemma land_pred_zero_pow2 (c : Z) :
  0 < c -> Z.land c (c - 1) = 0 -> power_of_two c.
Proof.
  intros Hc Hland.
  exists (Z.log2 c). split; [apply Z.log2_nonneg|].
  destruct (Z.log2_spec c Hc) as [Hlo Hhi].
  destruct (Z.eq_dec c (2 ^ Z.log2 c)) as [|Hne]; [assumption|exfalso].
  assert (Hb1 : Z.testbit c (Z.log2 c) = true) by (apply Z.bit_log2; lia).
  assert (Hl : Z.log2 (c - 1) = Z.log2 c).
  { apply Z.log2_unique; [apply Z.log2_nonneg|].
    replace (Z.succ (Z.log2 c)) with (Z.log2 c + 1) in * by lia. lia. }
  assert (Hb2 : Z.testbit (c - 1) (Z.log2 c) = true).
  { rewrite <- Hl. apply Z.bit_log2.
    pose proof (Z.pow_pos_nonneg 2 (Z.log2 c) ltac:(lia) (Z.log2_nonneg c)). lia. }
  assert (Hb : Z.testbit (Z.land c (c - 1)) (Z.log2 c) = true).
  { rewrite Z.land_spec, Hb1, Hb2. reflexivity. }
  rewrite Hland, Z.bits_0 in Hb. discriminate.
Qed.

Lemma is_pow2_test_spec (c : Z) :
  0 <= c < UINT_MOD -> (is_pow2_test c = true <-> 1 <= c /\ power_of_two c).
Proof.
  intros Hc. unfold is_pow2_test, to_unsigned.
  rewrite andb_true_iff, negb_true_iff, Z.eqb_neq, Z.eqb_eq.
  split.
  - intros [Hnz Hland]. split; [lia|].
    rewrite Z.mod_small in Hland by lia.
    apply land_pred_zero_pow2; [lia|assumption].
  - intros [Hpos (k & Hk & ->)]. split; [lia|].
    rewrite Z.mod_small by lia. apply land_pred_pow2; assumption.
Qed.

Lemma loop_spec (number max : Z) :
  0 < number < UINT_MOD ->
  forall (fuel : nat) (i : Z),
    2 <= i ->
    (0 < fuel)%nat ->
    number / 2 + 1 < i + Z.of_nat fuel ->
    (forall j, 2 <= j < i -> ~ good number max j) ->
    exists r, find_optimal_factor_loop fuel number max i = Some r /\
      ((r = 0 /\ forall j, 2 <= j <= number / 2 -> ~ good number max j) \/
       (exists j, 2 <= j <= number / 2 /\ good number max j /\ r = number / j /\
                  forall j', 2 <= j' < j -> ~ good number max j')).
Proof.
  intros Hn. unfold UINT_MOD in Hn.
  assert (Hhalf : number / 2 < 2 ^ 31).
  { apply Z.div_lt_upper_bound; lia. }
  induction fuel as [|fuel IH]; intros i Hi Hpos Hfuel Hprev.
  - lia.
  - cbn [find_optimal_factor_loop].
    destruct (Z.leb_spec i (number / 2)) as [Hle|Hgt].
    2:{ exists 0. split; [reflexivity|]. left. split; [reflexivity|].
        intros j Hj. apply Hprev. lia. }
    destruct (Z.eqb_spec i 0) as [|_]; [lia|].
    assert (Hnext : to_unsigned (i + 1) = i + 1).
    { unfold to_unsigned, UINT_MOD. apply Z.mod_small. lia. }
    rewrite Hnext.
    assert (Hstep : (~ good number max i) ->
      exists r, find_optimal_factor_loop fuel number max (i + 1) = Some r /\
      ((r = 0 /\ forall j, 2 <= j <= number / 2 -> ~ good number max j) \/
       (exists j, 2 <= j <= number / 2 /\ good number max j /\ r = number / j /\
                  forall j', 2 <= j' < j -> ~ good number max j'))).
    { intros Hbad. apply IH; [lia|lia|lia|].
      intros j Hj. destruct (Z.eq_dec j i) as [->|]; [assumption|].
      apply Hprev. lia. }
    destruct (Z.eqb_spec (number mod i) 0) as [Hdiv|Hndiv].
    2:{ apply Hstep. intros (H1 & _). contradiction. }
    destruct (Z.leb_spec (number / i) max) as [Hmax|Hnmax].
    2:{ apply Hstep. intros (_ & H2 & _). lia. }
    assert (Htr : to_unsigned number = number).
    { unfold to_unsigned, UINT_MOD. apply Z.mod_small. lia. }
    rewrite Htr.
    assert (Hq : 0 <= number / i < UINT_MOD).
    { unfold UINT_MOD. split; [apply Z.div_pos; lia|].
      apply Z.div_lt_upper_bound; nia. }
    destruct (is_pow2_test (number / i)) eqn:Hp.
    + apply is_pow2_test_spec in Hp; [|assumption].
      exists (number / i). split; [reflexivity|]. right.
      exists i. split; [lia|]. split; [|split; [reflexivity|assumption]].
      unfold good. tauto.
    + apply Hstep. intros (_ & _ & H3).
      assert (is_pow2_test (number / i) = true); [|congruence].
      apply is_pow2_test_spec; [assumption|]. split; [|assumption].
      assert (1 <= number / i); [|lia].
      apply Z.div_le_lower_bound; [lia|].
      pose proof (Z.mul_div_le number 2 ltac:(lia)). nia.
Qed.

Lemma six_not_power_of_two : ~ power_of_two 6.
Proof.
  intros (k & Hk & H).
  destruct (Z.le_gt_cases 3 k) as [Hge|Hlt].
  - pose proof (Z.pow_le_mono_r 2 3 k ltac:(lia) Hge) as Hp.
    change (2 ^ 3) with 8 in Hp. lia.
  - assert (Hc : k = 0 \/ k = 1 \/ k = 2) by lia.
    destruct Hc as [-> | [-> | ->]]; discriminate H.
Qed.

(** C5, as stated, fails: for a trip count of 6 and a max factor of 8 the
    chosen factor is 6, which is no power of two. *)
Lemma find_optimal_factor_not_pow2_divisor :
  ~ (exists f, find_optimal_factor 6 8 = Some f /\
               largest_pow2_divisor_upto 6 8 f).
Proof.
  intros (f & Hf & Hspec).
  vm_compute in Hf. injection Hf as <-.
  destruct Hspec as [[H0 _]|(_ & _ & Hp & _)]; [discriminate|].
  exact (six_not_power_of_two Hp).
Qed.

(** C5 (amended): for a 32-bit trip count [N], [find_optimal_factor] returns
    [N] itself when [N <= max], otherwise the largest divisor [d] of [N]
    with [2 <= d <= max] that is a power of two, and 0 when there is none;
    the selection code marks full unrolling exactly when the factor is [N]. *)
Theorem find_optimal_factor_spec (N max : Z) :
  0 < N < UINT_MOD -> 0 <= max < UINT_MOD ->
  exists factor full,
    find_optimal_factor N max = Some factor /\
    select_factor N max false = Some (factor, full) /\
    (full = true <-> factor = N) /\
    (N <= max -> factor = N) /\
    (max < N ->
       (factor = 0 /\
        forall d, (d | N) -> 2 <= d <= max -> ~ power_of_two d) \/
       ((factor | N) /\ 2 <= factor <= max /\ power_of_two factor /\
        forall d, (d | N) -> 2 <= d <= max -> power_of_two d -> d <= factor)).
Proof.
  intros HN Hmax.
  assert (Hsel : forall factor, find_optimal_factor N max = Some factor ->
            select_factor N max false
            = Some (factor, if factor =? N then true else false)).
  { intros factor Hf. unfold select_factor. rewrite Hf. reflexivity. }
  assert (Hfull : forall factor,
            (if factor =? N then true else false) = true <-> factor = N).
  { intros factor. destruct (Z.eqb_spec factor N); split; congruence. }
  unfold find_optimal_factor in *.
  destruct (Z.leb_spec N max) as [Hle|Hgt].
  - assert (Htr : to_unsigned N = N).
    { unfold to_unsigned. apply Z.mod_small. lia. }
    rewrite Htr in *.
    exists N, (if N =? N then true else false).
    split; [reflexivity|]. split; [apply Hsel; reflexivity|].
    split; [apply Hfull|]. split; [reflexivity|lia].
  - destruct (loop_spec N max HN (S (Z.to_nat (N / 2))) 2) as (r & Hr & Hcase).
    + lia.
    + lia.
    + assert (0 <= N / 2) by (apply Z.div_pos; lia). lia.
    + intros j Hj. lia.
    + exists r, (if r =? N then true else false).
      split; [exact Hr|]. split; [apply Hsel; exact Hr|].
      split; [apply Hfull|]. split; [lia|]. intros _.
      (* from small divisors j to large divisors d = N / j *)
      assert (Hconv : forall d, (d | N) -> 2 <= d <= max ->
                2 <= N / d <= N / 2 /\ N mod (N / d) = 0 /\ N / (N / d) = d).
      { intros d [q Hq] Hd. subst N.
        assert (Hqpos : 0 < q) by nia.
        rewrite Z.div_mul by lia.
        split; [|split].
        - split; [nia|]. apply Z.div_le_lower_bound; [lia|]. nia.
        - rewrite Z.mul_comm. apply Z.mod_mul. lia.
        - rewrite Z.mul_comm. apply Z.div_mul. lia. }
      destruct Hcase as [[-> Hnone] | (j & Hj & (Hdiv & Hjmax & Hpow) & -> & Hmin)].
      * left. split; [reflexivity|]. intros d Hd Hrange Hp.
        destruct (Hconv d Hd Hrange) as (Hr1 & Hr2 & Hr3).
        apply (Hnone (N / d) Hr1). unfold good. rewrite Hr3. split; [assumption|].
        split; [lia|assumption].
      * right.
        assert (HNj : N = j * (N / j)).
        { apply Z.div_exact; [lia|assumption]. }
        assert (Hq2 : 2 <= N / j).
        { apply Z.div_le_lower_bound; [lia|].
          pose proof (Z.mul_div_le N 2 ltac:(lia)). nia. }
        split; [exists j; lia|]. split; [lia|]. split; [assumption|].
        intros d Hd Hrange Hp.
        destruct (Hconv d Hd Hrange) as (Hr1 & Hr2 & Hr3).
        destruct (Z.le_gt_cases d (N / j)) as [|Hbig]; [assumption|exfalso].
        apply (Hmin (N / d)).
        -- split; [lia|]. destruct Hd as [q Hq].
           assert (Hqpos : 0 < q) by nia.
           assert (Hqe : N / d = q) by (subst N; apply Z.div_mul; lia).
           rewrite Hqe. nia.
        -- unfold good. rewrite Hr3. split; [assumption|]. split; [lia|assumption].
Qed.

(** The amended statement at a trip count of 12 and a max factor of 4. *)
Lemma find_optimal_factor_spec_witness :
  exists factor full,
    find_optimal_factor 12 4 = Some factor /\
    select_factor 12 4 false = Some (factor, full) /\
    (full = true <-> factor = 12) /\
    (12 <= 4 -> factor = 12) /\
    (4 < 12 ->
       (factor = 0 /\
        forall d, (d | 12) -> 2 <= d <= 4 -> ~ power_of_two d) \/
       ((factor | 12) /\ 2 <= factor <= 4 /\ power_of_two factor /\
        forall d, (d | 12) -> 2 <= d <= 4 -> power_of_two d -> d <= factor)).
Proof.
  apply (find_optimal_factor_spec 12 4); unfold UINT_MOD; lia.
Defined.
End FactorProofs.

(* ===================================================================== *)
(** * Properties of the unroller *)
(* ===================================================================== *)

Section UnrollProofs.
Import IR Unroll LoopSpec.
Local Open Scope monad_scope.


Lemma walk_up_idom_valid fuel g li loop h h' :
  walk_up_idom fuel g li loop h = Some h' -> is_Some (get_node g h').
Proof.
  revert h. induction fuel as [|fuel IH]; intros h; simpl; [discriminate|].
  unfold get_Block_idom.
  destruct (get_node g h) as [nd|] eqn:Hnd; simpl; [|discriminate].
  destruct (irn_idom nd) as [d|].
  - destruct (block_is_inside_loop g li d loop) as [[|]|]; simpl.
    + apply IH.
    + intros [= <-]. rewrite Hnd. eauto.
    + discriminate.
  - intros [= <-]. rewrite Hnd. eauto.
Qed.

Lemma get_loop_header_valid g li loop h :
  get_loop_header g li loop = Some (Some h) -> is_Some (get_node g h).
Proof.
  unfold get_loop_header.
  destruct (first_block_element (loop_elements loop)) as [h0|]; [|discriminate].
  destruct (get_node g h0) as [nd|]; [|discriminate].
  destruct (negb (is_Block g h0)); [discriminate|].
  destruct (walk_up_idom _ g li (loop_id loop) h0) as [h1|] eqn:Hw; [|discriminate].
  destruct (block_dominates_loop g h1 loop) as [[|]|]; try discriminate.
  intros [= <-]. eapply walk_up_idom_valid; eassumption.
Qed.

Lemma find_suitable_factor_eq header max fu g :
  find_suitable_factor header max fu g
  = match get_node g header with
    | Some _ => Some ((0, fu), g)
    | None => None
    end.
Proof.
  unfold find_suitable_factor, bind, gets_opt, ret, get_irn_n_outs.
  destruct (get_node g header); reflexivity.
Qed.

Lemma unroll_loop_eq lib loop factor s :
  unroll_loop lib loop factor s
  = match get_loop_header (u_irg s) (u_loops s) loop with
    | Some _ => Some (tt, s)
    | None => None
    end.
Proof.
  unfold unroll_loop, bind, gets, gets_opt.
  destruct (get_loop_header (u_irg s) (u_loops s) loop) as [[h|]|] eqn:Hh;
    [|reflexivity|reflexivity].
  unfold on_irg. rewrite find_suitable_factor_eq.
  destruct (get_loop_header_valid _ _ _ _ Hh) as [nd ->].
  simpl. destruct s; reflexivity.
Qed.

(** *** The loop table *)

Lemma encloses_less_deep li outer inner :
  table_consistent li -> encloses li outer inner ->
  exists eo ei, li_table li !! outer = Some eo /\
                li_table li !! inner = Some ei /\
                (le_depth eo < le_depth ei)%nat.
Proof.
  intros Hcons H. induction H as [inner e He Hne|outer inner e He Hne H IH].
  - destruct (Hcons inner e He) as [?|(e' & He' & Hlt)]; [contradiction|].
    exists e', e. auto.
  - destruct IH as (eo & ep & Ho & Hp & Hlt).
    destruct (Hcons inner e He) as [?|(e' & He' & Hlt')]; [contradiction|].
    exists eo, e. split; [exact Ho|]. split; [exact He|].
    rewrite Hp in He'. injection He' as <-. lia.
Qed.


Lemma is_inner_loop_rounds_spec li outer :
  table_consistent li ->
  forall fuel inner e,
    li_table li !! inner = Some e -> (le_depth e < fuel)%nat ->
    exists b, is_inner_loop_rounds fuel li outer inner = Some b /\
              (b = true <-> encloses li outer inner).
Proof.
  intros Hcons. induction fuel as [|fuel IH]; intros inner e He Hfuel; [lia|].
  cbn [is_inner_loop_rounds]. unfold get_loop_outer_loop. rewrite He. cbn.
  destruct (Hcons inner e He) as [Hself|(e' & He' & Hlt)].
  - rewrite Hself, bool_decide_true by reflexivity. cbn.
    exists false. split; [reflexivity|]. split; [discriminate|].
    intros H.
    inversion H as [i e0 He0 Hne|o i e0 He0 Hne]; subst;
      rewrite He in He0; injection He0 as <-; contradiction.
  - assert (Hne : le_outer e <> inner).
    { intros Heq. rewrite Heq, He in He'. injection He' as <-. lia. }
    rewrite (bool_decide_false _ Hne). cbn.
    destruct (decide (le_outer e = outer)) as [Hout|Hout].
    + rewrite (bool_decide_true _ Hout). cbn.
      exists true. split; [reflexivity|]. split; [|reflexivity].
      intros _. rewrite <- Hout. eapply encloses_parent; eassumption.
    + rewrite (bool_decide_false _ Hout). cbn.
      destruct (IH (le_outer e) e' He' ltac:(lia)) as (b & Hb & Hiff).
      exists b. split; [exact Hb|]. rewrite Hiff. split.
      * intros H. eapply encloses_step; eassumption.
      * intros H.
        inversion H as [i e0 He0 Hne0|o i e0 He0 Hne0 Hup]; subst;
          rewrite He in He0; injection He0 as <-; [contradiction|exact Hup].
Qed.

(** *** The loop tree *)













Section LoopTree.
Variables (g : ir_graph) (li : loop_info).
Hypothesis Htree : loop_tree_consistent g li.








End LoopTree.

End UnrollProofs.

Section HeaderProofs.
Import IR Unroll LoopSpec.
Local Open Scope monad_scope.



(** *** The analyses give a result on consistent information *)









End HeaderProofs.

Section UnrollTheorems.
Import IR Unroll LoopSpec.
Local Open Scope monad_scope.

Lemma ex_irreducible_graph_dom_consistent : dom_consistent ex_irreducible_graph.
Proof.
  intros b nd d Hb Hd.
  do 21 (destruct b as [|b]; [injection Hb as <-; simpl in Hd;
           first [discriminate | injection Hd as <-; eexists; split;
                    [reflexivity|simpl; lia]]|]).
  discriminate Hb.
Qed.

Lemma ex_irreducible_graph_tree_consistent :
  loop_tree_consistent ex_irreducible_graph ex_irreducible_info.
Proof.
  assert (Hsub : forall l, l ∈ sub_loops (li_root ex_irreducible_info) ->
            l = li_root ex_irreducible_info \/ l = ex_irreducible_loop).
  { intros l Hl. cbn in Hl. set_solver. }
  constructor.
  - split.
    + intros b nd l Hb Hl.
      do 21 (destruct b as [|b]; [injection Hb as <-; simpl in Hl;
               first [discriminate | injection Hl as <-; simpl; eauto]|]).
      discriminate Hb.
    + intros l e Hl.
      destruct l as [|[|l]]; [| |discriminate Hl]; injection Hl as <-; simpl.
      * left. reflexivity.
      * right. eexists. split; [reflexivity|simpl; lia].
  - cbn. repeat constructor; set_solver.
  - reflexivity.
  - intros l son Hl Hson.
    destruct (Hsub l Hl) as [-> | ->]; cbn in Hson.
    + assert (son = ex_irreducible_loop) as -> by set_solver. reflexivity.
    + set_solver.
  - intros l b Hl Hb.
    destruct (Hsub l Hl) as [-> | ->]; cbn in Hb.
    + assert (b = 0 \/ b = 17 \/ b = 19)%nat as [-> | [-> | ->]] by set_solver;
        split; reflexivity.
    + assert (b = 10 \/ b = 12)%nat as [-> | ->] by set_solver;
        split; reflexivity.
  - intros b nd i Hb Hi.
    do 21 (destruct b as [|b]; [injection Hb as <-; simpl in Hi;
             first [discriminate
                   | injection Hi as <-;
                     first [ exists (li_root ex_irreducible_info);
                             split; [cbn; set_solver|];
                             split; [reflexivity|cbn; set_solver]
                           | exists ex_irreducible_loop;
                             split; [cbn; set_solver|];
                             split; [reflexivity|cbn; set_solver] ] ]|]).
    discriminate Hb.
Qed.

(** C3: a graph with consistent dominance and loop information on which
    [unroll_loops] does not return.  In the graph with the two-entry loop
    no Block of the loop dominates the other one, so [get_loop_header]
    returns NULL.  [unroll_loop] tests for it and returns with the state
    unchanged; [determine_lin_unroll_info], which
    [duplicate_innermost_loops] runs on every loop, reads the out edges of
    the header without a test, and so neither it nor [unroll_loops] comes
    back with the unchanged graph and a count of 0 unrolled loops:
    whatever the library does elsewhere, whatever the factor and the size
    limit. *)
Theorem unroll_loops_null_header (lib : firm_library)
    (callees : list ir_graph) (alias : list alias_list) (factor maxsize : Z) :
  assure_lcssa lib ex_irreducible_graph = ex_irreducible_graph ->
  assure_irg_properties lib ex_irreducible_graph
  = (ex_irreducible_graph, ex_irreducible_info) ->
  dom_consistent ex_irreducible_graph /\
  loop_tree_consistent ex_irreducible_graph ex_irreducible_info /\
  get_loop_header ex_irreducible_graph ex_irreducible_info ex_irreducible_loop
  = Some None /\
  (forall s,
     u_irg s = ex_irreducible_graph -> u_loops s = ex_irreducible_info ->
     unroll_loop lib ex_irreducible_loop factor s = Some (tt, s)) /\
  (forall info s,
     u_irg s = ex_irreducible_graph -> u_loops s = ex_irreducible_info ->
     determine_lin_unroll_info lib info ex_irreducible_loop s = None) /\
  unroll_loops lib callees alias ex_irreducible_graph factor maxsize = None.
Proof.
  intros Hlcssa Hprops.
  split; [exact ex_irreducible_graph_dom_consistent|].
  split; [exact ex_irreducible_graph_tree_consistent|].
  split; [reflexivity|].
  split; [|split].
  - intros s Hg Hli. rewrite unroll_loop_eq, Hg, Hli. reflexivity.
  - intros info s Hg Hli. unfold determine_lin_unroll_info.
    unfold bind at 1. unfold gets_opt at 1. rewrite Hg, Hli. reflexivity.
  - unfold unroll_loops. rewrite Hlcssa, Hprops. reflexivity.
Qed.

Lemma unroll_loops_null_header_witness :
  dom_consistent ex_irreducible_graph /\
  loop_tree_consistent ex_irreducible_graph ex_irreducible_info /\
  get_loop_header ex_irreducible_graph ex_irreducible_info ex_irreducible_loop
  = Some None /\
  (forall s,
     u_irg s = ex_irreducible_graph -> u_loops s = ex_irreducible_info ->
     unroll_loop (ex_library ex_irreducible_info) ex_irreducible_loop 4 s
     = Some (tt, s)) /\
  (forall info s,
     u_irg s = ex_irreducible_graph -> u_loops s = ex_irreducible_info ->
     determine_lin_unroll_info (ex_library ex_irreducible_info) info
       ex_irreducible_loop s = None) /\
  unroll_loops (ex_library ex_irreducible_info) [] [] ex_irreducible_graph
    4 100 = None.
Proof.
  apply (unroll_loops_null_header (ex_library ex_irreducible_info) [] [] 4 100).
  - reflexivity.
  - reflexivity.
Defined.





End UnrollTheorems.

(* ===================================================================== *)
(** * Properties of the verifier *)
(* ===================================================================== *)

Section VerifierResult.
Import IR Verify.

(** C9 fails on two programs: [ex_weak_prog] has an entity with WEAK
    linkage that is not externally visible, [ex_nested_prog] has a compound
    initializer with an entry of the wrong mode.  In both cases [tr_verify]
    reports the violation on the warning channel, leaves the program as it
    is, and returns [true]. *)
Theorem tr_verify_drops_linkage_and_nested_results :
  (exists s,
      tr_verify (mk_vstate ex_weak_prog []) = Some (true, s) /\
      v_prog s = ex_weak_prog /\
      v_log s = [W_linkage_not_external 0 2]) /\
  (exists s,
      tr_verify (mk_vstate ex_nested_prog []) = Some (true, s) /\
      v_prog s = ex_nested_prog /\
      v_log s = [W_initializer_wrong_mode 1]).
Proof.
  split; eexists; (split; [vm_compute; reflexivity|]); split; reflexivity.
Qed.
End VerifierResult.

(* ===================================================================== *)
(** * Properties of the double-word lowering *)
(* ===================================================================== *)

Section LowerCondSelector.
Import IR LowerDW LowerExamples.
Local Open Scope monad_scope.

Lemma mode_eqb_false a b : a <> b -> mode_eqb a b = false.
Proof. intros H. unfold mode_eqb. apply bool_decide_eq_false. exact H. Qed.



End LowerCondSelector.

Section LowerNodes.
Import IR LowerDW LowerExamples LowerSpec.
Local Open Scope monad_scope.

(** Symbolic execution of the monadic code: unfold the combinators and the
    accessors, and use the known facts about the state. *)
Ltac munfold :=
  cbv beta delta
      [bind ret fail get put gets modify gets_opt modify_opt assert when
       env_get env_modify irg_get irg_read irg_modify node_of get_in
       get_binop_left get_binop_right get_Cmp_left get_Cmp_right
       get_Proj_pred get_Proj_proj mode_of block_of get_entry start_block
       new_node new_ir_node new_r_Const new_r_Const_long new_r_binop
       new_r_Shl new_r_Conv new_r_Or new_r_Cmp new_r_Proj set_entry_words
       pdeq_putr set_Cond_selector
       get_irn_n get_irn_mode get_nodes_block id].
Ltac msimpl :=
  cbn [mbind option_bind fmap option_fmap option_map
       ls_irg ls_env ls_prog ls_statics with_irg with_env with_nodes
       irg_nodes irg_start_block entries low_unsigned env_with_entries
       andb negb fst snd].
Ltac mrun :=
  munfold;
  repeat (msimpl;
          try match goal with
              | H : ?x = Some _ |- context [match ?x with _ => _ end] =>
                  rewrite H
              | H : ?x = Some _ |- context [mbind _ ?x] => rewrite H
              | H : ?x = Some _ |- context [fmap _ ?x] => rewrite H
              end).

Lemma new_node_eq nd s :
  new_node nd s = Some (length (irg_nodes (ls_irg s)), add_nodes s [nd]).
Proof. reflexivity. Qed.

Lemma add_nodes_add_nodes s l1 l2 :
  add_nodes (add_nodes s l1) l2 = add_nodes s (l1 ++ l2).
Proof.
  unfold add_nodes, with_irg, with_nodes. cbn. rewrite <- app_assoc. reflexivity.
Qed.

Lemma add_nodes_length s l :
  length (irg_nodes (ls_irg (add_nodes s l)))
  = (length (irg_nodes (ls_irg s)) + length l)%nat.
Proof. cbn. apply length_app. Qed.

(** The run of [lower_Shl] on a constant shift count of at least the
    half width, with the constructors of the model, which fold nothing. *)
Lemma lower_Shl_const_count_run
    (s : lstate) (node lft right block : nat) (mode : ir_mode)
    (nd rn : ir_node) (tv : tarval) (le ne : node_entry_t) (lw : nat) :
  get_node (ls_irg s) node = Some nd ->
  irn_in nd !! 0%nat = Some lft ->
  irn_in nd !! 1%nat = Some right ->
  irn_block nd = Some block ->
  get_node (ls_irg s) right = Some rn ->
  irn_op rn = iro_Const ->
  irn_tv rn = Some tv ->
  get_mode_arithmetic mode = irma_twos_complement ->
  tarval_is_long tv = true ->
  get_mode_size_bits mode <= tv_val tv ->
  entries (ls_env s) !! lft = Some (Some le) ->
  low_word le = Some lw ->
  entries (ls_env s) !! node = Some (Some ne) ->
  let env := ls_env s in
  let n := length (irg_nodes (ls_irg s)) in
  let sb := irg_start_block (ls_irg s) in
  let shf_cnt := tv_val tv - get_mode_size_bits mode in
  let conv := default_node iro_Conv mode (Some block) [lw] in
  let zero :=
    with_tv (default_node iro_Const (low_unsigned env) (Some sb) [])
      (Some (get_mode_null (low_unsigned env))) in
  let cnt :=
    with_tv (default_node iro_Const (low_unsigned env) (Some sb) [])
      (Some (new_tarval_from_long shf_cnt (low_unsigned env))) in
  let shl := default_node iro_Shl mode (Some block) [n; S n] in
  lower_Shl node mode s
  = Some (tt,
          if 0 <? shf_cnt then
            with_env (add_nodes s [conv; cnt; shl; zero])
              (env_with_entries env
                 (<[node := Some (mk_entry (Some (S (S (S n)))) (Some (S (S n))))]>
                    (entries env)))
          else
            with_env (add_nodes s [conv; zero])
              (env_with_entries env
                 (<[node := Some (mk_entry (Some (S n)) (Some n))]>
                    (entries env)))).
Proof.
  intros Hnode Hl Hr Hblock Hright Hop Htv Harith Hlong Hsize Hle Hlw Hne.
  intros env n sb shf_cnt conv zero cnt shl.
  assert (Hcmp : (get_mode_size_bits mode <=? tv_val tv) = true)
    by (apply Z.leb_le; exact Hsize).
  unfold lower_Shl, const_shift_count.
  mrun. rewrite Harith, Hop, !bool_decide_true by reflexivity.
  mrun. unfold get_tarval_long. rewrite Hlong, Hcmp.
  mrun. fold n. fold shf_cnt.
  destruct (0 <? shf_cnt) eqn:Hpos.
  - mrun. rewrite !length_app. cbn [length]. fold n.
    replace (n + 1)%nat with (S n) by lia.
    replace (S n + 1)%nat with (S (S n)) by lia.
    replace (S (S n) + 1)%nat with (S (S (S n))) by lia.
    unfold add_nodes, with_env, with_irg, with_nodes. cbn.
    rewrite <- !app_assoc. reflexivity.
  - mrun. rewrite !length_app. cbn [length]. fold n.
    replace (n + 1)%nat with (S n) by lia.
    unfold add_nodes, with_env, with_irg, with_nodes. cbn.
    rewrite <- !app_assoc. reflexivity.
Qed.

(** C6 (amended): for a Shl whose operational mode is a doubleword mode
    with two's complement arithmetic and whose shift count is a Const [c]
    that fits a [long] and is at least the width [W/2] of the half-width
    mode [mode], with the operand already lowered: no call is emitted,
    the old nodes stay as they are and only Conv, Const and Shl nodes are
    added, and nothing is queued.  With [l] the low word of the operand
    converted to [mode] (the low word itself, which has the mode [mode]
    then, or a Conv of it to [mode]), the high word of the result is a Shl
    of mode [mode] of [l] by a Const [c - W/2] of the half-width unsigned
    mode, and [l] itself when [c = W/2]; the low word of the result is a
    Const 0 of the half-width unsigned mode. *)
Theorem lower_Shl_const_count
    (s : lstate) (node lft right block : nat) (mode : ir_mode)
    (nd rn : ir_node) (tv : tarval) (le ne : node_entry_t) (lw : nat) :
  get_node (ls_irg s) node = Some nd ->
  irn_in nd !! 0%nat = Some lft ->
  irn_in nd !! 1%nat = Some right ->
  irn_block nd = Some block ->
  get_node (ls_irg s) right = Some rn ->
  irn_op rn = iro_Const ->
  irn_tv rn = Some tv ->
  get_mode_arithmetic mode = irma_twos_complement ->
  tarval_is_long tv = true ->
  get_mode_size_bits mode <= tv_val tv ->
  entries (ls_env s) !! lft = Some (Some le) ->
  low_word le = Some lw ->
  entries (ls_env s) !! node = Some (Some ne) ->
  let mode_l := low_unsigned (ls_env s) in
  let shf_cnt := tv_val tv - get_mode_size_bits mode in
  exists s' new l high low,
    lower_Shl node mode s = Some (tt, s') /\
    irg_nodes (ls_irg s') = irg_nodes (ls_irg s) ++ new /\
    Forall (fun x => irn_op x = iro_Conv \/ irn_op x = iro_Const \/
                     irn_op x = iro_Shl) new /\
    waitq (ls_env s') = waitq (ls_env s) /\
    entries (ls_env s') !! node = Some (Some (mk_entry (Some low) (Some high))) /\
    converted (ls_irg s') lw mode l /\
    (if 0 <? shf_cnt
     then exists c,
            node_is (ls_irg s') high iro_Shl mode [l; c] /\
            const_is (ls_irg s') c (new_tarval_from_long shf_cnt mode_l)
     else high = l) /\
    const_is (ls_irg s') low (get_mode_null mode_l).
Proof.
  intros Hnode Hl Hr Hblock Hright Hop Htv Harith Hlong Hsize Hle Hlw Hne.
  intros mode_l shf_cnt.
  pose proof (lower_Shl_const_count_run s node lft right block mode nd rn tv
                le ne lw Hnode Hl Hr Hblock Hright Hop Htv Harith Hlong Hsize
                Hle Hlw Hne) as Hrun.
  cbv zeta in Hrun. fold mode_l shf_cnt in Hrun.
  set (n := length (irg_nodes (ls_irg s))) in *.
  assert (Hlt : (node < length (entries (ls_env s)))%nat)
    by (eapply lookup_lt_Some; exact Hne).
  assert (Hnew : forall l0 i,
            get_node (ls_irg (add_nodes s l0)) (i + n) = l0 !! i).
  { intros l0 i. unfold get_node. cbn.
    rewrite lookup_app_r by (unfold n; lia).
    f_equal. unfold n. lia. }
  destruct (0 <? shf_cnt) eqn:Hpos.
  - eexists _, _, n, (S (S n)), (S (S (S n))).
    split; [exact Hrun|]. cbn [ls_irg ls_env with_env add_nodes with_irg
                               with_nodes irg_nodes entries waitq
                               env_with_entries].
    split; [reflexivity|].
    split; [repeat (apply Forall_cons; split; [cbn; tauto|]); apply Forall_nil; exact I|].
    split; [reflexivity|].
    split; [apply list_lookup_insert_eq; exact Hlt|].
    split; [|split].
    + right. eexists. split; [exact (Hnew _ 0%nat)|]. repeat split; reflexivity.
    + exists (S n). split.
      * eexists. split; [exact (Hnew _ 2%nat)|]. repeat split; reflexivity.
      * eexists. split; [exact (Hnew _ 1%nat)|]. repeat split; reflexivity.
    + eexists. split; [exact (Hnew _ 3%nat)|]. repeat split; reflexivity.
  - eexists _, _, n, n, (S n).
    split; [exact Hrun|]. cbn [ls_irg ls_env with_env add_nodes with_irg
                               with_nodes irg_nodes entries waitq
                               env_with_entries].
    split; [reflexivity|].
    split; [repeat (apply Forall_cons; split; [cbn; tauto|]); apply Forall_nil; exact I|].
    split; [reflexivity|].
    split; [apply list_lookup_insert_eq; exact Hlt|].
    split; [|split; [reflexivity|]].
    + right. eexists. split; [exact (Hnew _ 0%nat)|]. repeat split; reflexivity.
    + eexists. split; [exact (Hnew _ 1%nat)|]. repeat split; reflexivity.
Qed.

(** The amended statement at [a << 40] for an unsigned 64-bit [a], whose
    low word, node 4, has the half-width mode already: the high word, node
    8, is the Shl by the Const 8 (node 7) of node 6, which is node 4
    converted to its own mode; the low word is the Const 0, node 9; all of
    them 32 bits wide. *)
Lemma lower_Shl_const_count_witness :
  get_irn_mode (ls_irg (ex_shl_unsigned_state 40)) 4 = Some mode_Iu /\
  exists s' new l high low,
    lower_Shl 3 mode_Iu (ex_shl_unsigned_state 40) = Some (tt, s') /\
    irg_nodes (ls_irg s')
    = irg_nodes (ls_irg (ex_shl_unsigned_state 40)) ++ new /\
    Forall (fun x => irn_op x = iro_Conv \/ irn_op x = iro_Const \/
                     irn_op x = iro_Shl) new /\
    waitq (ls_env s') = waitq (ls_env (ex_shl_unsigned_state 40)) /\
    entries (ls_env s') !! 3%nat
    = Some (Some (mk_entry (Some low) (Some high))) /\
    converted (ls_irg s') 4 mode_Iu l /\
    (if 0 <? 40 - 32
     then exists c,
            node_is (ls_irg s') high iro_Shl mode_Iu [l; c] /\
            const_is (ls_irg s') c (new_tarval_from_long (40 - 32) mode_Iu)
     else high = l) /\
    const_is (ls_irg s') low (get_mode_null mode_Iu).
Proof.
  split; [reflexivity|].
  eapply (lower_Shl_const_count (ex_shl_unsigned_state 40) 3 1 2 0 mode_Iu
           _ _ (mk_tarval mode_Iu 40) (mk_entry (Some 4%nat) (Some 5%nat))
           (mk_entry None None) 4);
    try reflexivity.
  simpl. lia.
Defined.

(** C6, as stated, fails: for [a << 32] with a signed 64-bit [a] the high
    word of the result is not the low word of [a], it is a new Conv node
    of that word to the signed half-width mode. *)
Lemma lower_Shl_by_half_width_high_word :
  ~ (exists s' e le,
        lower_Shl 3 mode_Is (ex_shl_state 32) = Some (tt, s') /\
        entries (ls_env s') !! 3%nat = Some (Some e) /\
        entries (ls_env (ex_shl_state 32)) !! 1%nat = Some (Some le) /\
        high_word e = low_word le).
Proof.
  intros (s' & e & le & Hrun & He & Hle & Heq).
  remember (lower_Shl 3 mode_Is (ex_shl_state 32)) as r eqn:Hr.
  vm_compute in Hr. subst r. injection Hrun as <-.
  vm_compute in He. vm_compute in Hle.
  injection He as <-. injection Hle as <-. discriminate Heq.
Qed.


Lemma with_visited_twice nd v w :
  with_visited (with_visited nd v) w = with_visited nd w.
Proof. reflexivity. Qed.
















End LowerNodes.

Section LoweredPrograms.
Import IR LowerDW LowerExamples.

(** C1 fails on [ex_keep_prog]: after [lower_dw_ops] the End node of the
    graph still has the 64-bit Const (node 3, of mode Lu) as input, so a
    node of doubleword mode is reachable from End. *)
Theorem lower_dw_ops_leaves_kept_alive_doubleword :
  exists p st g nd,
    lower_dw_ops 64 ex_param ex_keep_prog no_statics = Some (p, st) /\
    irp_irgs p !! 0%nat = Some g /\
    reachable g (irg_end g) 3 /\
    get_node g 3 = Some nd /\
    irn_op nd = iro_Const /\
    irn_mode nd = mode_Lu /\
    get_mode_size_bits mode_Lu = doubleword_size ex_param.
Proof.
  remember (lower_dw_ops 64 ex_param ex_keep_prog no_statics) as r eqn:Hr.
  vm_compute in Hr.
  match type of Hr with
  | _ = Some (?p, ?st) => exists p, st
  end.
  eexists. eexists.
  split; [exact Hr|].
  split; [reflexivity|].
  split; [|repeat split; reflexivity].
  eapply reach_in with (i := 0%nat); [reflexivity|]. apply reach_refl.
Qed.

(** The part of the idempotence that [lower_mtp] itself provides: a type
    marked lowered is returned as it is, and a type that has been lowered
    before yields the lowered type of the map; the state stays the same. *)
Lemma lower_mtp_of_lowered_type (mtp : nat) (t : ir_type) (s : lstate) :
  irp_types (ls_prog s) !! mtp = Some t ->
  is_lowered_type t = true ->
  lower_mtp mtp s = Some (mtp, s).
Proof.
  intros Ht Hl.
  unfold lower_mtp, bind, get_type, prog_get, gets_opt, ret.
  rewrite Ht, Hl. reflexivity.
Qed.

Lemma lower_mtp_of_cached_type (mtp res : nat) (t : ir_type)
    (map : gmap nat nat) (s : lstate) :
  irp_types (ls_prog s) !! mtp = Some t ->
  is_lowered_type t = false ->
  lowered_type (ls_statics s) = Some map ->
  map !! mtp = Some res ->
  lower_mtp mtp s = Some (res, s).
Proof.
  intros Ht Hl Hmap Hres.
  unfold lower_mtp, bind, get_type, prog_get, statics_get, gets_opt, ret.
  rewrite Ht, Hl, Hmap, Hres. reflexivity.
Qed.

(** C8 fails on [ex_call_prog]: after one run of [lower_dw_ops] the Call
    passes the two words of its 64-bit argument; a second run on the
    result removes the high word from the inputs of the Call, although the
    lowered method type of the Call has two parameters. *)
Theorem lower_dw_ops_twice_drops_call_argument :
  exists p1 st1 p2 st2 tp t,
    lower_dw_ops 64 ex_param ex_call_prog no_statics = Some (p1, st1) /\
    lower_dw_ops 64 ex_param p1 st1 = Some (p2, st2) /\
    ins_of p1 5 = Some [2; 4; 12; 13]%nat /\
    ins_of p2 5 = Some [2; 4; 12]%nat /\
    (g ← irp_irgs p2 !! 0%nat; nd ← get_node g 5; irn_type nd) = Some tp /\
    irp_types p2 !! tp = Some t /\
    length (mt_params t) = 2%nat.
Proof.
  remember (lower_dw_ops 64 ex_param ex_call_prog no_statics) as r eqn:Hr.
  vm_compute in Hr.
  match type of Hr with
  | _ = Some (?p, ?st) => exists p, st
  end.
  match goal with
  | |- exists p2 st2 tp t, _ /\ lower_dw_ops ?f ?a ?p ?st = _ /\ _ =>
      remember (lower_dw_ops f a p st) as r2 eqn:Hr2; vm_compute in Hr2
  end.
  match type of Hr2 with
  | _ = Some (?p, ?st) => exists p, st
  end.
  eexists. eexists.
  split; [exact Hr|].
  split; [exact Hr2|].
  repeat split; reflexivity.
Qed.
End LoweredPrograms.

(* ===================================================================== *)
(** * The Phis of a Block with a new control-flow input *)
(* ===================================================================== *)

Section ForEach.
Import IR.
Local Open Scope monad_scope.

(** A loop invariant for [for_each]: [Inv done s] holds when the elements
    [done] have been handled. *)
Lemma for_each_spec {S A} (body : A -> M S unit) (Inv : list A -> S -> Prop)
    (l : list A) :
  (forall done x rest s,
      l = done ++ x :: rest -> Inv done s ->
      exists s', body x s = Some (tt, s') /\ Inv (done ++ [x]) s') ->
  forall s, Inv [] s ->
  exists s', for_each l body s = Some (tt, s') /\ Inv l s'.
Proof.
  intros Hstep.
  assert (G : forall rest done s,
             l = done ++ rest -> Inv done s ->
             exists s', for_each rest body s = Some (tt, s') /\ Inv l s').
  { induction rest as [|x rest IH]; intros done s Hl Hinv.
    - rewrite app_nil_r in Hl. subst done. exists s. split; [reflexivity|assumption].
    - destruct (Hstep done x rest s Hl Hinv) as (s1 & Hb & Hinv1).
      destruct (IH (done ++ [x]) s1) as (s2 & Hf & Hinv2).
      + rewrite <- app_assoc. exact Hl.
      + exact Hinv1.
      + exists s2. split; [|exact Hinv2].
        cbn [for_each]. unfold bind. rewrite Hb. exact Hf. }
  intros s Hinv. apply (G l [] s); [reflexivity|exact Hinv].
Qed.

Lemma update_node_Some g k f nd :
  get_node g k = Some nd ->
  update_node g k f = Some (with_nodes g (<[k := f nd]> (irg_nodes g))).
Proof. unfold get_node, update_node. intros ->. reflexivity. Qed.

End ForEach.

Section LoweringPhis.
Import IR LowerDW.
Local Open Scope monad_scope.

Lemma add_block_cf_input_nr_spec (s : lstate) (block nr cf : nat)
    (blk : ir_node) :
  get_node (ls_irg s) block = Some blk ->
  (nr < length (irn_in blk))%nat ->
  NoDup (irn_phis blk) ->
  block ∉ irn_phis blk ->
  (forall phi, phi ∈ irn_phis blk ->
     exists p, get_node (ls_irg s) phi = Some p /\
               length (irn_in p) = length (irn_in blk)) ->
  exists s',
    add_block_cf_input_nr block nr cf s = Some (tt, s') /\
    get_node (ls_irg s') block = Some (with_in blk (irn_in blk ++ [cf])) /\
    (forall phi, phi ∈ irn_phis blk ->
       exists p x,
         get_node (ls_irg s) phi = Some p /\ irn_in p !! nr = Some x /\
         get_node (ls_irg s') phi = Some (with_in p (irn_in p ++ [x]))) /\
    (forall k, k <> block -> k ∉ irn_phis blk ->
       get_node (ls_irg s') k = get_node (ls_irg s) k).
Proof.
  intros Hblk Hnr Hnodup Hnotin Hphis.
  set (g0 := ls_irg s).
  set (g1 := with_nodes g0
               (<[block := with_in blk (irn_in blk ++ [cf])]> (irg_nodes g0))).
  set (body := fun phi : nat =>
       p <- node_of phi ;;
       assert (bool_decide (length (irn_in blk) <= length (irn_in p))%nat) ;;
       let ins := take (length (irn_in blk)) (irn_in p) in
       copied <- gets_opt (fun _ => ins !! nr) ;;
       irg_modify (fun g => set_irn_in g phi (ins ++ [copied]))).
  set (Inv := fun (done : list nat) (s' : lstate) =>
       (forall k, k ∉ done -> get_node (ls_irg s') k = get_node g1 k) /\
       (forall phi, phi ∈ done ->
          exists p x,
            get_node g0 phi = Some p /\ irn_in p !! nr = Some x /\
            get_node (ls_irg s') phi = Some (with_in p (irn_in p ++ [x])))).
  assert (Hlt : (block < length (irg_nodes g0))%nat)
    by (eapply lookup_lt_Some; exact Hblk).
  destruct (for_each_spec body Inv (irn_phis blk)) with (s := with_irg s g1)
    as (s' & Hrun & Hinv1 & Hinv2).
  { intros done x rest s0 Hl [Hrest Hdone].
    assert (Hx : x ∈ irn_phis blk) by (rewrite Hl; set_solver).
    assert (Hxd : x ∉ done).
    { rewrite Hl in Hnodup. apply NoDup_app in Hnodup as (_ & Hd & _).
      intros Hin. apply (Hd x Hin). set_solver. }
    assert (Hxb : x <> block) by (intros ->; contradiction).
    destruct (Hphis x Hx) as (p & Hp & Hlen).
    assert (Hp0 : get_node (ls_irg s0) x = Some p).
    { rewrite (Hrest x Hxd). unfold g1, get_node. cbn.
      rewrite list_lookup_insert_ne by congruence. exact Hp. }
    destruct (lookup_lt_is_Some_2 (irn_in p) nr) as [c Hc]; [lia|].
    eexists. split.
    - unfold body, bind, node_of, irg_get, gets_opt, assert, ret, irg_modify,
        modify_opt, set_irn_in.
      rewrite Hp0. rewrite bool_decide_true by lia.
      rewrite take_ge by lia. rewrite Hc.
      rewrite (update_node_Some _ _ _ _ Hp0). reflexivity.
    - split.
      + intros k Hk. cbn. unfold get_node. cbn.
        rewrite list_lookup_insert_ne by set_solver.
        apply Hrest. set_solver.
      + intros phi Hphi. apply elem_of_app in Hphi as [Hphi | Hphi].
        * destruct (Hdone phi Hphi) as (p' & x' & H1 & H2 & H3).
          exists p', x'. split; [exact H1|]. split; [exact H2|].
          unfold get_node. cbn.
          rewrite list_lookup_insert_ne by (intros ->; contradiction).
          exact H3.
        * apply list_elem_of_singleton in Hphi. subst phi.
          exists p, c. split; [exact Hp|]. split; [exact Hc|].
          unfold get_node. cbn.
          apply list_lookup_insert_eq.
          eapply lookup_lt_Some. exact Hp0. }
  { split; [intros; reflexivity|]. intros phi Hphi. set_solver. }
  exists s'. split; [|split; [|split]].
  - unfold add_block_cf_input_nr, bind at 1, node_of, irg_get, gets_opt.
    rewrite Hblk.
    unfold bind at 1. rewrite bool_decide_true by exact Hnr.
    unfold assert, ret.
    unfold bind at 1. unfold irg_modify, modify_opt, set_irn_in.
    rewrite (update_node_Some _ _ _ _ Hblk). cbn [fmap option_fmap option_map].
    unfold bind at 1. unfold gets_opt, get_Block_phis, get_node.
    cbn [ls_irg with_irg with_nodes irg_nodes].
    rewrite list_lookup_insert_eq by exact Hlt.
    cbn [fmap option_fmap option_map irn_phis with_in].
    exact Hrun.
  - rewrite (Hinv1 block Hnotin). unfold g1, get_node. cbn.
    apply list_lookup_insert_eq. exact Hlt.
  - exact Hinv2.
  - intros k Hk1 Hk2. rewrite (Hinv1 k Hk2). unfold g1, get_node. cbn.
    apply list_lookup_insert_ne. congruence.
Qed.
End LoweringPhis.

Section UnrollPhis.
Import IR Unroll PhiInputs.
Local Open Scope monad_scope.

Lemma rewire_successor_block_spec (g : ir_graph) (block n node new_node : nat)
    (blk : ir_node) :
  get_node g block = Some blk ->
  irn_op blk = iro_Block ->
  irn_in blk !! n = Some node ->
  get_irn_link g node = Some (Some new_node) ->
  (forall i j k k', irn_outs blk !! i = Some k -> irn_outs blk !! j = Some k' ->
                 fst k = fst k' -> is_Phi g (fst k) = true -> i = j) ->
  (forall phi, Phi_out g blk phi ->
     exists p, get_node g phi = Some p /\
               length (irn_in p) = length (irn_in blk) /\
               forall pred, pred ∈ irn_in p -> is_Some (get_node g pred)) ->
  exists g',
    rewire_successor_block block n g = Some (tt, g') /\
    get_node g' block = Some (with_in blk (irn_in blk ++ [new_node])) /\
    (forall phi, Phi_out g blk phi ->
       exists p pred,
         get_node g phi = Some p /\ irn_in p !! n = Some pred /\
         get_node g' phi
         = Some (with_in p (irn_in p ++ [copy_or_self g pred]))) /\
    (forall k, k <> block -> ~ Phi_out g blk k ->
       get_node g' k = get_node g k).
Proof.
  intros Hblk Hop Hnode Hlink Huniq Hphis.
  set (outs := irn_outs blk).
  set (g1 := with_nodes g
               (<[block := with_in blk (irn_in blk ++ [new_node])]>
                  (irg_nodes g))).
  set (body := fun i : nat =>
       phi <- gets_opt (fun g => get_irn_out g block i) ;;
       is_phi <- gets (fun g => is_Phi g phi) ;;
       when is_phi
         (pred <- gets_opt (fun g => get_irn_n g phi n) ;;
          new_pred <- gets_opt (fun g => get_irn_link g pred) ;;
          let new_pred := match new_pred with
                          | Some p => p
                          | None => pred
                          end in
          add_edge phi new_pred)).
  set (handled := fun (done : list nat) (k : nat) =>
       is_Phi g k = true /\
       exists i y, i ∈ done /\ outs !! i = Some y /\ fst y = k).
  set (Inv := fun (done : list nat) (g' : ir_graph) =>
       (forall k, handled done k ->
          exists p pred,
            get_node g k = Some p /\ irn_in p !! n = Some pred /\
            get_node g' k
            = Some (with_in p (irn_in p ++ [copy_or_self g pred]))) /\
       (forall k, ~ handled done k -> get_node g' k = get_node g1 k) /\
       (forall k, get_irn_link g' k = get_irn_link g k) /\
       (forall k, is_Phi g' k = is_Phi g k)).
  assert (Hlt : (block < length (irg_nodes g))%nat)
    by (eapply lookup_lt_Some; exact Hblk).
  assert (Hnp : is_Phi g block = false).
  { unfold is_Phi, is_op. rewrite Hblk, Hop. reflexivity. }
  assert (Hg1b : get_node g1 block
                 = Some (with_in blk (irn_in blk ++ [new_node]))).
  { unfold g1, get_node. cbn. apply list_lookup_insert_eq. exact Hlt. }
  assert (Hg1o : forall k, k <> block -> get_node g1 k = get_node g k).
  { intros k Hk. unfold g1, get_node. cbn.
    apply list_lookup_insert_ne. congruence. }
  assert (Hg1l : forall k, get_irn_link g1 k = get_irn_link g k).
  { intros k. unfold get_irn_link. destruct (decide (k = block)) as [-> | Hk].
    - rewrite Hg1b, Hblk. reflexivity.
    - rewrite (Hg1o k Hk). reflexivity. }
  assert (Hg1p : forall k, is_Phi g1 k = is_Phi g k).
  { intros k. unfold is_Phi, is_op. destruct (decide (k = block)) as [-> | Hk].
    - rewrite Hg1b, Hblk. reflexivity.
    - rewrite (Hg1o k Hk). reflexivity. }
  destruct (for_each_spec body Inv (seq 0 (length outs))) with (s := g1)
    as (g' & Hrun & Hinv1 & Hinv2 & Hinv3 & Hinv4).
  { intros done i rest g0 Hl (Hdone & Hrest & Hlinks & Hops).
    assert (Hi : (i < length outs)%nat).
    { assert (Hin : i ∈ seq 0 (length outs)) by (rewrite Hl; set_solver).
      apply elem_of_seq in Hin. lia. }
    assert (Hid : i ∉ done).
    { pose proof (NoDup_seq 0 (length outs)) as Hnd. rewrite Hl in Hnd.
      apply NoDup_app in Hnd as (_ & Hd & _).
      intros Hin. apply (Hd i Hin). set_solver. }
    destruct (lookup_lt_is_Some_2 outs i Hi) as [[phi pos] Hout].
    assert (Hb0 : get_node g0 block
                  = Some (with_in blk (irn_in blk ++ [new_node]))).
    { rewrite Hrest; [exact Hg1b|]. intros [Hp _]. congruence. }
    assert (Hstart : body i g0
              = (is_phi <- gets (fun g => is_Phi g phi) ;;
                 when is_phi
                   (pred <- gets_opt (fun g => get_irn_n g phi n) ;;
                    new_pred <- gets_opt (fun g => get_irn_link g pred) ;;
                    let new_pred := match new_pred with
                                    | Some p => p
                                    | None => pred
                                    end in
                    add_edge phi new_pred)) g0).
    { unfold body. unfold bind at 1. unfold gets_opt, get_irn_out,
        get_irn_out_ex.
      rewrite Hb0. cbn [irn_outs with_in]. fold outs. rewrite Hout.
      reflexivity. }
    rewrite Hstart. unfold bind at 1. unfold gets. rewrite Hops.
    destruct (is_Phi g phi) eqn:Hphi.
    - (* a Phi: extend it *)
      assert (Hfresh : ~ handled done phi).
      { intros (_ & j & y & Hj & Hy & Hfst).
        assert (j = i); [|congruence].
        eapply (Huniq j i y (phi, pos)); try eassumption.
        rewrite Hfst. exact Hphi. }
      assert (Hpb : phi <> block) by congruence.
      destruct (Hphis phi) as (p & Hp & Hlen & Hpreds).
      { split; [exact Hphi|]. apply list_elem_of_fmap.
        exists (phi, pos). split; [reflexivity|].
        eapply list_elem_of_lookup_2. exact Hout. }
      assert (Hp0 : get_node g0 phi = Some p).
      { rewrite (Hrest phi Hfresh). rewrite (Hg1o phi Hpb). exact Hp. }
      assert (Hn : (n < length (irn_in blk))%nat)
        by (eapply lookup_lt_Some; exact Hnode).
      destruct (lookup_lt_is_Some_2 (irn_in p) n) as [pred Hpred]; [lia|].
      destruct (Hpreds pred) as [pn Hpn].
      { eapply list_elem_of_lookup_2. exact Hpred. }
      eexists. split.
      + cbn [when]. unfold bind at 1. unfold gets_opt at 1. unfold get_irn_n.
        rewrite Hp0. cbn [mbind option_bind]. rewrite Hpred.
        unfold bind at 1. unfold gets_opt at 1. rewrite Hlinks.
        unfold get_irn_link at 1. rewrite Hpn.
        cbn [fmap option_fmap option_map].
        unfold add_edge, bind, gets_opt, modify_opt, set_irn_in.
        rewrite Hp0. cbn [fmap option_fmap option_map].
        rewrite (update_node_Some _ _ _ _ Hp0). reflexivity.
      + assert (Hcs : match irn_link pn with Some c => c | None => pred end
                      = copy_or_self g pred).
        { unfold copy_or_self, get_irn_link. rewrite Hpn. reflexivity. }
        rewrite Hcs.
        split; [|split; [|split]].
        * intros k (Hk & j & y & Hj & Hy & Hfst).
          apply elem_of_app in Hj as [Hj | Hj].
          -- destruct (Hdone k) as (p' & pred' & H1 & H2 & H3).
             { split; [exact Hk|]. exists j, y. auto. }
             exists p', pred'. split; [exact H1|]. split; [exact H2|].
             unfold get_node. cbn.
             rewrite list_lookup_insert_ne; [exact H3|].
             intros ->. apply Hfresh. split; [exact Hk|]. exists j, y. auto.
          -- apply list_elem_of_singleton in Hj. subst j.
             rewrite Hout in Hy. injection Hy as <-. cbn in Hfst. subst k.
             exists p, pred. split; [exact Hp|]. split; [exact Hpred|].
             unfold get_node. cbn. apply list_lookup_insert_eq.
             eapply lookup_lt_Some. exact Hp0.
        * intros k Hk. unfold get_node at 1. cbn.
          rewrite list_lookup_insert_ne.
          -- apply Hrest. intros (Hk1 & j & y & Hj & Hy & Hfst). apply Hk.
             split; [exact Hk1|]. exists j, y.
             split; [set_solver|]. auto.
          -- intros <-. apply Hk. split; [exact Hphi|].
             exists i, (phi, pos). split; [set_solver|]. auto.
        * intros k. rewrite <- Hlinks. unfold get_irn_link, get_node. cbn.
          destruct (decide (k = phi)) as [-> | Hk].
          -- rewrite list_lookup_insert_eq
               by (eapply lookup_lt_Some; exact Hp0).
             unfold get_node in Hp0. rewrite Hp0. reflexivity.
          -- rewrite list_lookup_insert_ne by congruence. reflexivity.
        * intros k. rewrite <- Hops. unfold is_Phi, is_op, get_node. cbn.
          destruct (decide (k = phi)) as [-> | Hk].
          -- rewrite list_lookup_insert_eq
               by (eapply lookup_lt_Some; exact Hp0).
             unfold get_node in Hp0. rewrite Hp0. reflexivity.
          -- rewrite list_lookup_insert_ne by congruence. reflexivity.
    - (* not a Phi: nothing to do *)
      exists g0. split; [reflexivity|].
      split; [|split; [|split]]; [| |exact Hlinks|exact Hops].
      + intros k (Hk & j & y & Hj & Hy & Hfst).
        apply Hdone. split; [exact Hk|]. exists j, y.
        split; [|auto].
        apply elem_of_app in Hj as [Hj | Hj]; [exact Hj|].
        apply list_elem_of_singleton in Hj. subst j.
        rewrite Hout in Hy. injection Hy as <-. cbn in Hfst. congruence.
      + intros k Hk. apply Hrest.
        intros (Hk1 & j & y & Hj & Hy & Hfst). apply Hk.
        split; [exact Hk1|]. exists j, y. split; [set_solver|]. auto. }
  { split; [|split; [|split]].
    - intros k (_ & j & y & Hj & _). set_solver.
    - intros; reflexivity.
    - exact Hg1l.
    - exact Hg1p. }
  assert (Hh : forall k, handled (seq 0 (length outs)) k <-> Phi_out g blk k).
  { intros k. unfold handled, Phi_out. split.
    - intros (Hk & j & y & _ & Hy & Hfst). split; [exact Hk|].
      apply list_elem_of_fmap. exists y. split; [auto|].
      eapply list_elem_of_lookup_2. exact Hy.
    - intros (Hk & Hin). split; [exact Hk|].
      apply list_elem_of_fmap in Hin as (y & Hfst & Hy).
      apply list_elem_of_lookup_1 in Hy as (j & Hy).
      exists j, y. split; [|auto].
      apply elem_of_seq. apply lookup_lt_Some in Hy. fold outs in Hy. lia. }
  exists g'. split; [|split; [|split]].
  - unfold rewire_successor_block. unfold bind at 1. unfold gets_opt at 1.
    unfold get_irn_n. rewrite Hblk. cbn [mbind option_bind]. rewrite Hnode.
    unfold bind at 1. unfold gets_opt at 1. rewrite Hlink.
    unfold bind at 1. unfold add_edge at 1.
    unfold bind at 1. unfold gets_opt at 1. rewrite Hblk.
    cbn [fmap option_fmap option_map].
    unfold modify_opt, set_irn_in. rewrite (update_node_Some _ _ _ _ Hblk).
    fold g1.
    unfold bind at 1. unfold gets_opt at 1. unfold get_irn_n_outs.
    rewrite Hg1b. cbn [fmap option_fmap option_map irn_outs with_in].
    fold outs. exact Hrun.
  - rewrite Hinv2; [exact Hg1b|]. intros [Hp _]. congruence.
  - intros phi Hphi. apply Hinv1. apply Hh. exact Hphi.
  - intros k Hk1 Hk2. rewrite Hinv2.
    + apply Hg1o. exact Hk1.
    + intros Hk. apply Hk2. apply Hh. exact Hk.
Qed.
End UnrollPhis.

Section PhiArity.
Import IR PhiInputs.

Lemma appended_input g g' k p x :
  get_node g k = Some p ->
  get_node g' k = Some (with_in p (irn_in p ++ [x])) ->
  get_irn_arity g' k = Some (S (length (irn_in p))) /\
  get_irn_n g' k (length (irn_in p)) = Some x /\
  (forall i, (i < length (irn_in p))%nat ->
             get_irn_n g' k i = get_irn_n g k i).
Proof.
  intros H H'. unfold get_irn_arity, get_irn_n. rewrite H, H'. cbn.
  split; [|split].
  - rewrite length_app. cbn. f_equal. lia.
  - apply list_lookup_middle. reflexivity.
  - intros i Hi. apply lookup_app_l. exact Hi.
Qed.

(** The lowering, [add_block_cf_input_nr]: where the Phi list of a Block
    holds the Phis of the Block, each with as many inputs as the Block has
    control-flow predecessors, the Block gets [cf] as one more input and
    every Phi of the Block one more input, a copy of its input [nr]; the
    former inputs stay where they are and no other node changes, so that
    the Phis of the Block have as many inputs as the Block again. *)
Theorem add_block_cf_input_nr_extends_Phis
    (s : LowerDW.lstate) (block nr cf : nat) (blk : ir_node) :
  get_node (LowerDW.ls_irg s) block = Some blk ->
  (nr < length (irn_in blk))%nat ->
  NoDup (irn_phis blk) ->
  block ∉ irn_phis blk ->
  (forall phi, phi ∈ irn_phis blk <-> Phi_of (LowerDW.ls_irg s) block phi) ->
  (forall phi, Phi_of (LowerDW.ls_irg s) block phi ->
     get_irn_arity (LowerDW.ls_irg s) phi = Some (length (irn_in blk))) ->
  let a := length (irn_in blk) in
  exists s',
    LowerDW.add_block_cf_input_nr block nr cf s = Some (tt, s') /\
    get_irn_arity (LowerDW.ls_irg s') block = Some (S a) /\
    get_irn_n (LowerDW.ls_irg s') block a = Some cf /\
    (forall i, (i < a)%nat ->
       get_irn_n (LowerDW.ls_irg s') block i
       = get_irn_n (LowerDW.ls_irg s) block i) /\
    (forall phi, Phi_of (LowerDW.ls_irg s') block phi <->
                 Phi_of (LowerDW.ls_irg s) block phi) /\
    (forall phi, Phi_of (LowerDW.ls_irg s') block phi ->
       get_irn_arity (LowerDW.ls_irg s') phi = Some (S a) /\
       get_irn_n (LowerDW.ls_irg s') phi a
       = get_irn_n (LowerDW.ls_irg s) phi nr /\
       (forall i, (i < a)%nat ->
          get_irn_n (LowerDW.ls_irg s') phi i
          = get_irn_n (LowerDW.ls_irg s) phi i)) /\
    (forall k, k <> block -> ~ Phi_of (LowerDW.ls_irg s) block k ->
       get_node (LowerDW.ls_irg s') k = get_node (LowerDW.ls_irg s) k).
Proof.
  intros Hblk Hnr Hnodup Hnotin Hlist Hphis a.
  destruct (add_block_cf_input_nr_spec s block nr cf blk Hblk Hnr Hnodup
              Hnotin) as (s' & Hrun & Hb & Hp & Hothers).
  { intros phi Hphi. apply Hlist in Hphi. specialize (Hphis phi Hphi).
    unfold get_irn_arity in Hphis.
    destruct (get_node (LowerDW.ls_irg s) phi) as [p|]; [|discriminate].
    exists p. split; [reflexivity|]. cbn in Hphis. congruence. }
  assert (Hsame : forall phi, Phi_of (LowerDW.ls_irg s') block phi <->
                              Phi_of (LowerDW.ls_irg s) block phi).
  { intros phi. unfold Phi_of, is_Phi, is_op, get_nodes_block.
    destruct (decide (phi = block)) as [->|Hne].
    - rewrite Hb, Hblk. reflexivity.
    - destruct (decide (phi ∈ irn_phis blk)) as [Hin|Hout].
      + destruct (Hp phi Hin) as (p & x & H0 & _ & H1).
        rewrite H0, H1. reflexivity.
      + rewrite (Hothers phi Hne Hout). reflexivity. }
  exists s'. split; [exact Hrun|].
  destruct (appended_input _ _ _ _ _ Hblk Hb) as (Ha & Hn & Hi).
  split; [exact Ha|]. split; [exact Hn|]. split; [exact Hi|].
  split; [exact Hsame|]. split.
  - intros phi Hphi. apply Hsame in Hphi.
    destruct (Hp phi (proj2 (Hlist phi) Hphi)) as (p & x & H0 & Hx & H1).
    specialize (Hphis phi Hphi). unfold get_irn_arity in Hphis.
    rewrite H0 in Hphis. cbn in Hphis.
    assert (Hlen : length (irn_in p) = a) by (injection Hphis; auto).
    destruct (appended_input _ _ _ _ _ H0 H1) as (Ha' & Hn' & Hi').
    rewrite Hlen in Ha', Hn', Hi'.
    split; [exact Ha'|]. split; [|exact Hi'].
    rewrite Hn'. unfold get_irn_n. rewrite H0. cbn. symmetry. exact Hx.
  - intros k Hk Hnot. apply Hothers; [exact Hk|].
    intros Hin. apply Hnot, Hlist, Hin.
Qed.

(** A Block with two predecessors and a Phi: after a third predecessor
    has been added, the Phi has three inputs, the new one a copy of its
    input 0. *)
Lemma add_block_cf_input_nr_extends_Phis_witness :
  exists s',
    LowerDW.add_block_cf_input_nr 3 0 7 ex_phi_state = Some (tt, s') /\
    get_irn_arity (LowerDW.ls_irg s') 3 = Some 3%nat /\
    Phi_of (LowerDW.ls_irg s') 3 6 /\
    get_irn_arity (LowerDW.ls_irg s') 6 = Some 3%nat /\
    get_irn_n (LowerDW.ls_irg s') 6 2 = Some 4%nat.
Proof.
  destruct (add_block_cf_input_nr_extends_Phis ex_phi_state 3%nat 0%nat 7%nat
              (with_phis (default_node iro_Block mode_BB None [1; 2]%nat)
                 [6%nat]))
    as (s' & Hrun & Hb & _ & _ & Hsame & Hp & _).
  - reflexivity.
  - simpl. lia.
  - simpl. apply NoDup_singleton.
  - simpl. intros H. apply list_elem_of_singleton in H. discriminate H.
  - intros phi. simpl. rewrite list_elem_of_singleton. split.
    + intros ->. split; reflexivity.
    + intros [Hphi Hin]. unfold get_nodes_block, get_node in Hin.
      do 8 (destruct phi as [|phi];
            [first [discriminate Hphi | discriminate Hin | reflexivity]|]).
      discriminate Hin.
  - intros phi [Hphi Hin]. unfold get_nodes_block, get_node in Hin.
    do 8 (destruct phi as [|phi];
          [first [discriminate Hphi | discriminate Hin | reflexivity]|]).
    discriminate Hin.
  - assert (H6 : Phi_of (LowerDW.ls_irg s') 3 6).
    { apply Hsame. split; reflexivity. }
    exists s'. split; [exact Hrun|]. split; [exact Hb|]. split; [exact H6|].
    destruct (Hp 6%nat H6) as (H1 & H2 & _).
    split; [exact H1|]. etransitivity; [exact H2|reflexivity].
Defined.

(** The unroller, [rewire_successor_block]: where the Phis among the out
    edges of a Block are the Phis of the Block, each with as many inputs
    as the Block has control-flow predecessors, the Block gets the copy of
    its predecessor [n] as one more input, and every Phi of the Block one
    more input, the copy of its input [n] (or that input itself where it
    has no copy); the former inputs stay where they are and no other node
    changes. *)
Theorem rewire_successor_block_extends_Phis
    (g : ir_graph) (block n node new_node : nat) (blk : ir_node) :
  get_node g block = Some blk ->
  irn_op blk = iro_Block ->
  irn_in blk !! n = Some node ->
  get_irn_link g node = Some (Some new_node) ->
  (forall i j k k',
     irn_outs blk !! i = Some k -> irn_outs blk !! j = Some k' ->
     fst k = fst k' -> is_Phi g (fst k) = true -> i = j) ->
  (forall phi, Phi_out g blk phi <-> Phi_of g block phi) ->
  (forall phi, Phi_of g block phi ->
     exists p, get_node g phi = Some p /\
               length (irn_in p) = length (irn_in blk) /\
               forall pred, pred ∈ irn_in p -> is_Some (get_node g pred)) ->
  let a := length (irn_in blk) in
  exists g',
    Unroll.rewire_successor_block block n g = Some (tt, g') /\
    get_irn_arity g' block = Some (S a) /\
    get_irn_n g' block a = Some new_node /\
    (forall i, (i < a)%nat -> get_irn_n g' block i = get_irn_n g block i) /\
    (forall phi, Phi_of g' block phi <-> Phi_of g block phi) /\
    (forall phi, Phi_of g' block phi ->
       get_irn_arity g' phi = Some (S a) /\
       (exists pred, get_irn_n g phi n = Some pred /\
                     get_irn_n g' phi a = Some (copy_or_self g pred)) /\
       (forall i, (i < a)%nat -> get_irn_n g' phi i = get_irn_n g phi i)) /\
    (forall k, k <> block -> ~ Phi_of g block k ->
       get_node g' k = get_node g k).
Proof.
  intros Hblk Hop Hnode Hlink Huniq Hlist Hphis a.
  destruct (rewire_successor_block_spec g block n node new_node blk Hblk Hop
              Hnode Hlink Huniq) as (g' & Hrun & Hb & Hp & Hothers).
  { intros phi Hphi. apply Hphis, Hlist, Hphi. }
  assert (Hsame : forall phi, Phi_of g' block phi <-> Phi_of g block phi).
  { intros phi. unfold Phi_of, is_Phi, is_op, get_nodes_block.
    destruct (decide (phi = block)) as [->|Hne].
    - rewrite Hb, Hblk. reflexivity.
    - destruct (decide (is_Phi g phi = true /\ phi ∈ fst <$> irn_outs blk))
        as [Hin|Hout].
      + destruct (Hp phi Hin) as (p & x & H0 & _ & H1).
        rewrite H0, H1. reflexivity.
      + rewrite (Hothers phi Hne Hout). reflexivity. }
  exists g'. split; [exact Hrun|].
  destruct (appended_input _ _ _ _ _ Hblk Hb) as (Ha & Hn & Hi).
  split; [exact Ha|]. split; [exact Hn|]. split; [exact Hi|].
  split; [exact Hsame|]. split.
  - intros phi Hphi. apply Hsame in Hphi.
    destruct (Hp phi (proj2 (Hlist phi) Hphi)) as (p & pred & H0 & Hx & H1).
    destruct (Hphis phi Hphi) as (p' & H0' & Hlen & _).
    assert (p' = p) by congruence. subst p'. fold a in Hlen.
    destruct (appended_input _ _ _ _ _ H0 H1) as (Ha' & Hn' & Hi').
    rewrite Hlen in Ha', Hn', Hi'.
    split; [exact Ha'|]. split; [|exact Hi'].
    exists pred. split; [|exact Hn'].
    unfold get_irn_n. rewrite H0. exact Hx.
  - intros k Hk Hnot. apply Hothers; [exact Hk|].
    intros Hin. apply Hnot, Hlist, Hin.
Qed.

(** A Block behind a loop with a Phi: the Block gets the copy (node 7) of
    its predecessor, the Phi the copy (node 5) of its operand. *)
Lemma rewire_successor_block_extends_Phis_witness :
  exists g',
    Unroll.rewire_successor_block 3 0 ex_exit_graph = Some (tt, g') /\
    get_irn_arity g' 3 = Some 2%nat /\
    get_irn_n g' 3 1 = Some 7%nat /\
    Phi_of g' 3 6 /\
    get_irn_arity g' 6 = Some 2%nat /\
    get_irn_n g' 6 1 = Some 5%nat.
Proof.
  destruct (rewire_successor_block_extends_Phis ex_exit_graph 3%nat 0%nat
              1%nat 7%nat
              (with_outs (default_node iro_Block mode_BB None [1%nat])
                 [(6%nat, -1); (8%nat, -1)]))
    as (g' & Hrun & Hb & Hn & _ & Hsame & Hp & _).
  - reflexivity.
  - reflexivity.
  - reflexivity.
  - reflexivity.
  - intros [|[|i]] [|[|j]] k k' Hi Hj Hf Hphi; simpl in Hi, Hj;
      try reflexivity; try discriminate;
      injection Hi as <-; injection Hj as <-; simpl in Hf, Hphi;
      discriminate.
  - intros phi. split.
    + intros [Hphi Hin]. simpl in Hin.
      apply elem_of_cons in Hin as [-> | Hin].
      * split; reflexivity.
      * apply list_elem_of_singleton in Hin. subst phi. discriminate Hphi.
    + intros [Hphi Hin]. unfold get_nodes_block, get_node in Hin.
      do 9 (destruct phi as [|phi];
            [first [discriminate Hphi | discriminate Hin
                   | split; [reflexivity|simpl; apply elem_of_cons; left;
                                          reflexivity]]|]).
      discriminate Hin.
  - intros phi [Hphi Hin]. unfold get_nodes_block, get_node in Hin.
    do 9 (destruct phi as [|phi];
          [first [discriminate Hphi | discriminate Hin
                 | eexists; split; [reflexivity|]; split; [reflexivity|];
                   simpl; intros pred H;
                   apply list_elem_of_singleton in H; subst pred;
                   eexists; reflexivity]|]).
    discriminate Hin.
  - assert (H6 : Phi_of g' 3 6).
    { apply Hsame. split; reflexivity. }
    exists g'. split; [exact Hrun|]. split; [exact Hb|]. split; [exact Hn|].
    split; [exact H6|].
    destruct (Hp 6%nat H6) as (H1 & (pred & H2 & H3) & _).
    split; [exact H1|].
    simpl in H2. injection H2 as <-. exact H3.
Defined.
End PhiArity.

(* ===================================================================== *)
(** * Further properties of the unroller *)
(* ===================================================================== *)

Section InnerLoops.
Import IR Unroll LoopSpec.

(** On a consistent loop table [is_inner_loop] gives a result, and the
    result is [true] exactly if [outer_loop] is reached from [inner_loop] by
    one or more steps to the outer loop; in particular a loop is not an
    inner loop of itself. *)
Theorem is_inner_loop_spec (li : loop_info) (outer_loop inner_loop : nat) :
  table_consistent li ->
  is_Some (li_table li !! inner_loop) ->
  exists b,
    is_inner_loop li outer_loop inner_loop = Some b /\
    (b = true <-> encloses li outer_loop inner_loop) /\
    (outer_loop = inner_loop -> b = false).
Proof.
  intros Hcons [e He]. unfold is_inner_loop. rewrite He.
  destruct (is_inner_loop_rounds_spec li outer_loop Hcons (S (le_depth e))
              inner_loop e He ltac:(lia)) as (b & Hb & Hiff).
  exists b. split; [exact Hb|]. split; [exact Hiff|].
  intros ->. destruct b; [|reflexivity].
  destruct (encloses_less_deep li inner_loop inner_loop Hcons)
    as (eo & ei & Ho & Hi & Hlt); [apply Hiff; reflexivity|].
  rewrite Ho in Hi. injection Hi as <-. lia.
Qed.

Lemma ex_loop_info_table_consistent : table_consistent ex_loop_info.
Proof.
  intros l e He. destruct l as [|[|l]]; cbn in He.
  - injection He as <-. left. reflexivity.
  - injection He as <-. right. exists (mk_loop_entry 0 0).
    split; [reflexivity|]. cbn. lia.
  - discriminate.
Qed.

Lemma is_inner_loop_spec_witness :
  is_inner_loop ex_loop_info 0 1 = Some true /\
  exists b,
    is_inner_loop ex_loop_info 0 1 = Some b /\
    (b = true <-> encloses ex_loop_info 0 1) /\
    (0%nat = 1%nat -> b = false).
Proof.
  split; [reflexivity|].
  apply (is_inner_loop_spec ex_loop_info 0 1).
  - exact ex_loop_info_table_consistent.
  - eexists. reflexivity.
Defined.

End InnerLoops.

Section DuplicateNode.
Import IR Unroll.
Local Open Scope monad_scope.

Lemma set_irn_link_Some g n l nd :
  get_node g n = Some nd ->
  set_irn_link g n l
  = Some (with_nodes g (<[n := with_link nd l]> (irg_nodes g))).
Proof.
  intros H. unfold set_irn_link, update_node. unfold get_node in H.
  rewrite H. reflexivity.
Qed.

(** [duplicate_node] appends a copy of [node] (same opcode, mode and
    inputs; in [new_block] unless it is a Block), links [node] and the copy
    made before ([node]'s old link) to the new copy and the new copy back
    to [node]; every other node stays as it is. *)
Theorem duplicate_node_links (g : ir_graph) (node : nat) (nd : ir_node)
    (new_block : option nat) :
  get_node g node = Some nd ->
  (irn_op nd = iro_Block \/ is_Some new_block) ->
  (forall c, irn_link nd = Some c -> (c < length (irg_nodes g))%nat) ->
  let new_node := length (irg_nodes g) in
  exists g',
    duplicate_node node new_block g = Some (new_node, g') /\
    length (irg_nodes g') = S (length (irg_nodes g)) /\
    get_irn_link g' node = Some (Some new_node) /\
    get_irn_link g' new_node = Some (Some node) /\
    (forall c, irn_link nd = Some c -> c <> node ->
       get_irn_link g' c = Some (Some new_node)) /\
    (exists copy,
        get_node g' new_node = Some copy /\
        irn_op copy = irn_op nd /\ irn_mode copy = irn_mode nd /\
        irn_in copy = irn_in nd /\
        irn_block copy = (if bool_decide (irn_op nd = iro_Block)
                          then irn_block nd else new_block)) /\
    (forall k, k <> node -> k <> new_node -> irn_link nd <> Some k ->
       get_node g' k = get_node g k).
Proof.
  intros Hnd Hblk Hlink new_node.
  assert (Hlt : (node < length (irg_nodes g))%nat).
  { eapply lookup_lt_Some. exact Hnd. }
  pose (place := fun (new_node : nat) (is_blk : bool) =>
            (if negb is_blk
             then match new_block with
                  | Some b => modify_opt (fun g => set_nodes_block g new_node b)
                  | None => fail
                  end
             else ret tt) : M ir_graph unit).
  pose (link_prev := fun (link : option nat) (new_node : nat) =>
            match link with
            | Some l => modify_opt (fun g => set_irn_link g l (Some new_node))
            | None => ret tt
            end : M ir_graph unit).
  change (duplicate_node node new_block) with
    (new_node <- exact_copy node ;;
     is_blk <- gets (fun g => is_Block g new_node) ;;
     place new_node is_blk ;;
     link <- gets_opt (fun g => get_irn_link g node) ;;
     link_prev link new_node ;;
     modify_opt (fun g => set_irn_link g node (Some new_node)) ;;
     modify_opt (fun g => set_irn_link g new_node (Some node)) ;;
     ret new_node).
  set (copy0 := with_loop (with_outs (with_visited (with_link nd None) 0) [])
                  None).
  set (g1 := with_nodes g (irg_nodes g ++ [copy0])).
  assert (Hcopy : exact_copy node g = Some (new_node, g1)).
  { unfold exact_copy, bind, gets_opt, get, put, ret, new_ir_node.
    rewrite Hnd. reflexivity. }
  assert (Hnew1 : get_node g1 new_node = Some copy0).
  { unfold get_node, g1, new_node. cbn. apply list_lookup_middle. reflexivity. }
  assert (Hisb : is_Block g1 new_node = bool_decide (irn_op nd = iro_Block)).
  { unfold is_Block, is_op. rewrite Hnew1. reflexivity. }
  set (copy1 := if bool_decide (irn_op nd = iro_Block) then copy0
                else with_block copy0 new_block).
  set (g2 := with_nodes g (irg_nodes g ++ [copy1])).
  assert (Hstep2 : place new_node (bool_decide (irn_op nd = iro_Block)) g1
                   = Some (tt, g2)).
  { unfold place, g2, copy1.
    destruct (bool_decide (irn_op nd = iro_Block)) eqn:Eb; cbn.
    - reflexivity.
    - destruct Hblk as [Hb|[b ->]].
      + apply bool_decide_eq_false in Eb. contradiction.
      + unfold modify_opt, set_nodes_block, update_node.
        unfold get_node in Hnew1.
        rewrite Hnew1. unfold g1, with_nodes. cbn. do 3 f_equal.
        unfold new_node. rewrite insert_app_r_alt by lia.
        rewrite Nat.sub_diag. reflexivity. }
  assert (Hnode2 : get_node g2 node = Some nd).
  { unfold get_node, g2. cbn. rewrite lookup_app_l by exact Hlt. exact Hnd. }
  set (g3 := match irn_link nd with
             | Some c =>
                 match irg_nodes g2 !! c with
                 | Some ndc =>
                     with_nodes g2 (<[c := with_link ndc (Some new_node)]>
                                      (irg_nodes g2))
                 | None => g2
                 end
             | None => g2
             end).
  assert (Hstep3 : link_prev (irn_link nd) new_node g2 = Some (tt, g3)).
  { unfold link_prev, g3. destruct (irn_link nd) as [c|] eqn:El; [|reflexivity].
    assert (Hc : (c < length (irg_nodes g2))%nat).
    { unfold g2. cbn. rewrite length_app. specialize (Hlink c eq_refl). lia. }
    destruct (lookup_lt_is_Some_2 _ _ Hc) as [ndc Hndc].
    rewrite Hndc. unfold modify_opt.
    rewrite (set_irn_link_Some g2 c _ ndc Hndc). reflexivity. }
  unfold bind at 1. rewrite Hcopy.
  unfold bind at 1, gets at 1. rewrite Hisb.
  unfold bind at 1. rewrite Hstep2.
  unfold bind at 1, gets_opt at 1, get_irn_link at 1. rewrite Hnode2.
  cbn [fmap option_fmap option_map].
  unfold bind at 1. rewrite Hstep3.
  unfold bind, modify_opt, ret.
  assert (Hlen3 : length (irg_nodes g3) = S (length (irg_nodes g))).
  { unfold g3. destruct (irn_link nd) as [c|];
      [destruct (irg_nodes g2 !! c)|]; cbn;
      rewrite ?length_insert, length_app; cbn; lia. }
  assert (Hother3 : forall k, irn_link nd <> Some k ->
            get_node g3 k = get_node g2 k).
  { intros k Hk. unfold g3. destruct (irn_link nd) as [c|]; [|reflexivity].
    destruct (irg_nodes g2 !! c); [|reflexivity].
    unfold get_node. cbn. apply list_lookup_insert_ne. congruence. }
  assert (Hnode3 : exists nd3, get_node g3 node = Some nd3).
  { apply lookup_lt_is_Some_2. lia. }
  destruct Hnode3 as [nd3 Hnd3].
  rewrite (set_irn_link_Some g3 node _ nd3 Hnd3).
  set (g4 := with_nodes g3 (<[node := with_link nd3 (Some new_node)]>
                              (irg_nodes g3))).
  assert (Hnew2 : get_node g2 new_node = Some copy1).
  { unfold get_node, g2, new_node. cbn. apply list_lookup_middle. reflexivity. }
  assert (Hnewne : new_node <> node) by (unfold new_node; lia).
  assert (Hnew3 : get_node g3 new_node = Some copy1).
  { rewrite Hother3; [exact Hnew2|].
    intros El. specialize (Hlink _ El). unfold new_node in Hlink. lia. }
  assert (Hnew4 : get_node g4 new_node = Some copy1).
  { unfold get_node, g4. cbn. rewrite list_lookup_insert_ne by congruence.
    exact Hnew3. }
  rewrite (set_irn_link_Some g4 new_node _ copy1 Hnew4).
  eexists. split; [reflexivity|].
  assert (Hlen4 : length (irg_nodes g4) = S (length (irg_nodes g))).
  { unfold g4. cbn. rewrite length_insert. exact Hlen3. }
  split; [cbn; rewrite length_insert; exact Hlen4|].
  split.
  { unfold get_irn_link, get_node. cbn.
    rewrite list_lookup_insert_ne by congruence.
    rewrite list_lookup_insert_eq by lia. reflexivity. }
  split.
  { unfold get_irn_link, get_node. cbn.
    rewrite list_lookup_insert_eq
      by (rewrite length_insert, Hlen3; unfold new_node; lia).
    reflexivity. }
  split.
  { intros c El Hcn. specialize (Hlink c El).
    unfold get_irn_link, get_node. cbn.
    rewrite list_lookup_insert_ne by (unfold new_node; lia).
    rewrite list_lookup_insert_ne by congruence.
    unfold g3. rewrite El.
    destruct (lookup_lt_is_Some_2 (irg_nodes g2) c) as [ndc Hndc].
    { unfold g2. cbn. rewrite length_app. lia. }
    rewrite Hndc. cbn. rewrite list_lookup_insert_eq; [reflexivity|].
    unfold g2. cbn. rewrite length_app. lia. }
  split.
  { exists (with_link copy1 (Some node)). split.
    - unfold get_node. cbn.
      rewrite list_lookup_insert_eq
      by (rewrite length_insert, Hlen3; unfold new_node; lia).
    reflexivity.
    - unfold copy1, copy0.
      destruct (bool_decide (irn_op nd = iro_Block)); cbn; auto. }
  intros k Hkn Hknew Hkl. unfold get_node. cbn.
  rewrite list_lookup_insert_ne by congruence.
  rewrite list_lookup_insert_ne by congruence.
  fold (get_node g3 k). rewrite (Hother3 k Hkl).
  unfold get_node, g2. cbn.
  destruct (decide (k < length (irg_nodes g))%nat) as [Hk|Hk].
  - rewrite lookup_app_l by exact Hk. reflexivity.
  - rewrite lookup_ge_None_2 by (rewrite length_app; cbn; unfold new_node in Hknew; lia).
    symmetry. apply lookup_ge_None_2. lia.
Qed.

(** The body Block of the counting loop is copied: the copy is node 4. *)
Lemma duplicate_node_links_witness :
  exists g',
    duplicate_node 2 None ex_loop_graph = Some (4%nat, g') /\
    length (irg_nodes g') = 5%nat /\
    get_irn_link g' 2 = Some (Some 4%nat) /\
    get_irn_link g' 4 = Some (Some 2%nat).
Proof.
  destruct (duplicate_node_links ex_loop_graph 2
              (ex_block [1]%nat 1 (Some 1%nat) 2 2) None)
    as (g' & Hrun & Hlen & Hl1 & Hl2 & _).
  - reflexivity.
  - left. reflexivity.
  - intros c Hc. discriminate Hc.
  - exists g'. split; [exact Hrun|]. split; [exact Hlen|].
    split; [exact Hl1|exact Hl2].
Defined.

End DuplicateNode.

Section FactorWrap.
Import Factor.

Lemma find_optimal_factor_loop_wraps (number max : Z) :
  2 ^ 33 <= number -> max < number / (2 ^ 32 - 1) ->
  forall (fuel : nat) (i : Z),
    i = 0 \/ 2 <= i < 2 ^ 32 ->
    (if i =? 0 then 0 else 2 ^ 32 - i) < Z.of_nat fuel ->
    find_optimal_factor_loop fuel number max i = None.
Proof.
  intros Hn Hmax.
  assert (Hhalf : 2 ^ 32 <= number / 2).
  { apply Z.div_le_lower_bound; lia. }
  induction fuel as [|fuel IH]; intros i Hi Hfuel.
  - destruct (Z.eqb_spec i 0); lia.
  - cbn [find_optimal_factor_loop].
    destruct (Z.leb_spec i (number / 2)) as [_|Hgt]; [|lia].
    destruct (Z.eqb_spec i 0) as [|Hnz]; [reflexivity|].
    destruct Hi as [|Hi]; [contradiction|].
    assert (Hq : max < number / i).
    { eapply Z.lt_le_trans; [exact Hmax|].
      apply Z.div_le_compat_l; lia. }
    assert (Hnext : find_optimal_factor_loop fuel number max
                      (to_unsigned (i + 1)) = None).
    { apply IH.
      - unfold to_unsigned, UINT_MOD.
        destruct (Z.eq_dec (i + 1) (2 ^ 32)) as [->|Hne].
        + left. apply Z.mod_same. lia.
        + right. rewrite Z.mod_small by lia. lia.
      - unfold to_unsigned, UINT_MOD.
        destruct (Z.eq_dec (i + 1) (2 ^ 32)) as [->|Hne].
        + rewrite Z.mod_same by lia. cbn. lia.
        + rewrite Z.mod_small by lia.
          destruct (Z.eqb_spec (i + 1) 0); lia. }
    destruct (number mod i =? 0); [|exact Hnext].
    destruct (Z.leb_spec (number / i) max); [lia|exact Hnext].
Qed.

(** For a trip count of [2^33] or more and a max factor below
    [number / (2^32 - 1)], no divisor is accepted before the 32-bit counter
    [i] wraps around to 0; [find_optimal_factor] then computes
    [number % 0] and has no result. *)
Theorem find_optimal_factor_counter_wraps (number max : Z) :
  2 ^ 33 <= number < ULONG_MOD ->
  0 <= max < UINT_MOD ->
  max < number / (2 ^ 32 - 1) ->
  find_optimal_factor number max = None.
Proof.
  intros Hn Hm Hmax. unfold find_optimal_factor.
  destruct (Z.leb_spec number max) as [Hle|_].
  { unfold UINT_MOD in Hm. lia. }
  apply find_optimal_factor_loop_wraps; [lia|exact Hmax|right; lia|].
  assert (Hhalf : 2 ^ 32 <= number / 2).
  { apply Z.div_le_lower_bound; lia. }
  cbn [Z.eqb]. rewrite Nat2Z.inj_succ, Z2Nat.id by lia. lia.
Qed.

Lemma find_optimal_factor_counter_wraps_witness :
  find_optimal_factor (2 ^ 40) 16 = None.
Proof.
  apply find_optimal_factor_counter_wraps.
  - unfold ULONG_MOD. lia.
  - unfold UINT_MOD. lia.
  - vm_compute. reflexivity.
Defined.

End FactorWrap.

(* ===================================================================== *)
(** * Further properties of the double-word lowering *)
(* ===================================================================== *)

Section SetupModes.
Import IR LowerDW LowerExamples.

Lemma new_ir_mode_attributes name sort size sign arith shift p m p' :
  new_ir_mode name sort size sign arith shift p = (m, p') ->
  mode_sort m = sort /\ mode_size_bits m = size /\ mode_sign m = sign /\
  mode_arithmetic m = arith /\ mode_modulo_shift m = shift /\
  m ∈ irp_modes p' /\
  (forall x, x ∈ irp_modes p -> x ∈ irp_modes p').
Proof.
  unfold new_ir_mode.
  destruct (list_find _ (irp_modes p)) as [[i x]|] eqn:Hfind.
  - intros [= <- <-].
    apply list_find_Some in Hfind as (Hi & (H1 & H2 & H3 & H4 & H5) & _).
    cbn in *. repeat split; try assumption.
    + eapply list_elem_of_lookup_2. exact Hi.
    + auto.
  - intros [= <- <-]. cbn. repeat split; try reflexivity.
    + apply elem_of_app. right. apply list_elem_of_here.
    + intros x Hx. apply elem_of_app. left. exact Hx.
Qed.

(** What [setup_modes] leaves in the environment when it does not panic:
    the two doubleword modes are the signed and the unsigned integer mode
    of [doubleword_size] bits of the program, and no other integer mode of
    the program has that size; the two lowered modes are integer modes of
    half that size, one signed and one unsigned, with the arithmetic of
    the doubleword modes; the modes of the program are all kept. *)
Theorem setup_modes_postcondition
    (param : lwrdw_param_t) (p p' : ir_prog) (hs hu ls lu : ir_mode) :
  setup_modes param p = Some (hs, hu, ls, lu, p') ->
  let size := doubleword_size param in
  (hs ∈ irp_modes p /\ mode_is_int hs = true /\ mode_size_bits hs = size /\
   mode_sign hs = true) /\
  (hu ∈ irp_modes p /\ mode_is_int hu = true /\ mode_size_bits hu = size /\
   mode_sign hu = false) /\
  (forall m, m ∈ irp_modes p -> mode_is_int m = true ->
             mode_size_bits m = size -> m = hs \/ m = hu) /\
  size mod 2 = 0 /\
  (mode_is_int ls = true /\ mode_size_bits ls = size / 2 /\
   mode_sign ls = true /\ mode_arithmetic ls = mode_arithmetic hs) /\
  (mode_is_int lu = true /\ mode_size_bits lu = size / 2 /\
   mode_sign lu = false /\ mode_arithmetic lu = mode_arithmetic hs) /\
  (forall m, m ∈ irp_modes p -> m ∈ irp_modes p').
Proof.
  intros H size. unfold setup_modes in H.
  match type of H with
  | context [mbind _ (?f (irp_modes p) None None)] => set (search := f) in H
  end.
  assert (Hs : forall l ds du ds' du',
             search l ds du = Some (ds', du') ->
             (forall m, ds' = Some m ->
                ds = Some m \/
                ds = None /\ m ∈ l /\ mode_is_int m = true /\
                mode_size_bits m = size /\ mode_sign m = true) /\
             (forall m, du' = Some m ->
                du = Some m \/
                du = None /\ m ∈ l /\ mode_is_int m = true /\
                mode_size_bits m = size /\ mode_sign m = false) /\
             (forall m, m ∈ l -> mode_is_int m = true ->
                mode_size_bits m = size ->
                if mode_sign m then ds' = Some m else du' = Some m)).
  { clear H. induction l as [|x l IH]; intros ds du ds' du'.
    - cbn. intros [= <- <-]. split; [auto|split; [auto|]].
      intros m Hm. apply elem_of_nil in Hm. contradiction.
    - unfold search. cbn -[mode_is_int]. fold search.
      unfold get_mode_size_bits, mode_is_signed. fold size.
      destruct (mode_is_int x) eqn:Hint; cbn [negb].
      2:{ intros Hr. destruct (IH _ _ _ _ Hr) as (H1 & H2 & H3).
          split; [|split].
          - intros m Hm. destruct (H1 m Hm) as [?|(? & ? & ?)]; [auto|].
            right. split; [assumption|].
            split; [apply list_elem_of_further; tauto|tauto].
          - intros m Hm. destruct (H2 m Hm) as [?|(? & ? & ?)]; [auto|].
            right. split; [assumption|].
            split; [apply list_elem_of_further; tauto|tauto].
          - intros m Hm Hi Hsz. apply elem_of_cons in Hm as [-> | Hm].
            + congruence.
            + apply H3; assumption. }
      destruct (mode_size_bits x =? size) eqn:Hsz; cbn [negb].
      2:{ apply Z.eqb_neq in Hsz.
          intros Hr. destruct (IH _ _ _ _ Hr) as (H1 & H2 & H3).
          split; [|split].
          - intros m Hm. destruct (H1 m Hm) as [?|(? & ? & ?)]; [auto|].
            right. split; [assumption|].
            split; [apply list_elem_of_further; tauto|tauto].
          - intros m Hm. destruct (H2 m Hm) as [?|(? & ? & ?)]; [auto|].
            right. split; [assumption|].
            split; [apply list_elem_of_further; tauto|tauto].
          - intros m Hm Hi Hsz'. apply elem_of_cons in Hm as [-> | Hm].
            + congruence.
            + apply H3; assumption. }
      apply Z.eqb_eq in Hsz.
      destruct (mode_sign x) eqn:Hsign.
      + destruct ds as [d|]; [discriminate|].
        intros Hr. destruct (IH _ _ _ _ Hr) as (H1 & H2 & H3).
        assert (Hx : ds' = Some x).
        { destruct ds' as [d'|].
          - destruct (H1 d' eq_refl) as [[= ->]|(Hn & _)];
              [reflexivity|discriminate].
          - revert Hr. clear. revert du.
            induction l as [|y l IHl]; intros du; [discriminate|].
            unfold search. cbn -[mode_is_int]. fold search.
            destruct (negb (mode_is_int y)); [apply IHl|].
            destruct (negb (get_mode_size_bits y =? doubleword_size param));
              [apply IHl|].
            destruct (mode_is_signed y); [discriminate|].
            destruct du; [discriminate|apply IHl]. }
        split; [|split].
        * intros m Hm. right. rewrite Hx in Hm. injection Hm as <-.
          split; [reflexivity|]. split; [apply list_elem_of_here|auto].
        * intros m Hm. destruct (H2 m Hm) as [?|(? & ? & ?)]; [auto|].
          right. split; [assumption|].
            split; [apply list_elem_of_further; tauto|tauto].
        * intros m Hm Hi Hsz'. apply elem_of_cons in Hm as [-> | Hm].
          -- rewrite Hsign. exact Hx.
          -- specialize (H3 m Hm Hi Hsz').
             destruct (mode_sign m) eqn:Hms; [|exact H3].
             destruct (H1 m H3) as [[= <-]|(Hn & _)];
               [exact Hx|discriminate].
      + destruct du as [d|]; [discriminate|].
        intros Hr. destruct (IH _ _ _ _ Hr) as (H1 & H2 & H3).
        assert (Hx : du' = Some x).
        { destruct du' as [d'|].
          - destruct (H2 d' eq_refl) as [[= ->]|(Hn & _)];
              [reflexivity|discriminate].
          - revert Hr. clear. revert ds.
            induction l as [|y l IHl]; intros ds; [discriminate|].
            unfold search. cbn -[mode_is_int]. fold search.
            destruct (negb (mode_is_int y)); [apply IHl|].
            destruct (negb (get_mode_size_bits y =? doubleword_size param));
              [apply IHl|].
            destruct (mode_is_signed y); [|discriminate].
            destruct ds; [discriminate|apply IHl]. }
        split; [|split].
        * intros m Hm. destruct (H1 m Hm) as [?|(? & ? & ?)]; [auto|].
          right. split; [assumption|].
            split; [apply list_elem_of_further; tauto|tauto].
        * intros m Hm. right. rewrite Hx in Hm. injection Hm as <-.
          split; [reflexivity|]. split; [apply list_elem_of_here|auto].
        * intros m Hm Hi Hsz'. apply elem_of_cons in Hm as [-> | Hm].
          -- rewrite Hsign. exact Hx.
          -- specialize (H3 m Hm Hi Hsz').
             destruct (mode_sign m) eqn:Hms; [exact H3|].
             destruct (H2 m H3) as [[= <-]|(Hn & _)];
               [exact Hx|discriminate]. }
  destruct (search (irp_modes p) None None) as [[ds du]|] eqn:Hfound;
    [|discriminate].
  cbn [mbind option_bind] in H.
  destruct (Hs _ _ _ _ _ Hfound) as (H1 & H2 & H3).
  destruct ds as [ds|]; [|discriminate].
  destruct du as [du|]; [|discriminate].
  destruct (negb _) eqn:Hchk in H; [discriminate|].
  apply negb_false_iff in Hchk.
  apply andb_prop in Hchk as [Hchk Hshift].
  apply andb_prop in Hchk as [Hmod Harith].
  apply Z.eqb_eq in Hmod. apply bool_decide_eq_true in Harith.
  destruct (if mode_modulo_shift ds =? doubleword_size param then _ else _)
    as [ms|] eqn:Hms in H; [|discriminate].
  cbn [mbind option_bind] in H.
  destruct (new_ir_mode "WS" _ _ _ _ _ p) as [ls0 p0] eqn:Hls.
  destruct (new_ir_mode "WU" _ _ _ _ _ p0) as [lu0 p1] eqn:Hlu.
  injection H as <- <- <- <- <-.
  apply new_ir_mode_attributes in Hls as (L1 & L2 & L3 & L4 & L5 & L6 & L7).
  apply new_ir_mode_attributes in Hlu as (U1 & U2 & U3 & U4 & U5 & U6 & U7).
  destruct (H1 ds eq_refl) as [?|(_ & S1 & S2 & S3 & S4)]; [discriminate|].
  destruct (H2 du eq_refl) as [?|(_ & T1 & T2 & T3 & T4)]; [discriminate|].
  split; [auto|]. split; [auto|]. split.
  { intros m Hm Hi Hsz. specialize (H3 m Hm Hi Hsz).
    destruct (mode_sign m); [left|right]; congruence. }
  split; [exact Hmod|].
  unfold mode_is_int. rewrite L1, U1.
  repeat split; auto.
Qed.

(** The modes of [ex_keep_prog]: 64-bit words are lowered to the 32-bit
    modes that the program has already. *)
Lemma setup_modes_postcondition_witness :
  setup_modes ex_param ex_keep_prog
  = Some (mode_Ls, mode_Lu, mode_Is, mode_Iu, ex_keep_prog) /\
  mode_size_bits mode_Is = doubleword_size ex_param / 2 /\
  mode_sign mode_Iu = false.
Proof.
  assert (H : setup_modes ex_param ex_keep_prog
              = Some (mode_Ls, mode_Lu, mode_Is, mode_Iu, ex_keep_prog))
    by reflexivity.
  split; [exact H|].
  destruct (setup_modes_postcondition _ _ _ _ _ _ _ H)
    as (_ & _ & _ & _ & (_ & Hsize & _) & (_ & _ & Hsign & _) & _).
  split; [exact Hsize|exact Hsign].
Defined.

(** [setup_modes] panics ("Couldn't find doubleword modes") on a program
    without a signed integer mode of [doubleword_size] bits, and likewise
    without an unsigned one. *)
Theorem setup_modes_needs_both_modes (param : lwrdw_param_t) (p : ir_prog)
    (sign : bool) :
  (forall m, m ∈ irp_modes p -> mode_is_int m = true ->
             mode_size_bits m = doubleword_size param ->
             mode_sign m = negb sign) ->
  setup_modes param p = None.
Proof.
  intros Hnone. unfold setup_modes.
  match goal with
  | |- context [mbind _ (?f (irp_modes p) None None)] => set (search := f)
  end.
  assert (Hs : forall l ds du r,
             (forall m, m ∈ l -> mode_is_int m = true ->
                mode_size_bits m = doubleword_size param ->
                mode_sign m = negb sign) ->
             search l ds du = Some r ->
             if sign then fst r = ds else snd r = du).
  { induction l as [|x l IH]; intros ds du r Hl.
    - cbn. intros [= <-]. destruct sign; reflexivity.
    - assert (Hl' : forall m, m ∈ l -> mode_is_int m = true ->
                      mode_size_bits m = doubleword_size param ->
                      mode_sign m = negb sign)
        by (intros m Hm; apply Hl; apply list_elem_of_further; exact Hm).
      unfold search. cbn -[mode_is_int]. fold search.
      unfold get_mode_size_bits, mode_is_signed.
      destruct (mode_is_int x) eqn:Hint; cbn [negb]; [|apply IH; exact Hl'].
      destruct (mode_size_bits x =? doubleword_size param) eqn:Hsz;
        cbn [negb]; [|apply IH; exact Hl'].
      apply Z.eqb_eq in Hsz.
      rewrite (Hl x (list_elem_of_here _ _) Hint Hsz).
      destruct sign; cbn [negb].
      + destruct du; [discriminate|]. intros Hr.
        exact (IH _ _ _ Hl' Hr).
      + destruct ds; [discriminate|]. intros Hr.
        exact (IH _ _ _ Hl' Hr). }
  destruct (search (irp_modes p) None None) as [[ds du]|] eqn:Hfound;
    [|reflexivity].
  cbn [mbind option_bind].
  specialize (Hs _ _ _ _ Hnone Hfound). cbn in Hs.
  destruct sign; subst; [reflexivity|].
  destruct ds; reflexivity.
Qed.

Lemma setup_modes_needs_both_modes_witness :
  setup_modes ex_param
    (mk_prog [mode_Is; mode_Iu; mode_Lu] [] [] [] 0) = None.
Proof.
  apply (setup_modes_needs_both_modes ex_param _ true).
  intros m Hm Hint Hsize.
  apply elem_of_cons in Hm as [-> | Hm]; [discriminate Hsize|].
  apply elem_of_cons in Hm as [-> | Hm]; [discriminate Hsize|].
  apply list_elem_of_singleton in Hm. subst m. reflexivity.
Defined.
End SetupModes.

Section IntrinsicTable.
Import IR LowerDW LowerExamples MoreExamples.
Local Open Scope monad_scope.

(** The table of the intrinsic functions works as a cache keyed by the
    opcode and the two modes.  After a call of [get_intrinsic_address],
    a further call for the same opcode and modes (whatever the method
    type) creates no entity and does not ask the factory: program and
    table stay as they are, and the one new node is a SymConst of the
    entity that the first call gave. *)
Theorem get_intrinsic_address_cached
    (s s1 : lstate) (method method' : nat) (op : ir_opcode)
    (imode omode : ir_mode) (n1 : nat) :
  get_intrinsic_address method op imode omode s = Some (n1, s1) ->
  exists ent,
    irn_entity <$> get_node (ls_irg s1) n1 = Some (Some ent) /\
    get_intrinsic_address method' op imode omode s1
    = Some (length (irg_nodes (ls_irg s1)),
            add_nodes s1
              [ with_entity
                  (default_node iro_SymConst mode_P_code
                     (Some (irg_start_block (ls_irg s1))) [])
                  (Some ent) ]).
Proof.
  unfold get_intrinsic_address at 1.
  unfold bind at 1. unfold statics_get at 1. unfold gets_opt at 1.
  destruct (intrinsic_fkt (ls_statics s)) as [tbl|] eqn:Htbl; [|discriminate].
  unfold bind at 1. unfold env_get at 1. unfold gets at 1.
  unfold bind at 1.
  destruct (list_find _ tbl) as [[i e]|] eqn:Hfind.
  - unfold ret at 1. intros [= <- <-].
    exists (ome_ent e). split.
    + unfold get_node. cbn.
      rewrite list_lookup_middle by reflexivity. reflexivity.
    + unfold get_intrinsic_address, bind, statics_get, gets_opt, env_get,
        gets, ret.
      cbn [ls_statics with_irg]. rewrite Htbl.
      cbn [ls_env with_irg]. rewrite Hfind. reflexivity.
  - unfold bind at 1. unfold gets at 1.
    unfold bind at 1. unfold gets_opt at 1.
    destruct (create_intrinsic _ _ _ _ _ _) as [[ent p']|]; [|discriminate].
    unfold bind at 1. unfold modify at 1.
    unfold bind at 1. unfold statics_modify at 1. unfold modify at 1.
    unfold ret at 1. intros [= <- <-].
    exists ent. split.
    + unfold get_node. cbn.
      rewrite list_lookup_middle by reflexivity. reflexivity.
    + unfold get_intrinsic_address, bind, statics_get, gets_opt, env_get,
        gets, ret.
      cbn [ls_statics with_irg with_statics with_prog intrinsic_fkt ls_env].
      rewrite list_find_app_r by exact Hfind.
      cbn [list_find]. rewrite decide_True by (cbn; auto).
      reflexivity.
Qed.

(** The 64-bit unsigned Div: the first call creates entity 1, the second
    one uses it again, although it names another method type. *)
Lemma get_intrinsic_address_cached_witness :
  exists n2 s2,
    get_intrinsic_address 0 iro_Div mode_Lu mode_Lu ex_intrinsic_state
    = Some (9%nat, ex_intrinsic_after) /\
    get_intrinsic_address 1 iro_Div mode_Lu mode_Lu ex_intrinsic_after
    = Some (n2, s2) /\
    ls_prog s2 = ls_prog ex_intrinsic_after /\
    ls_statics s2 = ls_statics ex_intrinsic_after /\
    irn_entity <$> get_node (ls_irg s2) n2 = Some (Some 1%nat) /\
    irn_entity <$> get_node (ls_irg s2) 9 = Some (Some 1%nat).
Proof.
  assert (H : get_intrinsic_address 0 iro_Div mode_Lu mode_Lu
                ex_intrinsic_state = Some (9%nat, ex_intrinsic_after))
    by reflexivity.
  destruct (get_intrinsic_address_cached _ _ 0 1 _ _ _ _ H)
    as (ent & He & Hsecond).
  assert (ent = 1%nat) as -> by (vm_compute in He; congruence).
  eexists. eexists. split; [exact H|]. split; [exact Hsecond|].
  repeat split; reflexivity.
Defined.
End IntrinsicTable.

Section PrepareLinks.
Import IR LowerDW LowerExamples MoreExamples.
Local Open Scope monad_scope.

(** [prepare_links] on a node of doubleword operational mode (no Proj,
    Phi or Block): inside the array the node gets a fresh entry without
    words and the pass is told that there is work to do.  For a node
    beyond the array, the array is enlarged to [idx + idx/8] slots: that
    has a slot for the node from index 8 on, and for a smaller index the
    entry would be written behind the array. *)
Theorem prepare_links_allocates_entry
    (s : lstate) (node : nat) (nd : ir_node) (m : ir_mode) :
  get_node (ls_irg s) node = Some nd ->
  get_irn_op_mode node s = Some (m, s) ->
  is_high_mode (ls_env s) m = true ->
  irn_op nd <> iro_Proj -> irn_op nd <> iro_Phi -> irn_op nd <> iro_Block ->
  let env := ls_env s in
  let n := n_entries env in
  let fresh := Some (mk_entry None None) in
  let marked (es : list (option node_entry_t)) :=
    with_env s
      (env_with_flags (env_with_entries env (<[node := fresh]> es)) true
         (cf_changed env)) in
  ((node < n)%nat ->
   prepare_links node s = Some (tt, marked (entries env))) /\
  ((n <= node)%nat -> (8 <= node)%nat ->
   prepare_links node s
   = Some (tt, marked (entries env
                       ++ replicate (node + Nat.shiftr node 3 - n) None))) /\
  ((n <= node)%nat -> (node < 8)%nat -> prepare_links node s = None).
Proof.
  intros Hnode Hmode Hhigh Hproj Hphi Hblock env n fresh marked.
  assert (Hstart : forall k : ir_mode -> L unit,
             (mode <- get_irn_op_mode node ;; k mode) s = k m s).
  { intros k. unfold bind. rewrite Hmode. reflexivity. }
  assert (Hpl : forall r,
             ((if bool_decide (n <= node)%nat then
                 env_modify (fun env =>
                   env_with_entries env
                     (take (node + Nat.shiftr node 3) (entries env) ++
                      replicate (node + Nat.shiftr node 3 - n_entries env)
                        None))
               else ret tt) ;;
              ok <- env_get (fun env => bool_decide (node < n_entries env)%nat) ;;
              assert ok ;;
              env_modify (fun env =>
                env_with_flags
                  (env_with_entries env
                     (<[node := Some (mk_entry None None)]> (entries env)))
                  true (cf_changed env)) ;;
              ret tt) s = r ->
             prepare_links node s = r).
  { intros r <-.
    unfold prepare_links. rewrite Hstart.
    unfold bind at 1. unfold env_get at 1. unfold gets at 1.
    unfold bind at 1. unfold node_of, irg_get, gets_opt. rewrite Hnode.
    unfold id. rewrite Hhigh.
    rewrite !(bool_decide_false (irn_op nd = _)) by assumption.
    reflexivity. }
  assert (Hdiv : (node < 8 -> Nat.shiftr node 3 = 0)%nat /\
                 (8 <= node -> 1 <= Nat.shiftr node 3)%nat).
  { rewrite Nat.shiftr_div_pow2. change (2 ^ 3)%nat with 8%nat. split.
    - intros H. apply Nat.div_small. exact H.
    - intros H. apply Nat.div_le_lower_bound; lia. }
  destruct Hdiv as [Hsmall Hbig].
  split; [|split].
  - intros Hlt. apply Hpl.
    case_bool_decide; [lia|].
    unfold bind, ret, env_get, gets, assert, env_modify, modify.
    fold env. fold n.
    case_bool_decide; [|lia].
    reflexivity.
  - intros Hge H8. apply Hpl.
    case_bool_decide; [|lia].
    unfold bind, ret, env_get, gets, assert, env_modify, modify, n_entries.
    cbn [ls_env with_env entries env_with_entries].
    fold env. rewrite take_ge by (fold (n_entries env); fold n; lia).
    case_bool_decide as Hlen.
    + subst marked. cbn. reflexivity.
    + exfalso. apply Hlen.
      rewrite length_app, length_replicate. fold (n_entries env). fold n.
      specialize (Hbig H8). lia.
  - intros Hge H8. apply Hpl.
    case_bool_decide; [|lia].
    unfold bind, ret, env_get, gets, assert, env_modify, modify, n_entries.
    cbn [ls_env with_env entries env_with_entries].
    fold env. rewrite take_ge by (fold (n_entries env); fold n; lia).
    case_bool_decide as Hlen.
    + exfalso. revert Hlen.
      rewrite length_app, length_replicate. fold (n_entries env). fold n.
      rewrite (Hsmall H8). lia.
    + reflexivity.
Qed.

(** The Shl of [ex_shift_waiting] (node 3): inside an array of 4 slots it
    gets its entry; with an empty array the array is enlarged to 3 slots
    and the write to slot 3 goes wrong. *)
Lemma prepare_links_allocates_entry_witness :
  prepare_links 3 (ex_shift_waiting iro_Shl 40)
  = Some (tt, ex_shift_waiting iro_Shl 40) /\
  prepare_links 3 ex_no_entries = None.
Proof.
  split.
  - destruct (prepare_links_allocates_entry (ex_shift_waiting iro_Shl 40) 3
                (node iro_Shl mode_Ls 0 [1; 2]%nat) mode_Ls)
      as (Ha & _ & _);
      [reflexivity | reflexivity | reflexivity | discriminate | discriminate
      | discriminate | ].
    rewrite Ha by (vm_compute; lia). reflexivity.
  - destruct (prepare_links_allocates_entry ex_no_entries 3
                (node iro_Shl mode_Ls 0 [1; 2]%nat) mode_Ls)
      as (_ & _ & Hc);
      [reflexivity | reflexivity | reflexivity | discriminate | discriminate
      | discriminate | ].
    apply Hc; vm_compute; lia.
Defined.
End PrepareLinks.

Section LowerMore.
Import IR LowerDW LowerExamples MoreExamples.
Local Open Scope monad_scope.

Ltac lunfold :=
  cbv beta delta
      [bind ret fail get put gets modify gets_opt modify_opt assert when
       env_get env_modify irg_get irg_read irg_modify node_of get_in
       get_binop_left get_binop_right get_Cmp_left get_Cmp_right
       get_Proj_pred get_Proj_proj mode_of block_of get_entry start_block
       new_node new_ir_node new_r_Const new_r_Const_long new_r_binop
       new_r_Shl new_r_Shr new_r_Shrs new_r_And new_r_Eor new_r_Not
       new_r_Conv new_r_Or new_r_Cmp new_r_Proj set_entry_words
       operand_words
       pdeq_putr set_Cond_selector
       get_irn_n get_irn_mode get_nodes_block id].
Ltac lsimpl :=
  cbn [mbind option_bind fmap option_fmap option_map
       ls_irg ls_env ls_prog ls_statics with_irg with_env with_nodes
       irg_nodes irg_start_block entries low_unsigned env_with_entries
       andb negb fst snd].
Ltac lrun :=
  lunfold;
  repeat (lsimpl;
          try match goal with
              | H : ?x = Some _ |- context [match ?x with _ => _ end] =>
                  rewrite H
              | H : ?x = Some _ |- context [mbind _ ?x] => rewrite H
              | H : ?x = Some _ |- context [fmap _ ?x] => rewrite H
              end).

(** The arena after some nodes were added: lengths and appends in normal
    form. *)
Ltac arena :=
  rewrite ?length_app; cbn [length];
  rewrite ?Nat.add_0_r, ?Nat.add_1_r;
  unfold add_nodes, with_env, with_irg, with_nodes; cbn;
  rewrite <- ?app_assoc; cbn [app].

(** A Shr of a doubleword by a Const [c] of at least the width [W/2] of
    the half-width mode: the low word of the result is the high word of
    the operand (converted to the half-width unsigned mode where it has
    another mode), shifted right by [c - W/2] where that is not 0; the
    high word is a Const 0 of the half-width mode.  No call is made. *)
Theorem lower_Shr_const_count
    (s : lstate) (node lft right block : nat) (mode : ir_mode)
    (nd rn hwn : ir_node) (tv : tarval) (le ne : node_entry_t) (hw : nat) :
  get_node (ls_irg s) node = Some nd ->
  irn_in nd !! 0%nat = Some lft ->
  irn_in nd !! 1%nat = Some right ->
  irn_block nd = Some block ->
  get_node (ls_irg s) right = Some rn ->
  irn_op rn = iro_Const ->
  irn_tv rn = Some tv ->
  get_mode_arithmetic mode = irma_twos_complement ->
  tarval_is_long tv = true ->
  get_mode_size_bits mode <= tv_val tv ->
  entries (ls_env s) !! lft = Some (Some le) ->
  high_word le = Some hw ->
  get_node (ls_irg s) hw = Some hwn ->
  entries (ls_env s) !! node = Some (Some ne) ->
  let env := ls_env s in
  let Lu := low_unsigned env in
  let n := length (irg_nodes (ls_irg s)) in
  let sb := irg_start_block (ls_irg s) in
  let shf_cnt := tv_val tv - get_mode_size_bits mode in
  let same := mode_eqb (irn_mode hwn) Lu in
  let conv := if same then [] else [default_node iro_Conv Lu (Some block) [hw]] in
  let left := if same then hw else n in
  let n1 := (n + length conv)%nat in
  let shift :=
    if 0 <? shf_cnt then
      [ with_tv (default_node iro_Const Lu (Some sb) [])
          (Some (new_tarval_from_long shf_cnt Lu));
        default_node iro_Shr Lu (Some block) [left; n1] ]
    else [] in
  let low := if 0 <? shf_cnt then S n1 else left in
  let n2 := (n1 + length shift)%nat in
  let zero :=
    with_tv (default_node iro_Const mode (Some sb) [])
      (Some (get_mode_null mode)) in
  lower_Shr node mode s
  = Some (tt,
          with_env (add_nodes s (conv ++ shift ++ [zero]))
            (env_with_entries env
               (<[node := Some (mk_entry (Some low) (Some n2))]>
                  (entries env)))).
Proof.
  intros Hnode Hl Hr Hblock Hright Hop Htv Harith Hlong Hsize Hle Hhw Hhwn Hne.
  intros env Lu n sb shf_cnt same conv left n1 shift low n2 zero.
  assert (Hcmp : (get_mode_size_bits mode <=? tv_val tv) = true)
    by (apply Z.leb_le; exact Hsize).
  unfold lower_Shr, const_shift_count.
  lrun. rewrite Harith, Hop, !bool_decide_true by reflexivity.
  lrun. unfold get_tarval_long. rewrite Hlong, Hcmp.
  lrun.
  subst conv left n1 shift low n2 same zero Lu env sb.
  destruct (mode_eqb (irn_mode hwn) (low_unsigned (ls_env s)));
    fold shf_cnt; destruct (0 <? shf_cnt) eqn:Hpos; lrun; arena;
    rewrite ?Hne; arena; fold n; rewrite ?Nat.add_0_r;
    first [reflexivity | repeat (f_equal; try lia)].
Qed.

Lemma lower_Shr_const_count_witness :
  lower_Shr 3 mode_Is (ex_shift_state iro_Shr 40)
  = Some (tt,
          with_env
            (add_nodes (ex_shift_state iro_Shr 40)
               [ default_node iro_Conv mode_Iu (Some 0%nat) [5%nat];
                 with_tv (default_node iro_Const mode_Iu (Some 0%nat) [])
                   (Some (new_tarval_from_long 8 mode_Iu));
                 default_node iro_Shr mode_Iu (Some 0%nat) [6%nat; 7%nat];
                 with_tv (default_node iro_Const mode_Is (Some 0%nat) [])
                   (Some (get_mode_null mode_Is)) ])
            (env_with_entries (ls_env (ex_shift_state iro_Shr 40))
               (<[3%nat := Some (mk_entry (Some 8%nat) (Some 9%nat))]>
                  (entries (ls_env (ex_shift_state iro_Shr 40)))))).
Proof.
  eapply (lower_Shr_const_count (ex_shift_state iro_Shr 40) 3 1 2 0 mode_Is
            _ _ (node iro_Unknown mode_Is 0 []) (mk_tarval mode_Iu 40) (mk_entry (Some 4%nat) (Some 5%nat))
            (mk_entry None None) 5);
    try reflexivity; simpl; lia.
Defined.

(** A Shrs of a doubleword by a Const [c] of at least the width [W/2]:
    the high word of the result is the high word of the operand shifted
    right arithmetically by [W/2 - 1], the broadcast of its sign; the low
    word is a Conv to the half-width unsigned mode of the operand's high
    word, shifted right arithmetically by [c - W/2] where that is not 0.
    No call is made. *)
Theorem lower_Shrs_const_count
    (s : lstate) (node lft right block : nat) (mode : ir_mode)
    (nd rn lftn : ir_node) (tv : tarval) (le ne : node_entry_t) (hw : nat) :
  get_node (ls_irg s) node = Some nd ->
  irn_in nd !! 0%nat = Some lft ->
  irn_in nd !! 1%nat = Some right ->
  irn_block nd = Some block ->
  get_node (ls_irg s) right = Some rn ->
  irn_op rn = iro_Const ->
  irn_tv rn = Some tv ->
  get_mode_arithmetic mode = irma_twos_complement ->
  tarval_is_long tv = true ->
  get_mode_size_bits mode <= tv_val tv ->
  entries (ls_env s) !! lft = Some (Some le) ->
  high_word le = Some hw ->
  get_node (ls_irg s) lft = Some lftn ->
  entries (ls_env s) !! node = Some (Some ne) ->
  let env := ls_env s in
  let Lu := low_unsigned env in
  let n := length (irg_nodes (ls_irg s)) in
  let sb := irg_start_block (ls_irg s) in
  let shf_cnt := tv_val tv - get_mode_size_bits mode in
  let same := mode_eqb (irn_mode lftn) Lu in
  let conv := if same then [] else [default_node iro_Conv Lu (Some block) [hw]] in
  let left_unsigned := if same then lft else n in
  let n1 := (n + length conv)%nat in
  let shift :=
    if 0 <? shf_cnt then
      [ with_tv (default_node iro_Const Lu (Some sb) [])
          (Some (new_tarval_from_long shf_cnt Lu));
        default_node iro_Shrs Lu (Some block) [left_unsigned; n1] ]
    else [] in
  let low := if 0 <? shf_cnt then S n1 else left_unsigned in
  let n2 := (n1 + length shift)%nat in
  let sign :=
    [ default_node iro_Conv Lu (Some block) [low];
      with_tv (default_node iro_Const Lu (Some sb) [])
        (Some (new_tarval_from_long (get_mode_size_bits mode - 1) Lu));
      default_node iro_Shrs mode (Some block) [hw; S n2] ] in
  lower_Shrs node mode s
  = Some (tt,
          with_env (add_nodes s (conv ++ shift ++ sign))
            (env_with_entries env
               (<[node := Some (mk_entry (Some n2) (Some (S (S n2))))]>
                  (entries env)))).
Proof.
  intros Hnode Hl Hr Hblock Hright Hop Htv Harith Hlong Hsize Hle Hhw Hlftn Hne.
  intros env Lu n sb shf_cnt same conv left_unsigned n1 shift low n2 sign.
  assert (Hcmp : (get_mode_size_bits mode <=? tv_val tv) = true)
    by (apply Z.leb_le; exact Hsize).
  unfold lower_Shrs, const_shift_count.
  lrun. rewrite Harith, Hop, !bool_decide_true by reflexivity.
  lrun. unfold get_tarval_long. rewrite Hlong, Hcmp.
  lrun.
  subst conv left_unsigned n1 shift low n2 same sign Lu env sb.
  destruct (mode_eqb (irn_mode lftn) (low_unsigned (ls_env s)));
    fold shf_cnt; destruct (0 <? shf_cnt) eqn:Hpos; lrun; arena;
    rewrite ?Hne; arena; fold n; rewrite ?Nat.add_0_r;
    first [reflexivity | repeat (f_equal; try lia)].
Qed.

Lemma lower_Shrs_const_count_witness :
  lower_Shrs 3 mode_Is (ex_shift_state iro_Shrs 32)
  = Some (tt,
          with_env
            (add_nodes (ex_shift_state iro_Shrs 32)
               [ default_node iro_Conv mode_Iu (Some 0%nat) [5%nat];
                 default_node iro_Conv mode_Iu (Some 0%nat) [6%nat];
                 with_tv (default_node iro_Const mode_Iu (Some 0%nat) [])
                   (Some (new_tarval_from_long 31 mode_Iu));
                 default_node iro_Shrs mode_Is (Some 0%nat) [5%nat; 8%nat] ])
            (env_with_entries (ls_env (ex_shift_state iro_Shrs 32))
               (<[3%nat := Some (mk_entry (Some 7%nat) (Some 9%nat))]>
                  (entries (ls_env (ex_shift_state iro_Shrs 32)))))).
Proof.
  eapply (lower_Shrs_const_count (ex_shift_state iro_Shrs 32) 3 1 2 0 mode_Is
            _ _ (node iro_Unknown mode_Ls 0 []) (mk_tarval mode_Iu 32) (mk_entry (Some 4%nat) (Some 5%nat))
            (mk_entry None None) 5);
    try reflexivity; simpl; lia.
Defined.

(** A shift by a large Const whose operand has not been lowered yet (Shl
    needs its low word, Shr and Shrs its high word) is put at the end of
    the wait queue; nothing else changes, in particular no node is
    created. *)
Theorem const_shift_waits_for_operand
    (s : lstate) (node lft right : nat) (mode : ir_mode)
    (nd rn : ir_node) (tv : tarval) (le : node_entry_t) :
  get_node (ls_irg s) node = Some nd ->
  irn_in nd !! 0%nat = Some lft ->
  irn_in nd !! 1%nat = Some right ->
  is_Some (irn_block nd) ->
  get_node (ls_irg s) right = Some rn ->
  irn_op rn = iro_Const ->
  irn_tv rn = Some tv ->
  get_mode_arithmetic mode = irma_twos_complement ->
  tarval_is_long tv = true ->
  get_mode_size_bits mode <= tv_val tv ->
  entries (ls_env s) !! lft = Some (Some le) ->
  (low_word le = None -> lower_Shl node mode s = Some (tt, queued s node)) /\
  (high_word le = None -> lower_Shr node mode s = Some (tt, queued s node)) /\
  (high_word le = None -> lower_Shrs node mode s = Some (tt, queued s node)).
Proof.
  intros Hnode Hl Hr [block Hblock] Hright Hop Htv Harith Hlong Hsize Hle.
  assert (Hcmp : (get_mode_size_bits mode <=? tv_val tv) = true)
    by (apply Z.leb_le; exact Hsize).
  split; [|split]; intros Hnone.
  - unfold lower_Shl, const_shift_count.
    lrun. rewrite Harith, Hop, !bool_decide_true by reflexivity.
    lrun. unfold get_tarval_long. rewrite Hlong, Hcmp.
    lrun. rewrite Hnone. reflexivity.
  - unfold lower_Shr, const_shift_count.
    lrun. rewrite Harith, Hop, !bool_decide_true by reflexivity.
    lrun. unfold get_tarval_long. rewrite Hlong, Hcmp.
    lrun. rewrite Hnone. reflexivity.
  - unfold lower_Shrs, const_shift_count.
    lrun. rewrite Harith, Hop, !bool_decide_true by reflexivity.
    lrun. unfold get_tarval_long. rewrite Hlong, Hcmp.
    lrun. rewrite Hnone. reflexivity.
Qed.

Lemma const_shift_waits_for_operand_witness :
  lower_Shl 3 mode_Is (ex_shift_waiting iro_Shl 40)
  = Some (tt, queued (ex_shift_waiting iro_Shl 40) 3) /\
  lower_Shr 3 mode_Is (ex_shift_waiting iro_Shr 40)
  = Some (tt, queued (ex_shift_waiting iro_Shr 40) 3) /\
  lower_Shrs 3 mode_Is (ex_shift_waiting iro_Shrs 40)
  = Some (tt, queued (ex_shift_waiting iro_Shrs 40) 3).
Proof.
  split; [|split].
  - eapply (const_shift_waits_for_operand (ex_shift_waiting iro_Shl 40)
              3 1 2 mode_Is _ _ (mk_tarval mode_Iu 40) (mk_entry None None));
      try reflexivity; try (eexists; reflexivity); simpl; lia.
  - eapply (const_shift_waits_for_operand (ex_shift_waiting iro_Shr 40)
              3 1 2 mode_Is _ _ (mk_tarval mode_Iu 40) (mk_entry None None));
      try reflexivity; try (eexists; reflexivity); simpl; lia.
  - eapply (const_shift_waits_for_operand (ex_shift_waiting iro_Shrs 40)
              3 1 2 mode_Is _ _ (mk_tarval mode_Iu 40) (mk_entry None None));
      try reflexivity; try (eexists; reflexivity); simpl; lia.
Defined.

(** The two words of a constant: [v mod 2^w] and [v / 2^w], the latter
    read in the mode of the high word. *)
Lemma split_value_unsigned (w v : Z) :
  0 < w -> 0 <= v < 2 ^ (2 * w) ->
  v mod 2 ^ w + 2 ^ w * ((Z.shiftr v w) mod 2 ^ w) = v.
Proof.
  intros Hw Hv. rewrite Z.shiftr_div_pow2 by lia.
  assert (Hp : 0 < 2 ^ w) by (apply Z.pow_pos_nonneg; lia).
  assert (Hq : 0 <= v / 2 ^ w < 2 ^ w).
  { split; [apply Z.div_pos; lia|].
    apply Z.div_lt_upper_bound; [lia|].
    replace (2 ^ w * 2 ^ w) with (2 ^ (2 * w)); [lia|].
    rewrite <- Z.pow_add_r by lia. f_equal. lia. }
  rewrite (Z.mod_small (v / 2 ^ w)) by exact Hq.
  pose proof (Z.div_mod v (2 ^ w)). lia.
Qed.

Lemma split_value_signed (w v : Z) :
  0 < w -> - 2 ^ (2 * w - 1) <= v < 2 ^ (2 * w - 1) ->
  v mod 2 ^ w
  + 2 ^ w * ((Z.shiftr v w + 2 ^ w / 2) mod 2 ^ w - 2 ^ w / 2) = v.
Proof.
  intros Hw Hv. rewrite Z.shiftr_div_pow2 by lia.
  assert (Hp : 0 < 2 ^ (w - 1)) by (apply Z.pow_pos_nonneg; lia).
  assert (Hw2 : 2 ^ w = 2 * 2 ^ (w - 1)).
  { replace w with (1 + (w - 1)) at 1 by lia.
    rewrite Z.pow_add_r by lia. reflexivity. }
  assert (Hh : 2 ^ w / 2 = 2 ^ (w - 1)).
  { rewrite Hw2. rewrite Z.mul_comm. apply Z.div_mul. lia. }
  assert (H2w : 2 ^ (2 * w - 1) = 2 ^ w * 2 ^ (w - 1)).
  { rewrite <- Z.pow_add_r by lia. f_equal. lia. }
  rewrite Hh.
  assert (Hq : - 2 ^ (w - 1) <= v / 2 ^ w < 2 ^ (w - 1)).
  { split.
    - apply Z.div_le_lower_bound; lia.
    - apply Z.div_lt_upper_bound; lia. }
  rewrite (Z.mod_small (v / 2 ^ w + 2 ^ (w - 1))) by lia.
  pose proof (Z.div_mod v (2 ^ w)). lia.
Qed.

(** A doubleword Const is lowered to two new Consts, the low word in the
    half-width unsigned mode and the high word in the half-width mode of
    the node; for a value in the range of the doubleword mode the two
    words make up the value again: [low + 2^w * high = value], where [w]
    is the width of a word. *)
Theorem lower_Const_words
    (s : lstate) (node : nat) (mode : ir_mode) (nd : ir_node) (tv : tarval)
    (ne : node_entry_t) (w : Z) :
  get_node (ls_irg s) node = Some nd ->
  irn_tv nd = Some tv ->
  entries (ls_env s) !! node = Some (Some ne) ->
  0 < w ->
  mode_sign (low_unsigned (ls_env s)) = false ->
  mode_size_bits (low_unsigned (ls_env s)) = w ->
  mode_size_bits mode = w ->
  tv_val (tv_mode_bits (ls_env s)) = w ->
  (if mode_sign mode
   then - 2 ^ (2 * w - 1) <= tv_val tv < 2 ^ (2 * w - 1)
   else 0 <= tv_val tv < 2 ^ (2 * w)) ->
  let env := ls_env s in
  let n := length (irg_nodes (ls_irg s)) in
  let sb := irg_start_block (ls_irg s) in
  exists tv_l tv_h,
    lower_Const node mode s
    = Some (tt,
            with_env
              (add_nodes s
                 [ with_tv (default_node iro_Const (low_unsigned env)
                              (Some sb) []) (Some tv_l);
                   with_tv (default_node iro_Const mode (Some sb) [])
                     (Some tv_h) ])
              (env_with_entries env
                 (<[node := Some (mk_entry (Some n) (Some (S n)))]>
                    (entries env)))) /\
    tv_mode tv_l = low_unsigned env /\
    tv_mode tv_h = mode /\
    tv_val tv_l + 2 ^ w * tv_val tv_h = tv_val tv.
Proof.
  intros Hnode Htv Hne Hw Hsign Hsize Hmsize Hbits Hrange env n sb.
  exists (tarval_convert_to tv (low_unsigned env)),
         (tarval_convert_to (tarval_shrs tv (tv_mode_bits env)) mode).
  split; [|split; [reflexivity|split; [reflexivity|]]].
  - unfold lower_Const. lrun.
    assert (Hlt : (node < length (entries (ls_env s)))%nat)
      by (eapply lookup_lt_Some; exact Hne).
    unfold n_entries. rewrite bool_decide_true by exact Hlt.
    lrun. arena. rewrite ?Hne. arena. reflexivity.
  - unfold tarval_convert_to, tarval_shrs, wrap_to_mode. cbn [tv_val].
    subst env. rewrite Hsign, Hsize, Hmsize, Hbits.
    destruct (mode_sign mode).
    + apply split_value_signed; assumption.
    + apply split_value_unsigned; assumption.
Qed.

(** The constant [-5] of a 64-bit signed mode. *)
Lemma lower_Const_words_witness :
  exists s' tv_l tv_h,
    lower_Const 1 mode_Is (ex_const_state (-5)) = Some (tt, s') /\
    entries (ls_env s') !! 1%nat = Some (Some (mk_entry (Some 2%nat) (Some 3%nat))) /\
    irn_tv <$> get_node (ls_irg s') 2 = Some (Some tv_l) /\
    irn_tv <$> get_node (ls_irg s') 3 = Some (Some tv_h) /\
    tv_val tv_l + 2 ^ 32 * tv_val tv_h = -5.
Proof.
  destruct (lower_Const_words (ex_const_state (-5)) 1 mode_Is
              (with_tv (node iro_Const mode_Ls 0 [])
                 (Some (mk_tarval mode_Ls (-5))))
              (mk_tarval mode_Ls (-5)) (mk_entry None None) 32)
    as (tv_l & tv_h & Hrun & Hl & Hh & Hsum);
    [reflexivity | reflexivity | reflexivity | lia | reflexivity
    | reflexivity | reflexivity | reflexivity | simpl; lia | ].
  eexists. exists tv_l, tv_h.
  split; [exact Hrun|].
  split; [reflexivity|]. split; [reflexivity|]. split; [reflexivity|].
  exact Hsum.
Defined.

(** And, Or and Eor of doublewords are lowered word by word: the low word
    of the result is the operation on the two low words in the half-width
    unsigned mode, the high word the operation on the two high words in
    the half-width mode of the node.  No call is made. *)
Theorem lower_logical_wordwise
    (s : lstate) (node lft right block : nat) (mode : ir_mode)
    (nd : ir_node) (le re ne : node_entry_t) (l_lo l_hi r_lo r_hi : nat)
    (op : ir_opcode) (lower : nat -> ir_mode -> L unit) :
  (op = iro_And /\ lower = lower_And) \/
  (op = iro_Or /\ lower = lower_Or) \/
  (op = iro_Eor /\ lower = lower_Eor) ->
  get_node (ls_irg s) node = Some nd ->
  irn_in nd !! 0%nat = Some lft ->
  irn_in nd !! 1%nat = Some right ->
  irn_block nd = Some block ->
  entries (ls_env s) !! lft = Some (Some le) ->
  low_word le = Some l_lo -> high_word le = Some l_hi ->
  entries (ls_env s) !! right = Some (Some re) ->
  low_word re = Some r_lo -> high_word re = Some r_hi ->
  entries (ls_env s) !! node = Some (Some ne) ->
  let env := ls_env s in
  let n := length (irg_nodes (ls_irg s)) in
  lower node mode s
  = Some (tt,
          with_env
            (add_nodes s
               [ default_node op (low_unsigned env) (Some block) [l_lo; r_lo];
                 default_node op mode (Some block) [l_hi; r_hi] ])
            (env_with_entries env
               (<[node := Some (mk_entry (Some n) (Some (S n)))]>
                  (entries env)))).
Proof.
  intros Hop Hnode Hl Hr Hblock Hle Hll Hlh Hre Hrl Hrh Hne env n.
  assert (Hlt : (node < length (entries (ls_env s)))%nat)
    by (eapply lookup_lt_Some; exact Hne).
  destruct Hop as [[-> ->] | [[-> ->] | [-> ->]]];
    unfold lower_And, lower_Or, lower_Eor, lower_Binop_logical;
    lrun; unfold n_entries; rewrite bool_decide_true by exact Hlt;
    lrun; arena; rewrite ?Hne; arena; reflexivity.
Qed.

Lemma lower_logical_wordwise_witness :
  lower_Eor 3 mode_Iu (ex_logic_state iro_Eor [1; 2]%nat)
  = Some (tt,
          with_env
            (add_nodes (ex_logic_state iro_Eor [1; 2]%nat)
               [ default_node iro_Eor mode_Iu (Some 0%nat) [4; 6]%nat;
                 default_node iro_Eor mode_Iu (Some 0%nat) [5; 7]%nat ])
            (env_with_entries (ls_env (ex_logic_state iro_Eor [1; 2]%nat))
               (<[3%nat := Some (mk_entry (Some 8%nat) (Some 9%nat))]>
                  (entries (ls_env (ex_logic_state iro_Eor [1; 2]%nat)))))).
Proof.
  eapply (lower_logical_wordwise (ex_logic_state iro_Eor [1; 2]%nat)
            3 1 2 0 mode_Iu _ (mk_entry (Some 4%nat) (Some 5%nat))
            (mk_entry (Some 6%nat) (Some 7%nat)) (mk_entry None None)
            4 5 6 7 iro_Eor lower_Eor);
    try reflexivity.
  right. right. split; reflexivity.
Defined.

(** A Not of a doubleword is lowered to the Nots of its two words. *)
Theorem lower_Not_wordwise
    (s : lstate) (node opnd block : nat) (mode : ir_mode)
    (nd : ir_node) (oe ne : node_entry_t) (op_l op_h : nat) :
  get_node (ls_irg s) node = Some nd ->
  irn_in nd !! 0%nat = Some opnd ->
  irn_block nd = Some block ->
  entries (ls_env s) !! opnd = Some (Some oe) ->
  low_word oe = Some op_l -> high_word oe = Some op_h ->
  entries (ls_env s) !! node = Some (Some ne) ->
  let env := ls_env s in
  let n := length (irg_nodes (ls_irg s)) in
  lower_Not node mode s
  = Some (tt,
          with_env
            (add_nodes s
               [ default_node iro_Not (low_unsigned env) (Some block) [op_l];
                 default_node iro_Not mode (Some block) [op_h] ])
            (env_with_entries env
               (<[node := Some (mk_entry (Some n) (Some (S n)))]>
                  (entries env)))).
Proof.
  intros Hnode Hop Hblock Hoe Hol Hoh Hne env n.
  assert (Hlt : (node < length (entries (ls_env s)))%nat)
    by (eapply lookup_lt_Some; exact Hne).
  unfold lower_Not.
  lrun; unfold n_entries; rewrite bool_decide_true by exact Hlt;
    lrun; arena; rewrite ?Hne; arena; reflexivity.
Qed.

Lemma lower_Not_wordwise_witness :
  lower_Not 3 mode_Iu (ex_logic_state iro_Not [1%nat])
  = Some (tt,
          with_env
            (add_nodes (ex_logic_state iro_Not [1%nat])
               [ default_node iro_Not mode_Iu (Some 0%nat) [4%nat];
                 default_node iro_Not mode_Iu (Some 0%nat) [5%nat] ])
            (env_with_entries (ls_env (ex_logic_state iro_Not [1%nat]))
               (<[3%nat := Some (mk_entry (Some 8%nat) (Some 9%nat))]>
                  (entries (ls_env (ex_logic_state iro_Not [1%nat])))))).
Proof.
  eapply (lower_Not_wordwise (ex_logic_state iro_Not [1%nat])
            3 1 0 mode_Iu _ (mk_entry (Some 4%nat) (Some 5%nat))
            (mk_entry None None) 4 5);
    reflexivity.
Defined.

(** A Conv from a doubleword to an integer or reference mode keeps the low
    word only: the operand of the Conv becomes the low word of its former
    operand, behind a new Conv to the result mode unless that mode is the
    half-width unsigned mode; the high word is not used.  Nothing else
    changes. *)
Theorem lower_Conv_from_doubleword
    (s : lstate) (node opnd block low : nat) (mode : ir_mode)
    (nd opn : ir_node) (oe : node_entry_t) :
  get_node (ls_irg s) node = Some nd ->
  irn_in nd !! 0%nat = Some opnd ->
  irn_block nd = Some block ->
  get_node (ls_irg s) opnd = Some opn ->
  is_high_mode (ls_env s) (irn_mode nd) = false ->
  is_high_mode (ls_env s) (irn_mode opn) = true ->
  mode_is_int (irn_mode nd) || mode_is_reference (irn_mode nd) = true ->
  entries (ls_env s) !! opnd = Some (Some oe) ->
  low_word oe = Some low ->
  let omode := irn_mode nd in
  let n := length (irg_nodes (ls_irg s)) in
  let same := mode_eqb omode (low_unsigned (ls_env s)) in
  let conv :=
    if same then [] else [default_node iro_Conv omode (Some block) [low]] in
  let op' := if same then low else n in
  lower_Conv node mode s
  = Some (tt,
          with_irg s
            (with_nodes (ls_irg s)
               (<[node := with_in nd (<[0%nat := op']> (irn_in nd))]>
                  (irg_nodes (ls_irg s) ++ conv)))).
Proof.
  intros Hnode Hop Hblock Hopn Hno Hyes Hint Hoe Hlow omode n same conv op'.
  assert (Hlt : (node < length (irg_nodes (ls_irg s)))%nat)
    by (eapply lookup_lt_Some; exact Hnode).
  assert (Hin : (0 < length (irn_in nd))%nat)
    by (eapply lookup_lt_Some; exact Hop).
  unfold lower_Conv. lrun. rewrite Hno. lrun. rewrite Hyes.
  unfold lower_Conv_from_Ll. lrun. rewrite Hint.
  subst conv op' same omode.
  assert (Hnode1 : forall l, (irg_nodes (ls_irg s) ++ l) !! node = Some nd).
  { intros l. rewrite lookup_app_l by exact Hlt. exact Hnode. }
  destruct (mode_eqb (irn_mode nd) (low_unsigned (ls_env s))); lrun;
    unfold set_Conv_op, set_irn_n, get_node; lrun.
  - unfold get_node in Hnode. rewrite Hnode. lrun.
    rewrite bool_decide_true by exact Hin.
    unfold update_node. rewrite Hnode.
    rewrite app_nil_r. reflexivity.
  - rewrite Hnode1. lrun.
    rewrite bool_decide_true by exact Hin.
    unfold update_node. lrun. rewrite Hnode1. reflexivity.
Qed.

Lemma lower_Conv_from_doubleword_witness :
  lower_Conv 4 mode_Iu ex_conv_state
  = Some (tt,
          with_irg ex_conv_state
            (with_nodes (ls_irg ex_conv_state)
               (<[4%nat := node iro_Conv mode_Is 0 [7%nat]]>
                  (irg_nodes (ls_irg ex_conv_state)
                   ++ [default_node iro_Conv mode_Is (Some 0%nat) [5%nat]])))).
Proof.
  eapply (lower_Conv_from_doubleword ex_conv_state 4 3 0 5 mode_Iu
            (node iro_Conv mode_Is 0 [3%nat]) (node iro_Unknown mode_Lu 0 [])
            (mk_entry (Some 5%nat) (Some 6%nat)));
    reflexivity.
Defined.

(** A Conv of an integer or reference value that is no doubleword to a
    doubleword mode: the low word is the operand (behind a new Conv to the
    half-width unsigned mode where it has another mode); the high word is
    a Const 0 for an unsigned operand and, for a signed operand, the low
    word shifted right arithmetically by the width of a word less one.
    No call is made. *)
Theorem lower_Conv_to_doubleword
    (s : lstate) (node opnd block : nat) (mode : ir_mode)
    (nd opn : ir_node) (ne : node_entry_t) :
  get_node (ls_irg s) node = Some nd ->
  irn_in nd !! 0%nat = Some opnd ->
  irn_block nd = Some block ->
  get_node (ls_irg s) opnd = Some opn ->
  is_high_mode (ls_env s) (irn_mode nd) = true ->
  mode_is_int (irn_mode opn) || mode_is_reference (irn_mode opn) = true ->
  is_high_mode (ls_env s) (irn_mode opn) = false ->
  entries (ls_env s) !! node = Some (Some ne) ->
  let env := ls_env s in
  let imode := irn_mode opn in
  let Lu := low_unsigned env in
  let low_s := if mode_is_signed (irn_mode nd) then low_signed env else Lu in
  let n := length (irg_nodes (ls_irg s)) in
  let sb := irg_start_block (ls_irg s) in
  let same := mode_eqb imode Lu in
  let conv :=
    if same then [] else [default_node iro_Conv Lu (Some block) [opnd]] in
  let low := if same then opnd else n in
  let n1 := (n + length conv)%nat in
  let low_mode := if same then imode else Lu in
  let same_s := mode_eqb low_mode low_s in
  let sign :=
    [ with_tv (default_node iro_Const Lu (Some sb) [])
        (Some (new_tarval_from_long (get_mode_size_bits low_s - 1) Lu)) ]
    ++ (if same_s then []
        else [default_node iro_Conv low_s (Some block) [low]])
    ++ [ default_node iro_Shrs low_s (Some block)
           [if same_s then low else S n1; n1] ] in
  let zero :=
    [ with_tv (default_node iro_Const low_s (Some sb) [])
        (Some (get_mode_null low_s)) ] in
  let high_nodes := if mode_is_signed imode then sign else zero in
  let high := (n1 + length high_nodes - 1)%nat in
  lower_Conv node mode s
  = Some (tt,
          with_env (add_nodes s (conv ++ high_nodes))
            (env_with_entries env
               (<[node := Some (mk_entry (Some low) (Some high))]>
                  (entries env)))).
Proof.
  intros Hnode Hop Hblock Hopn Hyes Hint Hno Hne.
  intros env imode Lu low_s n sb same conv low n1 low_mode same_s sign zero
         high_nodes high.
  assert (Hlt : (opnd < length (irg_nodes (ls_irg s)))%nat)
    by (eapply lookup_lt_Some; exact Hopn).
  assert (Hopn1 : forall g l,
             get_node (with_nodes g (irg_nodes (ls_irg s) ++ l)) opnd
             = Some opn).
  { intros g l. unfold get_node. cbn.
    rewrite lookup_app_l by exact Hlt. exact Hopn. }
  assert (Hnew : forall g c l,
             get_node (with_nodes g ((irg_nodes (ls_irg s) ++ [c]) ++ l))
               (length (irg_nodes (ls_irg s)))
             = Some c).
  { intros g c l. unfold get_node. cbn. rewrite <- app_assoc.
    apply list_lookup_middle. reflexivity. }
  unfold lower_Conv. lrun. rewrite Hyes.
  unfold lower_Conv_to_Ll. lrun. rewrite Hint, Hno.
  subst high high_nodes zero sign same_s low_mode n1 low conv same imode.
  subst low_s Lu env sb.
  set (low_s := if mode_is_signed (irn_mode nd) then low_signed (ls_env s)
                else low_unsigned (ls_env s)).
  destruct (mode_eqb (irn_mode opn) (low_unsigned (ls_env s))) eqn:Hsame;
    destruct (mode_is_signed (irn_mode opn)) eqn:Hsigned; lrun.
  - rewrite Hopn1. lrun.
    destruct (mode_eqb (irn_mode opn) low_s); lrun; arena; rewrite ?Hne;
      arena; fold n; rewrite ?Nat.add_0_r;
      first [reflexivity | repeat (f_equal; try lia)].
  - arena. rewrite ?Hne. arena. fold n. rewrite ?Nat.add_0_r.
    first [reflexivity | repeat (f_equal; try lia)].
  - rewrite Hnew. lrun. cbn [irn_mode default_node].
    destruct (mode_eqb (low_unsigned (ls_env s)) low_s); lrun; arena;
      rewrite ?Hne; arena; fold n; rewrite ?Nat.add_0_r;
      first [reflexivity | repeat (f_equal; try lia)].
  - arena. rewrite ?Hne. arena. fold n. rewrite ?Nat.add_0_r.
    first [reflexivity | repeat (f_equal; try lia)].
Qed.

Lemma lower_Conv_to_doubleword_witness :
  lower_Conv 2 mode_Is ex_conv_state
  = Some (tt,
          with_env
            (add_nodes ex_conv_state
               [ default_node iro_Conv mode_Iu (Some 0%nat) [1%nat];
                 with_tv (default_node iro_Const mode_Iu (Some 0%nat) [])
                   (Some (new_tarval_from_long 31 mode_Iu));
                 default_node iro_Conv mode_Is (Some 0%nat) [7%nat];
                 default_node iro_Shrs mode_Is (Some 0%nat) [9; 8]%nat ])
            (env_with_entries (ls_env ex_conv_state)
               (<[2%nat := Some (mk_entry (Some 7%nat) (Some 10%nat))]>
                  (entries (ls_env ex_conv_state))))).
Proof.
  eapply (lower_Conv_to_doubleword ex_conv_state 2 1 0 mode_Is
            (node iro_Conv mode_Ls 0 [1%nat]) (node iro_Unknown mode_Is 0 [])
            (mk_entry None None));
    reflexivity.
Defined.

(** [lower_ops] leaves a node alone that has no entry (its operational
    mode is no doubleword mode), whose mode is not [mode_b], and that is
    neither a Mux nor one of the opcodes that are always lowered (ASM,
    Proj, Start, Call, Return, Cond, Conv, Sel): the state stays as it is,
    whatever the inputs of the node are.  So a node like End keeps an
    input of doubleword mode. *)
Theorem lower_ops_skips_node_without_entry
    (s : lstate) (node : nat) (nd : ir_node) :
  get_node (ls_irg s) node = Some nd ->
  irn_mode nd <> mode_b ->
  irn_op nd <> iro_Mux ->
  always_lower (irn_op nd) = false ->
  (forall e, entries (ls_env s) !! node <> Some (Some e)) ->
  lower_ops node s = Some (tt, s).
Proof.
  intros Hnode Hmode Hmux Halways Hentry.
  assert (Hconv : irn_op nd <> iro_Conv).
  { intros Heq. rewrite Heq in Halways. discriminate. }
  unfold lower_ops. lrun.
  rewrite (mode_eqb_false _ _ Hmode).
  rewrite !bool_decide_false by assumption.
  cbn [orb]. lrun. rewrite ?Halways.
  unfold n_entries.
  destruct (bool_decide (node < length (entries (ls_env s)))%nat) eqn:Hlt;
    lrun.
  - apply bool_decide_eq_true in Hlt.
    destruct (lookup_lt_is_Some_2 _ _ Hlt) as [e He].
    rewrite He. lrun.
    destruct e as [e|]; [exfalso; exact (Hentry e He)|].
    rewrite bool_decide_false by (intros H; apply H; reflexivity).
    rewrite Halways. reflexivity.
  - rewrite bool_decide_false by (intros H; apply H; reflexivity).
    rewrite Halways. reflexivity.
Qed.

(** The End node of [ex_keep_graph], which keeps a 64-bit Const alive. *)
Lemma lower_ops_skips_node_without_entry_witness :
  lower_ops 6 ex_keep_state = Some (tt, ex_keep_state) /\
  get_irn_n (ls_irg ex_keep_state) 6 0 = Some 3%nat /\
  get_irn_mode (ls_irg ex_keep_state) 3 = Some mode_Lu.
Proof.
  split; [|split; reflexivity].
  apply (lower_ops_skips_node_without_entry ex_keep_state 6
           (node iro_End mode_X 5 [3%nat])).
  - reflexivity.
  - discriminate.
  - discriminate.
  - reflexivity.
  - intros e. discriminate.
Defined.
End LowerMore.

Section LowerMethodType.
Import IR LowerDW MethodTypes.
Local Open Scope monad_scope.

Lemma slot_has_mode_valid p slot m :
  valid_slot p slot ->
  exists tp t, slot = Some tp /\ irp_types p !! tp = Some t /\
    slot_has_mode p slot m
    = Some (is_Primitive_type t && bool_decide (tp_mode t = Some m)).
Proof.
  intros (tp & t & -> & Ht). exists tp, t. split; [reflexivity|].
  split; [exact Ht|]. unfold slot_has_mode. cbn. rewrite Ht. reflexivity.
Qed.

Lemma slot_is_high_valid env p slot :
  valid_slot p slot ->
  exists hs hu,
    slot_has_mode p slot (high_signed env) = Some hs /\
    slot_has_mode p slot (high_unsigned env) = Some hu /\
    slot_is_high env p slot = Some (hs || hu).
Proof.
  intros (tp & t & -> & Ht).
  unfold slot_has_mode, slot_is_high. cbn. rewrite Ht. cbn.
  eexists _, _. split; [reflexivity|]. split; [reflexivity|].
  f_equal. destruct (is_Primitive_type t); [|reflexivity]. cbn.
  destruct (tp_mode t) as [m|]; [|reflexivity].
  unfold is_high_mode, mode_eqb. f_equal; apply bool_decide_ext; split; congruence.
Qed.

Lemma expand_slot_length env p u sg slot hs hu :
  slot_has_mode p slot (high_signed env) = Some hs ->
  slot_has_mode p slot (high_unsigned env) = Some hu ->
  length (expand_slot env p u sg slot) = if hs || hu then 2%nat else 1%nat.
Proof.
  intros Hs Hu. unfold expand_slot. rewrite Hs, Hu.
  destruct hs, hu; reflexivity.
Qed.

Lemma expanded_slots_app env p u sg l1 l2 :
  expanded_slots env p u sg (l1 ++ l2)
  = expanded_slots env p u sg l1 ++ expanded_slots env p u sg l2.
Proof. unfold expanded_slots. apply flat_map_app. Qed.

Lemma expanded_slots_length_rev env p u sg l :
  length (expanded_slots env p u sg (rev l))
  = length (expanded_slots env p u sg l).
Proof.
  induction l as [|a l IH]; [reflexivity|].
  cbn [rev]. rewrite expanded_slots_app, length_app, IH.
  unfold expanded_slots. cbn [flat_map]. rewrite app_nil_r, length_app. lia.
Qed.

Lemma count_high_slots_run s u sg slots :
  Forall (valid_slot (ls_prog s)) slots ->
  count_high_slots slots s
  = Some ((length (expanded_slots (ls_env s) (ls_prog s) u sg slots)
           - length slots)%nat, s).
Proof.
  intros Hvalid. unfold count_high_slots, env_get.
  unfold bind at 1, gets at 1. unfold bind at 1, gets at 1.
  match goal with |- ?f _ _ _ = _ => set (count := f) end.
  assert (G : forall l n,
             Forall (valid_slot (ls_prog s)) l ->
             count l n s
             = Some ((n + (length (expanded_slots (ls_env s) (ls_prog s) u sg l)
                           - length l))%nat, s)).
  { induction l as [|slot l IH]; intros n Hl; unfold count; cbn; fold count.
    - unfold ret. f_equal. f_equal. lia.
    - apply Forall_cons in Hl as [Hslot Hl].
      destruct (slot_is_high_valid (ls_env s) _ _ Hslot)
        as (hs & hu & Hs & Hu & Hh).
      unfold bind, gets_opt. rewrite Hh. rewrite (IH _ Hl).
      f_equal. f_equal. rewrite length_app.
      rewrite (expand_slot_length _ _ u sg _ _ _ Hs Hu).
      assert (length l <= length (expanded_slots (ls_env s) (ls_prog s) u sg l))%nat.
      { clear. induction l as [|a l IH]; [reflexivity|].
        unfold expanded_slots in *. cbn [flat_map]. rewrite length_app.
        cbn [length].
        set (k := length (flat_map (expand_slot (ls_env s) (ls_prog s) u sg) l))
          in *.
        unfold expand_slot.
        destruct (slot_has_mode (ls_prog s) a (high_signed (ls_env s)))
          as [[|]|];
          destruct (slot_has_mode (ls_prog s) a (high_unsigned (ls_env s)))
            as [[|]|]; cbn [length]; lia. }
      fold (expanded_slots (ls_env s) (ls_prog s) u sg l).
      destruct (hs || hu); lia. }
  rewrite G by (apply Forall_rev; exact Hvalid).
  rewrite expanded_slots_length_rev, length_rev. reflexivity.
Qed.

Lemma slot_has_mode_new_type s rt slot m :
  valid_slot (ls_prog s) slot ->
  slot_has_mode (ls_prog (with_new_type s rt)) slot m
  = slot_has_mode (ls_prog s) slot m.
Proof.
  intros (tp & t & -> & Ht). unfold slot_has_mode, with_new_type. cbn.
  rewrite lookup_app_l by (eapply lookup_lt_Some; exact Ht). reflexivity.
Qed.

Lemma insert_first_null {A} (pre : list (option A)) (k n : nat) (x : A) :
  length pre = n ->
  <[n := Some x]> (pre ++ replicate (S k) None)
  = (pre ++ [Some x]) ++ replicate k None.
Proof.
  intros <-. rewrite insert_app_r_alt by lia. rewrite Nat.sub_diag. cbn.
  rewrite <- app_assoc. reflexivity.
Qed.

Lemma expand_slots_run s u sg
    (get : ir_type -> list (option nat))
    (put : ir_type -> list (option nat) -> ir_type)
    (set : nat -> nat -> L unit) slots rt :
  (forall t l, get (put t l) = l) ->
  (forall t l l', put (put t l) l' = put t l') ->
  (forall t, put t (get t) = t) ->
  (forall n tp t,
      (n < length (get t))%nat ->
      set n tp (with_new_type s t)
      = Some (tt, with_new_type s (put t (<[n := Some tp]> (get t))))) ->
  tp_u (ls_statics s) = Some u ->
  tp_s (ls_statics s) = Some sg ->
  Forall (valid_slot (ls_prog s)) slots ->
  get rt
  = replicate (length (expanded_slots (ls_env s) (ls_prog s) u sg slots)) None ->
  expand_slots slots set (with_new_type s rt)
  = Some (tt, with_new_type s
                (put rt (expanded_slots (ls_env s) (ls_prog s) u sg slots))).
Proof.
  intros Hgp Hpp Hpg Hset Hu Hsg Hvalid Hget.
  set (ex := expanded_slots (ls_env s) (ls_prog s) u sg) in *.
  assert (Hstep : forall t pre k x n,
             get t = pre ++ replicate (S k) None -> length pre = n ->
             set n x (with_new_type s t)
             = Some (tt, with_new_type s
                           (put t ((pre ++ [Some x]) ++ replicate k None)))).
  { intros t pre k x n Ht Hn. rewrite Hset.
    - rewrite Ht, (insert_first_null pre k n x Hn). reflexivity.
    - rewrite Ht, length_app, length_replicate. lia. }
  unfold expand_slots, env_get.
  unfold bind at 1, gets at 1. unfold bind at 1, gets at 1.
  unfold bind at 1, gets at 1.
  change (ls_env (with_new_type s rt)) with (ls_env s).
  change (ls_statics (with_new_type s rt)) with (ls_statics s).
  rewrite Hu, Hsg. cbv [id].
  match goal with |- ?f _ _ _ = _ => set (fill := f) end.
  assert (G : forall l n t pre k,
             Forall (valid_slot (ls_prog s)) l ->
             get t = pre ++ replicate k None -> length pre = n ->
             (length (ex l) <= k)%nat ->
             fill l n (with_new_type s t)
             = Some (tt, with_new_type s
                           (put t (pre ++ ex l
                                   ++ replicate (k - length (ex l)) None)))).
  { induction l as [|slot l IH]; intros n t pre k Hl Ht Hn Hk;
      unfold fill; cbv beta iota; fold fill.
    - unfold ret. change (ex []) with (@nil (option nat)).
      cbn [length app]. rewrite Nat.sub_0_r, <- Ht, Hpg. reflexivity.
    - apply Forall_cons in Hl as [Hslot Hl].
      destruct (slot_is_high_valid (ls_env s) _ _ Hslot)
        as (hs & hu & Hs & Hu' & _).
      pose proof (expand_slot_length _ _ u sg _ _ _ Hs Hu') as Hlen.
      unfold ex, expanded_slots in Hk. cbn [flat_map] in Hk.
      rewrite length_app, Hlen in Hk. fold (expanded_slots (ls_env s) (ls_prog s) u sg l) in Hk.
      fold ex in Hk.
      unfold bind at 1, gets at 1.
      unfold bind at 1, gets_opt at 1.
      rewrite (slot_has_mode_new_type s t slot _ Hslot), Hs.
      unfold bind at 1, gets_opt at 1.
      rewrite (slot_has_mode_new_type s t slot _ Hslot), Hu'.
      assert (Hex : ex (slot :: l)
                    = expand_slot (ls_env s) (ls_prog s) u sg slot ++ ex l)
        by reflexivity.
      rewrite Hex. unfold expand_slot. rewrite Hs, Hu'.
      destruct hs; [|destruct hu].
      + cbn [orb] in Hk. destruct k as [|[|k]]; [lia|lia|].
        unfold bind at 1, gets_opt at 1. unfold bind at 1, gets_opt at 1.
        unfold bind at 1.
        rewrite (Hstep t pre (S k) u n Ht Hn).
        unfold bind at 1.
        rewrite (Hstep _ (pre ++ [Some u]) k sg (S n))
          by (rewrite ?Hgp, ?length_app; cbn; first [reflexivity|lia]).
        rewrite (IH (S (S n)) _ ((pre ++ [Some u]) ++ [Some sg]) k Hl)
          by (rewrite ?Hgp, ?length_app; cbn; first [reflexivity|lia]).
        rewrite !Hpp. do 4 f_equal. rewrite length_app. cbn [length].
        rewrite <- !app_assoc. cbn [app Nat.sub].
        first [reflexivity | repeat f_equal; lia].
      + cbn [orb] in Hk. destruct k as [|[|k]]; [lia|lia|].
        unfold bind at 1, gets_opt at 1.
        unfold bind at 1.
        rewrite (Hstep t pre (S k) u n Ht Hn).
        unfold bind at 1.
        rewrite (Hstep _ (pre ++ [Some u]) k u (S n))
          by (rewrite ?Hgp, ?length_app; cbn; first [reflexivity|lia]).
        rewrite (IH (S (S n)) _ ((pre ++ [Some u]) ++ [Some u]) k Hl)
          by (rewrite ?Hgp, ?length_app; cbn; first [reflexivity|lia]).
        rewrite !Hpp. do 4 f_equal. rewrite length_app. cbn [length].
        rewrite <- !app_assoc. cbn [app Nat.sub].
        first [reflexivity | repeat f_equal; lia].
      + cbn [orb] in Hk. destruct k as [|k]; [lia|].
        destruct Hslot as (tp & t0 & -> & Ht0).
        unfold bind at 1, gets_opt at 1.
        unfold bind at 1.
        rewrite (Hstep t pre k tp n Ht Hn).
        rewrite (IH (S n) _ (pre ++ [Some tp]) k Hl)
          by (rewrite ?Hgp, ?length_app; cbn; first [reflexivity|lia]).
        rewrite !Hpp. do 4 f_equal. rewrite length_app. cbn [length].
        rewrite <- !app_assoc. cbn [app Nat.sub].
        first [reflexivity | repeat f_equal; lia]. }
  rewrite (G slots 0%nat rt [] (length (ex slots)) Hvalid Hget eq_refl)
    by reflexivity.
  rewrite Nat.sub_diag. cbn. rewrite app_nil_r. reflexivity.
Qed.

Lemma set_method_param_type_new s t n tp :
  (n < length (mt_params t))%nat ->
  set_method_param_type (length (irp_types (ls_prog s))) n tp
    (with_new_type s t)
  = Some (tt, with_new_type s (with_params t (<[n := Some tp]> (mt_params t)))).
Proof.
  intros Hn.
  unfold set_method_param_type, get_type, prog_get, update_type, prog_modify,
    bind, gets_opt, modify_opt, assert, ret.
  unfold with_new_type. cbn [ls_prog with_prog irp_types prog_with_types].
  rewrite list_lookup_middle by reflexivity.
  rewrite bool_decide_true by exact Hn.
  cbn [ls_prog with_prog irp_types prog_with_types].
  rewrite list_lookup_middle by reflexivity. cbn.
  rewrite insert_app_r_alt by lia. rewrite Nat.sub_diag. reflexivity.
Qed.

Lemma set_method_res_type_new s t n tp :
  (n < length (mt_ress t))%nat ->
  set_method_res_type (length (irp_types (ls_prog s))) n tp
    (with_new_type s t)
  = Some (tt, with_new_type s (with_ress t (<[n := Some tp]> (mt_ress t)))).
Proof.
  intros Hn.
  unfold set_method_res_type, get_type, prog_get, update_type, prog_modify,
    bind, gets_opt, modify_opt, assert, ret.
  unfold with_new_type. cbn [ls_prog with_prog irp_types prog_with_types].
  rewrite list_lookup_middle by reflexivity.
  rewrite bool_decide_true by exact Hn.
  cbn [ls_prog with_prog irp_types prog_with_types].
  rewrite list_lookup_middle by reflexivity. cbn.
  rewrite insert_app_r_alt by lia. rewrite Nat.sub_diag. reflexivity.
Qed.

(** [lower_mtp] on a method type that has not been lowered before (and has
    no value parameters) creates a new method type at the end of the type
    table: its parameters and results are those of [mtp] in the same
    order, every signed double-word primitive replaced by the two types
    ([tp_u], [tp_s]) and every unsigned one by ([tp_u], [tp_u]).  The new
    type is marked lowered and the two types are associated with each
    other; no other type changes; the pair is recorded in the map, so that
    a second call gives the same type and changes nothing. *)
Theorem lower_mtp_expands (s : lstate) (mtp : nat) (t : ir_type)
    (map : gmap nat nat) (u sg : nat) :
  irp_types (ls_prog s) !! mtp = Some t ->
  is_lowered_type t = false ->
  lowered_type (ls_statics s) = Some map ->
  map !! mtp = None ->
  mt_value_params t = None ->
  tp_u (ls_statics s) = Some u ->
  tp_s (ls_statics s) = Some sg ->
  Forall (valid_slot (ls_prog s)) (mt_params t) ->
  Forall (valid_slot (ls_prog s)) (mt_ress t) ->
  let res := length (irp_types (ls_prog s)) in
  exists s' rt,
    lower_mtp mtp s = Some (res, s') /\
    irp_types (ls_prog s') !! res = Some rt /\
    mt_params rt = expanded_slots (ls_env s) (ls_prog s) u sg (mt_params t) /\
    mt_ress rt = expanded_slots (ls_env s) (ls_prog s) u sg (mt_ress t) /\
    is_lowered_type rt = true /\
    tp_assoc rt = Some mtp /\
    irp_types (ls_prog s') !! mtp
    = Some (with_lowered t (tp_lowered t) (Some res)) /\
    (forall k, k <> mtp -> k <> res ->
       irp_types (ls_prog s') !! k = irp_types (ls_prog s) !! k) /\
    lowered_type (ls_statics s') = Some (<[mtp := res]> map) /\
    lower_mtp mtp s' = Some (res, s').
Proof.
  intros Ht Hlow Hmap Hnone Hvp Hu Hsg Hps Hrs res.
  set (ex := expanded_slots (ls_env s) (ls_prog s) u sg).
  set (types := irp_types (ls_prog s)) in *.
  assert (Hmtp : (mtp < length types)%nat) by (eapply lookup_lt_Some; exact Ht).
  set (n_param := length (ex (mt_params t))).
  set (n_res := length (ex (mt_ress t))).
  set (rt0 := mk_type tpo_method None false None (replicate n_param None)
                (replicate n_res None) (replicate n_param None) None []).
  set (rt2 := with_ress (with_params rt0 (ex (mt_params t))) (ex (mt_ress t))).
  set (rt3 := with_lowered rt2 true (Some mtp)).
  set (t' := with_lowered t (tp_lowered t) (Some res)).
  set (types' := <[mtp := t']> (types ++ [rt3])).
  set (st := ls_statics s).
  set (s' := with_statics
               (with_prog s (prog_with_types (ls_prog s) types'))
               (mk_statics (intrinsic_fkt st) (conv_types st)
                  (Some (<[mtp := res]> map)) (binop_tp_u st) (binop_tp_s st)
                  (unop_tp_u st) (unop_tp_s st) (shiftop_tp_u st)
                  (shiftop_tp_s st) (tp_s st) (tp_u st))).
  assert (Hlen_ge : forall l, (length l <= length (ex l))%nat).
  { induction l as [|a l IH]; [reflexivity|].
    unfold ex, expanded_slots in *. cbn [flat_map]. rewrite length_app.
    cbn [length].
    set (k := length (flat_map (expand_slot (ls_env s) (ls_prog s) u sg) l))
      in *.
    unfold expand_slot.
    destruct (slot_has_mode (ls_prog s) a (high_signed (ls_env s)))
      as [[|]|];
      destruct (slot_has_mode (ls_prog s) a (high_unsigned (ls_env s)))
        as [[|]|]; cbn [length]; lia. }
  assert (Hrun : lower_mtp mtp s = Some (res, s')).
  { unfold lower_mtp.
    unfold bind at 1, get_type at 1, prog_get at 1, gets_opt at 1.
    fold types. rewrite Ht, Hlow.
    unfold bind at 1, statics_get at 1, gets_opt at 1. rewrite Hmap, Hnone.
    unfold bind at 1, env_get at 1, gets at 1.
    unfold bind at 1. rewrite (count_high_slots_run s u sg _ Hps).
    unfold bind at 1. rewrite (count_high_slots_run s u sg _ Hrs).
    fold ex.
    replace (length (mt_params t) + (length (ex (mt_params t))
                                     - length (mt_params t)))%nat
      with n_param by (pose proof (Hlen_ge (mt_params t)); unfold n_param; lia).
    replace (length (mt_ress t) + (length (ex (mt_ress t))
                                   - length (mt_ress t)))%nat
      with n_res by (pose proof (Hlen_ge (mt_ress t)); unfold n_res; lia).
    unfold bind at 1, new_type_method at 1, new_type at 1.
    unfold bind at 1, gets at 1. unfold bind at 1, modify at 1. unfold ret at 1.
    fold types. fold res. fold rt0.
    change (with_prog s (prog_with_types (ls_prog s) (types ++ [rt0])))
      with (with_new_type s rt0).
    unfold bind at 1.
    rewrite (expand_slots_run s u sg mt_params with_params
               (set_method_param_type res) (mt_params t) rt0);
      [ | reflexivity | reflexivity | intros []; reflexivity
        | intros; apply set_method_param_type_new; assumption
        | exact Hu | exact Hsg | exact Hps | reflexivity ].
    fold ex. unfold bind at 1.
    rewrite (expand_slots_run s u sg mt_ress with_ress
               (set_method_res_type res) (mt_ress t)
               (with_params rt0 (ex (mt_params t))));
      [ | reflexivity | reflexivity | intros []; reflexivity
        | intros; apply set_method_res_type_new; assumption
        | exact Hu | exact Hsg | exact Hrs | reflexivity ].
    fold ex. fold rt2.
    unfold bind at 1.
    assert (Hsl : set_lowered_type mtp res (with_new_type s rt2)
                  = Some (tt, with_prog s (prog_with_types (ls_prog s) types'))).
    { unfold set_lowered_type, update_type, prog_modify, bind, modify_opt.
      unfold with_new_type.
      cbn [ls_prog with_prog irp_types prog_with_types]. fold types.
      assert (Hlook : (types ++ [rt2]) !! res = Some rt2)
        by (apply list_lookup_middle; reflexivity).
      assert (Hins : <[res := rt3]> (types ++ [rt2]) = types ++ [rt3]).
      { unfold res. rewrite insert_app_r_alt by lia.
        rewrite Nat.sub_diag. reflexivity. }
      rewrite Hlook.
      cbn [fmap option_fmap option_map with_prog ls_prog irp_types
           prog_with_types].
      fold rt3. rewrite !Hins.
      rewrite lookup_app_l by exact Hmtp. rewrite Ht.
      cbn [fmap option_fmap option_map]. reflexivity. }
    rewrite Hsl.
    unfold bind at 1, statics_modify at 1, modify at 1.
    rewrite Hvp. reflexivity. }
  assert (Hres' : types' !! res = Some rt3).
  { unfold types'. rewrite list_lookup_insert_ne by (unfold res; lia).
    apply list_lookup_middle. reflexivity. }
  assert (Hmtp' : types' !! mtp = Some t').
  { unfold types'. apply list_lookup_insert_eq. rewrite length_app. lia. }
  exists s', rt3.
  split; [exact Hrun|]. split; [exact Hres'|].
  split; [reflexivity|]. split; [reflexivity|].
  split; [reflexivity|]. split; [reflexivity|].
  split; [exact Hmtp'|]. split.
  { intros k Hk1 Hk2. cbn. unfold types'.
    rewrite list_lookup_insert_ne by congruence.
    destruct (decide (k < length types)%nat) as [Hlt|Hge].
    - apply lookup_app_l. exact Hlt.
    - rewrite lookup_ge_None_2
        by (rewrite length_app; cbn; unfold res in Hk2; lia).
      symmetry. apply lookup_ge_None_2. lia. }
  split; [reflexivity|].
  unfold lower_mtp, bind, get_type, prog_get, statics_get, gets_opt, ret.
  cbn [ls_prog s' with_statics with_prog irp_types prog_with_types ls_statics
       lowered_type].
  rewrite Hmtp'. unfold t'. unfold is_lowered_type in *. cbn [tp_lowered with_lowered].
  rewrite Hlow. unfold s' at 1. cbn [ls_statics with_statics lowered_type].
  rewrite lookup_insert_eq. reflexivity.
Qed.

(** The method type [(Ls, Is) -> Lu] becomes [(Iu, Is, Is) -> (Iu, Iu)]. *)
Lemma lower_mtp_expands_witness :
  exists s' rt,
    lower_mtp 4 ex_method_state = Some (5%nat, s') /\
    irp_types (ls_prog s') !! 5%nat = Some rt /\
    mt_params rt = [Some 1%nat; Some 0%nat; Some 0%nat] /\
    mt_ress rt = [Some 1%nat; Some 1%nat] /\
    lower_mtp 4 s' = Some (5%nat, s').
Proof.
  destruct (lower_mtp_expands ex_method_state 4
              (mk_type tpo_method None false None [Some 2%nat; Some 0%nat]
                 [Some 3%nat] [None; None] None [])
              ∅ 1 0)
    as (s' & rt & Hrun & Hrt & Hp & Hr & _ & _ & _ & _ & _ & Hagain).
  - reflexivity.
  - reflexivity.
  - reflexivity.
  - reflexivity.
  - reflexivity.
  - reflexivity.
  - reflexivity.
  - repeat constructor; eexists _, _; split; reflexivity.
  - repeat constructor; eexists _, _; split; reflexivity.
  - exists s', rt. split; [exact Hrun|]. split; [exact Hrt|].
    split; [exact Hp|]. split; [exact Hr|exact Hagain].
Defined.

End LowerMethodType.
